(** * The F2FS segment-reclaim engine (fs/f2fs/gc.c)

    A shallow embedding of the garbage collector of the flash-friendly file
    system: victim selection over the dirty-segment map, the start-index
    decoding of direct nodes, the validity cross-check of summary entries,
    the per-segment migrators and the GC driver.

    Machine integers are [Z] with the wrap-around of their C type written
    out; kernel bitmaps are [Z] read with [Z.testbit]; calls into the other
    layers of the file system (node table, page cache, checkpoint) are
    events of a small interaction tree. *)

From Stdlib Require Import ZArith List Bool Lia.
Import ListNotations.
Open Scope Z_scope.

(** ** Machine integers *)

Definition wrap8 (x : Z) : Z := x mod 2 ^ 8.
Definition wrap32 (x : Z) : Z := x mod 2 ^ 32.
Definition wrap64 (x : Z) : Z := x mod 2 ^ 64.

Definition UINT_MAX : Z := 2 ^ 32 - 1.

(** [#define NULL_SEGNO ((unsigned int)(~0))] *)
Definition NULL_SEGNO : Z := 2 ^ 32 - 1.

Lemma wrap32_small (x : Z) : 0 <= x < 2 ^ 32 -> wrap32 x = x.
Proof. intros H. unfold wrap32. apply Z.mod_small. exact H. Qed.

Lemma wrap64_small (x : Z) : 0 <= x < 2 ^ 64 -> wrap64 x = x.
Proof. intros H. unfold wrap64. apply Z.mod_small. exact H. Qed.

Lemma wrap8_small (x : Z) : 0 <= x < 2 ^ 8 -> wrap8 x = x.
Proof. intros H. unfold wrap8. apply Z.mod_small. exact H. Qed.

Lemma wrap32_range (x : Z) : 0 <= wrap32 x < 2 ^ 32.
Proof. unfold wrap32. apply Z.mod_pos_bound. lia. Qed.

(** ** Start-index decoding ([start_bidx_of_node]) *)

Module NodeOfs.
Section Decode.

(** [NIDS_PER_BLOCK] and [ADDRS_PER_BLOCK] come from f2fs_fs.h; the
    function is verified for every value of the two constants. *)
Variable NIDS_PER_BLOCK : Z.
Variable ADDRS_PER_BLOCK : Z.

(** [block_t start_bidx_of_node(unsigned int node_ofs, struct
    f2fs_inode_info *fi)]; the inode enters through
    [ADDRS_PER_INODE(fi)] only. *)
Definition start_bidx_of_node (node_ofs : Z) (addrs_per_inode : Z) : Z :=
  let indirect_blks := wrap32 (2 * NIDS_PER_BLOCK + 4) in
  if node_ofs =? 0 then 0
  else
    let bidx :=
      if node_ofs <=? 2 then wrap32 (node_ofs - 1)
      else if node_ofs <=? indirect_blks then
        let dec := wrap32 (node_ofs - 4) / wrap32 (NIDS_PER_BLOCK + 1) in
        wrap32 (node_ofs - 2 - dec)
      else
        let dec := wrap32 (node_ofs - indirect_blks - 3)
                   / wrap32 (NIDS_PER_BLOCK + 1) in
        wrap32 (node_ofs - 5 - dec) in
    wrap32 (bidx * ADDRS_PER_BLOCK + addrs_per_inode).

(** The node-relative index in the words of the design document. *)
Definition node_index_spec (node_ofs : Z) : Z :=
  if node_ofs =? 0 then 0
  else if node_ofs <=? 2 then node_ofs - 1
  else if node_ofs <=? 2 * NIDS_PER_BLOCK + 4 then
    node_ofs - 2 - (node_ofs - 4) / (NIDS_PER_BLOCK + 1)
  else
    node_ofs - 5
    - (node_ofs - (2 * NIDS_PER_BLOCK + 4) - 3) / (NIDS_PER_BLOCK + 1).

(** Offsets 3, 2N+5 and 2N+6 hold the first indirect node, the double
    indirect node and its first indirect child; the header comment of
    the function excludes them ("node offset only indicating direct node
    blocks"). *)
Definition direct_node_ofs (node_ofs : Z) : Prop :=
  0 <= node_ofs < 2 ^ 32 /\
  node_ofs <> 3 /\
  node_ofs <> 2 * NIDS_PER_BLOCK + 5 /\
  node_ofs <> 2 * NIDS_PER_BLOCK + 6.

Hypothesis nids_pos : 0 < NIDS_PER_BLOCK.
Hypothesis nids_small : 2 * NIDS_PER_BLOCK + 7 < 2 ^ 32.

Lemma node_index_spec_range (node_ofs : Z) :
  direct_node_ofs node_ofs ->
  0 <= node_index_spec node_ofs < 2 ^ 32.
Proof.
  intros (Hr & H3 & H5 & H6). unfold node_index_spec.
  destruct (node_ofs =? 0) eqn:E0; [lia|].
  apply Z.eqb_neq in E0.
  destruct (node_ofs <=? 2) eqn:E2; [apply Z.leb_le in E2; lia|].
  apply Z.leb_gt in E2.
  destruct (node_ofs <=? 2 * NIDS_PER_BLOCK + 4) eqn:E4.
  - apply Z.leb_le in E4.
    assert (0 <= (node_ofs - 4) / (NIDS_PER_BLOCK + 1) <= node_ofs - 4).
    { split; [apply Z.div_pos; lia|].
      apply Z.div_le_upper_bound; [lia|]. nia. }
    lia.
  - apply Z.leb_gt in E4.
    assert (0 <= (node_ofs - (2 * NIDS_PER_BLOCK + 4) - 3)
                 / (NIDS_PER_BLOCK + 1)
            <= node_ofs - (2 * NIDS_PER_BLOCK + 4) - 3).
    { split; [apply Z.div_pos; lia|].
      apply Z.div_le_upper_bound; [lia|]. nia. }
    lia.
Qed.

Lemma start_bidx_of_node_index (node_ofs A : Z) :
  direct_node_ofs node_ofs ->
  start_bidx_of_node node_ofs A =
    if node_ofs =? 0 then 0
    else wrap32 (node_index_spec node_ofs * ADDRS_PER_BLOCK + A).
Proof.
  intros Hd. pose proof (node_index_spec_range _ Hd) as Hi.
  destruct Hd as (Hr & H3 & H5 & H6).
  unfold start_bidx_of_node. unfold node_index_spec in *.
  rewrite (wrap32_small (2 * NIDS_PER_BLOCK + 4)) by lia.
  rewrite (wrap32_small (NIDS_PER_BLOCK + 1)) by lia.
  destruct (node_ofs =? 0) eqn:E0; [reflexivity|].
  apply Z.eqb_neq in E0.
  destruct (node_ofs <=? 2) eqn:E2.
  - apply Z.leb_le in E2.
    rewrite (wrap32_small (node_ofs - 1)) by lia. reflexivity.
  - apply Z.leb_gt in E2.
    destruct (node_ofs <=? 2 * NIDS_PER_BLOCK + 4) eqn:E4.
    + rewrite (wrap32_small (node_ofs - 4)) by lia.
      rewrite (wrap32_small (node_ofs - 2 - _)) by lia. reflexivity.
    + apply Z.leb_gt in E4.
      rewrite (wrap32_small (node_ofs - (2 * NIDS_PER_BLOCK + 4) - 3)) by lia.
      rewrite (wrap32_small (node_ofs - 5 - _)) by lia. reflexivity.
Qed.

(** C8.  For a direct-node offset [node_ofs] and an inode with [A]
    addresses, [start_bidx_of_node] returns 0 when [node_ofs = 0] and
    otherwise [A + ADDRS_PER_BLOCK * idx] in 32-bit arithmetic, with [idx]
    the node-relative index [node_ofs - 1] up to 2,
    [node_ofs - 2 - (node_ofs - 4) / (N + 1)] up to [2 * N + 4] and
    [node_ofs - 5 - (node_ofs - (2 * N + 4) - 3) / (N + 1)] beyond. *)
Theorem start_bidx_of_node_decode (node_ofs A : Z) :
  direct_node_ofs node_ofs ->
  let idx := node_index_spec node_ofs in
  (node_ofs = 0 -> idx = 0 /\ start_bidx_of_node node_ofs A = 0) /\
  (0 < node_ofs <= 2 -> idx = node_ofs - 1) /\
  (2 < node_ofs <= 2 * NIDS_PER_BLOCK + 4 ->
   idx = node_ofs - 2 - (node_ofs - 4) / (NIDS_PER_BLOCK + 1)) /\
  (2 * NIDS_PER_BLOCK + 4 < node_ofs ->
   idx = node_ofs - 5
         - (node_ofs - (2 * NIDS_PER_BLOCK + 4) - 3) / (NIDS_PER_BLOCK + 1)) /\
  (node_ofs <> 0 ->
   start_bidx_of_node node_ofs A = wrap32 (A + ADDRS_PER_BLOCK * idx)) /\
  (node_ofs <> 0 -> 0 <= A + ADDRS_PER_BLOCK * idx < 2 ^ 32 ->
   start_bidx_of_node node_ofs A = A + ADDRS_PER_BLOCK * idx).
Proof.
  intros Hd idx. pose proof (start_bidx_of_node_index node_ofs A Hd) as H.
  destruct Hd as (Hr & _).
  assert (Hidx : idx = node_index_spec node_ofs) by reflexivity.
  unfold node_index_spec in Hidx.
  split; [|split; [|split; [|split; [|split]]]].
  - intros E. subst node_ofs. split; [exact Hidx | exact H].
  - intros E. rewrite Hidx.
    destruct (node_ofs =? 0) eqn:E0; [apply Z.eqb_eq in E0; lia|].
    destruct (node_ofs <=? 2) eqn:E2; [reflexivity | apply Z.leb_gt in E2; lia].
  - intros E. rewrite Hidx.
    destruct (node_ofs =? 0) eqn:E0; [apply Z.eqb_eq in E0; lia|].
    destruct (node_ofs <=? 2) eqn:E2; [apply Z.leb_le in E2; lia|].
    destruct (node_ofs <=? 2 * NIDS_PER_BLOCK + 4) eqn:E4;
      [reflexivity | apply Z.leb_gt in E4; lia].
  - intros E. rewrite Hidx.
    destruct (node_ofs =? 0) eqn:E0; [apply Z.eqb_eq in E0; lia|].
    destruct (node_ofs <=? 2) eqn:E2; [apply Z.leb_le in E2; lia|].
    destruct (node_ofs <=? 2 * NIDS_PER_BLOCK + 4) eqn:E4;
      [apply Z.leb_le in E4; lia | reflexivity].
  - intros E. apply Z.eqb_neq in E. rewrite E in H. rewrite H. f_equal.
    fold idx. lia.
  - intros E Hsmall. apply Z.eqb_neq in E. rewrite E in H. rewrite H.
    fold idx. rewrite wrap32_small; lia.
Qed.

(** *** Direct nodes and their block ranges

    In the node tree of an inode the offsets 3 and [N + 4] hold the two
    indirect nodes, [2N + 5] the double indirect node and
    [2N + 6 + j(N + 1)] the indirect nodes below it; every other offset
    from 1 on holds a direct node, a block of [ADDRS_PER_BLOCK] data
    addresses.  These are the offsets at which the [dec] term of
    [start_bidx_of_node] steps. *)
Definition is_direct_node (node_ofs : Z) : bool :=
  (1 <=? node_ofs) && (node_ofs <? 2 ^ 32) &&
  negb (node_ofs =? 3) &&
  negb (node_ofs =? NIDS_PER_BLOCK + 4) &&
  negb (node_ofs =? 2 * NIDS_PER_BLOCK + 5) &&
  negb ((2 * NIDS_PER_BLOCK + 5 <? node_ofs) &&
        ((node_ofs - (2 * NIDS_PER_BLOCK + 6)) mod (NIDS_PER_BLOCK + 1) =? 0)).

(** [x - x / M]: the number of offsets in [[0, x)] that are not the last of
    their group of [M]. *)
Lemma skip_mono (M x y : Z) :
  0 < M -> 0 <= x <= y -> x - x / M <= y - y / M.
Proof.
  intros HM Hxy.
  assert (y / M <= x / M + (y - x)); [|lia].
  rewrite <- Z.div_add by lia.
  apply Z.div_le_mono; [lia|]. nia.
Qed.

Lemma skip_step (M x : Z) :
  0 < M -> 0 <= x -> (x + 1) mod M <> 0 -> (x + 1) / M = x / M.
Proof.
  intros HM Hx Hr.
  pose proof (Z.div_mod (x + 1) M ltac:(lia)) as E.
  pose proof (Z.mod_pos_bound (x + 1) M HM) as Hb.
  apply (Z.div_unique x M ((x + 1) / M) ((x + 1) mod M - 1)); lia.
Qed.

Lemma skip_plateau (M x : Z) :
  0 < M -> 0 <= x -> (x + 1) mod M = 0 -> (x + 1) / M = x / M + 1.
Proof.
  intros HM Hx Hr.
  pose proof (Z.div_mod (x + 1) M ltac:(lia)) as E. rewrite Hr in E.
  assert (Hq : x / M = (x + 1) / M - 1); [|lia].
  symmetry. apply (Z.div_unique x M ((x + 1) / M - 1) (M - 1)); lia.
Qed.

Lemma is_direct_node_direct_ofs (node_ofs : Z) :
  is_direct_node node_ofs = true -> direct_node_ofs node_ofs.
Proof.
  unfold is_direct_node, direct_node_ofs. intros H.
  repeat (apply andb_prop in H; destruct H as [H ?]).
  repeat match goal with
         | H : negb _ = true |- _ => apply negb_true_iff in H
         | H : (_ =? _) = false |- _ => apply Z.eqb_neq in H
         | H : (_ <=? _) = true |- _ => apply Z.leb_le in H
         | H : (_ <? _) = true |- _ => apply Z.ltb_lt in H
         end.
  repeat split; try lia.
  intros E. subst node_ofs.
  match goal with
  | H : _ && _ = false |- _ =>
      replace (2 * NIDS_PER_BLOCK + 6 - (2 * NIDS_PER_BLOCK + 6)) with 0 in H
        by lia;
      rewrite Z.mod_0_l in H by lia;
      apply andb_false_iff in H; destruct H as [H | H];
      [apply Z.ltb_ge in H; lia | discriminate H]
  end.
Qed.

(** The node-relative index in the three ranges, over [x - x / M]. *)
Lemma node_index_spec_ranges (node_ofs : Z) :
  (1 <= node_ofs <= 2 -> node_index_spec node_ofs = node_ofs - 1) /\
  (2 < node_ofs <= 2 * NIDS_PER_BLOCK + 4 ->
   node_index_spec node_ofs
   = 2 + ((node_ofs - 4) - (node_ofs - 4) / (NIDS_PER_BLOCK + 1))) /\
  (2 * NIDS_PER_BLOCK + 4 < node_ofs ->
   node_index_spec node_ofs
   = 2 * NIDS_PER_BLOCK + 2
     + ((node_ofs - (2 * NIDS_PER_BLOCK + 7))
        - (node_ofs - (2 * NIDS_PER_BLOCK + 7)) / (NIDS_PER_BLOCK + 1))).
Proof.
  unfold node_index_spec. repeat split; intros H.
  - destruct (node_ofs =? 0) eqn:E0; [apply Z.eqb_eq in E0; lia|].
    destruct (node_ofs <=? 2) eqn:E2; [reflexivity | apply Z.leb_gt in E2; lia].
  - destruct (node_ofs =? 0) eqn:E0; [apply Z.eqb_eq in E0; lia|].
    destruct (node_ofs <=? 2) eqn:E2; [apply Z.leb_le in E2; lia|].
    destruct (node_ofs <=? 2 * NIDS_PER_BLOCK + 4) eqn:E4;
      [lia | apply Z.leb_gt in E4; lia].
  - destruct (node_ofs =? 0) eqn:E0; [apply Z.eqb_eq in E0; lia|].
    destruct (node_ofs <=? 2) eqn:E2; [apply Z.leb_le in E2; lia|].
    destruct (node_ofs <=? 2 * NIDS_PER_BLOCK + 4) eqn:E4;
      [apply Z.leb_le in E4; lia|].
    replace (node_ofs - (2 * NIDS_PER_BLOCK + 4) - 3)
      with (node_ofs - (2 * NIDS_PER_BLOCK + 7)) by lia.
    lia.
Qed.

Lemma is_direct_node_cases (node_ofs : Z) :
  is_direct_node node_ofs = true ->
  1 <= node_ofs < 2 ^ 32 /\ node_ofs <> 3 /\
  node_ofs <> NIDS_PER_BLOCK + 4 /\ node_ofs <> 2 * NIDS_PER_BLOCK + 5 /\
  (2 * NIDS_PER_BLOCK + 5 < node_ofs ->
   (node_ofs - (2 * NIDS_PER_BLOCK + 6)) mod (NIDS_PER_BLOCK + 1) <> 0).
Proof.
  unfold is_direct_node. intros H.
  repeat (apply andb_prop in H; destruct H as [H ?]).
  repeat match goal with
         | H : negb _ = true |- _ => apply negb_true_iff in H
         | H : (_ =? _) = false |- _ => apply Z.eqb_neq in H
         | H : (_ <=? _) = true |- _ => apply Z.leb_le in H
         | H : (_ <? _) = true |- _ => apply Z.ltb_lt in H
         end.
  repeat split; lia.
Qed.

(** Between 3 and [2N + 4] the only offset a multiple of [N + 1] past 3 is
    [N + 4]. *)
Lemma first_level_not_last (node_ofs : Z) :
  3 < node_ofs <= 2 * NIDS_PER_BLOCK + 4 ->
  node_ofs <> NIDS_PER_BLOCK + 4 ->
  (node_ofs - 3) mod (NIDS_PER_BLOCK + 1) <> 0.
Proof.
  intros Hr Hn.
  destruct (Z_lt_le_dec (node_ofs - 3) (NIDS_PER_BLOCK + 1)) as [Hlt | Hge].
  - rewrite Z.mod_small; lia.
  - replace (node_ofs - 3)
      with (node_ofs - 3 - (NIDS_PER_BLOCK + 1) + 1 * (NIDS_PER_BLOCK + 1))
      by lia.
    rewrite Z.mod_add by lia. rewrite Z.mod_small; lia.
Qed.

Lemma skip_nonneg (M x : Z) : 0 < M -> 0 <= x -> 0 <= x - x / M.
Proof.
  intros HM Hx. pose proof (skip_mono M 0 x HM ltac:(lia)) as H.
  rewrite Z.div_0_l in H by lia. lia.
Qed.

Lemma skip_strict (M x y : Z) :
  0 < M -> 0 <= x < y -> (x + 1) mod M <> 0 -> x - x / M < y - y / M.
Proof.
  intros HM Hxy Hr.
  pose proof (skip_step M x HM ltac:(lia) Hr) as Hs.
  pose proof (skip_mono M (x + 1) y HM ltac:(lia)) as Hm. lia.
Qed.

(** The index of the last direct node below the second indirect node. *)
Lemma first_levels_bound (node_ofs : Z) :
  2 < node_ofs <= 2 * NIDS_PER_BLOCK + 4 ->
  node_ofs <> 3 ->
  node_index_spec node_ofs <= 2 * NIDS_PER_BLOCK + 1.
Proof.
  intros Hr H3.
  destruct (node_index_spec_ranges node_ofs) as (_ & E & _).
  rewrite E by lia.
  pose proof (skip_mono (NIDS_PER_BLOCK + 1) (node_ofs - 4)
                (2 * NIDS_PER_BLOCK) ltac:(lia) ltac:(lia)) as Hm.
  assert (Hq : 1 = 2 * NIDS_PER_BLOCK / (NIDS_PER_BLOCK + 1))
    by (apply (Z.div_unique _ _ 1 (NIDS_PER_BLOCK - 1)); lia).
  lia.
Qed.

Lemma node_index_spec_strict (a b : Z) :
  is_direct_node a = true -> is_direct_node b = true -> a < b ->
  node_index_spec a < node_index_spec b.
Proof.
  intros Ha Hb Hab.
  apply is_direct_node_cases in Ha. destruct Ha as (Ha & Ha3 & Ha4 & Ha5 & Ham).
  apply is_direct_node_cases in Hb. destruct Hb as (Hb & Hb3 & Hb4 & Hb5 & Hbm).
  assert (HM : 0 < NIDS_PER_BLOCK + 1) by lia.
  assert (Hb7 : 2 * NIDS_PER_BLOCK + 5 < b -> 2 * NIDS_PER_BLOCK + 7 <= b).
  { intros Hlt. specialize (Hbm Hlt).
    destruct (Z.eq_dec b (2 * NIDS_PER_BLOCK + 6)) as [E | E]; [|lia].
    exfalso. apply Hbm. rewrite E.
    replace (2 * NIDS_PER_BLOCK + 6 - (2 * NIDS_PER_BLOCK + 6)) with 0 by lia.
    apply Z.mod_0_l. lia. }
  destruct (node_index_spec_ranges a) as (A1 & A2 & A3).
  destruct (node_index_spec_ranges b) as (B1 & B2 & B3).
  destruct (Z_le_gt_dec a 2) as [Ea | Ea].
  - (* [a] is one of the first two direct nodes *)
    rewrite A1 by lia.
    destruct (Z_le_gt_dec b 2) as [Eb | Eb]; [rewrite B1 by lia; lia|].
    destruct (Z_le_gt_dec b (2 * NIDS_PER_BLOCK + 4)) as [Eb4 | Eb4].
    + rewrite B2 by lia.
      pose proof (skip_nonneg _ (b - 4) HM ltac:(lia)). lia.
    + rewrite B3 by lia. specialize (Hb7 ltac:(lia)).
      pose proof (skip_nonneg _ (b - (2 * NIDS_PER_BLOCK + 7)) HM ltac:(lia)).
      lia.
  - destruct (Z_le_gt_dec a (2 * NIDS_PER_BLOCK + 4)) as [Ea4 | Ea4].
    + (* [a] is below one of the two indirect nodes *)
      destruct (Z_le_gt_dec b (2 * NIDS_PER_BLOCK + 4)) as [Eb4 | Eb4].
      * rewrite A2, B2 by lia.
        pose proof (first_level_not_last a ltac:(lia) Ha4) as Hr.
        pose proof (skip_strict _ (a - 4) (b - 4) HM ltac:(lia)) as Hs.
        replace (a - 4 + 1) with (a - 3) in Hs by lia.
        specialize (Hs Hr). lia.
      * pose proof (first_levels_bound a ltac:(lia) Ha3) as Hle.
        rewrite B3 by lia. specialize (Hb7 ltac:(lia)).
        pose proof (skip_nonneg _ (b - (2 * NIDS_PER_BLOCK + 7)) HM
                      ltac:(lia)).
        lia.
    + (* both are below the double indirect node *)
      rewrite A3, B3 by lia.
      assert (Ha7 : 2 * NIDS_PER_BLOCK + 7 <= a).
      { specialize (Ham ltac:(lia)).
        destruct (Z.eq_dec a (2 * NIDS_PER_BLOCK + 6)) as [E | E]; [|lia].
        exfalso. apply Ham. rewrite E.
        replace (2 * NIDS_PER_BLOCK + 6 - (2 * NIDS_PER_BLOCK + 6)) with 0
          by lia.
        apply Z.mod_0_l. lia. }
      pose proof (skip_strict _ (a - (2 * NIDS_PER_BLOCK + 7))
                    (b - (2 * NIDS_PER_BLOCK + 7)) HM ltac:(lia)) as Hs.
      replace (a - (2 * NIDS_PER_BLOCK + 7) + 1)
        with (a - (2 * NIDS_PER_BLOCK + 6)) in Hs by lia.
      specialize (Hs (Ham ltac:(lia))). lia.
Qed.

(** An indirect node's offset, where the function does not wrap, gets the
    index of the direct node that follows it. *)
Lemma node_index_spec_plateau (node_ofs : Z) :
  3 < node_ofs ->
  node_ofs = NIDS_PER_BLOCK + 4 \/
  (2 * NIDS_PER_BLOCK + 6 < node_ofs /\
   (node_ofs - (2 * NIDS_PER_BLOCK + 6)) mod (NIDS_PER_BLOCK + 1) = 0) ->
  node_index_spec node_ofs = node_index_spec (node_ofs + 1).
Proof.
  intros H3 H.
  assert (HM : 0 < NIDS_PER_BLOCK + 1) by lia.
  destruct (node_index_spec_ranges node_ofs) as (_ & A2 & A3).
  destruct (node_index_spec_ranges (node_ofs + 1)) as (_ & B2 & B3).
  destruct H as [E | [Hlt Hm]].
  - rewrite A2, B2 by lia.
    pose proof (skip_plateau _ (node_ofs - 4) HM ltac:(lia)) as Hp.
    replace (node_ofs - 4 + 1) with (node_ofs + 1 - 4) in Hp by lia.
    rewrite Hp; [lia|].
    replace (node_ofs + 1 - 4) with (NIDS_PER_BLOCK + 1) by lia.
    apply Z.mod_same. lia.
  - rewrite A3, B3 by lia.
    pose proof (skip_plateau _ (node_ofs - (2 * NIDS_PER_BLOCK + 7)) HM
                  ltac:(lia)) as Hp.
    replace (node_ofs - (2 * NIDS_PER_BLOCK + 7) + 1)
      with (node_ofs + 1 - (2 * NIDS_PER_BLOCK + 7)) in Hp by lia.
    rewrite Hp; [lia|].
    replace (node_ofs + 1 - (2 * NIDS_PER_BLOCK + 7))
      with (node_ofs - (2 * NIDS_PER_BLOCK + 6)) by lia.
    exact Hm.
Qed.

(** X16.  Direct nodes cover disjoint, ascending block ranges.  For two
    direct nodes [a < b] of an inode with [A] addresses the node-relative
    index grows strictly, the inode's own [A] blocks come first, and, when
    the block index of [b] fits in 32 bits, the [ADDRS_PER_BLOCK] blocks
    starting at [start_bidx_of_node a] end at or before
    [start_bidx_of_node b]: no file block is claimed by two direct nodes.
    At the offset of an indirect node (other than 3, [2N + 5] and
    [2N + 6], where the arithmetic wraps) the function returns the start
    of the direct node that follows. *)
Theorem direct_nodes_disjoint_blocks :
  (forall a b A : Z,
     is_direct_node a = true -> is_direct_node b = true -> a < b ->
     0 < ADDRS_PER_BLOCK -> 0 <= A ->
     node_index_spec b * ADDRS_PER_BLOCK + A < 2 ^ 32 ->
     node_index_spec a < node_index_spec b /\
     A <= start_bidx_of_node a A /\
     start_bidx_of_node a A + ADDRS_PER_BLOCK <= start_bidx_of_node b A) /\
  (forall node_ofs A : Z,
     3 < node_ofs -> node_ofs + 1 < 2 ^ 32 ->
     node_ofs = NIDS_PER_BLOCK + 4 \/
     (2 * NIDS_PER_BLOCK + 6 < node_ofs /\
      (node_ofs - (2 * NIDS_PER_BLOCK + 6)) mod (NIDS_PER_BLOCK + 1) = 0) ->
     is_direct_node node_ofs = false /\
     start_bidx_of_node node_ofs A = start_bidx_of_node (node_ofs + 1) A).
Proof.
  split.
  - intros a b A Ha Hb Hab Hpos HA Hfit.
    pose proof (node_index_spec_strict a b Ha Hb Hab) as Hlt.
    pose proof (is_direct_node_direct_ofs a Ha) as Hda.
    pose proof (is_direct_node_direct_ofs b Hb) as Hdb.
    pose proof (node_index_spec_range a Hda) as [Hia _].
    apply is_direct_node_cases in Ha. destruct Ha as (Ha & _).
    apply is_direct_node_cases in Hb. destruct Hb as (Hb & _).
    rewrite (start_bidx_of_node_index a A Hda).
    rewrite (start_bidx_of_node_index b A Hdb).
    destruct (a =? 0) eqn:Ea; [apply Z.eqb_eq in Ea; lia|].
    destruct (b =? 0) eqn:Eb; [apply Z.eqb_eq in Eb; lia|].
    rewrite !wrap32_small by nia.
    split; [exact Hlt|]. split; nia.
  - intros node_ofs A H3 Hr H.
    pose proof (node_index_spec_plateau node_ofs H3 H) as Hp.
    assert (Hd : direct_node_ofs node_ofs /\ direct_node_ofs (node_ofs + 1))
      by (unfold direct_node_ofs; destruct H as [E | [Hlt _]]; lia).
    destruct Hd as [Hd Hd1].
    split.
    + unfold is_direct_node. destruct H as [E | [Hlt Hm]].
      * subst node_ofs. rewrite Z.eqb_refl.
        rewrite !andb_false_r. reflexivity.
      * rewrite Hm, Z.eqb_refl.
        replace (2 * NIDS_PER_BLOCK + 5 <? node_ofs) with true
          by (symmetry; apply Z.ltb_lt; lia).
        rewrite !andb_false_r. reflexivity.
    + rewrite (start_bidx_of_node_index node_ofs A Hd).
      rewrite (start_bidx_of_node_index (node_ofs + 1) A Hd1).
      destruct (node_ofs =? 0) eqn:E0; [apply Z.eqb_eq in E0; lia|].
      destruct (node_ofs + 1 =? 0) eqn:E1; [apply Z.eqb_eq in E1; lia|].
      rewrite Hp. reflexivity.
Qed.

End Decode.

(** The tenth node of an inode with 923 addresses, 1018 entries per
    block: past the first indirect node, index 8. *)
Lemma start_bidx_of_node_decode_witness :
  direct_node_ofs 1018 10 /\ start_bidx_of_node 1018 1018 10 923 = 9067.
Proof.
  assert (Hd : direct_node_ofs 1018 10) by (unfold direct_node_ofs; lia).
  split; [exact Hd|].
  destruct (start_bidx_of_node_decode 1018 1018 ltac:(lia) ltac:(lia) 10 923 Hd)
    as (_ & _ & _ & _ & _ & H).
  rewrite H; [reflexivity | lia | vm_compute; split; [discriminate | reflexivity]].
Defined.

(** With 1018 entries per block the first indirect node's last child is
    node 1021, node 1022 is the second indirect node and node 1023 its
    first child: blocks 1038265.. and 1039283.. of an inode with 923
    addresses. *)
Lemma direct_nodes_disjoint_blocks_witness :
  (is_direct_node 1018 1021 = true /\ is_direct_node 1018 1023 = true /\
   node_index_spec 1018 1021 < node_index_spec 1018 1023 /\
   923 <= start_bidx_of_node 1018 1018 1021 923 /\
   start_bidx_of_node 1018 1018 1021 923 + 1018
   <= start_bidx_of_node 1018 1018 1023 923) /\
  (is_direct_node 1018 1022 = false /\
   start_bidx_of_node 1018 1018 1022 923
   = start_bidx_of_node 1018 1018 1023 923).
Proof.
  destruct (direct_nodes_disjoint_blocks 1018 1018 ltac:(lia) ltac:(lia))
    as [Hd Hp].
  split.
  - split; [reflexivity|]. split; [reflexivity|].
    apply (Hd 1021 1023 923); try reflexivity; try lia.
  - apply (Hp 1022 923); lia.
Defined.

End NodeOfs.

(** ** Kernel bitmaps

    [unsigned long *] bitmaps are integers whose bit [i] is read with
    [Z.testbit]; [set_bit], [clear_bit] and [test_bit] are [Z.setbit],
    [Z.clearbit] and [Z.testbit]. *)

Fixpoint find_bit_from (map size : Z) (n : nat) (i : Z) : Z :=
  match n with
  | O => size
  | S n' => if Z.testbit map i then i else find_bit_from map size n' (i + 1)
  end.

(** [find_next_bit(addr, size, offset)]: the first set bit in
    [[offset, size)], or [size] when there is none. *)
Definition find_next_bit (map size offset : Z) : Z :=
  if size <=? offset then size
  else find_bit_from map size (Z.to_nat (size - offset)) offset.

(** The bits [for_each_set_bit(bit, addr, size)] visits, in order. *)
Definition set_bits (map size : Z) : list Z :=
  filter (Z.testbit map) (List.map Z.of_nat (seq 0 (Z.to_nat size))).

(** ** Enumerations of gc.h and segment.h *)

Inductive gc_type_t : Set := BG_GC | FG_GC.
Inductive gc_mode_t : Set := GC_CB | GC_GREEDY.
Inductive alloc_mode_t : Set := LFS | SSR.

Inductive dirty_type : Set :=
| DIRTY_HOT_DATA | DIRTY_WARM_DATA | DIRTY_COLD_DATA
| DIRTY_HOT_NODE | DIRTY_WARM_NODE | DIRTY_COLD_NODE
| DIRTY | PRE.

Definition gc_type_eqb (a b : gc_type_t) : bool :=
  match a, b with BG_GC, BG_GC | FG_GC, FG_GC => true | _, _ => false end.

Definition gc_mode_eqb (a b : gc_mode_t) : bool :=
  match a, b with GC_CB, GC_CB | GC_GREEDY, GC_GREEDY => true | _, _ => false end.

(** ** Victim selection *)

Module Victim.

(** [struct seg_entry]: the fields the selector reads. *)
Record seg_entry : Set := {
  valid_blocks : Z;        (* unsigned short, # of valid blocks *)
  ckpt_valid_blocks : Z;   (* # of valid blocks at the last checkpoint *)
  mtime : Z                (* unsigned long long, modification time *)
}.

Record sit_info : Type := {
  sentries : Z -> seg_entry;
  min_mtime : Z;           (* unsigned long long *)
  max_mtime : Z
}.

Record dirty_seglist_info : Type := {
  dirty_segmap : dirty_type -> Z;
  nr_dirty : dirty_type -> Z;
  victim_secmap : Z
}.

Record f2fs_gc_kthread : Set := {
  min_sleep_time : Z;
  max_sleep_time : Z;
  no_gc_sleep_time : Z;
  gc_idle : Z
}.

(** [struct f2fs_sb_info]: the fields gc.c uses while selecting. *)
Record f2fs_sb_info : Type := {
  segs_per_sec : Z;
  log_blocks_per_seg : Z;
  main_segments : Z;       (* MAIN_SEGS(sbi) *)
  total_sections : Z;      (* MAIN_SECS(sbi) *)
  max_victim_search : Z;
  last_victim : gc_mode_t -> Z;
  cur_victim_sec : Z;
  gc_thread : option f2fs_gc_kthread;
  dirty_i : dirty_seglist_info;
  sit_i : sit_info
}.

Record victim_sel_policy : Set := {
  alloc_mode : alloc_mode_t;
  gc_mode : gc_mode_t;
  p_dirty_segmap : Z;      (* the bitmap [dirty_segmap] points to *)
  max_search : Z;
  offset : Z;
  ofs_unit : Z;
  min_cost : Z;
  min_segno : Z
}.

(** Field updates. *)

Definition set_last_victim (sbi : f2fs_sb_info) (m : gc_mode_t) (v : Z) :=
  {| segs_per_sec := segs_per_sec sbi;
     log_blocks_per_seg := log_blocks_per_seg sbi;
     main_segments := main_segments sbi;
     total_sections := total_sections sbi;
     max_victim_search := max_victim_search sbi;
     last_victim := fun m' => if gc_mode_eqb m' m then v else last_victim sbi m';
     cur_victim_sec := cur_victim_sec sbi;
     gc_thread := gc_thread sbi;
     dirty_i := dirty_i sbi;
     sit_i := sit_i sbi |}.

Definition set_cur_victim_sec (sbi : f2fs_sb_info) (v : Z) :=
  {| segs_per_sec := segs_per_sec sbi;
     log_blocks_per_seg := log_blocks_per_seg sbi;
     main_segments := main_segments sbi;
     total_sections := total_sections sbi;
     max_victim_search := max_victim_search sbi;
     last_victim := last_victim sbi;
     cur_victim_sec := v;
     gc_thread := gc_thread sbi;
     dirty_i := dirty_i sbi;
     sit_i := sit_i sbi |}.

Definition set_victim_secmap (sbi : f2fs_sb_info) (m : Z) :=
  {| segs_per_sec := segs_per_sec sbi;
     log_blocks_per_seg := log_blocks_per_seg sbi;
     main_segments := main_segments sbi;
     total_sections := total_sections sbi;
     max_victim_search := max_victim_search sbi;
     last_victim := last_victim sbi;
     cur_victim_sec := cur_victim_sec sbi;
     gc_thread := gc_thread sbi;
     dirty_i := {| dirty_segmap := dirty_segmap (dirty_i sbi);
                   nr_dirty := nr_dirty (dirty_i sbi);
                   victim_secmap := m |};
     sit_i := sit_i sbi |}.

Definition set_mtime_range (sbi : f2fs_sb_info) (lo hi : Z) :=
  {| segs_per_sec := segs_per_sec sbi;
     log_blocks_per_seg := log_blocks_per_seg sbi;
     main_segments := main_segments sbi;
     total_sections := total_sections sbi;
     max_victim_search := max_victim_search sbi;
     last_victim := last_victim sbi;
     cur_victim_sec := cur_victim_sec sbi;
     gc_thread := gc_thread sbi;
     dirty_i := dirty_i sbi;
     sit_i := {| sentries := sentries (sit_i sbi);
                 min_mtime := lo;
                 max_mtime := hi |} |}.

Definition set_offset (p : victim_sel_policy) (o : Z) :=
  {| alloc_mode := alloc_mode p; gc_mode := gc_mode p;
     p_dirty_segmap := p_dirty_segmap p; max_search := max_search p;
     offset := o; ofs_unit := ofs_unit p;
     min_cost := min_cost p; min_segno := min_segno p |}.

Definition set_min (p : victim_sel_policy) (segno cost : Z) :=
  {| alloc_mode := alloc_mode p; gc_mode := gc_mode p;
     p_dirty_segmap := p_dirty_segmap p; max_search := max_search p;
     offset := offset p; ofs_unit := ofs_unit p;
     min_cost := cost; min_segno := segno |}.

(** Accessors of segment.h. *)

Definition MAIN_SEGS (sbi : f2fs_sb_info) : Z := main_segments sbi.
Definition MAIN_SECS (sbi : f2fs_sb_info) : Z := total_sections sbi.

(** [#define GET_SECNO(sbi, segno) ((segno) / sbi->segs_per_sec)] *)
Definition GET_SECNO (sbi : f2fs_sb_info) (segno : Z) : Z :=
  segno / segs_per_sec sbi.

Definition get_seg_entry (sbi : f2fs_sb_info) (segno : Z) : seg_entry :=
  sentries (sit_i sbi) segno.

Fixpoint sum_valid_blocks (sbi : f2fs_sb_info) (start : Z) (n : nat) : Z :=
  match n with
  | O => 0
  | S n' => sum_valid_blocks sbi start n'
            + valid_blocks (get_seg_entry sbi (start + Z.of_nat n'))
  end.

(** Modelled from the spec: [get_valid_blocks(segno, span)] of segment.h,
    which is not part of the sources at hand.  The design document gives
    the Greedy cost as the "sum of valid-block counts across the section";
    with a span of one segment it is that segment's own count. *)
Definition get_valid_blocks (sbi : f2fs_sb_info) (segno section : Z) : Z :=
  if 1 <? section then
    sum_valid_blocks sbi (GET_SECNO sbi segno * segs_per_sec sbi)
                     (Z.to_nat (segs_per_sec sbi))
  else valid_blocks (get_seg_entry sbi segno).

Section Selection.

(** [sec_usage_check(sbi, secno)] of segment.h tells whether a section is
    in use by a write cursor; the selector is verified for every such
    test. *)
Variable sec_usage_check : f2fs_sb_info -> Z -> bool.

Definition select_gc_type (gc_th : option f2fs_gc_kthread)
  (gc_type : gc_type_t) : gc_mode_t :=
  let gc_mode := match gc_type with BG_GC => GC_CB | FG_GC => GC_GREEDY end in
  match gc_th with
  | Some th =>
      if gc_idle th =? 0 then gc_mode
      else if gc_idle th =? 1 then GC_CB
      else if gc_idle th =? 2 then GC_GREEDY
      else gc_mode
  | None => gc_mode
  end.

(** [select_policy] fills the policy whose [alloc_mode] the caller set. *)
Definition select_policy (sbi : f2fs_sb_info) (gc_type : gc_type_t)
  (type : dirty_type) (p : victim_sel_policy) : victim_sel_policy :=
  let '(mode, map, search, unit) :=
    match alloc_mode p with
    | SSR => (GC_GREEDY, dirty_segmap (dirty_i sbi) type,
              nr_dirty (dirty_i sbi) type, 1)
    | LFS => (select_gc_type (gc_thread sbi) gc_type,
              dirty_segmap (dirty_i sbi) DIRTY,
              nr_dirty (dirty_i sbi) DIRTY, segs_per_sec sbi)
    end in
  let search :=
    if max_victim_search sbi <? search then max_victim_search sbi
    else search in
  {| alloc_mode := alloc_mode p; gc_mode := mode;
     p_dirty_segmap := map; max_search := search;
     offset := last_victim sbi mode; ofs_unit := unit;
     min_cost := min_cost p; min_segno := min_segno p |}.

(** The enumeration [gc_mode_t] has no third value, so the final
    [return 0] of the C function has no counterpart. *)
Definition get_max_cost (sbi : f2fs_sb_info) (p : victim_sel_policy) : Z :=
  match alloc_mode p with
  | SSR => wrap32 (Z.shiftl 1 (log_blocks_per_seg sbi))
  | LFS =>
      match gc_mode p with
      | GC_GREEDY =>
          wrap32 (wrap32 (Z.shiftl 1 (log_blocks_per_seg sbi)) * ofs_unit p)
      | GC_CB => UINT_MAX
      end
  end.

Fixpoint check_bg_victims_loop (sbi : f2fs_sb_info) (secnos : list Z)
  : Z * f2fs_sb_info :=
  match secnos with
  | [] => (NULL_SEGNO, sbi)
  | secno :: rest =>
      if sec_usage_check sbi secno then check_bg_victims_loop sbi rest
      else (wrap32 (secno * segs_per_sec sbi),
            set_victim_secmap sbi
              (Z.clearbit (victim_secmap (dirty_i sbi)) secno))
  end.

Definition check_bg_victims (sbi : f2fs_sb_info) : Z * f2fs_sb_info :=
  check_bg_victims_loop sbi
    (set_bits (victim_secmap (dirty_i sbi)) (MAIN_SECS sbi)).

Fixpoint sum_mtime (sbi : f2fs_sb_info) (start : Z) (n : nat) : Z :=
  match n with
  | O => 0
  | S n' => wrap64 (sum_mtime sbi start n'
                    + mtime (get_seg_entry sbi (start + Z.of_nat n')))
  end.

(** [get_cb_cost]: [u] and [age] are [unsigned char], the final expression
    is evaluated in [int] (C division truncates) and converted to
    [unsigned int]; the widened mtime range is written back. *)
Definition get_cb_cost (sbi : f2fs_sb_info) (segno : Z) : Z * f2fs_sb_info :=
  let secno := GET_SECNO sbi segno in
  let start := wrap32 (secno * segs_per_sec sbi) in
  let mtime := sum_mtime sbi start (Z.to_nat (segs_per_sec sbi)) in
  let vblocks := get_valid_blocks sbi segno (segs_per_sec sbi) in
  let mtime := mtime / segs_per_sec sbi in
  let vblocks := vblocks / segs_per_sec sbi in
  let u := wrap8 (Z.shiftr (wrap32 (vblocks * 100)) (log_blocks_per_seg sbi)) in
  let lo := if mtime <? min_mtime (sit_i sbi) then mtime
            else min_mtime (sit_i sbi) in
  let hi := if max_mtime (sit_i sbi) <? mtime then mtime
            else max_mtime (sit_i sbi) in
  let age :=
    if hi =? lo then 0
    else wrap8 (100 - wrap64 (100 * (mtime - lo)) / (hi - lo)) in
  (wrap32 (UINT_MAX - Z.quot (100 * (100 - u) * age) (100 + u)),
   set_mtime_range sbi lo hi).

Definition get_gc_cost (sbi : f2fs_sb_info) (segno : Z)
  (p : victim_sel_policy) : Z * f2fs_sb_info :=
  match alloc_mode p with
  | SSR => (ckpt_valid_blocks (get_seg_entry sbi segno), sbi)
  | LFS =>
      match gc_mode p with
      | GC_GREEDY => (get_valid_blocks sbi segno (segs_per_sec sbi), sbi)
      | GC_CB => get_cb_cost sbi segno
      end
  end.

(** *** The scan loop of [get_victim_by_default]

    The loop variables are a [scan_state]; one iteration is [scan_step],
    labelled with the branch it took. *)

Record scan_state : Type := {
  st_sbi : f2fs_sb_info;
  st_p : victim_sel_policy;
  st_last_segment : Z;
  st_nsearched : Z
}.

Inductive scan_event : Set :=
| ScanWrap                     (* fell off the end, wrapped to offset 0 *)
| ScanEnd                      (* fell off the end, [break] *)
| ScanFiltered (segno : Z)     (* section in use or already reserved *)
| ScanDiscarded (segno : Z)    (* cost equal to [max_cost], [continue] *)
| ScanCounted (segno : Z)      (* [nsearched++], next iteration *)
| ScanCapped (segno : Z).      (* [nsearched++ >= max_search], [break] *)

Definition scan_breaks (ev : scan_event) : bool :=
  match ev with
  | ScanEnd | ScanCapped _ => true
  | _ => false
  end.

(** The tail of an iteration, from [if (nsearched++ >= p.max_search)]. *)
Definition scan_count (sbi : f2fs_sb_info) (p : victim_sel_policy)
  (last_segment nsearched segno : Z) : scan_event * scan_state :=
  if max_search p <=? nsearched then
    (ScanCapped segno,
     {| st_sbi := set_last_victim sbi (gc_mode p) segno; st_p := p;
        st_last_segment := last_segment; st_nsearched := nsearched + 1 |})
  else
    (ScanCounted segno,
     {| st_sbi := sbi; st_p := p;
        st_last_segment := last_segment; st_nsearched := nsearched + 1 |}).

Definition scan_step (gc_type : gc_type_t) (max_cost : Z) (st : scan_state)
  : scan_event * scan_state :=
  let sbi := st_sbi st in
  let p := st_p st in
  let segno := find_next_bit (p_dirty_segmap p) (st_last_segment st) (offset p) in
  if st_last_segment st <=? segno then
    if last_victim sbi (gc_mode p) =? 0 then (ScanEnd, st)
    else
      (ScanWrap,
       {| st_sbi := set_last_victim sbi (gc_mode p) 0;
          st_p := set_offset p 0;
          st_last_segment := last_victim sbi (gc_mode p);
          st_nsearched := st_nsearched st |})
  else
    let ofs := wrap32 (segno + ofs_unit p) in
    let ofs := if 1 <? ofs_unit p then wrap32 (ofs - segno mod ofs_unit p)
               else ofs in
    let p := set_offset p ofs in
    let secno := GET_SECNO sbi segno in
    let skip := {| st_sbi := sbi; st_p := p;
                   st_last_segment := st_last_segment st;
                   st_nsearched := st_nsearched st |} in
    if sec_usage_check sbi secno then (ScanFiltered segno, skip)
    else if gc_type_eqb gc_type BG_GC
            && Z.testbit (victim_secmap (dirty_i sbi)) secno
    then (ScanFiltered segno, skip)
    else
      let '(cost, sbi) := get_gc_cost sbi segno p in
      if cost <? min_cost p then
        scan_count sbi (set_min p segno cost)
                   (st_last_segment st) (st_nsearched st) segno
      else if cost =? max_cost then
        (ScanDiscarded segno,
         {| st_sbi := sbi; st_p := p;
            st_last_segment := st_last_segment st;
            st_nsearched := st_nsearched st |})
      else
        scan_count sbi p (st_last_segment st) (st_nsearched st) segno.

(** [while (1)]: the loop runs until an iteration breaks; [fuel] bounds the
    number of iterations unfolded. *)
Fixpoint scan_loop (fuel : nat) (gc_type : gc_type_t) (max_cost : Z)
  (st : scan_state) : option (list scan_event * scan_state) :=
  match fuel with
  | O => None
  | S fuel' =>
      let '(ev, st') := scan_step gc_type max_cost st in
      if scan_breaks ev then Some ([ev], st')
      else
        match scan_loop fuel' gc_type max_cost st' with
        | Some (evs, st'') => Some (ev :: evs, st'')
        | None => None
        end
  end.

(** The code under the label [got_it]: mark the section and normalise the
    result to the first segment of the section. *)
Definition got_it (sbi : f2fs_sb_info) (gc_type : gc_type_t)
  (p : victim_sel_policy) : Z * f2fs_sb_info :=
  let sbi' :=
    match alloc_mode p with
    | LFS =>
        let secno := GET_SECNO sbi (min_segno p) in
        match gc_type with
        | FG_GC => set_cur_victim_sec sbi secno
        | BG_GC =>
            set_victim_secmap sbi (Z.setbit (victim_secmap (dirty_i sbi)) secno)
        end
    | SSR => sbi
    end in
  (wrap32 (min_segno p / ofs_unit p * ofs_unit p), sbi').

Definition init_policy (a : alloc_mode_t) : victim_sel_policy :=
  {| alloc_mode := a; gc_mode := GC_CB; p_dirty_segmap := 0; max_search := 0;
     offset := 0; ofs_unit := 0; min_cost := 0; min_segno := 0 |}.

(** The policy and cap with which the scan starts. *)
Definition start_policy (sbi : f2fs_sb_info) (gc_type : gc_type_t)
  (type : dirty_type) (a : alloc_mode_t) : victim_sel_policy :=
  let p := select_policy sbi gc_type type (init_policy a) in
  set_min p NULL_SEGNO (get_max_cost sbi p).

(** [get_victim_by_default]: [Some segno] stands for the return value 1
    with [*result = segno], [None] for the return value 0; the outer
    option is [None] only when [fuel] iterations did not end the scan. *)
Definition get_victim_by_default (fuel : nat) (sbi : f2fs_sb_info)
  (gc_type : gc_type_t) (type : dirty_type) (a : alloc_mode_t)
  : option (option Z * f2fs_sb_info) :=
  let p := start_policy sbi gc_type type a in
  let max_cost := min_cost p in
  if max_search p =? 0 then Some (None, sbi)
  else
    let '(fast, sbi1) :=
      match a, gc_type with
      | LFS, FG_GC => check_bg_victims sbi
      | _, _ => (NULL_SEGNO, sbi)
      end in
    if negb (fast =? NULL_SEGNO) then
      let '(result, sbi2) := got_it sbi1 gc_type (set_min p fast (min_cost p)) in
      Some (Some result, sbi2)
    else
      match scan_loop fuel gc_type max_cost
              {| st_sbi := sbi1; st_p := p;
                 st_last_segment := MAIN_SEGS sbi; st_nsearched := 0 |} with
      | None => None
      | Some (_, st) =>
          if negb (min_segno (st_p st) =? NULL_SEGNO) then
            let '(result, sbi2) := got_it (st_sbi st) gc_type (st_p st) in
            Some (Some result, sbi2)
          else Some (None, st_sbi st)
      end.

(** *** Facts about bitmaps *)

Lemma find_bit_from_spec (map size : Z) (n : nat) (i : Z) :
  find_bit_from map size n i = size \/
  (i <= find_bit_from map size n i < i + Z.of_nat n /\
   Z.testbit map (find_bit_from map size n i) = true).
Proof.
  revert i. induction n as [|n IH]; intros i; simpl.
  - left. reflexivity.
  - destruct (Z.testbit map i) eqn:Hb.
    + right. split; [lia | exact Hb].
    + destruct (IH (i + 1)) as [H | [H1 H2]]; [left; exact H | right].
      split; [lia | exact H2].
Qed.

Lemma find_next_bit_spec (map size off : Z) :
  find_next_bit map size off = size \/
  (off <= find_next_bit map size off < size /\
   Z.testbit map (find_next_bit map size off) = true).
Proof.
  unfold find_next_bit. destruct (size <=? off) eqn:E; [left; reflexivity|].
  apply Z.leb_gt in E.
  destruct (find_bit_from_spec map size (Z.to_nat (size - off)) off)
    as [H | [H1 H2]]; [left; exact H | right].
  split; [lia | exact H2].
Qed.

Lemma set_bits_In (map size s : Z) :
  In s (set_bits map size) -> 0 <= s < size /\ Z.testbit map s = true.
Proof.
  unfold set_bits. rewrite filter_In, in_map_iff.
  intros [(k & Hk & Hin) Hb]. apply in_seq in Hin. split; [lia | exact Hb].
Qed.

(** *** Well-formed selector states *)

(** Geometry of the main area: sections are whole, segment numbers stay
    clear of [NULL_SEGNO], and the per-mode cursors lie in the area. *)
Record sbi_wf (sbi : f2fs_sb_info) : Prop := {
  wf_spc : 1 <= segs_per_sec sbi;
  wf_segs : 0 <= main_segments sbi /\
            main_segments sbi + segs_per_sec sbi < 2 ^ 32 - 1;
  wf_secs : 0 <= total_sections sbi /\
            total_sections sbi * segs_per_sec sbi <= main_segments sbi;
  wf_last_victim : forall m, 0 <= last_victim sbi m <= main_segments sbi
}.

Record scan_wf (st : scan_state) : Prop := {
  swf_unit : 1 <= ofs_unit (st_p st);
  swf_offset : 0 <= offset (st_p st);
  swf_last : st_last_segment st + ofs_unit (st_p st) < 2 ^ 32;
  swf_cursor : 0 <= last_victim (st_sbi st) (gc_mode (st_p st))
               <= st_last_segment st
}.

(** The number of iterations the scan can still make. *)
Definition scan_measure (st : scan_state) : Z :=
  (if last_victim (st_sbi st) (gc_mode (st_p st)) =? 0 then 0
   else last_victim (st_sbi st) (gc_mode (st_p st)) + 1)
  + Z.max 0 (st_last_segment st - offset (st_p st)).

Lemma gc_mode_eqb_refl (m : gc_mode_t) : gc_mode_eqb m m = true.
Proof. destruct m; reflexivity. Qed.

Lemma get_gc_cost_last_victim (sbi : f2fs_sb_info) (segno : Z)
  (p : victim_sel_policy) (m : gc_mode_t) :
  last_victim (snd (get_gc_cost sbi segno p)) m = last_victim sbi m.
Proof.
  unfold get_gc_cost. destruct (alloc_mode p); [|reflexivity].
  destruct (gc_mode p); reflexivity.
Qed.

(** What one iteration does to the loop variables, branch by branch. *)
Lemma scan_step_cases (gc_type : gc_type_t) (max_cost : Z) (st : scan_state) :
  let segno := find_next_bit (p_dirty_segmap (st_p st)) (st_last_segment st)
                             (offset (st_p st)) in
  let ev := fst (scan_step gc_type max_cost st) in
  let st' := snd (scan_step gc_type max_cost st) in
  gc_mode (st_p st') = gc_mode (st_p st) /\
  ofs_unit (st_p st') = ofs_unit (st_p st) /\
  p_dirty_segmap (st_p st') = p_dirty_segmap (st_p st) /\
  max_search (st_p st') = max_search (st_p st) /\
  ((ev = ScanEnd /\ st' = st /\ st_last_segment st <= segno /\
    last_victim (st_sbi st) (gc_mode (st_p st)) = 0) \/
   (ev = ScanWrap /\ st_last_segment st <= segno /\
    last_victim (st_sbi st) (gc_mode (st_p st)) <> 0 /\
    st_last_segment st' = last_victim (st_sbi st) (gc_mode (st_p st)) /\
    last_victim (st_sbi st') (gc_mode (st_p st)) = 0 /\
    offset (st_p st') = 0 /\
    st_nsearched st' = st_nsearched st /\
    min_segno (st_p st') = min_segno (st_p st) /\
    min_cost (st_p st') = min_cost (st_p st)) \/
   (segno < st_last_segment st /\
    st_last_segment st' = st_last_segment st /\
    offset (st_p st') =
      (if 1 <? ofs_unit (st_p st)
       then wrap32 (wrap32 (segno + ofs_unit (st_p st))
                    - segno mod ofs_unit (st_p st))
       else wrap32 (segno + ofs_unit (st_p st))) /\
    ((ev = ScanCapped segno /\
      last_victim (st_sbi st') (gc_mode (st_p st)) = segno /\
      max_search (st_p st) <= st_nsearched st /\
      st_nsearched st' = st_nsearched st + 1) \/
     (last_victim (st_sbi st') (gc_mode (st_p st))
        = last_victim (st_sbi st) (gc_mode (st_p st)) /\
      ((ev = ScanCounted segno /\ st_nsearched st < max_search (st_p st) /\
        st_nsearched st' = st_nsearched st + 1) \/
       (ev = ScanFiltered segno /\ st_nsearched st' = st_nsearched st /\
        st_sbi st' = st_sbi st /\
        min_segno (st_p st') = min_segno (st_p st) /\
        min_cost (st_p st') = min_cost (st_p st)) \/
       (ev = ScanDiscarded segno /\ st_nsearched st' = st_nsearched st /\
        min_segno (st_p st') = min_segno (st_p st) /\
        min_cost (st_p st') = min_cost (st_p st))))))).
Proof.
  intros segno ev st'. subst ev st'. unfold scan_step. fold segno.
  destruct (st_last_segment st <=? segno) eqn:Eoff.
  - apply Z.leb_le in Eoff.
    destruct (last_victim (st_sbi st) (gc_mode (st_p st)) =? 0) eqn:Elv.
    + apply Z.eqb_eq in Elv. simpl. repeat split. left. repeat split; assumption.
    + apply Z.eqb_neq in Elv. simpl. repeat split. right; left.
      rewrite gc_mode_eqb_refl. repeat split; assumption.
  - apply Z.leb_gt in Eoff.
    set (ofs := if 1 <? ofs_unit (st_p st)
                then wrap32 (wrap32 (segno + ofs_unit (st_p st))
                             - segno mod ofs_unit (st_p st))
                else wrap32 (segno + ofs_unit (st_p st))).
    destruct (sec_usage_check (st_sbi st) (GET_SECNO (st_sbi st) segno)).
    { simpl. repeat split. right; right. repeat split; try assumption.
      right. split; [reflexivity|]. right; left. repeat split. }
    destruct (gc_type_eqb gc_type BG_GC
              && Z.testbit (victim_secmap (dirty_i (st_sbi st)))
                           (GET_SECNO (st_sbi st) segno)).
    { simpl. repeat split. right; right. repeat split; try assumption.
      right. split; [reflexivity|]. right; left. repeat split. }
    pose proof (get_gc_cost_last_victim (st_sbi st) segno
                  (set_offset (st_p st) ofs) (gc_mode (st_p st))) as Hlv.
    destruct (get_gc_cost (st_sbi st) segno (set_offset (st_p st) ofs))
      as [cost sbi1]. simpl in Hlv.
    assert (Hcount : forall p, gc_mode p = gc_mode (st_p st) ->
      max_search p = max_search (st_p st) ->
      let r := scan_count sbi1 p (st_last_segment st) (st_nsearched st) segno in
      st_p (snd r) = p /\ st_last_segment (snd r) = st_last_segment st /\
      ((fst r = ScanCapped segno /\
        last_victim (st_sbi (snd r)) (gc_mode (st_p st)) = segno /\
        max_search (st_p st) <= st_nsearched st /\
        st_nsearched (snd r) = st_nsearched st + 1) \/
       (last_victim (st_sbi (snd r)) (gc_mode (st_p st))
          = last_victim (st_sbi st) (gc_mode (st_p st)) /\
        fst r = ScanCounted segno /\ st_nsearched st < max_search (st_p st) /\
        st_nsearched (snd r) = st_nsearched st + 1))).
    { intros p Hm Hs. unfold scan_count. rewrite Hs.
      destruct (max_search (st_p st) <=? st_nsearched st) eqn:Ec; simpl.
      - apply Z.leb_le in Ec. repeat split. left. rewrite Hm.
        rewrite gc_mode_eqb_refl. repeat split; assumption.
      - apply Z.leb_gt in Ec. repeat split. right. repeat split; assumption. }
    destruct (cost <? min_cost (set_offset (st_p st) ofs)) eqn:Ecost.
    + destruct (Hcount (set_min (set_offset (st_p st) ofs) segno cost)
                  eq_refl eq_refl) as (Hp & Hl & Hc).
      rewrite Hp. simpl. repeat split; try assumption.
      right; right. repeat split; try assumption.
      destruct Hc as [Hc | (H1 & H2 & H3)]; [left; exact Hc | right].
      split; [exact H1|]. left. tauto.
    + destruct (cost =? max_cost) eqn:Emax.
      * simpl. repeat split. right; right. repeat split; try assumption.
        right. split; [exact Hlv|]. right; right. repeat split.
      * destruct (Hcount (set_offset (st_p st) ofs) eq_refl eq_refl)
          as (Hp & Hl & Hc).
        rewrite Hp. simpl. repeat split; try assumption.
        right; right. repeat split; try assumption.
        destruct Hc as [Hc | (H1 & H2 & H3)]; [left; exact Hc | right].
        split; [exact H1|]. left. tauto.
Qed.

(** Induction over the iterations of a finished scan. *)
Lemma scan_loop_ind (gc_type : gc_type_t) (max_cost : Z)
  (P : scan_state -> list scan_event -> scan_state -> Prop) :
  (forall st,
     scan_breaks (fst (scan_step gc_type max_cost st)) = true ->
     P st [fst (scan_step gc_type max_cost st)]
       (snd (scan_step gc_type max_cost st))) ->
  (forall st evs st',
     scan_breaks (fst (scan_step gc_type max_cost st)) = false ->
     P (snd (scan_step gc_type max_cost st)) evs st' ->
     P st (fst (scan_step gc_type max_cost st) :: evs) st') ->
  forall fuel st evs st',
    scan_loop fuel gc_type max_cost st = Some (evs, st') -> P st evs st'.
Proof.
  intros Hbreak Hnext. induction fuel as [|fuel IH]; intros st evs st' H.
  - discriminate.
  - simpl in H. specialize (Hbreak st). specialize (Hnext st).
    destruct (scan_step gc_type max_cost st) as [ev st1]. simpl in *.
    destruct (scan_breaks ev).
    + inversion H; subst. apply Hbreak. reflexivity.
    + destruct (scan_loop fuel gc_type max_cost st1) as [[evs1 st2]|] eqn:E;
        [|discriminate].
      inversion H; subst. apply Hnext; [reflexivity|]. apply IH. exact E.
Qed.

(** A state invariant kept by every iteration holds when the scan ends. *)
Lemma scan_loop_invariant (gc_type : gc_type_t) (max_cost : Z)
  (I : scan_state -> Prop) :
  (forall st, I st -> I (snd (scan_step gc_type max_cost st))) ->
  forall fuel st evs st',
    I st -> scan_loop fuel gc_type max_cost st = Some (evs, st') -> I st'.
Proof.
  intros Hstep fuel st evs st' HI H.
  refine (scan_loop_ind gc_type max_cost (fun st _ st' => I st -> I st')
            _ _ fuel st evs st' H HI).
  - intros st0 _ H0. apply Hstep. exact H0.
  - intros st0 evs0 st0' _ IH H0. apply IH. apply Hstep. exact H0.
Qed.

Lemma scan_step_progress (gc_type : gc_type_t) (max_cost : Z) (st : scan_state) :
  scan_wf st ->
  scan_wf (snd (scan_step gc_type max_cost st)) /\
  0 <= scan_measure st /\
  (scan_breaks (fst (scan_step gc_type max_cost st)) = false ->
   scan_measure (snd (scan_step gc_type max_cost st)) < scan_measure st).
Proof.
  intros [Hu Ho Hl Hc].
  pose proof (scan_step_cases gc_type max_cost st) as H. cbv zeta in H.
  pose proof (find_next_bit_spec (p_dirty_segmap (st_p st))
                (st_last_segment st) (offset (st_p st))) as Hf.
  set (segno := find_next_bit (p_dirty_segmap (st_p st)) (st_last_segment st)
                              (offset (st_p st))) in *.
  destruct (scan_step gc_type max_cost st) as [ev st']. simpl in *.
  destruct H as (Hm & Hun & _ & _ & H).
  assert (Hpos : 0 <= scan_measure st).
  { unfold scan_measure.
    destruct (last_victim (st_sbi st) (gc_mode (st_p st)) =? 0); lia. }
  destruct H as [(He & Hst & _) | [(He & Hge & Hne & Hls & Hlv & Hof & _) | H]].
  - subst. split; [constructor; assumption|]. split; [exact Hpos|].
    simpl. discriminate.
  - split; [|split; [exact Hpos|]].
    + constructor; rewrite ?Hm, ?Hun, ?Hls, ?Hlv, ?Hof; lia.
    + intros _. unfold scan_measure. rewrite Hm, Hlv, Hls, Hof. simpl.
      apply Z.eqb_neq in Hne. rewrite Hne. lia.
  - destruct H as (Hlt & Hls & Hof & H).
    destruct Hf as [Hf | [Hf _]]; [lia|].
    assert (Hofs : segno < offset (st_p st') <= segno + ofs_unit (st_p st)).
    { rewrite Hof. rewrite (wrap32_small (segno + ofs_unit (st_p st))) by lia.
      destruct (1 <? ofs_unit (st_p st)) eqn:E1; [|lia].
      pose proof (Z.mod_pos_bound segno (ofs_unit (st_p st))).
      rewrite wrap32_small; lia. }
    split; [|split; [exact Hpos|]].
    + destruct H as [(_ & Hlv & _) | (Hlv & _)];
        constructor; rewrite ?Hm, ?Hun, ?Hls, ?Hlv; lia.
    + destruct H as [(He & _) | (Hlv & _)].
      * rewrite He. simpl. discriminate.
      * intros _. unfold scan_measure. rewrite Hm, Hlv, Hls.
        destruct (last_victim (st_sbi st) (gc_mode (st_p st)) =? 0); lia.
Qed.

(** The scan ends within [scan_measure] further iterations. *)
Lemma scan_loop_terminates (gc_type : gc_type_t) (max_cost : Z) (fuel : nat) :
  forall st, scan_wf st -> scan_measure st < Z.of_nat fuel ->
  exists evs st', scan_loop fuel gc_type max_cost st = Some (evs, st').
Proof.
  induction fuel as [|fuel IH]; intros st Hwf Hm.
  - pose proof (scan_step_progress gc_type max_cost st Hwf). lia.
  - destruct (scan_step_progress gc_type max_cost st Hwf) as (Hwf' & Hpos & Hdec).
    simpl. destruct (scan_step gc_type max_cost st) as [ev st1]. simpl in *.
    destruct (scan_breaks ev).
    + eexists _, _. reflexivity.
    + destruct (IH st1 Hwf') as (evs & st2 & E); [specialize (Hdec eq_refl); lia|].
      rewrite E. eexists _, _. reflexivity.
Qed.

(** *** What the scan leaves alone *)

(** The scan writes [last_victim] and, through [get_cb_cost], the mtime
    range; everything else in the superblock stays. *)
Definition scan_frame (a b : f2fs_sb_info) : Prop :=
  segs_per_sec a = segs_per_sec b /\
  log_blocks_per_seg a = log_blocks_per_seg b /\
  main_segments a = main_segments b /\
  total_sections a = total_sections b /\
  cur_victim_sec a = cur_victim_sec b /\
  dirty_i a = dirty_i b /\
  sentries (sit_i a) = sentries (sit_i b).

Lemma scan_frame_refl (a : f2fs_sb_info) : scan_frame a a.
Proof. repeat split. Qed.

Lemma scan_frame_trans (a b c : f2fs_sb_info) :
  scan_frame a b -> scan_frame b c -> scan_frame a c.
Proof.
  unfold scan_frame. intros H1 H2.
  repeat match goal with H : _ /\ _ |- _ => destruct H end.
  repeat split; congruence.
Qed.

Lemma get_gc_cost_frame (sbi : f2fs_sb_info) (segno : Z) (p : victim_sel_policy) :
  scan_frame sbi (snd (get_gc_cost sbi segno p)).
Proof.
  unfold get_gc_cost. destruct (alloc_mode p); [|apply scan_frame_refl].
  destruct (gc_mode p); simpl; repeat split.
Qed.

Lemma scan_step_frame (gc_type : gc_type_t) (max_cost : Z) (st : scan_state) :
  scan_frame (st_sbi st) (st_sbi (snd (scan_step gc_type max_cost st))) /\
  alloc_mode (st_p (snd (scan_step gc_type max_cost st))) = alloc_mode (st_p st).
Proof.
  unfold scan_step.
  destruct (st_last_segment st <=? _).
  { destruct (last_victim (st_sbi st) (gc_mode (st_p st)) =? 0); simpl;
      repeat split. }
  destruct (sec_usage_check _ _); [simpl; repeat split|].
  destruct (gc_type_eqb gc_type BG_GC && _); [simpl; repeat split|].
  match goal with |- context [get_gc_cost ?a ?b ?c] =>
    pose proof (get_gc_cost_frame a b c) as Hf;
    destruct (get_gc_cost a b c) as [cost sbi1] end.
  simpl in Hf. unfold scan_count.
  destruct (cost <? _); [|destruct (cost =? max_cost)];
    try (destruct (_ <=? st_nsearched st)); simpl; split;
    try reflexivity; try exact Hf;
    (eapply scan_frame_trans; [exact Hf | repeat split]).
Qed.

(** *** The running minimum *)

(** An iteration either keeps the running minimum or replaces it by the
    candidate it evaluated, whose cost is then strictly below the old
    minimum. *)
Lemma scan_step_min (gc_type : gc_type_t) (max_cost : Z) (st : scan_state) :
  let segno := find_next_bit (p_dirty_segmap (st_p st)) (st_last_segment st)
                             (offset (st_p st)) in
  let st' := snd (scan_step gc_type max_cost st) in
  (min_segno (st_p st') = min_segno (st_p st) /\
   min_cost (st_p st') = min_cost (st_p st)) \/
  (segno < st_last_segment st /\
   sec_usage_check (st_sbi st) (GET_SECNO (st_sbi st) segno) = false /\
   min_segno (st_p st') = segno /\
   min_cost (st_p st') < min_cost (st_p st) /\
   exists p, alloc_mode p = alloc_mode (st_p st) /\
             gc_mode p = gc_mode (st_p st) /\
             min_cost (st_p st') = fst (get_gc_cost (st_sbi st) segno p)).
Proof.
  intros segno st'. subst st'. unfold scan_step. fold segno.
  destruct (st_last_segment st <=? segno) eqn:Eoff.
  { destruct (last_victim (st_sbi st) (gc_mode (st_p st)) =? 0); simpl;
      left; split; reflexivity. }
  apply Z.leb_gt in Eoff.
  destruct (sec_usage_check _ _) eqn:Eu; [simpl; left; split; reflexivity|].
  destruct (gc_type_eqb gc_type BG_GC && _); [simpl; left; split; reflexivity|].
  match goal with |- context [get_gc_cost ?a ?b ?c] =>
    set (pc := c); destruct (get_gc_cost a b pc) as [cost sbi1] eqn:Ecost end.
  unfold scan_count.
  destruct (cost <? min_cost pc) eqn:Elt.
  - apply Z.ltb_lt in Elt. right.
    destruct (_ <=? st_nsearched st); simpl;
      (repeat split; try assumption;
       exists pc; rewrite Ecost; repeat split).
  - destruct (cost =? max_cost); [simpl; left; split; reflexivity|].
    destruct (_ <=? st_nsearched st); simpl; left; split; reflexivity.
Qed.

(** A candidate that reaches the cost evaluation with a cost equal to the
    cap is dropped by [continue]: neither selected nor counted. *)
Lemma scan_step_discards (gc_type : gc_type_t) (max_cost : Z) (st : scan_state) :
  let p := st_p st in
  let segno := find_next_bit (p_dirty_segmap p) (st_last_segment st) (offset p) in
  let ofs := if 1 <? ofs_unit p
             then wrap32 (wrap32 (segno + ofs_unit p) - segno mod ofs_unit p)
             else wrap32 (segno + ofs_unit p) in
  min_cost p <= max_cost ->
  segno < st_last_segment st ->
  sec_usage_check (st_sbi st) (GET_SECNO (st_sbi st) segno) = false ->
  (gc_type_eqb gc_type BG_GC
   && Z.testbit (victim_secmap (dirty_i (st_sbi st)))
                (GET_SECNO (st_sbi st) segno)) = false ->
  fst (get_gc_cost (st_sbi st) segno (set_offset p ofs)) = max_cost ->
  scan_step gc_type max_cost st =
    (ScanDiscarded segno,
     {| st_sbi := snd (get_gc_cost (st_sbi st) segno (set_offset p ofs));
        st_p := set_offset p ofs;
        st_last_segment := st_last_segment st;
        st_nsearched := st_nsearched st |}).
Proof.
  intros p segno ofs Hmin Hlt Hu Hb Hc. unfold scan_step.
  fold p. fold segno. fold ofs.
  apply Z.leb_gt in Hlt. rewrite Hlt, Hu, Hb.
  destruct (get_gc_cost (st_sbi st) segno (set_offset p ofs)) as [cost sbi1].
  simpl in *. subst cost.
  assert (E : (max_cost <? min_cost p) = false) by (apply Z.ltb_ge; exact Hmin).
  rewrite E, Z.eqb_refl. reflexivity.
Qed.

(** *** The cost-benefit cost *)

Fixpoint total_mtime (sbi : f2fs_sb_info) (start : Z) (n : nat) : Z :=
  match n with
  | O => 0
  | S n' => total_mtime sbi start n'
            + mtime (get_seg_entry sbi (start + Z.of_nat n'))
  end.

(** The quantities of the cost-benefit formula in the words of the design
    document: mean mtime and mean valid count of the section, utilization
    and age in percent, and the cost. *)
Definition sec_mtime (sbi : f2fs_sb_info) (segno : Z) : Z :=
  total_mtime sbi (GET_SECNO sbi segno * segs_per_sec sbi)
              (Z.to_nat (segs_per_sec sbi)) / segs_per_sec sbi.

Definition sec_valid (sbi : f2fs_sb_info) (segno : Z) : Z :=
  get_valid_blocks sbi segno (segs_per_sec sbi) / segs_per_sec sbi.

Definition cb_util (sbi : f2fs_sb_info) (segno : Z) : Z :=
  100 * sec_valid sbi segno / 2 ^ log_blocks_per_seg sbi.

Definition cb_age (lo hi m : Z) : Z :=
  if hi =? lo then 0 else 100 - 100 * (m - lo) / (hi - lo).

Definition cb_cost (u age : Z) : Z :=
  UINT_MAX - 100 * (100 - u) * age / (100 + u).

(** Ranges within which none of the C operations of [get_cb_cost] wraps. *)
Record cb_wf (sbi : f2fs_sb_info) (segno : Z) : Prop := {
  cbw_spc : 1 <= segs_per_sec sbi <= 2 ^ 16;
  cbw_log : 0 <= log_blocks_per_seg sbi <= 25;
  cbw_segno : 0 <= segno < 2 ^ 32;
  cbw_mtime : forall s, 0 <= mtime (get_seg_entry sbi s) < 2 ^ 40;
  cbw_min : 0 <= min_mtime (sit_i sbi);
  cbw_valid : 0 <= get_valid_blocks sbi segno (segs_per_sec sbi)
              <= 2 ^ log_blocks_per_seg sbi * segs_per_sec sbi
}.

Lemma total_mtime_bound (sbi : f2fs_sb_info) (start : Z) (n : nat) :
  (forall s, 0 <= mtime (get_seg_entry sbi s) < 2 ^ 40) ->
  0 <= total_mtime sbi start n <= Z.of_nat n * 2 ^ 40.
Proof.
  intros H. induction n as [|n IH]; simpl total_mtime; [lia|].
  specialize (H (start + Z.of_nat n)). lia.
Qed.

Lemma sum_mtime_total (sbi : f2fs_sb_info) (start : Z) (n : nat) :
  (forall s, 0 <= mtime (get_seg_entry sbi s) < 2 ^ 40) ->
  Z.of_nat n <= 2 ^ 16 ->
  sum_mtime sbi start n = total_mtime sbi start n.
Proof.
  intros H. induction n as [|n IH]; intros Hn; simpl; [reflexivity|].
  rewrite IH by lia.
  pose proof (total_mtime_bound sbi start n H).
  specialize (H (start + Z.of_nat n)).
  apply wrap64_small. split; [lia|].
  assert (Z.of_nat n * 2 ^ 40 <= 2 ^ 16 * 2 ^ 40) by nia.
  change (2 ^ 16 * 2 ^ 40) with (2 ^ 56) in *. change (2 ^ 64) with (2^56 * 256).
  lia.
Qed.

Lemma cb_util_range (sbi : f2fs_sb_info) (segno : Z) :
  cb_wf sbi segno ->
  0 <= sec_valid sbi segno <= 2 ^ log_blocks_per_seg sbi /\
  0 <= cb_util sbi segno <= 100.
Proof.
  intros [Hs Hl _ _ _ Hv].
  assert (Hb : 0 < 2 ^ log_blocks_per_seg sbi) by (apply Z.pow_pos_nonneg; lia).
  assert (Hsv : 0 <= sec_valid sbi segno <= 2 ^ log_blocks_per_seg sbi).
  { unfold sec_valid. split; [apply Z.div_pos; lia|].
    apply Z.div_le_upper_bound; [lia|]. lia. }
  split; [exact Hsv|]. unfold cb_util. split; [apply Z.div_pos; lia|].
  apply Z.div_le_upper_bound; [lia|]. lia.
Qed.

Lemma cb_age_range (lo hi m : Z) :
  lo <= m <= hi -> 0 <= cb_age lo hi m <= 100.
Proof.
  intros H. unfold cb_age. destruct (hi =? lo) eqn:E; [lia|].
  apply Z.eqb_neq in E.
  assert (0 <= 100 * (m - lo) / (hi - lo) <= 100).
  { split; [apply Z.div_pos; lia|].
    apply Z.div_le_upper_bound; [lia|]. lia. }
  lia.
Qed.

Lemma get_cb_cost_spec (sbi : f2fs_sb_info) (segno : Z) :
  cb_wf sbi segno ->
  let m := sec_mtime sbi segno in
  let lo := Z.min (min_mtime (sit_i sbi)) m in
  let hi := Z.max (max_mtime (sit_i sbi)) m in
  get_cb_cost sbi segno =
    (cb_cost (cb_util sbi segno) (cb_age lo hi m), set_mtime_range sbi lo hi).
Proof.
  intros Hwf m lo hi. pose proof (cb_util_range sbi segno Hwf) as [Hsv Hu].
  destruct Hwf as [Hs Hl Hseg Hmt Hmin Hv].
  assert (Hb : 0 < 2 ^ log_blocks_per_seg sbi) by (apply Z.pow_pos_nonneg; lia).
  assert (Hb25 : 2 ^ log_blocks_per_seg sbi <= 2 ^ 25)
    by (apply Z.pow_le_mono_r; lia).
  assert (Hsec : 0 <= GET_SECNO sbi segno * segs_per_sec sbi <= segno).
  { unfold GET_SECNO. split.
    - apply Z.mul_nonneg_nonneg; [apply Z.div_pos|]; lia.
    - rewrite Z.mul_comm. apply Z.mul_div_le. lia. }
  assert (Hm : 0 <= m <= 2 ^ 56).
  { unfold m, sec_mtime.
    pose proof (total_mtime_bound sbi (GET_SECNO sbi segno * segs_per_sec sbi)
                  (Z.to_nat (segs_per_sec sbi)) Hmt) as Ht.
    rewrite Z2Nat.id in Ht by lia.
    split; [apply Z.div_pos; lia|].
    apply Z.div_le_upper_bound; [lia|].
    assert (segs_per_sec sbi * 2 ^ 40 <= 2 ^ 16 * 2 ^ 40) by nia.
    change (2 ^ 16 * 2 ^ 40) with (2 ^ 56) in *. nia. }
  unfold get_cb_cost.
  rewrite (wrap32_small (GET_SECNO sbi segno * segs_per_sec sbi)) by lia.
  rewrite sum_mtime_total by (try assumption; rewrite Z2Nat.id; lia).
  fold (sec_mtime sbi segno). fold m. fold (sec_valid sbi segno).
  replace (if m <? min_mtime (sit_i sbi) then m else min_mtime (sit_i sbi))
    with lo by (unfold lo; destruct (m <? _) eqn:E;
                [apply Z.ltb_lt in E | apply Z.ltb_ge in E]; lia).
  replace (if max_mtime (sit_i sbi) <? m then m else max_mtime (sit_i sbi))
    with hi by (unfold hi; destruct (_ <? m) eqn:E;
                [apply Z.ltb_lt in E | apply Z.ltb_ge in E]; lia).
  assert (Hr : lo <= m <= hi) by (unfold lo, hi; lia).
  assert (Hlo : 0 <= lo) by (unfold lo; lia).
  rewrite (wrap32_small (sec_valid sbi segno * 100)) by lia.
  rewrite Z.shiftr_div_pow2 by lia.
  rewrite (Z.mul_comm (sec_valid sbi segno) 100). fold (cb_util sbi segno).
  rewrite (wrap8_small (cb_util sbi segno)) by lia.
  f_equal.
  assert (Hage : (if hi =? lo then 0
                  else wrap8 (100 - wrap64 (100 * (m - lo)) / (hi - lo)))
                 = cb_age lo hi m).
  { pose proof (cb_age_range lo hi m Hr) as Ha. unfold cb_age in *.
    destruct (hi =? lo); [reflexivity|].
    rewrite (wrap64_small (100 * (m - lo)))
      by (change (2 ^ 64) with (2 ^ 56 * 256); lia).
    apply wrap8_small. lia. }
  rewrite Hage. pose proof (cb_age_range lo hi m Hr) as Ha.
  set (u := cb_util sbi segno) in *. set (age := cb_age lo hi m) in *.
  assert (Hn : 0 <= 100 * (100 - u) * age) by nia.
  rewrite Z.quot_div_nonneg by lia.
  assert (0 <= 100 * (100 - u) * age / (100 + u) <= 1000000).
  { split; [apply Z.div_pos; lia|].
    apply Z.div_le_upper_bound; [lia|]. nia. }
  unfold cb_cost. apply wrap32_small. unfold UINT_MAX. lia.
Qed.

Lemma cb_age_antitone (lo hi m1 m2 : Z) :
  lo <= m1 -> m1 <= m2 -> m2 <= hi ->
  cb_age lo hi m2 <= cb_age lo hi m1.
Proof.
  intros H1 H2 H3. unfold cb_age. destruct (hi =? lo) eqn:E; [lia|].
  apply Z.eqb_neq in E.
  assert (100 * (m1 - lo) / (hi - lo) <= 100 * (m2 - lo) / (hi - lo))
    by (apply Z.div_le_mono; lia).
  lia.
Qed.

Lemma cb_cost_antitone (u a1 a2 : Z) :
  0 <= u <= 100 -> 0 <= a2 <= a1 ->
  cb_cost u a1 <= cb_cost u a2 /\
  (u <= 98 -> a2 < a1 -> cb_cost u a1 < cb_cost u a2).
Proof.
  intros Hu Ha. unfold cb_cost. split.
  - assert (100 * (100 - u) * a2 / (100 + u) <= 100 * (100 - u) * a1 / (100 + u))
      by (apply Z.div_le_mono; nia).
    lia.
  - intros Hu98 Hlt.
    assert (100 * (100 - u) * a2 / (100 + u) + 1
            <= 100 * (100 - u) * a1 / (100 + u)).
    { replace (100 * (100 - u) * a2 / (100 + u) + 1)
        with ((100 * (100 - u) * a2 + 1 * (100 + u)) / (100 + u))
        by (rewrite Z.div_add by lia; reflexivity).
      apply Z.div_le_mono; nia. }
    lia.
Qed.

(** *** Wrap-around, the search budget and the cursor *)












(** *** The start of the scan *)

Lemma start_policy_fields (sbi : f2fs_sb_info) (gc_type : gc_type_t)
  (type : dirty_type) (a : alloc_mode_t) :
  let p := start_policy sbi gc_type type a in
  let class := match a with SSR => type | LFS => DIRTY end in
  alloc_mode p = a /\
  gc_mode p = match a with
              | SSR => GC_GREEDY
              | LFS => select_gc_type (gc_thread sbi) gc_type
              end /\
  p_dirty_segmap p = dirty_segmap (dirty_i sbi) class /\
  max_search p = Z.min (nr_dirty (dirty_i sbi) class) (max_victim_search sbi) /\
  offset p = last_victim sbi (gc_mode p) /\
  ofs_unit p = match a with SSR => 1 | LFS => segs_per_sec sbi end /\
  min_segno p = NULL_SEGNO /\
  min_cost p = get_max_cost sbi p.
Proof.
  unfold start_policy, select_policy.
  destruct a; simpl; repeat split;
    match goal with |- context [?x <? ?y] =>
      destruct (x <? y) eqn:E;
      [apply Z.ltb_lt in E | apply Z.ltb_ge in E]; lia end.
Qed.

(** Iterations that always suffice for a scan of a well-formed area. *)
Definition scan_fuel (sbi : f2fs_sb_info) : nat :=
  Z.to_nat (2 * main_segments sbi + 2).

Lemma start_scan_wf (sbi sbi1 : f2fs_sb_info) (gc_type : gc_type_t)
  (type : dirty_type) (a : alloc_mode_t) :
  sbi_wf sbi ->
  last_victim sbi1 = last_victim sbi ->
  let st := {| st_sbi := sbi1; st_p := start_policy sbi gc_type type a;
               st_last_segment := MAIN_SEGS sbi; st_nsearched := 0 |} in
  scan_wf st /\ scan_measure st < Z.of_nat (scan_fuel sbi).
Proof.
  intros [Hs Hm Hsec Hlv] Hlv1 st.
  pose proof (start_policy_fields sbi gc_type type a) as H. cbv zeta in H.
  destruct H as (_ & _ & _ & _ & Ho & Hu & _).
  assert (Hunit : 1 <= ofs_unit (start_policy sbi gc_type type a)
                  <= segs_per_sec sbi) by (rewrite Hu; destruct a; lia).
  pose proof (Hlv (gc_mode (start_policy sbi gc_type type a))) as Hl.
  split.
  - constructor; unfold st, MAIN_SEGS;
      cbn [st_sbi st_p st_last_segment st_nsearched];
      rewrite ?Hlv1, ?Ho; lia.
  - unfold scan_measure, scan_fuel, st, MAIN_SEGS.
    cbn [st_sbi st_p st_last_segment st_nsearched]. rewrite Hlv1, Ho.
    rewrite Z2Nat.id by lia.
    destruct (last_victim sbi _ =? 0); lia.
Qed.

Lemma check_bg_victims_loop_frame (sbi : f2fs_sb_info) (l : list Z) :
  last_victim (snd (check_bg_victims_loop sbi l)) = last_victim sbi.
Proof.
  induction l as [|s l IH]; simpl; [reflexivity|].
  destruct (sec_usage_check sbi s); [exact IH | reflexivity].
Qed.

(** The selector returns for every well-formed superblock. *)
Lemma get_victim_by_default_total (fuel : nat) (sbi : f2fs_sb_info)
  (gc_type : gc_type_t) (type : dirty_type) (a : alloc_mode_t) :
  sbi_wf sbi -> (scan_fuel sbi <= fuel)%nat ->
  exists r, get_victim_by_default fuel sbi gc_type type a = Some r.
Proof.
  intros Hwf Hfuel. unfold get_victim_by_default.
  destruct (max_search _ =? 0); [eexists; reflexivity|].
  assert (Hfr : last_victim
                  (snd (match a, gc_type with
                        | LFS, FG_GC => check_bg_victims sbi
                        | _, _ => (NULL_SEGNO, sbi)
                        end)) = last_victim sbi).
  { destruct a, gc_type; try reflexivity. apply check_bg_victims_loop_frame. }
  destruct (match a, gc_type with
            | LFS, FG_GC => check_bg_victims sbi
            | _, _ => (NULL_SEGNO, sbi)
            end) as [fast sbi1]. simpl in Hfr.
  destruct (negb (fast =? NULL_SEGNO)).
  - destruct (got_it _ _ _). eexists; reflexivity.
  - destruct (start_scan_wf sbi sbi1 gc_type type a Hwf Hfr) as [Hs Hm].
    destruct (scan_loop_terminates gc_type
                (min_cost (start_policy sbi gc_type type a)) fuel _ Hs)
      as (evs & st' & E); [lia|].
    rewrite E. destruct (negb _); [destruct (got_it _ _ _)|]; eexists; reflexivity.
Qed.

(** *** What a finished scan keeps *)

Lemma scan_loop_keeps (gc_type : gc_type_t) (max_cost : Z) (fuel : nat)
  (st : scan_state) (evs : list scan_event) (st' : scan_state) :
  scan_wf st -> 0 <= min_segno (st_p st) ->
  scan_loop fuel gc_type max_cost st = Some (evs, st') ->
  scan_wf st' /\ 0 <= min_segno (st_p st') /\
  alloc_mode (st_p st') = alloc_mode (st_p st) /\
  gc_mode (st_p st') = gc_mode (st_p st) /\
  ofs_unit (st_p st') = ofs_unit (st_p st) /\
  p_dirty_segmap (st_p st') = p_dirty_segmap (st_p st) /\
  scan_frame (st_sbi st) (st_sbi st').
Proof.
  intros Hwf Hmin H.
  apply (scan_loop_invariant gc_type max_cost
    (fun st1 => scan_wf st1 /\ 0 <= min_segno (st_p st1) /\
                alloc_mode (st_p st1) = alloc_mode (st_p st) /\
                gc_mode (st_p st1) = gc_mode (st_p st) /\
                ofs_unit (st_p st1) = ofs_unit (st_p st) /\
                p_dirty_segmap (st_p st1) = p_dirty_segmap (st_p st) /\
                scan_frame (st_sbi st) (st_sbi st1))) with (3 := H).
  - intros st1 (Hw & Hm & Ha & Hg & Hu & Hd & Hf).
    destruct (scan_step_progress gc_type max_cost st1 Hw) as (Hw' & _).
    destruct (scan_step_frame gc_type max_cost st1) as (Hf' & Ha').
    pose proof (scan_step_cases gc_type max_cost st1) as Hc. cbv zeta in Hc.
    destruct Hc as (Hg' & Hu' & Hd' & _ & _).
    pose proof (scan_step_min gc_type max_cost st1) as Hmin'. cbv zeta in Hmin'.
    pose proof (find_next_bit_spec (p_dirty_segmap (st_p st1))
                  (st_last_segment st1) (offset (st_p st1))) as Hfb.
    destruct Hw as [_ Ho _ _].
    split; [exact Hw'|]. split.
    { destruct Hmin' as [(E & _) | (Hlt & _ & E & _)]; rewrite E; [lia|].
      destruct Hfb as [Hfb | [Hfb _]]; lia. }
    split; [congruence|]. split; [congruence|]. split; [congruence|].
    split; [congruence|]. eapply scan_frame_trans; eassumption.
  - split; [exact Hwf|]. split; [exact Hmin|].
    repeat (split; [reflexivity|]). apply scan_frame_refl.
Qed.

Lemma sum_valid_blocks_frame (a b : f2fs_sb_info) (start : Z) (n : nat) :
  sentries (sit_i a) = sentries (sit_i b) ->
  sum_valid_blocks a start n = sum_valid_blocks b start n.
Proof.
  intros H. induction n as [|n IH]; simpl; [reflexivity|].
  unfold get_seg_entry. rewrite IH, H. reflexivity.
Qed.

Lemma get_valid_blocks_frame (a b : f2fs_sb_info) (segno section : Z) :
  scan_frame a b -> get_valid_blocks a segno section = get_valid_blocks b segno section.
Proof.
  intros (Hs & _ & _ & _ & _ & _ & He). unfold get_valid_blocks, GET_SECNO.
  rewrite Hs, (sum_valid_blocks_frame a b) by exact He.
  unfold get_seg_entry. rewrite He. reflexivity.
Qed.

(** Outside cost-benefit mode the cost of a segment does not change while
    the scan runs. *)
Lemma get_gc_cost_frame_eq (a b : f2fs_sb_info) (segno : Z)
  (p q : victim_sel_policy) :
  scan_frame a b -> alloc_mode p = alloc_mode q -> gc_mode p = gc_mode q ->
  (alloc_mode p = SSR \/ gc_mode p = GC_GREEDY) ->
  fst (get_gc_cost a segno p) = fst (get_gc_cost b segno q).
Proof.
  intros Hf Ha Hg Hn. unfold get_gc_cost. rewrite <- Ha, <- Hg.
  pose proof (get_valid_blocks_frame a b segno (segs_per_sec a) Hf) as Hv.
  destruct Hf as (Hs & _ & _ & _ & _ & _ & He).
  destruct (alloc_mode p).
  - destruct (gc_mode p); [destruct Hn; discriminate|].
    simpl. rewrite Hv, Hs. reflexivity.
  - simpl. unfold get_seg_entry. rewrite He. reflexivity.
Qed.

(** A section all of whose segments hold [B] valid blocks. *)
Definition fully_valid (sbi : f2fs_sb_info) (segno : Z) : Prop :=
  forall i, 0 <= i < segs_per_sec sbi ->
    valid_blocks (get_seg_entry sbi (GET_SECNO sbi segno * segs_per_sec sbi + i))
    = 2 ^ log_blocks_per_seg sbi.

Lemma sum_valid_blocks_const (sbi : f2fs_sb_info) (start b : Z) (n : nat) :
  (forall i, 0 <= i < Z.of_nat n ->
     valid_blocks (get_seg_entry sbi (start + i)) = b) ->
  sum_valid_blocks sbi start n = b * Z.of_nat n.
Proof.
  induction n as [|n IH]; intros H; simpl sum_valid_blocks; [lia|].
  rewrite IH by (intros i Hi; apply H; lia).
  rewrite (H (Z.of_nat n)) by lia. lia.
Qed.

Lemma fully_valid_cost (sbi : f2fs_sb_info) (segno : Z) :
  1 <= segs_per_sec sbi -> fully_valid sbi segno ->
  get_valid_blocks sbi segno (segs_per_sec sbi)
  = 2 ^ log_blocks_per_seg sbi * segs_per_sec sbi.
Proof.
  intros Hs Hf. unfold get_valid_blocks.
  destruct (1 <? segs_per_sec sbi) eqn:E.
  - rewrite (sum_valid_blocks_const sbi _ (2 ^ log_blocks_per_seg sbi)).
    + rewrite Z2Nat.id by lia. reflexivity.
    + intros i Hi. apply Hf. rewrite Z2Nat.id in Hi by lia. exact Hi.
  - apply Z.ltb_ge in E. assert (E1 : segs_per_sec sbi = 1) by lia.
    specialize (Hf 0 ltac:(lia)). unfold GET_SECNO in Hf.
    rewrite E1, Z.div_1_r, Z.mul_1_r, Z.add_0_r in Hf. rewrite Hf, E1. lia.
Qed.

Lemma check_bg_victims_loop_find (sbi : f2fs_sb_info) (l : list Z) :
  check_bg_victims_loop sbi l =
    match find (fun s => negb (sec_usage_check sbi s)) l with
    | Some secno =>
        (wrap32 (secno * segs_per_sec sbi),
         set_victim_secmap sbi (Z.clearbit (victim_secmap (dirty_i sbi)) secno))
    | None => (NULL_SEGNO, sbi)
    end.
Proof.
  induction l as [|s l IH]; simpl; [reflexivity|].
  destruct (sec_usage_check sbi s); simpl; [exact IH | reflexivity].
Qed.

Lemma section_start_range (sbi : f2fs_sb_info) (secno : Z) :
  sbi_wf sbi -> 0 <= secno < total_sections sbi ->
  0 <= secno * segs_per_sec sbi < NULL_SEGNO.
Proof.
  intros [Hs Hm Hsec _] Hr. unfold NULL_SEGNO. nia.
Qed.

(** When the reserved map offers nothing, [check_bg_victims] changes
    nothing. *)
Lemma check_bg_victims_none (sbi : f2fs_sb_info) :
  sbi_wf sbi -> fst (check_bg_victims sbi) = NULL_SEGNO ->
  check_bg_victims sbi = (NULL_SEGNO, sbi).
Proof.
  intros Hwf. unfold check_bg_victims. rewrite check_bg_victims_loop_find.
  destruct (find _ _) as [secno|] eqn:E; [|reflexivity].
  apply find_some in E. destruct E as [Hin _].
  apply set_bits_In in Hin. destruct Hin as [Hr _].
  pose proof (section_start_range sbi secno Hwf Hr) as Hs.
  simpl. rewrite wrap32_small by (unfold NULL_SEGNO in Hs; lia). lia.
Qed.

(** *** The cap on the cost *)

Lemma get_max_cost_values (sbi : f2fs_sb_info) (p : victim_sel_policy) :
  0 <= log_blocks_per_seg sbi ->
  0 <= ofs_unit p ->
  2 ^ log_blocks_per_seg sbi * Z.max 1 (ofs_unit p) < 2 ^ 32 ->
  get_max_cost sbi p =
    match alloc_mode p with
    | SSR => 2 ^ log_blocks_per_seg sbi
    | LFS =>
        match gc_mode p with
        | GC_GREEDY => 2 ^ log_blocks_per_seg sbi * ofs_unit p
        | GC_CB => UINT_MAX
        end
    end.
Proof.
  intros Hl Hu Hb. unfold get_max_cost.
  rewrite Z.shiftl_1_l.
  assert (0 < 2 ^ log_blocks_per_seg sbi) by (apply Z.pow_pos_nonneg; lia).
  rewrite (wrap32_small (2 ^ log_blocks_per_seg sbi)) by nia.
  destruct (alloc_mode p); [|reflexivity].
  destruct (gc_mode p); [reflexivity|]. apply wrap32_small. nia.
Qed.

(** Whatever the scan selected was evaluated strictly below the cap. *)
Lemma scan_loop_min_below_cap (gc_type : gc_type_t) (fuel : nat)
  (sbi : f2fs_sb_info) (st : scan_state) (evs : list scan_event)
  (st' : scan_state) :
  let p := st_p st in
  st_sbi st = sbi -> min_segno p = NULL_SEGNO ->
  scan_loop fuel gc_type (min_cost p) st = Some (evs, st') ->
  min_cost (st_p st') <= min_cost p /\
  (min_segno (st_p st') <> NULL_SEGNO ->
   min_cost (st_p st') < min_cost p /\
   (alloc_mode p = SSR \/ gc_mode p = GC_GREEDY ->
    fst (get_gc_cost sbi (min_segno (st_p st')) p) = min_cost (st_p st'))).
Proof.
  intros p Hsbi Hnull H.
  assert (Hinv :
    scan_frame sbi (st_sbi st') /\
    alloc_mode (st_p st') = alloc_mode p /\ gc_mode (st_p st') = gc_mode p /\
    min_cost (st_p st') <= min_cost p /\
    (min_segno (st_p st') <> NULL_SEGNO ->
     min_cost (st_p st') < min_cost p /\
     (alloc_mode p = SSR \/ gc_mode p = GC_GREEDY ->
      fst (get_gc_cost sbi (min_segno (st_p st')) p) = min_cost (st_p st')))).
  { apply (scan_loop_invariant gc_type (min_cost p)
      (fun st1 =>
         scan_frame sbi (st_sbi st1) /\
         alloc_mode (st_p st1) = alloc_mode p /\ gc_mode (st_p st1) = gc_mode p /\
         min_cost (st_p st1) <= min_cost p /\
         (min_segno (st_p st1) <> NULL_SEGNO ->
          min_cost (st_p st1) < min_cost p /\
          (alloc_mode p = SSR \/ gc_mode p = GC_GREEDY ->
           fst (get_gc_cost sbi (min_segno (st_p st1)) p)
           = min_cost (st_p st1))))) with (3 := H).
    - intros st1 (Hf & Ha & Hg & Hle & Hsel).
      destruct (scan_step_frame gc_type (min_cost p) st1) as (Hf' & Ha').
      pose proof (scan_step_cases gc_type (min_cost p) st1) as Hc.
      cbv zeta in Hc. destruct Hc as (Hg' & _).
      pose proof (scan_step_min gc_type (min_cost p) st1) as Hm.
      cbv zeta in Hm.
      split; [eapply scan_frame_trans; eassumption|].
      split; [congruence|]. split; [congruence|].
      destruct Hm as [(E1 & E2) | (_ & _ & E1 & E2 & q & Hqa & Hqg & E3)].
      + rewrite E1, E2. split; assumption.
      + split; [lia|]. intros _. split; [lia|]. intros Hn.
        rewrite E1, E3. apply get_gc_cost_frame_eq; try congruence.
    - split; [rewrite Hsbi; apply scan_frame_refl|].
      split; [reflexivity|]. split; [reflexivity|].
      split; [apply Z.le_refl|].
      intros Hn. contradiction. }
  destruct Hinv as (_ & _ & _ & Hle & Hsel). split; assumption.
Qed.

(** A Greedy scan all of whose candidates are fully valid selects nothing. *)
Lemma greedy_fully_valid_no_victim (gc_type : gc_type_t) (fuel : nat)
  (sbi : f2fs_sb_info) (st : scan_state) (evs : list scan_event)
  (st' : scan_state) :
  let p := st_p st in
  1 <= segs_per_sec sbi ->
  st_sbi st = sbi -> alloc_mode p = LFS -> gc_mode p = GC_GREEDY ->
  min_segno p = NULL_SEGNO ->
  min_cost p = 2 ^ log_blocks_per_seg sbi * segs_per_sec sbi ->
  (forall segno, Z.testbit (p_dirty_segmap p) segno = true ->
                 fully_valid sbi segno) ->
  scan_loop fuel gc_type (min_cost p) st = Some (evs, st') ->
  min_segno (st_p st') = NULL_SEGNO.
Proof.
  intros p Hs Hsbi Ha Hg Hnull Hcap Hfull H.
  assert (Hinv :
    scan_frame sbi (st_sbi st') /\
    alloc_mode (st_p st') = LFS /\ gc_mode (st_p st') = GC_GREEDY /\
    p_dirty_segmap (st_p st') = p_dirty_segmap p /\
    min_cost (st_p st') = min_cost p /\ min_segno (st_p st') = NULL_SEGNO).
  { apply (scan_loop_invariant gc_type (min_cost p)
      (fun st1 =>
         scan_frame sbi (st_sbi st1) /\
         alloc_mode (st_p st1) = LFS /\ gc_mode (st_p st1) = GC_GREEDY /\
         p_dirty_segmap (st_p st1) = p_dirty_segmap p /\
         min_cost (st_p st1) = min_cost p /\
         min_segno (st_p st1) = NULL_SEGNO)) with (3 := H).
    - intros st1 (Hf & Ha1 & Hg1 & Hd1 & Hc1 & Hn1).
      destruct (scan_step_frame gc_type (min_cost p) st1) as (Hf' & Ha').
      pose proof (scan_step_cases gc_type (min_cost p) st1) as Hc.
      cbv zeta in Hc. destruct Hc as (Hg' & _ & Hd' & _).
      pose proof (scan_step_min gc_type (min_cost p) st1) as Hm.
      cbv zeta in Hm.
      pose proof (find_next_bit_spec (p_dirty_segmap (st_p st1))
                    (st_last_segment st1) (offset (st_p st1))) as Hfb.
      split; [eapply scan_frame_trans; eassumption|].
      split; [congruence|]. split; [congruence|]. split; [congruence|].
      destruct Hm as [(E1 & E2) | (Hlt & _ & E1 & E2 & q & Hqa & Hqg & E3)].
      + split; congruence.
      + exfalso. destruct Hfb as [Hfb | [_ Hbit]]; [lia|].
        rewrite Hd1 in Hbit. apply Hfull in Hbit.
        apply (fully_valid_cost sbi _ Hs) in Hbit.
        rewrite E3 in E2. unfold get_gc_cost in E2.
        rewrite Hqa, Hqg, Ha1, Hg1 in E2. simpl in E2.
        rewrite <- (get_valid_blocks_frame sbi (st_sbi st1)) in E2 by exact Hf.
        destruct Hf as (Hspc & _).
        rewrite <- Hspc, Hd1, Hc1, Hcap, Hbit in E2. lia.
    - split; [rewrite Hsbi; apply scan_frame_refl|]. repeat split; assumption. }
  destruct Hinv as (_ & _ & _ & _ & _ & Hn). exact Hn.
Qed.

(** *** The claims about victim selection *)

(** C1 (amended).  In cost-benefit mode [get_cb_cost] returns
    [UINT_MAX - (100 * (100 - u) * age) / (100 + u)], where
    [u = (100 * valid) / B] for the mean valid-block count of the section's
    segments and [age = 100 - 100 * (mtime - min) / (max - min)] for the
    mean mtime of the section and the mtime range widened to contain it,
    with [age = 0] when that range is degenerate; the widened range is
    written back.  Of two sections with equal utilization whose mtimes lie
    in the current range, the older one gets a cost that is not higher, and
    strictly lower when [u <= 98] and its age percentage is strictly
    larger. *)
Theorem get_cb_cost_formula (sbi : f2fs_sb_info) (segno other : Z) :
  cb_wf sbi segno -> cb_wf sbi other ->
  let m := sec_mtime sbi segno in
  let lo := Z.min (min_mtime (sit_i sbi)) m in
  let hi := Z.max (max_mtime (sit_i sbi)) m in
  get_cb_cost sbi segno =
    (cb_cost (cb_util sbi segno) (cb_age lo hi m), set_mtime_range sbi lo hi) /\
  (min_mtime (sit_i sbi) <= m ->
   m <= sec_mtime sbi other ->
   sec_mtime sbi other <= max_mtime (sit_i sbi) ->
   cb_util sbi segno = cb_util sbi other ->
   fst (get_cb_cost sbi segno) <= fst (get_cb_cost sbi other) /\
   (cb_util sbi segno <= 98 ->
    cb_age (min_mtime (sit_i sbi)) (max_mtime (sit_i sbi)) (sec_mtime sbi other)
    < cb_age (min_mtime (sit_i sbi)) (max_mtime (sit_i sbi)) m ->
    fst (get_cb_cost sbi segno) < fst (get_cb_cost sbi other))).
Proof.
  intros Hwf Hwfo m lo hi. split; [apply get_cb_cost_spec; exact Hwf|].
  intros H1 H2 H3 Hu.
  rewrite (get_cb_cost_spec sbi segno Hwf), (get_cb_cost_spec sbi other Hwfo).
  cbn [fst]. fold m.
  rewrite (Z.min_l (min_mtime (sit_i sbi)) m) by lia.
  rewrite (Z.max_l (max_mtime (sit_i sbi)) m) by lia.
  rewrite (Z.min_l (min_mtime (sit_i sbi)) (sec_mtime sbi other)) by lia.
  rewrite (Z.max_l (max_mtime (sit_i sbi)) (sec_mtime sbi other)) by lia.
  rewrite <- Hu.
  pose proof (cb_util_range sbi segno Hwf) as [_ Hur].
  pose proof (cb_age_antitone (min_mtime (sit_i sbi)) (max_mtime (sit_i sbi))
                m (sec_mtime sbi other) H1 H2 H3) as Ha.
  pose proof (cb_age_range (min_mtime (sit_i sbi)) (max_mtime (sit_i sbi))
                (sec_mtime sbi other) ltac:(lia)) as Hr.
  apply cb_cost_antitone; lia.
Qed.

(** C4.  The cap on the cost is [B] for SSR, [B * unit] for LFS/Greedy and
    [UINT_MAX] for cost-benefit.  A candidate whose cost equals the cap is
    dropped by the iteration that evaluates it (the running minimum and
    [nsearched] stay), so a segment the scan selects was evaluated strictly
    below the cap; and an LFS/Greedy selection whose dirty candidates are
    all fully valid, with nothing to take from the reserved map, returns no
    victim. *)
Theorem max_cost_cap_discards (sbi : f2fs_sb_info) (gc_type : gc_type_t)
  (type : dirty_type) (a : alloc_mode_t) :
  sbi_wf sbi ->
  0 <= log_blocks_per_seg sbi ->
  2 ^ log_blocks_per_seg sbi * segs_per_sec sbi < 2 ^ 32 ->
  let p := start_policy sbi gc_type type a in
  let cap := get_max_cost sbi p in
  let B := 2 ^ log_blocks_per_seg sbi in
  cap = match a with
        | SSR => B
        | LFS => match gc_mode p with
                 | GC_GREEDY => B * segs_per_sec sbi
                 | GC_CB => UINT_MAX
                 end
        end /\
  (forall st : scan_state,
     let q := st_p st in
     let segno := find_next_bit (p_dirty_segmap q) (st_last_segment st)
                                (offset q) in
     let ofs := if 1 <? ofs_unit q
                then wrap32 (wrap32 (segno + ofs_unit q) - segno mod ofs_unit q)
                else wrap32 (segno + ofs_unit q) in
     let r := scan_step gc_type cap st in
     min_cost q <= cap ->
     segno < st_last_segment st ->
     sec_usage_check (st_sbi st) (GET_SECNO (st_sbi st) segno) = false ->
     (gc_type_eqb gc_type BG_GC
      && Z.testbit (victim_secmap (dirty_i (st_sbi st)))
                   (GET_SECNO (st_sbi st) segno)) = false ->
     fst (get_gc_cost (st_sbi st) segno (set_offset q ofs)) = cap ->
     fst r = ScanDiscarded segno /\
     min_segno (st_p (snd r)) = min_segno q /\
     min_cost (st_p (snd r)) = min_cost q /\
     st_nsearched (snd r) = st_nsearched st) /\
  (forall fuel evs st',
     scan_loop fuel gc_type cap
       {| st_sbi := sbi; st_p := p;
          st_last_segment := MAIN_SEGS sbi; st_nsearched := 0 |}
     = Some (evs, st') ->
     min_segno (st_p st') <> NULL_SEGNO ->
     min_cost (st_p st') < cap /\
     (a = SSR \/ gc_mode p = GC_GREEDY ->
      fst (get_gc_cost sbi (min_segno (st_p st')) p) < cap)) /\
  (a = LFS -> gc_mode p = GC_GREEDY ->
   (gc_type = FG_GC -> fst (check_bg_victims sbi) = NULL_SEGNO) ->
   (forall segno, Z.testbit (dirty_segmap (dirty_i sbi) DIRTY) segno = true ->
                  fully_valid sbi segno) ->
   forall fuel, (scan_fuel sbi <= fuel)%nat ->
   exists sbi', get_victim_by_default fuel sbi gc_type type a = Some (None, sbi')).
Proof.
  intros Hwf Hlog Hb p cap B.
  pose proof (start_policy_fields sbi gc_type type a) as Hp. cbv zeta in Hp.
  fold p in Hp. destruct Hp as (Ha & Hg & Hd & _ & _ & Hu & Hn & Hc).
  fold cap in Hc. pose proof (wf_spc sbi Hwf) as Hs.
  assert (Hcap : cap = match a with
                       | SSR => B
                       | LFS => match gc_mode p with
                                | GC_GREEDY => B * segs_per_sec sbi
                                | GC_CB => UINT_MAX
                                end
                       end).
  { unfold cap. rewrite get_max_cost_values; try assumption.
    - rewrite Ha, Hu. destruct a; reflexivity.
    - rewrite Hu. destruct a; lia.
    - rewrite Hu. destruct a; [rewrite Z.max_r by lia; lia|].
      simpl Z.max. assert (0 < 2 ^ log_blocks_per_seg sbi)
        by (apply Z.pow_pos_nonneg; lia). nia. }
  split; [exact Hcap|]. split; [|split].
  - intros st q segno ofs r Hmin Hlt Husage Hbg Hcost. subst r.
    rewrite (scan_step_discards gc_type cap st Hmin Hlt Husage Hbg Hcost).
    simpl. repeat split.
  - intros fuel evs st' Hrun Hsel. rewrite <- Hc in Hrun.
    destruct (scan_loop_min_below_cap gc_type fuel sbi
                {| st_sbi := sbi; st_p := p;
                   st_last_segment := MAIN_SEGS sbi; st_nsearched := 0 |}
                evs st' eq_refl Hn Hrun) as (_ & Hbelow).
    cbn [st_p] in Hbelow. destruct (Hbelow Hsel) as (Hlt & Heq).
    rewrite <- Hc. split; [exact Hlt|]. intros Hmode. rewrite Heq; [exact Hlt|].
    rewrite Ha. exact Hmode.
  - intros HLFS Hgreedy Hfast Hfull fuel Hfuel.
    destruct a; [clear HLFS | discriminate HLFS].
    unfold get_victim_by_default. fold p.
    destruct (max_search p =? 0); [eexists; reflexivity|].
    assert (Hf : match gc_type with
                 | FG_GC => check_bg_victims sbi
                 | BG_GC => (NULL_SEGNO, sbi)
                 end = (NULL_SEGNO, sbi)).
    { destruct gc_type; [reflexivity|].
      apply check_bg_victims_none; [exact Hwf | apply Hfast; reflexivity]. }
    replace (match gc_type with
             | BG_GC => (NULL_SEGNO, sbi)
             | FG_GC => check_bg_victims sbi
             end) with (NULL_SEGNO, sbi)
      by (destruct gc_type; [reflexivity | symmetry; exact Hf]).
    rewrite Z.eqb_refl. cbn [negb].
    destruct (start_scan_wf sbi sbi gc_type type LFS Hwf eq_refl) as [Hswf Hm].
    fold p in Hswf, Hm.
    destruct (scan_loop_terminates gc_type (min_cost p) fuel _ Hswf)
      as (evs & st' & E); [lia|].
    rewrite E.
    assert (Hnone : min_segno (st_p st') = NULL_SEGNO).
    { apply (greedy_fully_valid_no_victim gc_type fuel sbi
               {| st_sbi := sbi; st_p := p;
                  st_last_segment := MAIN_SEGS sbi; st_nsearched := 0 |}
               evs st');
        cbn [st_p st_sbi]; try assumption; try reflexivity;
        try (rewrite Hc, Hcap, Hgreedy; reflexivity);
        try (rewrite Hd; exact Hfull). }
    rewrite Hnone, Z.eqb_refl. cbn [negb]. eexists. reflexivity.
Qed.


(** *** What a selection returns *)

(** Whatever the scan holds as its minimum is a dirty segment of the main
    area. *)
Lemma scan_loop_selects_dirty (gc_type : gc_type_t) (max_cost : Z)
  (fuel : nat) (M : Z) (st : scan_state) (evs : list scan_event)
  (st' : scan_state) :
  scan_wf st -> st_last_segment st <= M ->
  min_segno (st_p st) = NULL_SEGNO ->
  scan_loop fuel gc_type max_cost st = Some (evs, st') ->
  min_segno (st_p st') = NULL_SEGNO \/
  (0 <= min_segno (st_p st') < M /\
   Z.testbit (p_dirty_segmap (st_p st)) (min_segno (st_p st')) = true).
Proof.
  intros Hwf HM Hnull H.
  assert (Hinv :
    scan_wf st' /\ st_last_segment st' <= M /\
    p_dirty_segmap (st_p st') = p_dirty_segmap (st_p st) /\
    (min_segno (st_p st') = NULL_SEGNO \/
     (0 <= min_segno (st_p st') < M /\
      Z.testbit (p_dirty_segmap (st_p st)) (min_segno (st_p st')) = true))).
  { apply (scan_loop_invariant gc_type max_cost
      (fun st1 =>
         scan_wf st1 /\ st_last_segment st1 <= M /\
         p_dirty_segmap (st_p st1) = p_dirty_segmap (st_p st) /\
         (min_segno (st_p st1) = NULL_SEGNO \/
          (0 <= min_segno (st_p st1) < M /\
           Z.testbit (p_dirty_segmap (st_p st)) (min_segno (st_p st1))
           = true)))) with (3 := H).
    - intros st1 (Hw & Hl & Hd & Hm).
      destruct (scan_step_progress gc_type max_cost st1 Hw) as (Hw' & _).
      pose proof (scan_step_cases gc_type max_cost st1) as Hc.
      cbv zeta in Hc. destruct Hc as (_ & _ & Hd' & _ & Hc).
      pose proof (scan_step_min gc_type max_cost st1) as Hmin.
      cbv zeta in Hmin.
      pose proof (find_next_bit_spec (p_dirty_segmap (st_p st1))
                    (st_last_segment st1) (offset (st_p st1))) as Hfb.
      destruct Hw as [_ Ho _ Hcur].
      split; [exact Hw'|]. split.
      { destruct Hc as [(_ & E & _) | [(_ & _ & _ & E & _) | (_ & E & _)]].
        - rewrite E. exact Hl.
        - rewrite E. lia.
        - rewrite E. exact Hl. }
      split; [congruence|].
      destruct Hmin as [(E & _) | (Hlt & _ & E & _)].
      + rewrite E. exact Hm.
      + right. rewrite E.
        destruct Hfb as [Hfb | [Hr Hb]]; [lia|].
        split; [lia|]. rewrite <- Hd. exact Hb.
    - split; [exact Hwf|]. split; [exact HM|]. split; [reflexivity|].
      left. exact Hnull. }
  destruct Hinv as (_ & _ & _ & Hm). exact Hm.
Qed.

Lemma section_floor (x u : Z) :
  1 <= u -> 0 <= x ->
  0 <= x / u * u <= x /\ x < x / u * u + u /\ (x / u * u) mod u = 0.
Proof.
  intros Hu Hx.
  pose proof (Z.mul_div_le x u ltac:(lia)) as H1.
  pose proof (Z.mod_pos_bound x u ltac:(lia)) as H2.
  pose proof (Z.div_mod x u ltac:(lia)) as H3.
  assert (0 <= x / u) by (apply Z.div_pos; lia).
  split; [nia|]. split; [nia|]. apply Z.mod_mul. lia.
Qed.

(** X10.  A victim returned by [get_victim_by_default] is a real one.
    The segment number returned lies in the main area and is the first
    segment of its unit (section for LFS, segment for SSR).  It comes
    either from the map of sections reserved by background GC (LFS in FG
    mode: the section's bit was set, the section is not in use, and the bit
    is cleared on return) or from the scan, and then its unit holds a
    segment whose bit is set in the dirty map searched. *)
Theorem victim_is_dirty_and_in_range (fuel : nat) (sbi : f2fs_sb_info)
  (gc_type : gc_type_t) (type : dirty_type) (a : alloc_mode_t) (r : Z)
  (sbi' : f2fs_sb_info) :
  sbi_wf sbi ->
  get_victim_by_default fuel sbi gc_type type a = Some (Some r, sbi') ->
  let unit := match a with SSR => 1 | LFS => segs_per_sec sbi end in
  let class := match a with SSR => type | LFS => DIRTY end in
  0 <= r < main_segments sbi /\ r mod unit = 0 /\
  ((a = LFS /\ gc_type = FG_GC /\
    Z.testbit (victim_secmap (dirty_i sbi)) (r / unit) = true /\
    sec_usage_check sbi (r / unit) = false /\
    Z.testbit (victim_secmap (dirty_i sbi')) (r / unit) = false) \/
   (exists segno,
      r <= segno < r + unit /\
      Z.testbit (dirty_segmap (dirty_i sbi) class) segno = true)).
Proof.
  intros Hwf H unit class. pose proof Hwf as [Hs Hm Hsec Hlv].
  unfold get_victim_by_default in H.
  pose proof (start_policy_fields sbi gc_type type a) as Hp.
  cbv zeta in Hp. destruct Hp as (Ha & _ & Hd & _ & _ & Hu & Hn & _).
  fold class in Hd. fold unit in Hu.
  set (p := start_policy sbi gc_type type a) in *.
  assert (Hunit : 1 <= unit <= segs_per_sec sbi)
    by (unfold unit; destruct a; lia).
  destruct (max_search p =? 0); [discriminate|].
  destruct (match a, gc_type with
            | LFS, FG_GC => check_bg_victims sbi
            | _, _ => (NULL_SEGNO, sbi)
            end) as [fast sbi1] eqn:Efast.
  assert (Hlv1 : last_victim sbi1 = last_victim sbi).
  { destruct a, gc_type; inversion Efast; subst; try reflexivity.
    rewrite <- (check_bg_victims_loop_frame sbi
                  (set_bits (victim_secmap (dirty_i sbi)) (MAIN_SECS sbi))).
    unfold check_bg_victims in H1. rewrite H1. reflexivity. }
  destruct (negb (fast =? NULL_SEGNO)) eqn:Ef.
  - (* the reserved section *)
    apply negb_true_iff, Z.eqb_neq in Ef.
    assert (Hfg : a = LFS /\ gc_type = FG_GC).
    { destruct a, gc_type; inversion Efast; subst; try contradiction.
      split; reflexivity. }
    destruct Hfg as [E1 E2].
    destruct a; [clear E1 | discriminate E1].
    destruct gc_type; [discriminate E2 | clear E2].
    unfold check_bg_victims in Efast.
    rewrite check_bg_victims_loop_find in Efast.
    destruct (find _ _) as [secno|] eqn:Efind;
      [|inversion Efast; subst; contradiction].
    inversion Efast; subst fast sbi1. clear Efast.
    pose proof Efind as Hin. apply find_some in Hin.
    destruct Hin as [Hin Huse]. apply negb_true_iff in Huse.
    apply set_bits_In in Hin. destruct Hin as [Hr Hbit].
    pose proof (section_start_range sbi secno Hwf Hr) as Hrange.
    unfold NULL_SEGNO in Hrange.
    rewrite (wrap32_small (secno * segs_per_sec sbi)) in H by lia.
    unfold got_it in H. cbn [alloc_mode ofs_unit min_segno set_min] in H.
    rewrite Ha, Hu in H. unfold unit in *.
    rewrite Z.div_mul in H by lia.
    rewrite (wrap32_small (secno * segs_per_sec sbi)) in H by lia.
    inversion H; subst r sbi'. clear H.
    unfold MAIN_SECS in Hr.
    split; [nia|]. split; [apply Z.mod_mul; lia|]. left.
    rewrite Z.div_mul by lia.
    split; [reflexivity|]. split; [reflexivity|]. split; [exact Hbit|].
    split; [exact Huse|]. simpl. apply Z.clearbit_eq.
  - (* the scan *)
    destruct (scan_loop fuel gc_type (min_cost p) _)
      as [[evs st']|] eqn:Erun; [|discriminate].
    destruct (start_scan_wf sbi sbi1 gc_type type a Hwf Hlv1) as [Hswf _].
    fold p in Hswf.
    pose proof (scan_loop_selects_dirty gc_type (min_cost p) fuel
                  (main_segments sbi) _ evs st' Hswf (Z.le_refl _) Hn Erun)
      as Hsel.
    destruct (scan_loop_keeps gc_type (min_cost p) fuel _ evs st' Hswf
                ltac:(cbn [st_p]; rewrite Hn; unfold NULL_SEGNO; lia) Erun)
      as (_ & _ & Hal & _ & Hun & _ & _).
    cbn [st_p st_sbi] in *.
    destruct (negb (min_segno (st_p st') =? NULL_SEGNO)) eqn:Esel;
      [|discriminate].
    apply negb_true_iff, Z.eqb_neq in Esel.
    destruct Hsel as [Hsel | [Hr Hbit]]; [contradiction|].
    unfold got_it in H. rewrite Hun, Hu in H.
    destruct (section_floor (min_segno (st_p st')) unit ltac:(lia) ltac:(lia))
      as (Hf1 & Hf2 & Hf3).
    rewrite wrap32_small in H by lia.
    inversion H as [[Er Es]]. clear H.
    split; [lia|]. split; [exact Hf3|]. right.
    exists (min_segno (st_p st')). split; [lia|].
    rewrite <- Hd. exact Hbit.
Qed.

(** *** The cheapest candidate *)

(** The segments whose cost an iteration computed. *)
Definition candidate (ev : scan_event) : list Z :=
  match ev with
  | ScanDiscarded s | ScanCounted s | ScanCapped s => [s]
  | _ => []
  end.

Definition candidates (evs : list scan_event) : list Z :=
  flat_map candidate evs.

(** An iteration that computes a cost leaves a minimum that is not above
    it; the minimum changes only to the candidate of the iteration. *)
Lemma scan_step_examined (gc_type : gc_type_t) (max_cost : Z)
  (st : scan_state) :
  let ev := fst (scan_step gc_type max_cost st) in
  let st' := snd (scan_step gc_type max_cost st) in
  (forall s, In s (candidate ev) ->
     exists q, alloc_mode q = alloc_mode (st_p st) /\
               gc_mode q = gc_mode (st_p st) /\
               min_cost (st_p st') <= fst (get_gc_cost (st_sbi st) s q)) /\
  ((min_segno (st_p st') = min_segno (st_p st) /\
    min_cost (st_p st') = min_cost (st_p st)) \/
   (In (min_segno (st_p st')) (candidate ev) /\
    min_cost (st_p st') < min_cost (st_p st) /\
    exists q, alloc_mode q = alloc_mode (st_p st) /\
              gc_mode q = gc_mode (st_p st) /\
              min_cost (st_p st')
              = fst (get_gc_cost (st_sbi st) (min_segno (st_p st')) q))).
Proof.
  cbv zeta. unfold scan_step.
  set (segno := find_next_bit (p_dirty_segmap (st_p st)) (st_last_segment st)
                              (offset (st_p st))).
  destruct (st_last_segment st <=? segno).
  { destruct (last_victim (st_sbi st) (gc_mode (st_p st)) =? 0); simpl;
      (split; [intros s [] | left; split; reflexivity]). }
  destruct (sec_usage_check _ _);
    [simpl; split; [intros s [] | left; split; reflexivity]|].
  destruct (gc_type_eqb gc_type BG_GC && _);
    [simpl; split; [intros s [] | left; split; reflexivity]|].
  match goal with |- context [get_gc_cost ?a ?b ?c] =>
    set (pc := c); destruct (get_gc_cost a b pc) as [cost sbi1] eqn:Ecost end.
  assert (Hc : fst (get_gc_cost (st_sbi st) segno pc) = cost)
    by (rewrite Ecost; reflexivity).
  unfold scan_count.
  destruct (cost <? min_cost pc) eqn:Elt.
  - apply Z.ltb_lt in Elt.
    destruct (_ <=? st_nsearched st); simpl; (split;
      [ intros s [E | []]; subst s; exists pc;
        split; [reflexivity|]; split; [reflexivity|]; rewrite Hc; lia
      | right; split; [left; reflexivity|]; split; [exact Elt|];
        exists pc; split; [reflexivity|]; split; [reflexivity|];
        symmetry; exact Hc ]).
  - apply Z.ltb_ge in Elt.
    destruct (cost =? max_cost);
      [|destruct (_ <=? st_nsearched st)]; simpl; (split;
      [ intros s [E | []]; subst s; exists pc;
        split; [reflexivity|]; split; [reflexivity|]; rewrite Hc; exact Elt
      | left; split; reflexivity ]).
Qed.

Lemma candidates_cons (ev : scan_event) (evs : list scan_event) (s : Z) :
  In s (candidates (ev :: evs)) <-> In s (candidate ev) \/ In s (candidates evs).
Proof. unfold candidates. simpl. apply in_app_iff. Qed.

(** Outside cost-benefit mode the minimum the scan ends with is the least
    cost among the candidates, and the cost of the segment selected. *)
Lemma scan_loop_cheapest (gc_type : gc_type_t) (max_cost : Z) (fuel : nat)
  (sbi : f2fs_sb_info) (p0 : victim_sel_policy) :
  alloc_mode p0 = SSR \/ gc_mode p0 = GC_GREEDY ->
  forall st evs st',
    scan_loop fuel gc_type max_cost st = Some (evs, st') ->
    scan_frame sbi (st_sbi st) ->
    alloc_mode (st_p st) = alloc_mode p0 -> gc_mode (st_p st) = gc_mode p0 ->
    min_cost (st_p st') <= min_cost (st_p st) /\
    (forall s, In s (candidates evs) ->
               min_cost (st_p st') <= fst (get_gc_cost sbi s p0)) /\
    ((min_segno (st_p st') = min_segno (st_p st) /\
      min_cost (st_p st') = min_cost (st_p st)) \/
     (In (min_segno (st_p st')) (candidates evs) /\
      min_cost (st_p st') = fst (get_gc_cost sbi (min_segno (st_p st')) p0))).
Proof.
  intros Hmode.
  assert (Hstep : forall st,
    scan_frame sbi (st_sbi st) ->
    alloc_mode (st_p st) = alloc_mode p0 -> gc_mode (st_p st) = gc_mode p0 ->
    let ev := fst (scan_step gc_type max_cost st) in
    let st1 := snd (scan_step gc_type max_cost st) in
    scan_frame sbi (st_sbi st1) /\
    alloc_mode (st_p st1) = alloc_mode p0 /\ gc_mode (st_p st1) = gc_mode p0 /\
    min_cost (st_p st1) <= min_cost (st_p st) /\
    (forall s, In s (candidate ev) ->
               min_cost (st_p st1) <= fst (get_gc_cost sbi s p0)) /\
    ((min_segno (st_p st1) = min_segno (st_p st) /\
      min_cost (st_p st1) = min_cost (st_p st)) \/
     (In (min_segno (st_p st1)) (candidate ev) /\
      min_cost (st_p st1)
      = fst (get_gc_cost sbi (min_segno (st_p st1)) p0)))).
  { intros st Hf Ha Hg. cbv zeta.
    destruct (scan_step_frame gc_type max_cost st) as (Hf' & Ha').
    pose proof (scan_step_cases gc_type max_cost st) as Hc.
    cbv zeta in Hc. destruct Hc as (Hg' & _).
    destruct (scan_step_examined gc_type max_cost st) as (Hex & Hmin).
    assert (Hcost : forall s q,
              alloc_mode q = alloc_mode (st_p st) ->
              gc_mode q = gc_mode (st_p st) ->
              fst (get_gc_cost (st_sbi st) s q) = fst (get_gc_cost sbi s p0)).
    { intros s q Hqa Hqg. symmetry.
      apply get_gc_cost_frame_eq; try congruence. }
    split; [eapply scan_frame_trans; eassumption|].
    split; [congruence|]. split; [congruence|].
    split; [destruct Hmin as [[_ E] | (_ & E & _)]; lia|].
    split.
    - intros s Hs. destruct (Hex s Hs) as (q & Hqa & Hqg & Hle).
      rewrite (Hcost s q Hqa Hqg) in Hle. exact Hle.
    - destruct Hmin as [Hm | (Hin & _ & q & Hqa & Hqg & E)];
        [left; exact Hm | right].
      split; [exact Hin|]. rewrite E. apply Hcost; assumption. }
  intros st evs st' H.
  refine (scan_loop_ind gc_type max_cost
    (fun st evs st' =>
       scan_frame sbi (st_sbi st) ->
       alloc_mode (st_p st) = alloc_mode p0 ->
       gc_mode (st_p st) = gc_mode p0 ->
       min_cost (st_p st') <= min_cost (st_p st) /\
       (forall s, In s (candidates evs) ->
                  min_cost (st_p st') <= fst (get_gc_cost sbi s p0)) /\
       ((min_segno (st_p st') = min_segno (st_p st) /\
         min_cost (st_p st') = min_cost (st_p st)) \/
        (In (min_segno (st_p st')) (candidates evs) /\
         min_cost (st_p st')
         = fst (get_gc_cost sbi (min_segno (st_p st')) p0))))
    _ _ fuel st evs st' H).
  - intros st0 _ Hf Ha Hg.
    destruct (Hstep st0 Hf Ha Hg) as (_ & _ & _ & Hle & Hex & Hmin).
    split; [exact Hle|]. split.
    + intros s Hs. apply candidates_cons in Hs.
      destruct Hs as [Hs | []]. apply Hex. exact Hs.
    + destruct Hmin as [Hm | [Hin E]]; [left; exact Hm | right].
      split; [|exact E]. apply candidates_cons. left. exact Hin.
  - intros st0 evs0 st0' _ IH Hf Ha Hg.
    destruct (Hstep st0 Hf Ha Hg) as (Hf1 & Ha1 & Hg1 & Hle & Hex & Hmin).
    destruct (IH Hf1 Ha1 Hg1) as (Hle' & Hex' & Hmin').
    split; [lia|]. split.
    + intros s Hs. apply candidates_cons in Hs. destruct Hs as [Hs | Hs].
      * specialize (Hex s Hs). lia.
      * apply Hex'. exact Hs.
    + destruct Hmin' as [[E1 E2] | [Hin E]].
      * destruct Hmin as [[E3 E4] | [Hin E]].
        -- left. split; congruence.
        -- right. rewrite E1, E2. split; [|exact E].
           apply candidates_cons. left. exact Hin.
      * right. split; [|exact E]. apply candidates_cons. right. exact Hin.
Qed.

(** The candidates of a scan are dirty segments of the area scanned. *)
Lemma scan_loop_candidates (gc_type : gc_type_t) (max_cost : Z) (fuel : nat)
  (M : Z) :
  forall st evs st',
    scan_loop fuel gc_type max_cost st = Some (evs, st') ->
    scan_wf st -> st_last_segment st <= M ->
    forall s, In s (candidates evs) ->
      0 <= s < M /\ Z.testbit (p_dirty_segmap (st_p st)) s = true.
Proof.
  assert (Hstep : forall st,
    scan_wf st -> st_last_segment st <= M ->
    scan_wf (snd (scan_step gc_type max_cost st)) /\
    st_last_segment (snd (scan_step gc_type max_cost st)) <= M /\
    p_dirty_segmap (st_p (snd (scan_step gc_type max_cost st)))
    = p_dirty_segmap (st_p st) /\
    forall s, In s (candidate (fst (scan_step gc_type max_cost st))) ->
      0 <= s < M /\ Z.testbit (p_dirty_segmap (st_p st)) s = true).
  { intros st Hw Hl.
    destruct (scan_step_progress gc_type max_cost st Hw) as (Hw' & _).
    pose proof (scan_step_cases gc_type max_cost st) as Hc.
    cbv zeta in Hc. destruct Hc as (_ & _ & Hd & _ & Hc).
    pose proof (find_next_bit_spec (p_dirty_segmap (st_p st))
                  (st_last_segment st) (offset (st_p st))) as Hfb.
    destruct Hw as [_ Ho _ Hcur].
    split; [exact Hw'|]. split; [|split; [exact Hd|]].
    - destruct Hc as [(_ & E & _) | [(_ & _ & _ & E & _) | (_ & E & _)]].
      + rewrite E. exact Hl.
      + rewrite E. lia.
      + rewrite E. exact Hl.
    - intros s Hs.
      destruct Hc as [(E & _) | [(E & _) | (Hlt & _ & _ & Hc)]];
        [rewrite E in Hs; destruct Hs | rewrite E in Hs; destruct Hs |].
      destruct Hfb as [Hfb | [Hr Hb]]; [lia|].
      assert (Es : s = find_next_bit (p_dirty_segmap (st_p st))
                         (st_last_segment st) (offset (st_p st))).
      { destruct Hc as [(E & _) | (_ & [(E & _) | [(E & _) | (E & _)]])];
          rewrite E in Hs; simpl in Hs; try contradiction;
          destruct Hs as [Hs | Hs];
          first [symmetry; exact Hs | contradiction]. }
      subst s. split; [lia | exact Hb]. }
  intros st evs st' H.
  refine (scan_loop_ind gc_type max_cost
    (fun st evs st' =>
       scan_wf st -> st_last_segment st <= M ->
       forall s, In s (candidates evs) ->
         0 <= s < M /\ Z.testbit (p_dirty_segmap (st_p st)) s = true)
    _ _ fuel st evs st' H).
  - intros st0 _ Hw Hl s Hs. apply candidates_cons in Hs.
    destruct Hs as [Hs | []].
    apply (proj2 (proj2 (proj2 (Hstep st0 Hw Hl)))). exact Hs.
  - intros st0 evs0 st0' _ IH Hw Hl s Hs.
    destruct (Hstep st0 Hw Hl) as (Hw1 & Hl1 & Hd1 & Hc1).
    apply candidates_cons in Hs. destruct Hs as [Hs | Hs].
    + apply Hc1. exact Hs.
    + rewrite <- Hd1. apply (IH Hw1 Hl1). exact Hs.
Qed.

(** X11.  Outside cost-benefit mode the scan selects a cheapest candidate.
    In SSR mode, and in LFS mode with the Greedy policy, the candidates
    whose cost the scan of [get_victim_by_default] computes are dirty
    segments of the main area; the segment the scan ends with is one of
    them, its cost is below the cap, and no candidate has a lower cost: for
    Greedy the valid-block count of its section, for SSR the valid-block
    count of the segment at the last checkpoint.  When nothing is selected
    every candidate costs at least the cap. *)
Theorem scan_selects_cheapest (sbi : f2fs_sb_info) (gc_type : gc_type_t)
  (type : dirty_type) (a : alloc_mode_t) (fuel : nat)
  (evs : list scan_event) (st' : scan_state) :
  let p := start_policy sbi gc_type type a in
  let cost := fun s => match a with
                       | SSR => ckpt_valid_blocks (get_seg_entry sbi s)
                       | LFS => get_valid_blocks sbi s (segs_per_sec sbi)
                       end in
  let class := match a with SSR => type | LFS => DIRTY end in
  sbi_wf sbi ->
  a = SSR \/ gc_mode p = GC_GREEDY ->
  scan_loop fuel gc_type (min_cost p)
    {| st_sbi := sbi; st_p := p;
       st_last_segment := MAIN_SEGS sbi; st_nsearched := 0 |}
  = Some (evs, st') ->
  (forall s, In s (candidates evs) ->
     0 <= s < main_segments sbi /\
     Z.testbit (dirty_segmap (dirty_i sbi) class) s = true) /\
  (min_segno (st_p st') <> NULL_SEGNO ->
   In (min_segno (st_p st')) (candidates evs) /\
   cost (min_segno (st_p st')) = min_cost (st_p st') /\
   cost (min_segno (st_p st')) < get_max_cost sbi p /\
   forall s, In s (candidates evs) -> cost (min_segno (st_p st')) <= cost s) /\
  (min_segno (st_p st') = NULL_SEGNO ->
   forall s, In s (candidates evs) -> get_max_cost sbi p <= cost s).
Proof.
  intros p cost class Hwf Hmode H.
  pose proof (start_policy_fields sbi gc_type type a) as Hp. cbv zeta in Hp.
  fold p class in Hp. destruct Hp as (Ha & _ & Hd & _ & _ & _ & Hn & Hc).
  set (st0 := {| st_sbi := sbi; st_p := p;
                 st_last_segment := MAIN_SEGS sbi; st_nsearched := 0 |}) in *.
  assert (Hcost : forall s, fst (get_gc_cost sbi s p) = cost s).
  { intros s. unfold get_gc_cost, cost. rewrite Ha.
    destruct a; [|reflexivity].
    destruct Hmode as [E | E]; [discriminate|]. rewrite E. reflexivity. }
  assert (Hm : alloc_mode p = SSR \/ gc_mode p = GC_GREEDY)
    by (rewrite Ha; exact Hmode).
  destruct (scan_loop_cheapest gc_type (min_cost p) fuel sbi p Hm st0 _ _ H
              (scan_frame_refl sbi) eq_refl eq_refl)
    as (Hle & Hex & Hmin).
  destruct (start_scan_wf sbi sbi gc_type type a Hwf eq_refl) as [Hswf _].
  fold p st0 in Hswf.
  pose proof (scan_loop_candidates gc_type (min_cost p) fuel
                (main_segments sbi) st0 evs st' H Hswf (Z.le_refl _)) as Hcand.
  cbn [st0 st_p] in Hle, Hmin, Hcand.
  pose proof (wf_segs sbi Hwf) as Hsegs.
  split; [intros s Hs; rewrite <- Hd; apply Hcand; exact Hs|].
  split.
  - intros Hsel.
    destruct Hmin as [[E _] | [Hin E]]; [rewrite E in Hsel; contradiction|].
    rewrite Hcost in E. split; [exact Hin|]. split; [symmetry; exact E|].
    split.
    + rewrite <- E, <- Hc.
      destruct (scan_loop_min_below_cap gc_type fuel sbi st0 evs st'
                  eq_refl Hn H) as (_ & Hb).
      apply Hb. exact Hsel.
    + intros s Hs. rewrite <- E, <- Hcost. apply Hex. exact Hs.
  - intros Hnone s Hs. rewrite <- Hcost, <- Hc.
    destruct Hmin as [[_ E] | [Hin _]].
    + rewrite <- E. apply Hex. exact Hs.
    + apply Hcand in Hin. rewrite Hnone in Hin. unfold NULL_SEGNO in Hin.
      pose proof (wf_spc sbi Hwf). lia.
Qed.

(** *** What a selection leaves behind *)

(** Outside cost-benefit mode an iteration does not touch the segment
    information table. *)
Lemma scan_step_sit (gc_type : gc_type_t) (max_cost : Z) (st : scan_state) :
  alloc_mode (st_p st) = SSR \/ gc_mode (st_p st) = GC_GREEDY ->
  sit_i (st_sbi (snd (scan_step gc_type max_cost st))) = sit_i (st_sbi st).
Proof.
  intros Hmode. unfold scan_step.
  destruct (st_last_segment st <=? _).
  { destruct (last_victim (st_sbi st) (gc_mode (st_p st)) =? 0); reflexivity. }
  destruct (sec_usage_check _ _); [reflexivity|].
  destruct (gc_type_eqb gc_type BG_GC && _); [reflexivity|].
  match goal with |- context [get_gc_cost ?a ?b ?c] =>
    assert (Hc : snd (get_gc_cost a b c) = a);
    [|destruct (get_gc_cost a b c) as [cost sbi1]] end.
  { unfold get_gc_cost. cbn [alloc_mode gc_mode set_offset].
    destruct (alloc_mode (st_p st)); [|reflexivity].
    destruct Hmode as [E | E]; [discriminate|]. rewrite E. reflexivity. }
  cbn [snd] in Hc. subst sbi1. unfold scan_count.
  destruct (cost <? _); [|destruct (cost =? max_cost)];
    try (destruct (_ <=? st_nsearched st)); reflexivity.
Qed.

Lemma scan_loop_sit (gc_type : gc_type_t) (max_cost : Z) (fuel : nat)
  (st : scan_state) (evs : list scan_event) (st' : scan_state) :
  alloc_mode (st_p st) = SSR \/ gc_mode (st_p st) = GC_GREEDY ->
  scan_loop fuel gc_type max_cost st = Some (evs, st') ->
  sit_i (st_sbi st') = sit_i (st_sbi st).
Proof.
  intros Hmode H.
  assert (Hinv : alloc_mode (st_p st') = alloc_mode (st_p st) /\
                 gc_mode (st_p st') = gc_mode (st_p st) /\
                 sit_i (st_sbi st') = sit_i (st_sbi st)).
  { apply (scan_loop_invariant gc_type max_cost
      (fun st1 => alloc_mode (st_p st1) = alloc_mode (st_p st) /\
                  gc_mode (st_p st1) = gc_mode (st_p st) /\
                  sit_i (st_sbi st1) = sit_i (st_sbi st))) with (3 := H).
    - intros st1 (Ha & Hg & Hs).
      destruct (scan_step_frame gc_type max_cost st1) as (_ & Ha').
      pose proof (scan_step_cases gc_type max_cost st1) as Hc.
      cbv zeta in Hc. destruct Hc as (Hg' & _).
      split; [congruence|]. split; [congruence|].
      rewrite scan_step_sit; [exact Hs|]. rewrite Ha, Hg. exact Hmode.
    - repeat split. }
  apply Hinv.
Qed.

(** The fields a selection never writes. *)
Definition layout_frame (a b : f2fs_sb_info) : Prop :=
  segs_per_sec a = segs_per_sec b /\
  log_blocks_per_seg a = log_blocks_per_seg b /\
  main_segments a = main_segments b /\
  total_sections a = total_sections b /\
  dirty_segmap (dirty_i a) = dirty_segmap (dirty_i b) /\
  nr_dirty (dirty_i a) = nr_dirty (dirty_i b) /\
  sentries (sit_i a) = sentries (sit_i b).

Lemma scan_frame_layout (a b : f2fs_sb_info) :
  scan_frame a b -> layout_frame a b.
Proof.
  intros (H1 & H2 & H3 & H4 & _ & H6 & H7).
  repeat split; try assumption; rewrite H6; reflexivity.
Qed.

Lemma got_it_layout (sbi : f2fs_sb_info) (gc_type : gc_type_t)
  (p : victim_sel_policy) :
  layout_frame sbi (snd (got_it sbi gc_type p)) /\
  sit_i (snd (got_it sbi gc_type p)) = sit_i sbi /\
  (alloc_mode p = SSR -> snd (got_it sbi gc_type p) = sbi).
Proof.
  unfold got_it. destruct (alloc_mode p); [destruct gc_type|]; simpl;
    repeat split; discriminate.
Qed.

Lemma layout_frame_trans (a b c : f2fs_sb_info) :
  layout_frame a b -> layout_frame b c -> layout_frame a c.
Proof.
  unfold layout_frame. intros H1 H2.
  repeat match goal with H : _ /\ _ |- _ => destruct H end.
  repeat split; congruence.
Qed.

(** X12.  What [get_victim_by_default] leaves behind.  No call changes the
    layout of the main area, the dirty maps and counts, or the entries of
    the segment table.  A call that returns no victim, and any SSR call,
    leaves the reserved-section map and [cur_victim_sec] as they were; in
    SSR and Greedy mode the mtime range stays too, so that only the scan
    cursor [last_victim] can have moved.  With a search budget of zero the
    superblock is returned untouched, without a victim. *)
Theorem selection_leaves_no_mark (fuel : nat) (sbi : f2fs_sb_info)
  (gc_type : gc_type_t) (type : dirty_type) (a : alloc_mode_t)
  (res : option Z) (sbi' : f2fs_sb_info) :
  sbi_wf sbi ->
  get_victim_by_default fuel sbi gc_type type a = Some (res, sbi') ->
  let p := start_policy sbi gc_type type a in
  layout_frame sbi sbi' /\
  (res = None \/ a = SSR ->
   victim_secmap (dirty_i sbi') = victim_secmap (dirty_i sbi) /\
   cur_victim_sec sbi' = cur_victim_sec sbi) /\
  (a = SSR \/ gc_mode p = GC_GREEDY -> sit_i sbi' = sit_i sbi) /\
  (max_search p = 0 -> res = None /\ sbi' = sbi).
Proof.
  intros Hwf H p. unfold get_victim_by_default in H. fold p in H.
  pose proof (start_policy_fields sbi gc_type type a) as Hp.
  cbv zeta in Hp. fold p in Hp. destruct Hp as (Ha & _ & _ & _ & _ & _ & Hn & _).
  destruct (max_search p =? 0) eqn:Ems.
  { inversion H; subst res sbi'. split; [repeat split|].
    split; [intros _; split; reflexivity|].
    split; [reflexivity|]. intros _. split; reflexivity. }
  apply Z.eqb_neq in Ems.
  assert (Hlast : forall X : Prop, (max_search p = 0 -> X))
    by (intros X E; contradiction).
  destruct (match a, gc_type with
            | LFS, FG_GC => check_bg_victims sbi
            | _, _ => (NULL_SEGNO, sbi)
            end) as [fast sbi1] eqn:Efast.
  destruct (negb (fast =? NULL_SEGNO)) eqn:Ef.
  - (* the reserved section: LFS in FG mode *)
    apply negb_true_iff, Z.eqb_neq in Ef.
    assert (Hfg : a = LFS /\ gc_type = FG_GC /\ layout_frame sbi sbi1 /\
                  sit_i sbi1 = sit_i sbi).
    { destruct a, gc_type;
        try (inversion Efast as [[Hf1 Hs1]]; symmetry in Hf1; contradiction).
      split; [reflexivity|]. split; [reflexivity|].
      assert (Es : sbi1 = snd (check_bg_victims sbi))
        by (rewrite Efast; reflexivity).
      rewrite Es. unfold check_bg_victims.
      rewrite check_bg_victims_loop_find.
      destruct (find _ _); simpl; repeat split. }
    destruct Hfg as (E1 & E2 & Hl1 & Hs1).
    pose proof (got_it_layout sbi1 gc_type (set_min p fast (min_cost p)))
      as (Hl2 & Hs2 & _).
    destruct (got_it sbi1 gc_type (set_min p fast (min_cost p)))
      as [result sbi2].
    cbn [snd] in Hl2, Hs2. inversion H; subst res sbi'.
    split; [eapply layout_frame_trans; eassumption|].
    split; [intros [E | E]; [discriminate | congruence]|].
    split; [intros _; congruence | apply Hlast].
  - (* the scan *)
    apply negb_false_iff, Z.eqb_eq in Ef.
    assert (E1 : sbi1 = sbi).
    { destruct a, gc_type; try (inversion Efast; reflexivity).
      assert (Hfst : fst (check_bg_victims sbi) = NULL_SEGNO)
        by (rewrite Efast; exact Ef).
      rewrite (check_bg_victims_none sbi Hwf Hfst) in Efast.
      inversion Efast. reflexivity. }
    subst sbi1.
    destruct (scan_loop fuel gc_type (min_cost p) _)
      as [[evs st']|] eqn:Erun; [|discriminate].
    destruct (start_scan_wf sbi sbi gc_type type a Hwf eq_refl) as [Hswf _].
    fold p in Hswf.
    destruct (scan_loop_keeps gc_type (min_cost p) fuel _ evs st' Hswf
                ltac:(cbn [st_p]; rewrite Hn; unfold NULL_SEGNO; lia) Erun)
      as (_ & _ & Hal & Hgm & _ & _ & Hfr).
    pose proof (fun Hm => scan_loop_sit gc_type (min_cost p) fuel _ evs st'
                            Hm Erun) as Hsit.
    cbn [st_p st_sbi] in *.
    pose proof (got_it_layout (st_sbi st') gc_type (st_p st'))
      as (Hl2 & Hs2 & Hssr).
    pose proof (scan_frame_layout _ _ Hfr) as Hl1.
    assert (Hmarks : victim_secmap (dirty_i (st_sbi st'))
                     = victim_secmap (dirty_i sbi) /\
                     cur_victim_sec (st_sbi st') = cur_victim_sec sbi).
    { destruct Hfr as (_ & _ & _ & _ & Hc & Hd & _).
      split; [rewrite <- Hd; reflexivity | symmetry; exact Hc]. }
    destruct (negb (min_segno (st_p st') =? NULL_SEGNO)).
    + destruct (got_it (st_sbi st') gc_type (st_p st')) as [result sbi2].
      cbn [snd] in *. inversion H; subst res sbi'.
      split; [eapply layout_frame_trans; eassumption|].
      split.
      * intros [E | E]; [discriminate|].
        rewrite Hssr by congruence. exact Hmarks.
      * split; [|apply Hlast]. intros Hm. rewrite Hs2. apply Hsit.
        rewrite Ha. exact Hm.
    + inversion H; subst res sbi'.
      split; [exact Hl1|]. split; [intros _; exact Hmarks|].
      split; [|apply Hlast]. intros Hm. apply Hsit. rewrite Ha. exact Hm.
Qed.

(** *** The range of the cost-benefit cost *)

Lemma cb_cost_range (u age : Z) :
  0 <= u <= 100 -> 0 <= age <= 100 ->
  UINT_MAX - 10000 <= cb_cost u age <= UINT_MAX.
Proof.
  intros Hu Ha. unfold cb_cost.
  assert (0 <= 100 * (100 - u) * age / (100 + u) <= 10000).
  { split; [apply Z.div_pos; nia|].
    apply Z.div_le_upper_bound; [lia | nia]. }
  lia.
Qed.

Lemma cb_cost_util_monotone (u1 u2 age : Z) :
  0 <= u1 <= u2 -> u2 <= 100 -> 0 <= age ->
  cb_cost u1 age <= cb_cost u2 age.
Proof.
  intros Hu H100 Ha. unfold cb_cost.
  assert (100 * (100 - u2) * age / (100 + u2)
          <= 100 * (100 - u1) * age / (100 + u1)).
  { apply Z.le_trans with (100 * (100 - u1) * age / (100 + u2)).
    - apply Z.div_le_mono; [lia | nia].
    - apply Z.div_le_compat_l; [nia | lia]. }
  lia.
Qed.

(** X13.  The cost-benefit cost stays within 10000 of [UINT_MAX], is
    [UINT_MAX] (the cap, at which a candidate is dropped) for a section
    whose mean mtime is not older than the newest mtime known and for a
    section without a free block, and does not fall when the utilization
    rises: of two sections of equal mtime the emptier one is not the more
    expensive. *)
Theorem cb_cost_range_and_cap (sbi : f2fs_sb_info) (segno other : Z) :
  cb_wf sbi segno ->
  UINT_MAX - 10000 <= fst (get_cb_cost sbi segno) <= UINT_MAX /\
  (max_mtime (sit_i sbi) <= sec_mtime sbi segno ->
   fst (get_cb_cost sbi segno) = UINT_MAX) /\
  (cb_util sbi segno = 100 -> fst (get_cb_cost sbi segno) = UINT_MAX) /\
  (cb_wf sbi other ->
   sec_mtime sbi other = sec_mtime sbi segno ->
   cb_util sbi segno <= cb_util sbi other ->
   fst (get_cb_cost sbi segno) <= fst (get_cb_cost sbi other)).
Proof.
  intros Hwf. rewrite (get_cb_cost_spec sbi segno Hwf). cbn [fst].
  pose proof (cb_util_range sbi segno Hwf) as [_ Hu].
  set (m := sec_mtime sbi segno).
  assert (Hr : Z.min (min_mtime (sit_i sbi)) m <= m
               <= Z.max (max_mtime (sit_i sbi)) m) by lia.
  pose proof (cb_age_range _ _ _ Hr) as Hage.
  split; [apply cb_cost_range; assumption|]. split; [|split].
  - intros Hnew. rewrite (Z.max_r _ m) by exact Hnew.
    unfold cb_age, cb_cost.
    destruct (m =? Z.min (min_mtime (sit_i sbi)) m) eqn:E.
    + rewrite Z.mul_0_r. reflexivity.
    + apply Z.eqb_neq in E.
      rewrite Z.div_mul by lia.
      replace (100 - 100) with 0 by lia. rewrite Z.mul_0_r. reflexivity.
  - intros E. rewrite E. unfold cb_cost. reflexivity.
  - intros Hwfo Hm Hle.
    rewrite (get_cb_cost_spec sbi other Hwfo). cbn [fst]. rewrite Hm. fold m.
    pose proof (cb_util_range sbi other Hwfo) as [_ Huo].
    apply cb_cost_util_monotone; lia.
Qed.

(** *** The sections reserved by background GC *)

Lemma find_in_range (f : Z -> bool) (map : Z) (n : nat) :
  forall k : nat,
    match find f (filter (Z.testbit map) (List.map Z.of_nat (seq k n))) with
    | Some s =>
        Z.of_nat k <= s < Z.of_nat (k + n) /\ Z.testbit map s = true /\
        f s = true /\
        forall t, Z.of_nat k <= t < s -> Z.testbit map t = true -> f t = false
    | None =>
        forall t, Z.of_nat k <= t < Z.of_nat (k + n) ->
                  Z.testbit map t = true -> f t = false
    end.
Proof.
  induction n as [|n IH]; intros k; simpl.
  - intros t Ht. lia.
  - specialize (IH (S k)).
    destruct (Z.testbit map (Z.of_nat k)) eqn:Eb; simpl.
    + destruct (f (Z.of_nat k)) eqn:Ef.
      * split; [lia|]. split; [exact Eb|]. split; [exact Ef|].
        intros t Ht. lia.
      * destruct (find f _) as [s|].
        -- destruct IH as (Hr & Hb & Hf & Hlow).
           split; [lia|]. split; [exact Hb|]. split; [exact Hf|].
           intros t Ht Hbt.
           destruct (Z.eq_dec t (Z.of_nat k)) as [E | E];
             [subst t; exact Ef | apply Hlow; [lia | exact Hbt]].
        -- intros t Ht Hbt.
           destruct (Z.eq_dec t (Z.of_nat k)) as [E | E];
             [subst t; exact Ef | apply IH; [lia | exact Hbt]].
    + destruct (find f _) as [s|].
      * destruct IH as (Hr & Hb & Hf & Hlow).
        split; [lia|]. split; [exact Hb|]. split; [exact Hf|].
        intros t Ht Hbt.
        destruct (Z.eq_dec t (Z.of_nat k)) as [E | E];
          [subst t; congruence | apply Hlow; [lia | exact Hbt]].
      * intros t Ht Hbt.
        destruct (Z.eq_dec t (Z.of_nat k)) as [E | E];
          [subst t; congruence | apply IH; [lia | exact Hbt]].
Qed.

(** X14.  [check_bg_victims] is a first fit over the reserved sections.
    It returns the first segment of the lowest-numbered section whose bit
    is set in [victim_secmap] and which is not in use, and clears that bit
    and no other; when every reserved section is in use it returns
    [NULL_SEGNO] and changes nothing. *)
Theorem check_bg_victims_first_fit (sbi : f2fs_sb_info) :
  sbi_wf sbi ->
  let reserved := victim_secmap (dirty_i sbi) in
  (fst (check_bg_victims sbi) = NULL_SEGNO /\
   snd (check_bg_victims sbi) = sbi /\
   forall t, 0 <= t < total_sections sbi -> Z.testbit reserved t = true ->
             sec_usage_check sbi t = true) \/
  (exists secno,
     0 <= secno < total_sections sbi /\
     fst (check_bg_victims sbi) = secno * segs_per_sec sbi /\
     fst (check_bg_victims sbi) <> NULL_SEGNO /\
     Z.testbit reserved secno = true /\
     sec_usage_check sbi secno = false /\
     (forall t, 0 <= t < secno -> Z.testbit reserved t = true ->
                sec_usage_check sbi t = true) /\
     snd (check_bg_victims sbi)
     = set_victim_secmap sbi (Z.clearbit reserved secno) /\
     Z.testbit (victim_secmap (dirty_i (snd (check_bg_victims sbi)))) secno
     = false /\
     forall t, t <> secno ->
       Z.testbit (victim_secmap (dirty_i (snd (check_bg_victims sbi)))) t
       = Z.testbit reserved t).
Proof.
  intros Hwf reserved. pose proof (wf_secs sbi Hwf) as [Hsec _].
  unfold check_bg_victims. rewrite check_bg_victims_loop_find.
  pose proof (find_in_range (fun s => negb (sec_usage_check sbi s)) reserved
                (Z.to_nat (MAIN_SECS sbi)) 0) as H.
  unfold set_bits. fold reserved.
  destruct (find _ _) as [secno|].
  - right. destruct H as (Hr & Hb & Hf & Hlow).
    unfold MAIN_SECS in Hr. rewrite Nat.add_0_l, Z2Nat.id in Hr by exact Hsec.
    change (Z.of_nat 0) with 0 in *.
    pose proof (section_start_range sbi secno Hwf Hr) as Hrange.
    exists secno. cbn [fst snd].
    rewrite wrap32_small by (unfold NULL_SEGNO in Hrange; lia).
    split; [exact Hr|]. split; [reflexivity|]. split; [lia|].
    split; [exact Hb|]. split; [apply negb_true_iff; exact Hf|].
    split.
    { intros t Ht Hbt. specialize (Hlow t Ht Hbt).
      apply negb_false_iff in Hlow. exact Hlow. }
    split; [reflexivity|]. simpl.
    split; [apply Z.clearbit_eq|].
    intros t Ht. apply Z.clearbit_neq. intros E. apply Ht. symmetry. exact E.
  - left. cbn [fst snd]. split; [reflexivity|]. split; [reflexivity|].
    intros t Ht Hbt. unfold MAIN_SECS in H.
    rewrite Nat.add_0_l, Z2Nat.id in H by exact Hsec.
    specialize (H t Ht Hbt). apply negb_false_iff in H. exact H.
Qed.

(** *** What an uncut scan has seen *)

Lemma find_bit_from_first (map size : Z) (n : nat) (i : Z) :
  (find_bit_from map size n i = size /\
   forall t, i <= t < i + Z.of_nat n -> Z.testbit map t = false) \/
  (i <= find_bit_from map size n i < i + Z.of_nat n /\
   Z.testbit map (find_bit_from map size n i) = true /\
   forall t, i <= t < find_bit_from map size n i -> Z.testbit map t = false).
Proof.
  revert i. induction n as [|n IH]; intros i; simpl find_bit_from.
  - left. split; [reflexivity | intros t Ht; lia].
  - destruct (Z.testbit map i) eqn:Hb.
    + right. split; [lia|]. split; [exact Hb | intros t Ht; lia].
    + destruct (IH (i + 1)) as [[E Hn] | (Hr & Hs & Hn)].
      * left. split; [exact E|]. intros t Ht.
        destruct (Z.eq_dec t i) as [Et | Et];
          [subst t; exact Hb | apply Hn; lia].
      * right. split; [lia|]. split; [exact Hs|]. intros t Ht.
        destruct (Z.eq_dec t i) as [Et | Et];
          [subst t; exact Hb | apply Hn; lia].
Qed.

Lemma find_next_bit_first (map size off : Z) :
  (find_next_bit map size off = size /\
   forall t, off <= t < size -> Z.testbit map t = false) \/
  (off <= find_next_bit map size off < size /\
   Z.testbit map (find_next_bit map size off) = true /\
   forall t, off <= t < find_next_bit map size off ->
             Z.testbit map t = false).
Proof.
  unfold find_next_bit. destruct (size <=? off) eqn:E.
  - apply Z.leb_le in E. left. split; [reflexivity | intros t Ht; lia].
  - apply Z.leb_gt in E.
    destruct (find_bit_from_first map size (Z.to_nat (size - off)) off)
      as [[E1 Hn] | (Hr & Hs & Hn)].
    + left. split; [exact E1|]. intros t Ht. apply Hn. lia.
    + right. split; [lia|]. split; [exact Hs | exact Hn].
Qed.

(** The segments an iteration looked at, filtered out or not. *)
Definition visit (ev : scan_event) : list Z :=
  match ev with
  | ScanFiltered s | ScanDiscarded s | ScanCounted s | ScanCapped s => [s]
  | _ => []
  end.

Definition visited (evs : list scan_event) : list Z := flat_map visit evs.

Lemma visited_cons (ev : scan_event) (evs : list scan_event) (s : Z) :
  In s (visited (ev :: evs)) <-> In s (visit ev) \/ In s (visited evs).
Proof. unfold visited. simpl. apply in_app_iff. Qed.

Lemma same_unit (segno t u : Z) :
  1 <= u -> 0 <= segno -> segno <= t ->
  t < (if 1 <? u then segno + u - segno mod u else segno + u) ->
  segno / u = t / u.
Proof.
  intros Hu Hs Hle Hlt.
  assert (Hb : t < segno / u * u + u).
  { destruct (1 <? u) eqn:E.
    - pose proof (Z.div_mod segno u ltac:(lia)). nia.
    - apply Z.ltb_ge in E. assert (u = 1) by lia. subst u.
      rewrite Z.div_1_r. lia. }
  pose proof (Z.mul_div_le segno u ltac:(lia)) as H1.
  apply Z.div_unique with (r := t - segno / u * u); [left; nia | ring].
Qed.

(** A scan that ends by running out of dirty bits has looked into the unit
    of every dirty segment from the cursor to the end of the area and,
    after the wrap, from the start of the area to the old cursor. *)
Lemma scan_loop_covers (gc_type : gc_type_t) (max_cost : Z) (fuel : nat) :
  forall st evs st',
    scan_loop fuel gc_type max_cost st = Some (evs, st') ->
    scan_wf st -> last evs ScanEnd = ScanEnd ->
    forall t,
      offset (st_p st) <= t < st_last_segment st \/
      0 <= t < last_victim (st_sbi st) (gc_mode (st_p st)) ->
      Z.testbit (p_dirty_segmap (st_p st)) t = true ->
      exists s, In s (visited evs) /\
                s / ofs_unit (st_p st) = t / ofs_unit (st_p st).
Proof.
  intros st evs st' H.
  refine (scan_loop_ind gc_type max_cost
    (fun st evs st' =>
       scan_wf st -> last evs ScanEnd = ScanEnd ->
       forall t,
         offset (st_p st) <= t < st_last_segment st \/
         0 <= t < last_victim (st_sbi st) (gc_mode (st_p st)) ->
         Z.testbit (p_dirty_segmap (st_p st)) t = true ->
         exists s, In s (visited evs) /\
                   s / ofs_unit (st_p st) = t / ofs_unit (st_p st))
    _ _ fuel st evs st' H).
  - (* the iteration that breaks *)
    intros st0 Hb Hw Hlast t Ht Hbit. simpl in Hlast.
    pose proof (scan_step_cases gc_type max_cost st0) as Hc.
    cbv zeta in Hc. destruct Hc as (_ & _ & _ & _ & Hc).
    rewrite Hlast in Hc.
    destruct Hc as [(_ & _ & Hge & Hz) | [(E & _) | (_ & _ & _ & Hc)]].
    + exfalso.
      destruct (find_next_bit_first (p_dirty_segmap (st_p st0))
                  (st_last_segment st0) (offset (st_p st0)))
        as [[_ Hn] | (Hr & _)]; [|lia].
      destruct Ht as [Ht | Ht]; [|lia].
      rewrite (Hn t Ht) in Hbit. discriminate.
    + discriminate.
    + destruct Hc as [(E & _) | (_ & [(E & _) | [(E & _) | (E & _)]])];
        discriminate.
  - (* an iteration that goes on *)
    intros st0 evs0 st0' Hb IH Hw Hlast t Ht Hbit.
    destruct (scan_step_progress gc_type max_cost st0 Hw) as (Hw' & _).
    pose proof (scan_step_cases gc_type max_cost st0) as Hc.
    cbv zeta in Hc. destruct Hc as (Hg & Hu & Hd & _ & Hc).
    pose proof (find_next_bit_first (p_dirty_segmap (st_p st0))
                  (st_last_segment st0) (offset (st_p st0))) as Hfb.
    set (segno := find_next_bit (p_dirty_segmap (st_p st0))
                    (st_last_segment st0) (offset (st_p st0))) in *.
    assert (Hlast' : last evs0 ScanEnd = ScanEnd).
    { destruct evs0 as [|e evs1]; [reflexivity | exact Hlast]. }
    specialize (IH Hw' Hlast').
    destruct Hw as [Hunit Hoff Hls Hcur].
    destruct Hc as [(E & _) | [(E & Hge & Hnz & Hls' & Hlv' & Hof' & _)
                              | (Hlt & Hls' & Hof' & Hc)]].
    + rewrite E in Hb. discriminate.
    + (* wrap: nothing is left before the end, the rest comes after *)
      destruct Hfb as [[_ Hn] | (Hr & _)]; [|lia].
      destruct Ht as [Ht | Ht]; [rewrite (Hn t Ht) in Hbit; discriminate|].
      destruct (IH t) as (s & Hs & Hsu).
      * left. rewrite Hof', Hls'. exact Ht.
      * rewrite Hd. exact Hbit.
      * exists s. split; [apply visited_cons; right; exact Hs|].
        rewrite <- Hu. exact Hsu.
    + destruct Hfb as [[Ee _] | (Hr & _ & Hn)]; [fold segno in Ee; lia|].
      fold segno in Hr, Hn.
      assert (Hev : In segno (visit (fst (scan_step gc_type max_cost st0))) /\
                    last_victim (st_sbi (snd (scan_step gc_type max_cost st0)))
                                (gc_mode (st_p st0))
                    = last_victim (st_sbi st0) (gc_mode (st_p st0))).
      { destruct Hc as [(E & _) | (Hlv & [(E & _) | [(E & _) | (E & _)]])].
        - rewrite E in Hb. discriminate.
        - rewrite E. split; [left; reflexivity | exact Hlv].
        - rewrite E. split; [left; reflexivity | exact Hlv].
        - rewrite E. split; [left; reflexivity | exact Hlv]. }
      destruct Hev as [Hin Hlv].
      assert (Hofs : offset (st_p (snd (scan_step gc_type max_cost st0)))
                     = if 1 <? ofs_unit (st_p st0)
                       then segno + ofs_unit (st_p st0)
                            - segno mod ofs_unit (st_p st0)
                       else segno + ofs_unit (st_p st0)).
      { rewrite Hof'.
        rewrite (wrap32_small (segno + ofs_unit (st_p st0))) by lia.
        destruct (1 <? ofs_unit (st_p st0)); [|reflexivity].
        pose proof (Z.mod_pos_bound segno (ofs_unit (st_p st0)) ltac:(lia)).
        apply wrap32_small. lia. }
      destruct (Z_lt_le_dec t
                  (offset (st_p (snd (scan_step gc_type max_cost st0)))))
        as [Hnear | Hfar].
      * destruct Ht as [Ht | Ht].
        -- exists segno. split; [apply visited_cons; left; exact Hin|].
           assert (segno <= t).
           { destruct (Z_lt_le_dec t segno) as [Hx | Hx]; [|exact Hx].
             rewrite (Hn t ltac:(lia)) in Hbit. discriminate. }
           apply same_unit; lia.
        -- destruct (IH t) as (s & Hs & Hsu).
           ++ right. rewrite Hg, Hlv. exact Ht.
           ++ rewrite Hd. exact Hbit.
           ++ exists s. split; [apply visited_cons; right; exact Hs|].
              rewrite <- Hu. exact Hsu.
      * destruct (IH t) as (s & Hs & Hsu).
        -- destruct Ht as [Ht | Ht];
             [left; rewrite Hls'; lia | right; rewrite Hg, Hlv; exact Ht].
        -- rewrite Hd. exact Hbit.
        -- exists s. split; [apply visited_cons; right; exact Hs|].
           rewrite <- Hu. exact Hsu.
Qed.

(** X15.  A scan that is not cut short by the search budget goes once
    round the whole dirty map.  Starting at the cursor [last_victim] and
    wrapping at the end of the main area, a scan of
    [get_victim_by_default] that ends because no dirty bit is left has
    looked at a segment in the unit (section for LFS, segment for SSR) of
    every dirty segment of the main area: none is stepped over by the
    cursor arithmetic [p.offset = segno + ofs_unit - segno % ofs_unit]. *)
Theorem uncut_scan_covers_dirty_map (sbi : f2fs_sb_info)
  (gc_type : gc_type_t) (type : dirty_type) (a : alloc_mode_t) (fuel : nat)
  (evs : list scan_event) (st' : scan_state) :
  let p := start_policy sbi gc_type type a in
  let unit := match a with SSR => 1 | LFS => segs_per_sec sbi end in
  let class := match a with SSR => type | LFS => DIRTY end in
  sbi_wf sbi ->
  scan_loop fuel gc_type (min_cost p)
    {| st_sbi := sbi; st_p := p;
       st_last_segment := MAIN_SEGS sbi; st_nsearched := 0 |}
  = Some (evs, st') ->
  last evs ScanEnd = ScanEnd ->
  forall t, 0 <= t < main_segments sbi ->
    Z.testbit (dirty_segmap (dirty_i sbi) class) t = true ->
    exists s, In s (visited evs) /\ s / unit = t / unit.
Proof.
  intros p unit class Hwf H Hlast t Ht Hbit.
  pose proof (start_policy_fields sbi gc_type type a) as Hp. cbv zeta in Hp.
  fold p class unit in Hp. destruct Hp as (_ & _ & Hd & _ & Ho & Hu & _).
  destruct (start_scan_wf sbi sbi gc_type type a Hwf eq_refl) as [Hswf _].
  fold p in Hswf.
  pose proof (scan_loop_covers gc_type (min_cost p) fuel _ evs st' H Hswf
                Hlast t) as Hcov.
  cbn [st_p st_sbi st_last_segment] in Hcov.
  rewrite Hu, Hd, Ho in Hcov. apply Hcov; [|exact Hbit].
  unfold MAIN_SEGS.
  destruct (Z_lt_le_dec t (last_victim sbi (gc_mode p))); [right | left]; lia.
Qed.

(** *** The chosen section and its mark *)

(** The scan path of an LFS selection: the minimum the scan holds is a
    dirty segment of the main area, the value returned is the first
    segment of its section, and the section is marked. *)
Lemma lfs_scan_marks (sbi : f2fs_sb_info) (gc_type : gc_type_t)
  (type : dirty_type) (fuel : nat) (evs : list scan_event)
  (st' : scan_state) (r : Z) (sbi' : f2fs_sb_info) :
  sbi_wf sbi ->
  let p := start_policy sbi gc_type type LFS in
  scan_loop fuel gc_type (min_cost p)
    {| st_sbi := sbi; st_p := p;
       st_last_segment := MAIN_SEGS sbi; st_nsearched := 0 |}
  = Some (evs, st') ->
  min_segno (st_p st') <> NULL_SEGNO ->
  got_it (st_sbi st') gc_type (st_p st') = (r, sbi') ->
  let min_seg := min_segno (st_p st') in
  Z.testbit (dirty_segmap (dirty_i sbi) DIRTY) min_seg = true /\
  0 <= min_seg < main_segments sbi /\
  r = min_seg / segs_per_sec sbi * segs_per_sec sbi /\
  r <= min_seg < r + segs_per_sec sbi /\
  match gc_type with
  | FG_GC =>
      cur_victim_sec sbi' = GET_SECNO sbi min_seg /\
      victim_secmap (dirty_i sbi') = victim_secmap (dirty_i sbi)
  | BG_GC =>
      victim_secmap (dirty_i sbi')
      = Z.setbit (victim_secmap (dirty_i sbi)) (GET_SECNO sbi min_seg) /\
      cur_victim_sec sbi' = cur_victim_sec sbi
  end.
Proof.
  intros Hwf p Erun Hsel Hg min_seg.
  pose proof (wf_spc sbi Hwf) as Hs.
  pose proof (wf_segs sbi Hwf) as Hsegs.
  pose proof (start_policy_fields sbi gc_type type LFS) as Hp.
  cbv zeta in Hp. fold p in Hp.
  destruct Hp as (Ha & _ & Hd & _ & _ & Hu & Hn & _).
  destruct (start_scan_wf sbi sbi gc_type type LFS Hwf eq_refl) as [Hswf _].
  fold p in Hswf.
  pose proof (scan_loop_selects_dirty gc_type (min_cost p) fuel
                (main_segments sbi) _ evs st' Hswf (Z.le_refl _) Hn Erun)
    as Hdirty.
  destruct (scan_loop_keeps gc_type (min_cost p) fuel _ evs st' Hswf
              ltac:(cbn [st_p]; rewrite Hn; unfold NULL_SEGNO; lia) Erun)
    as (_ & _ & Hal & _ & Hun & _ & Hfr).
  cbn [st_p st_sbi] in *.
  destruct Hdirty as [Hdirty | [Hr Hbit]]; [contradiction|].
  fold min_seg in Hr, Hbit.
  destruct (section_floor min_seg (segs_per_sec sbi) Hs ltac:(lia))
    as (Hf1 & Hf2 & _).
  destruct Hfr as (Hsp & _ & _ & _ & Hcur & Hdi & _).
  unfold got_it in Hg. rewrite Hal, Ha, Hun, Hu in Hg. fold min_seg in Hg.
  rewrite wrap32_small in Hg by lia.
  unfold GET_SECNO in *. rewrite <- Hsp in Hg.
  split; [rewrite <- Hd; exact Hbit|]. split; [exact Hr|].
  inversion Hg as [[Er Es]]. split; [reflexivity|]. split; [lia|].
  destruct gc_type; cbn [victim_secmap dirty_i cur_victim_sec
                          set_victim_secmap set_cur_victim_sec].
  - rewrite <- Hdi, <- Hcur. split; reflexivity.
  - rewrite <- Hdi. split; reflexivity.
Qed.

(** C6 (amended).  A successful LFS selection returns the first segment of
    the chosen section, [(min_seg / unit) * unit], where [min_seg] is
    either the first segment of the section that the fast path took from
    [victim_secmap] (FG mode only) or the minimum [p.min_segno] with which
    the scan of the dirty bitmap ended, a dirty segment of the main area.
    In FG mode the section is recorded in [cur_victim_sec], in BG mode its
    bit is set in [victim_secmap] and nothing else about the two marks
    changes.  An LFS/FG call whose search budget [max_search] is not zero
    first goes through [victim_secmap]: for the first reserved section
    that passes the usage check it clears the bit and returns that section
    without one iteration of the dirty-bitmap scan (the result is there
    with no fuel at all). *)
Theorem lfs_victim_marking_and_fast_path (sbi : f2fs_sb_info)
  (gc_type : gc_type_t) (type : dirty_type) :
  sbi_wf sbi ->
  (forall fuel r sbi',
     get_victim_by_default fuel sbi gc_type type LFS = Some (Some r, sbi') ->
     let p := start_policy sbi gc_type type LFS in
     let reserved := victim_secmap (dirty_i sbi) in
     exists min_seg,
       0 <= min_seg < main_segments sbi /\
       r = min_seg / segs_per_sec sbi * segs_per_sec sbi /\
       r <= min_seg < r + segs_per_sec sbi /\
       ((gc_type = FG_GC /\
         fst (check_bg_victims sbi) <> NULL_SEGNO /\
         min_seg = fst (check_bg_victims sbi) /\ min_seg = r /\
         Z.testbit reserved (GET_SECNO sbi min_seg) = true /\
         cur_victim_sec sbi' = GET_SECNO sbi min_seg /\
         victim_secmap (dirty_i sbi')
         = Z.clearbit reserved (GET_SECNO sbi min_seg)) \/
        ((gc_type = BG_GC \/ fst (check_bg_victims sbi) = NULL_SEGNO) /\
         (exists evs st',
            scan_loop fuel gc_type (min_cost p)
              {| st_sbi := sbi; st_p := p;
                 st_last_segment := MAIN_SEGS sbi; st_nsearched := 0 |}
            = Some (evs, st') /\
            min_seg = min_segno (st_p st') /\ min_seg <> NULL_SEGNO) /\
         Z.testbit (dirty_segmap (dirty_i sbi) DIRTY) min_seg = true /\
         match gc_type with
         | FG_GC =>
             cur_victim_sec sbi' = GET_SECNO sbi min_seg /\
             victim_secmap (dirty_i sbi') = reserved
         | BG_GC =>
             victim_secmap (dirty_i sbi')
             = Z.setbit reserved (GET_SECNO sbi min_seg) /\
             cur_victim_sec sbi' = cur_victim_sec sbi
         end))) /\
  (forall secno,
     max_search (start_policy sbi FG_GC type LFS) <> 0 ->
     find (fun s => negb (sec_usage_check sbi s))
          (set_bits (victim_secmap (dirty_i sbi)) (MAIN_SECS sbi))
     = Some secno ->
     forall fuel,
       get_victim_by_default fuel sbi FG_GC type LFS =
       Some (Some (secno * segs_per_sec sbi),
             set_cur_victim_sec
               (set_victim_secmap sbi
                  (Z.clearbit (victim_secmap (dirty_i sbi)) secno))
               secno)).
Proof.
  intros Hwf. pose proof (wf_spc sbi Hwf) as Hs. split.
  - intros fuel r sbi' H p reserved. unfold get_victim_by_default in H.
    fold p in H.
    pose proof (start_policy_fields sbi gc_type type LFS) as Hp.
    cbv zeta in Hp. fold p in Hp.
    destruct Hp as (Ha & _ & _ & _ & _ & Hu & Hn & _).
    destruct (max_search p =? 0); [discriminate|].
    assert (Hscan : forall evs st',
      scan_loop fuel gc_type (min_cost p)
        {| st_sbi := sbi; st_p := p;
           st_last_segment := MAIN_SEGS sbi; st_nsearched := 0 |}
      = Some (evs, st') ->
      (if negb (min_segno (st_p st') =? NULL_SEGNO)
       then let '(result, sbi2) := got_it (st_sbi st') gc_type (st_p st') in
            Some (Some result, sbi2)
       else Some (None, st_sbi st')) = Some (Some r, sbi') ->
      (gc_type = BG_GC \/ fst (check_bg_victims sbi) = NULL_SEGNO) ->
      exists min_seg,
        0 <= min_seg < main_segments sbi /\
        r = min_seg / segs_per_sec sbi * segs_per_sec sbi /\
        r <= min_seg < r + segs_per_sec sbi /\
        ((gc_type = FG_GC /\
          fst (check_bg_victims sbi) <> NULL_SEGNO /\
          min_seg = fst (check_bg_victims sbi) /\ min_seg = r /\
          Z.testbit reserved (GET_SECNO sbi min_seg) = true /\
          cur_victim_sec sbi' = GET_SECNO sbi min_seg /\
          victim_secmap (dirty_i sbi')
          = Z.clearbit reserved (GET_SECNO sbi min_seg)) \/
         ((gc_type = BG_GC \/ fst (check_bg_victims sbi) = NULL_SEGNO) /\
          (exists evs st',
             scan_loop fuel gc_type (min_cost p)
               {| st_sbi := sbi; st_p := p;
                  st_last_segment := MAIN_SEGS sbi; st_nsearched := 0 |}
             = Some (evs, st') /\
             min_seg = min_segno (st_p st') /\ min_seg <> NULL_SEGNO) /\
          Z.testbit (dirty_segmap (dirty_i sbi) DIRTY) min_seg = true /\
          match gc_type with
          | FG_GC =>
              cur_victim_sec sbi' = GET_SECNO sbi min_seg /\
              victim_secmap (dirty_i sbi') = reserved
          | BG_GC =>
              victim_secmap (dirty_i sbi')
              = Z.setbit reserved (GET_SECNO sbi min_seg) /\
              cur_victim_sec sbi' = cur_victim_sec sbi
          end))).
    { intros evs st' Erun Hres Hpath.
      destruct (negb (min_segno (st_p st') =? NULL_SEGNO)) eqn:Esel;
        [|discriminate Hres].
      apply negb_true_iff, Z.eqb_neq in Esel.
      destruct (got_it (st_sbi st') gc_type (st_p st')) as [res sb'] eqn:Eg.
      inversion Hres; subst res sb'. clear Hres.
      destruct (lfs_scan_marks sbi gc_type type fuel evs st' r sbi' Hwf
                  Erun Esel Eg) as (Hbit & Hr & Er & Hin & Hmark).
      exists (min_segno (st_p st')).
      split; [exact Hr|]. split; [exact Er|]. split; [exact Hin|].
      right. split; [exact Hpath|].
      split; [exists evs, st'; repeat split; assumption|].
      split; [exact Hbit | exact Hmark]. }
    destruct gc_type.
    + (* background: no fast path *)
      cbn [negb] in H. rewrite Z.eqb_refl in H. cbn [negb] in H.
      destruct (scan_loop fuel BG_GC (min_cost p) _)
        as [[evs st']|] eqn:Erun; [|discriminate].
      apply (Hscan evs st' eq_refl H). left. reflexivity.
    + destruct (check_bg_victims sbi) as [fast sbi1] eqn:Efast.
      destruct (negb (fast =? NULL_SEGNO)) eqn:Ef.
      * (* the reserved section *)
        apply negb_true_iff, Z.eqb_neq in Ef.
        unfold check_bg_victims in Efast.
        rewrite check_bg_victims_loop_find in Efast.
        destruct (find _ _) as [secno|] eqn:Efind;
          [|inversion Efast; subst; contradiction].
        inversion Efast; subst fast sbi1. clear Efast.
        pose proof Efind as Hin. apply find_some in Hin.
        destruct Hin as [Hin _].
        apply set_bits_In in Hin. destruct Hin as [Hr Hbit].
        pose proof (section_start_range sbi secno Hwf Hr) as Hrange.
        unfold NULL_SEGNO in Hrange.
        rewrite (wrap32_small (secno * segs_per_sec sbi)) in H, Ef by lia.
        unfold got_it in H. cbn [alloc_mode ofs_unit min_segno set_min] in H.
        rewrite Ha, Hu in H.
        rewrite Z.div_mul in H by lia.
        rewrite (wrap32_small (secno * segs_per_sec sbi)) in H by lia.
        inversion H; subst r sbi'. clear H.
        pose proof (wf_secs sbi Hwf) as [_ Hsec]. unfold MAIN_SECS in Hr.
        exists (secno * segs_per_sec sbi). cbn [fst].
        rewrite (wrap32_small (secno * segs_per_sec sbi)) by lia.
        unfold GET_SECNO.
        cbn [segs_per_sec set_victim_secmap set_cur_victim_sec
             cur_victim_sec dirty_i victim_secmap].
        rewrite !Z.div_mul by lia.
        split; [nia|]. split; [reflexivity|]. split; [lia|].
        left. split; [reflexivity|]. split; [exact Ef|].
        split; [reflexivity|]. split; [reflexivity|].
        split; [exact Hbit|]. split; reflexivity.
      * (* nothing reserved is usable: the scan *)
        apply negb_false_iff, Z.eqb_eq in Ef. subst fast.
        assert (E1 : sbi1 = sbi).
        { pose proof (check_bg_victims_none sbi Hwf) as Hnone.
          rewrite Efast in Hnone. specialize (Hnone eq_refl).
          inversion Hnone. reflexivity. }
        subst sbi1.
        destruct (scan_loop fuel FG_GC (min_cost p) _)
          as [[evs st']|] eqn:Erun; [|discriminate].
        apply (Hscan evs st' eq_refl H). right. reflexivity.
  - intros secno Hms Hfind fuel. unfold get_victim_by_default.
    apply Z.eqb_neq in Hms. rewrite Hms.
    unfold check_bg_victims. rewrite check_bg_victims_loop_find, Hfind.
    pose proof Hfind as Hin. apply find_some in Hin. destruct Hin as [Hin _].
    apply set_bits_In in Hin. destruct Hin as [Hr _].
    pose proof (section_start_range sbi secno Hwf Hr) as Hrange.
    rewrite (wrap32_small (secno * segs_per_sec sbi))
      by (unfold NULL_SEGNO in Hrange; lia).
    assert (E : (secno * segs_per_sec sbi =? NULL_SEGNO) = false)
      by (apply Z.eqb_neq; lia).
    rewrite E. cbn [negb]. unfold got_it.
    pose proof (start_policy_fields sbi FG_GC type LFS) as Hp.
    cbv zeta in Hp. destruct Hp as (Ha & _ & _ & _ & _ & Hu & _).
    cbn [alloc_mode ofs_unit min_segno set_min].
    rewrite Ha, Hu. unfold GET_SECNO. cbn [segs_per_sec set_victim_secmap].
    rewrite Z.div_mul by lia.
    rewrite (wrap32_small (secno * segs_per_sec sbi))
      by (unfold NULL_SEGNO in Hrange; lia).
    reflexivity.
Qed.

End Selection.

(** *** Concrete superblocks *)

(** A main area of 32 segments with one dirty class, no section in use by a
    write cursor, and the GC thread's [gc_idle] as given. *)
Definition example_sbi (spc log idle : Z) (cursor : gc_mode_t -> Z)
  (dirty ndirty reserved search : Z) (entries : Z -> seg_entry) (lo hi : Z)
  : f2fs_sb_info :=
  {| segs_per_sec := spc; log_blocks_per_seg := log;
     main_segments := 32; total_sections := 32 / spc;
     max_victim_search := search;
     last_victim := cursor;
     cur_victim_sec := NULL_SEGNO;
     gc_thread := Some {| min_sleep_time := 30000; max_sleep_time := 60000;
                          no_gc_sleep_time := 300000; gc_idle := idle |};
     dirty_i := {| dirty_segmap := fun _ => dirty;
                   nr_dirty := fun _ => ndirty;
                   victim_secmap := reserved |};
     sit_i := {| sentries := entries; min_mtime := lo; max_mtime := hi |} |}.

Definition no_section_in_use (_ : f2fs_sb_info) (_ : Z) : bool := false.

Definition bits (l : list Z) : Z := fold_right (fun i m => Z.setbit m i) 0 l.

(** Segments 1, 2 and 3 are 40% valid (205 of 512 blocks), written at
    times 120, 800 and 121; the known mtime range is [100, 900]. *)
Definition cb_entries (segno : Z) : seg_entry :=
  {| valid_blocks := 205; ckpt_valid_blocks := 205;
     mtime := if segno =? 1 then 120 else if segno =? 2 then 800
              else if segno =? 3 then 121 else 500 |}.

Definition cb_example : f2fs_sb_info :=
  example_sbi 1 9 0 (fun _ => 0) (bits [1; 2; 3]) 3 0 4096 cb_entries 100 900.

(** Every segment fully valid, [B = 8]. *)
Definition full_entries (_ : Z) : seg_entry :=
  {| valid_blocks := 8; ckpt_valid_blocks := 8; mtime := 0 |}.

Definition full_example : f2fs_sb_info :=
  example_sbi 1 3 0 (fun _ => 0) (bits [2]) 1 0 4096 full_entries 0 0.

(** Dirty segments 5 and 20 with 2 and 4 valid blocks, the Greedy cursor
    at 17. *)
Definition wrap_entries (segno : Z) : seg_entry :=
  {| valid_blocks := if segno =? 5 then 2 else if segno =? 20 then 4 else 0;
     ckpt_valid_blocks := 0; mtime := 0 |}.

Definition wrap_example : f2fs_sb_info :=
  example_sbi 1 3 0 (fun m => match m with GC_GREEDY => 17 | GC_CB => 0 end)
              (bits [5; 20]) 2 0 4096 wrap_entries 0 0.



(** Three dirty segments with 3 valid blocks each, [max_victim_search] 1. *)
Definition even_entries (_ : Z) : seg_entry :=
  {| valid_blocks := 3; ckpt_valid_blocks := 0; mtime := 0 |}.

Definition even_example : f2fs_sb_info :=
  example_sbi 1 3 0 (fun _ => 0) (bits [1; 2; 3]) 3 0 1 even_entries 0 0.

(** Section 3 reserved by an earlier background pass; dirty segments 3
    and 7; the search budget as given. *)
Definition reserved_example (search : Z) : f2fs_sb_info :=
  example_sbi 1 3 0 (fun _ => 0) (bits [3; 7]) 2 (bits [3]) search
              even_entries 0 0.

Lemma example_sbi_wf (log idle : Z) (cursor : gc_mode_t -> Z)
  (dirty ndirty reserved search : Z) (entries : Z -> seg_entry) (lo hi : Z) :
  (forall m, 0 <= cursor m <= 32) ->
  sbi_wf (example_sbi 1 log idle cursor dirty ndirty reserved search
                      entries lo hi).
Proof.
  intros H. constructor; simpl; try lia; try exact H.
  split; [discriminate | lia].
Defined.

Lemma cb_example_wf (segno : Z) : 0 <= segno < 2 ^ 32 -> cb_wf cb_example segno.
Proof.
  intros H. constructor; simpl; try lia.
  - intros s. destruct (s =? 1); [lia|]. destruct (s =? 2); [lia|].
    destruct (s =? 3); lia.
  - unfold get_valid_blocks. simpl. lia.
Defined.

(** The older of two equally utilized sections is cheaper when their ages
    differ (segments 1 and 2 of [cb_example]). *)
Lemma get_cb_cost_formula_witness :
  fst (get_cb_cost cb_example 1) = UINT_MAX - 4200 /\
  fst (get_cb_cost cb_example 1) < fst (get_cb_cost cb_example 2).
Proof.
  destruct (get_cb_cost_formula cb_example 1 2
              (cb_example_wf 1 ltac:(lia)) (cb_example_wf 2 ltac:(lia)))
    as [Hf Ho].
  split; [rewrite Hf; reflexivity|].
  apply Ho; vm_compute; try reflexivity; discriminate.
Defined.

(** C1, as stated, fails: segment 1 is older than segment 3 and both are
    40% valid, yet their costs are equal, because the age is a whole
    percentage. *)
Lemma cb_cost_older_not_lower :
  sec_mtime cb_example 1 < sec_mtime cb_example 3 /\
  cb_util cb_example 1 = cb_util cb_example 3 /\
  fst (get_cb_cost cb_example 1) = fst (get_cb_cost cb_example 3) /\
  ~ fst (get_cb_cost cb_example 1) < fst (get_cb_cost cb_example 3).
Proof.
  repeat split; try reflexivity.
  intros H. vm_compute in H. discriminate.
Qed.

(** A Greedy scan over one fully valid section finds no victim. *)
Lemma max_cost_cap_discards_witness :
  exists sbi',
    get_victim_by_default no_section_in_use 66 full_example FG_GC DIRTY LFS
    = Some (None, sbi').
Proof.
  assert (Hwf : sbi_wf full_example)
    by (apply example_sbi_wf; intros m; lia).
  destruct (max_cost_cap_discards no_section_in_use full_example FG_GC DIRTY
              LFS Hwf ltac:(simpl; lia) ltac:(simpl; lia))
    as (_ & _ & _ & H).
  apply H; try reflexivity.
  intros segno _ i Hi. reflexivity.
Defined.



(** The comparison [nsearched++ >= p.max_search] admits one counted
    candidate more than [max_search]: here two are counted with
    [max_search = 1]. *)
Lemma scan_counts_one_beyond_max_search :
  let p := start_policy even_example FG_GC DIRTY LFS in
  max_search p = 1 /\
  option_map fst
    (scan_loop no_section_in_use 66 FG_GC (min_cost p)
       {| st_sbi := even_example; st_p := p;
          st_last_segment := MAIN_SEGS even_example; st_nsearched := 0 |})
  = Some [ScanCounted 1; ScanCapped 2].
Proof.
  cbv zeta. split; [reflexivity | vm_compute; reflexivity].
Qed.

(** Sections of four segments: segment 6 with five valid blocks and
    segment 13 with one are dirty; the thread is set to Greedy. *)
Definition sectioned_entries (segno : Z) : seg_entry :=
  {| valid_blocks := if segno =? 6 then 5 else if segno =? 13 then 1 else 0;
     ckpt_valid_blocks := 0; mtime := 0 |}.

Definition sectioned_example : f2fs_sb_info :=
  example_sbi 4 3 2 (fun _ => 0) (bits [6; 13]) 2 0 4096
              sectioned_entries 0 0.

(** With a search budget the reserved section 3 is returned at once; and a
    background scan over sections of four segments settles on segment 13,
    returns segment 12, the first of section 3, and reserves that
    section. *)
Lemma lfs_victim_marking_and_fast_path_witness :
  option_map fst
    (get_victim_by_default no_section_in_use 0 (reserved_example 4096)
                           FG_GC DIRTY LFS)
  = Some (Some 3) /\
  exists sbi',
    get_victim_by_default no_section_in_use 66 sectioned_example
                          BG_GC DIRTY LFS
    = Some (Some 12, sbi') /\
    Z.testbit (victim_secmap (dirty_i sbi')) 3 = true /\
    cur_victim_sec sbi' = NULL_SEGNO.
Proof.
  split.
  - assert (Hwf : sbi_wf (reserved_example 4096))
      by (apply example_sbi_wf; intros m; lia).
    destruct (lfs_victim_marking_and_fast_path no_section_in_use
                (reserved_example 4096) FG_GC DIRTY Hwf) as [_ H].
    rewrite (H 3 ltac:(vm_compute; discriminate)
               ltac:(vm_compute; reflexivity)).
    reflexivity.
  - assert (Hwf : sbi_wf sectioned_example).
    { constructor; unfold sectioned_example, example_sbi;
        cbn [segs_per_sec main_segments total_sections last_victim];
        change (32 / 4) with 8; [lia | lia | lia | intros m; lia]. }
    assert (Hc : option_map fst
                   (get_victim_by_default no_section_in_use 66
                      sectioned_example BG_GC DIRTY LFS) = Some (Some 12))
      by (vm_compute; reflexivity).
    destruct (get_victim_by_default no_section_in_use 66 sectioned_example
                BG_GC DIRTY LFS) as [[res sbi']|] eqn:E; [|discriminate Hc].
    simpl in Hc. inversion Hc; subst res. exists sbi'.
    split; [reflexivity|].
    destruct (lfs_victim_marking_and_fast_path no_section_in_use
                sectioned_example BG_GC DIRTY Hwf) as [H _].
    destruct (H 66%nat 12 sbi' E) as (min_seg & _ & _ & Hin & Hpath).
    change (segs_per_sec sectioned_example) with 4 in Hin.
    assert (Hsec : GET_SECNO sectioned_example min_seg = 3).
    { unfold GET_SECNO. change (segs_per_sec sectioned_example) with 4.
      symmetry. apply (Z.div_unique min_seg 4 3 (min_seg - 12)); lia. }
    rewrite Hsec in Hpath.
    destruct Hpath as [(Hfg & _) | (_ & _ & _ & Hmap & Hcur)];
      [discriminate Hfg|].
    split; [rewrite Hmap; apply Z.setbit_eq; lia | exact Hcur].
Defined.

(** C6, as stated, fails: with [max_victim_search = 0] the LFS/FG call
    leaves before it looks at the reserved map; section 3 stays reserved
    and no victim is returned. *)
Lemma fast_path_needs_search_budget :
  Z.testbit (victim_secmap (dirty_i (reserved_example 0))) 3 = true /\
  no_section_in_use (reserved_example 0) 3 = false /\
  get_victim_by_default no_section_in_use 66 (reserved_example 0)
                        FG_GC DIRTY LFS
  = Some (None, reserved_example 0).
Proof.
  repeat split.
Qed.

(** The scan of [wrap_example] returns segment 5, a dirty segment of the
    main area. *)
Lemma victim_is_dirty_and_in_range_witness :
  exists sbi',
    get_victim_by_default no_section_in_use 66 wrap_example FG_GC DIRTY LFS
    = Some (Some 5, sbi') /\
    0 <= 5 < main_segments wrap_example /\
    Z.testbit (dirty_segmap (dirty_i wrap_example) DIRTY) 5 = true.
Proof.
  assert (Hwf : sbi_wf wrap_example)
    by (apply example_sbi_wf; intros m; destruct m; lia).
  assert (Hc : option_map fst
                 (get_victim_by_default no_section_in_use 66 wrap_example
                    FG_GC DIRTY LFS) = Some (Some 5))
    by (vm_compute; reflexivity).
  destruct (get_victim_by_default no_section_in_use 66 wrap_example
              FG_GC DIRTY LFS) as [[res sbi']|] eqn:E; [|discriminate Hc].
  simpl in Hc. inversion Hc; subst res. exists sbi'.
  split; [reflexivity|].
  destruct (victim_is_dirty_and_in_range no_section_in_use 66 wrap_example
              FG_GC DIRTY LFS 5 sbi' Hwf E) as (Hr & _ & _).
  split; [exact Hr | reflexivity].
Defined.

(** The Greedy scan of [wrap_example]: segments 20 and 5 are examined, and
    segment 5 with its two valid blocks is the cheaper. *)
Lemma scan_selects_cheapest_witness :
  exists evs st',
    scan_loop no_section_in_use 66 FG_GC
      (min_cost (start_policy wrap_example FG_GC DIRTY LFS))
      {| st_sbi := wrap_example;
         st_p := start_policy wrap_example FG_GC DIRTY LFS;
         st_last_segment := MAIN_SEGS wrap_example; st_nsearched := 0 |}
    = Some (evs, st') /\
    candidates evs = [20; 5] /\
    min_segno (st_p st') = 5 /\
    forall s, In s (candidates evs) ->
      get_valid_blocks wrap_example 5 1 <= get_valid_blocks wrap_example s 1.
Proof.
  assert (Hwf : sbi_wf wrap_example)
    by (apply example_sbi_wf; intros m; destruct m; lia).
  destruct (scan_loop no_section_in_use 66 FG_GC
              (min_cost (start_policy wrap_example FG_GC DIRTY LFS))
              {| st_sbi := wrap_example;
                 st_p := start_policy wrap_example FG_GC DIRTY LFS;
                 st_last_segment := MAIN_SEGS wrap_example;
                 st_nsearched := 0 |}) as [[evs st']|] eqn:E.
  - exists evs, st'. split; [reflexivity|].
    assert (Hc : candidates evs = [20; 5] /\ min_segno (st_p st') = 5).
    { vm_compute in E. inversion E. split; reflexivity. }
    destruct Hc as [Hc Hm]. split; [exact Hc|]. split; [exact Hm|].
    destruct (scan_selects_cheapest no_section_in_use wrap_example FG_GC
                DIRTY LFS 66 evs st' Hwf (or_intror eq_refl) E)
      as (_ & Hsel & _).
    rewrite Hm in Hsel.
    destruct (Hsel ltac:(vm_compute; discriminate)) as (_ & _ & _ & Hmin).
    exact Hmin.
  - vm_compute in E. discriminate E.
Defined.

(** The Greedy scan of [full_example] finds nothing and leaves no mark. *)
Lemma selection_leaves_no_mark_witness :
  exists sbi',
    get_victim_by_default no_section_in_use 66 full_example FG_GC DIRTY LFS
    = Some (None, sbi') /\
    victim_secmap (dirty_i sbi') = victim_secmap (dirty_i full_example) /\
    cur_victim_sec sbi' = cur_victim_sec full_example /\
    sit_i sbi' = sit_i full_example.
Proof.
  assert (Hwf : sbi_wf full_example)
    by (apply example_sbi_wf; intros m; lia).
  assert (Hc : option_map fst
                 (get_victim_by_default no_section_in_use 66 full_example
                    FG_GC DIRTY LFS) = Some None)
    by (vm_compute; reflexivity).
  destruct (get_victim_by_default no_section_in_use 66 full_example
              FG_GC DIRTY LFS) as [[res sbi']|] eqn:E; [|discriminate Hc].
  simpl in Hc. inversion Hc; subst res. exists sbi'.
  split; [reflexivity|].
  destruct (selection_leaves_no_mark no_section_in_use 66 full_example
              FG_GC DIRTY LFS None sbi' Hwf E) as (_ & Hm & Hs & _).
  destruct (Hm (or_introl eq_refl)) as [H1 H2].
  split; [exact H1|]. split; [exact H2|].
  apply Hs. right. reflexivity.
Defined.

(** Segment 2 of [cb_example] is the youngest but one: its cost lies in
    the range, below the cap. *)
Lemma cb_cost_range_and_cap_witness :
  UINT_MAX - 10000 <= fst (get_cb_cost cb_example 2) <= UINT_MAX /\
  fst (get_cb_cost cb_example 2) = UINT_MAX - 557.
Proof.
  destruct (cb_cost_range_and_cap cb_example 2 1
              (cb_example_wf 2 ltac:(lia))) as (H & _).
  split; [exact H | reflexivity].
Defined.

(** Section 3 of [reserved_example] is reserved and free to take. *)
Lemma check_bg_victims_first_fit_witness :
  exists secno,
    0 <= secno < total_sections (reserved_example 4096) /\
    fst (check_bg_victims no_section_in_use (reserved_example 4096))
    = secno * segs_per_sec (reserved_example 4096) /\
    secno = 3.
Proof.
  assert (Hwf : sbi_wf (reserved_example 4096))
    by (apply example_sbi_wf; intros m; lia).
  destruct (check_bg_victims_first_fit no_section_in_use
              (reserved_example 4096) Hwf)
    as [(E & _) | (secno & Hr & Ef & _)].
  - vm_compute in E. discriminate E.
  - exists secno. split; [exact Hr|]. split; [exact Ef|].
    vm_compute in Ef. simpl in Hr.
    destruct secno as [|q|q]; try discriminate Ef; try lia.
    rewrite Pos.mul_1_r in Ef. inversion Ef. reflexivity.
Defined.

(** The scan of [wrap_example] runs from the cursor 17 to the end, wraps,
    and ends at the cursor: the dirty segment 5 before the cursor has been
    looked at. *)
Lemma uncut_scan_covers_dirty_map_witness :
  exists evs st',
    scan_loop no_section_in_use 66 FG_GC
      (min_cost (start_policy wrap_example FG_GC DIRTY LFS))
      {| st_sbi := wrap_example;
         st_p := start_policy wrap_example FG_GC DIRTY LFS;
         st_last_segment := MAIN_SEGS wrap_example; st_nsearched := 0 |}
    = Some (evs, st') /\
    visited evs = [20; 5] /\
    exists s, In s (visited evs) /\ s / 1 = 5 / 1.
Proof.
  assert (Hwf : sbi_wf wrap_example)
    by (apply example_sbi_wf; intros m; destruct m; lia).
  destruct (scan_loop no_section_in_use 66 FG_GC
              (min_cost (start_policy wrap_example FG_GC DIRTY LFS))
              {| st_sbi := wrap_example;
                 st_p := start_policy wrap_example FG_GC DIRTY LFS;
                 st_last_segment := MAIN_SEGS wrap_example;
                 st_nsearched := 0 |}) as [[evs st']|] eqn:E.
  - exists evs, st'. split; [reflexivity|].
    assert (Hc : visited evs = [20; 5] /\ last evs ScanEnd = ScanEnd).
    { pose proof E as E2. vm_compute in E2. inversion E2.
      split; reflexivity. }
    destruct Hc as [Hv Hl]. split; [exact Hv|].
    exact (uncut_scan_covers_dirty_map no_section_in_use wrap_example FG_GC
             DIRTY LFS 66 evs st' Hwf E Hl 5 ltac:(simpl; lia) eq_refl).
  - vm_compute in E. discriminate E.
Defined.

End Victim.

(** ** Migration and the GC driver

    The migrators and the driver talk to the node table, the page cache,
    the segment table and the checkpoint code.  Each such call is an event
    [gcE X] answered with a value of type [X]; a function of gc.c is a finite
    tree of events [prog R].  An execution is the list of events with their
    answers, so what a function does for every behaviour of the other
    layers is a statement about all its executions.

    Debug output ([printk]), statistics ([stat_inc_*]) and trace points do
    not enter the model. *)

Module GC.

(** [struct f2fs_summary] *)
Record f2fs_summary : Set := {
  nid : Z;
  version : Z;
  ofs_in_node : Z
}.

(** [struct node_info] *)
Record node_info : Set := {
  ni_ino : Z;
  ni_blk_addr : Z;
  ni_version : Z
}.

(** What gc.c reads of a [struct inode]. *)
Record inode : Set := {
  i_ino : Z;
  i_bad : bool;              (* is_bad_inode(inode) *)
  i_encrypted : bool;        (* f2fs_encrypted_inode(inode) *)
  i_regular : bool;          (* S_ISREG(inode->i_mode) *)
  i_addrs : Z                (* ADDRS_PER_INODE(F2FS_I(inode)) *)
}.

(** A summary page: its page, the footer's entry type and the entries. *)
Record sum_page : Set := {
  sp_page : Z;
  sp_type : Z;               (* GET_SUM_TYPE(&sum->footer) *)
  sp_entries : Z -> f2fs_summary
}.

Definition SUM_TYPE_DATA : Z := 0.
Definition SUM_TYPE_NODE : Z := 1.

Definition EINVAL : Z := 22.
Definition EAGAIN : Z := 11.

(** Pages are handles; [None] stands for an [ERR_PTR]. *)
Definition page : Set := Z.

Inductive gcE : Type -> Type :=
(* superblock and checkpoint *)
| GetCpReason : gcE Z
| SbActive : gcE bool                              (* s_flags & MS_ACTIVE *)
| CpError : gcE bool                               (* f2fs_cp_error *)
| HasNotEnoughFreeSecs (freed : Z) : gcE bool
| PrefreeSegments : gcE Z
| WriteCheckpoint (reason : Z) : gcE unit
| GetVictim (gc_type : gc_type_t) : gcE (option Z) (* v_ops->get_victim *)
| RaMetaPages (segno n : Z) : gcE unit
| SetCurVictimSec (secno : Z) : gcE unit
| MutexUnlockGc : gcE unit
| Iput (i : inode) : gcE unit
(* summary pages and plugging *)
| GetSumPage (segno : Z) : gcE sum_page
| BlkStartPlug : gcE unit
| BlkFinishPlug : gcE unit
| UnlockPage (pg : page) : gcE unit
| PutPage (pg : page) (unlock : Z) : gcE unit
(* segment information table *)
| TestValidBit (segno off : Z) : gcE bool
| GetValidBlocks (segno section : Z) : gcE Z
(* node layer *)
| RaNodePage (nid : Z) : gcE unit
| GetNodePage (nid : Z) : gcE (option page)
| GetNodeInfo (nid : Z) : gcE node_info
| OfsOfNode (pg : page) : gcE Z
| DatablockAddr (pg : page) (ofs : Z) : gcE Z
| SyncNodePages : gcE unit
(* page cache *)
| WaitOnPageWriteback (pg : page) : gcE unit
| SetPageDirty (pg : page) : gcE unit
| PageWriteback (pg : page) : gcE bool
| PageUptodate (pg : option page) : gcE bool
| PageDirty (pg : option page) : gcE bool
| ClearPageDirtyForIo (pg : page) : gcE bool
| SetColdData (pg : page) : gcE unit
| ClearColdData (pg : page) : gcE unit
(* inodes and data pages *)
| F2fsIget (ino : Z) : gcE (option inode)
| InodeDecDirtyPages (i : inode) : gcE unit
| GetLockDataPage (i : inode) (index : Z) : gcE (option page)
| GetCachedDataPage (i : inode) (index off : Z) : gcE (option page)
| GetReadDataPage (i : inode) (index off : Z) : gcE (option page)
| DoWriteDataPage (pg : page) : gcE unit
| MoveEncryptedBlock (i : inode) (bidx : Z) : gcE unit
| ChangeDataPage (i : inode) (bidx : Z) (gc_type : gc_type_t) : gcE unit
| SubmitMergedBio : gcE unit
(* the reclaimer thread *)
| TryToFreeze : gcE bool
| WaitEvent (wait_ms : Z) : gcE unit
| KthreadShouldStop : gcE bool
| SbFrozen : gcE bool
| MutexTrylockGc : gcE bool
| IsIdle : gcE bool
| HasEnoughInvalidBlocks : gcE bool
| TestOptForceFgGc : gcE bool
| BalanceFsBg : gcE unit.

Inductive prog (R : Type) : Type :=
| Ret (r : R)
| Vis {X : Type} (e : gcE X) (k : X -> prog R).

Arguments Ret {R} r.
Arguments Vis {R X} e k.

Fixpoint bind {A B : Type} (p : prog A) (f : A -> prog B) : prog B :=
  match p with
  | Ret a => f a
  | Vis e k => Vis e (fun x => bind (k x) f)
  end.

Definition call {X : Type} (e : gcE X) : prog X := Vis e Ret.

Notation "x <- p ;; q" := (bind p (fun x => q))
  (at level 61, p at next level, right associativity).
Notation "p ;; q" := (bind p (fun _ => q))
  (at level 61, right associativity).

(** An event with its answer, and the executions of a program. *)
Inductive event : Type :=
| Ev {X : Type} (e : gcE X) (x : X).

Fixpoint exec {R : Type} (p : prog R) (tr : list event) (r : R) : Prop :=
  match p with
  | Ret r' => tr = [] /\ r = r'
  | Vis e k => exists x tr', tr = Ev e x :: tr' /\ exec (k x) tr' r
  end.

(** The other layers as a state machine: a handler answers each event and
    moves the state of the world. *)
Definition handler (W : Type) : Type := forall X, gcE X -> W -> X * W.

Fixpoint run {W R : Type} (h : handler W) (p : prog R) (w : W)
  : list event * R * W :=
  match p with
  | Ret r => ([], r, w)
  | Vis e k =>
      let '(x, w1) := h _ e w in
      let '(tr, r, w2) := run h (k x) w1 in
      (Ev e x :: tr, r, w2)
  end.

Section Engine.

(** Geometry and layout constants: [sbi->blocks_per_seg],
    [sbi->segs_per_sec], [START_BLOCK(sbi, segno)] of segment.h, and the
    two constants of f2fs_fs.h. *)
Variable blocks_per_seg : Z.
Variable segs_per_sec : Z.
Variable START_BLOCK : Z -> Z.
Variable NIDS_PER_BLOCK : Z.
Variable ADDRS_PER_BLOCK : Z.

(** [check_valid_map]: the bit of the block in [cur_valid_map], read under
    the sentry lock. *)
Definition check_valid_map (segno off : Z) : prog bool :=
  call (TestValidBit segno off).

(** *** The per-round inode list

    [gc_list] is the list [ilist]; the radix tree [iroot] indexes the same
    entries by inode number.  The inode cache hands out one inode per
    number, so the pointer comparison of [add_gc_inode] is a comparison of
    inode numbers. *)
Definition find_gc_inode (gc_list : list inode) (ino : Z) : option inode :=
  find (fun i => i_ino i =? ino) gc_list.

Definition add_gc_inode (gc_list : list inode) (i : inode) : prog (list inode) :=
  match find_gc_inode gc_list (i_ino i) with
  | Some _ => call (Iput i) ;; Ret gc_list
  | None => Ret (gc_list ++ [i])
  end.

Fixpoint put_gc_inode (gc_list : list inode) : prog unit :=
  match gc_list with
  | [] => Ret tt
  | i :: rest => call (Iput i) ;; put_gc_inode rest
  end.

(** *** The validity cross-check

    [dni] and [nofs] are the caller's variables behind the two output
    pointers; they keep their contents where the function does not write
    them. *)
Definition is_alive (sum : f2fs_summary) (dni : node_info) (blkaddr : Z)
  (nofs : Z) : prog (bool * node_info * Z) :=
  node_page <- call (GetNodePage (nid sum)) ;;
  match node_page with
  | None => Ret (false, dni, nofs)
  | Some pg =>
      dni <- call (GetNodeInfo (nid sum)) ;;
      if negb (version sum =? ni_version dni) then
        call (PutPage pg 1) ;; Ret (false, dni, nofs)
      else
        nofs <- call (OfsOfNode pg) ;;
        source_blkaddr <- call (DatablockAddr pg (ofs_in_node sum)) ;;
        call (PutPage pg 1) ;;
        if negb (source_blkaddr =? blkaddr) then Ret (false, dni, nofs)
        else Ret (true, dni, nofs)
  end.

(** *** Moving a data page *)

Definition move_data_page (i : inode) (bidx : Z) (gc_type : gc_type_t)
  : prog unit :=
  pg <- call (GetLockDataPage i bidx) ;;
  match pg with
  | None => Ret tt
  | Some pg =>
      match gc_type with
      | BG_GC =>
          wb <- call (PageWriteback pg) ;;
          if wb then call (PutPage pg 1)
          else
            call (SetPageDirty pg) ;;
            call (SetColdData pg) ;;
            call (PutPage pg 1)
      | FG_GC =>
          call (SetPageDirty pg) ;;
          call (WaitOnPageWriteback pg) ;;
          cleared <- call (ClearPageDirtyForIo pg) ;;
          (if cleared then call (InodeDecDirtyPages i) else Ret tt) ;;
          call (SetColdData pg) ;;
          call (DoWriteDataPage pg) ;;
          call (ClearColdData pg) ;;
          call (PutPage pg 1)
      end
  end.

(** *** The scan over the blocks of a segment

    The three migrators run the same loop
    [for (off = 0; off < sbi->blocks_per_seg; off++, entry++)] whose body
    starts with
    [if (gc_type == BG_GC && has_not_enough_free_secs(sbi, 0)) return 0;].
    [seg_scan] is that loop from offset [off] with [n] offsets to go; the
    rest of the body is [body], [S] holds the variables the body updates,
    and [Some v] in the result stands for [return v]. *)
Fixpoint seg_scan {S : Type} (gc_type : gc_type_t) (body : Z -> S -> prog S)
  (n : nat) (off : Z) (s : S) : prog (S * option Z) :=
  match n with
  | O => Ret (s, None)
  | S n' =>
      stop <- match gc_type with
              | BG_GC => call (HasNotEnoughFreeSecs 0)
              | FG_GC => Ret false
              end ;;
      if stop then Ret (s, Some 0)
      else s' <- body off s ;; seg_scan gc_type body n' (off + 1) s'
  end.

(** *** Node segments *)

Definition node_body (segno start_addr : Z) (gc_type : gc_type_t)
  (sum : Z -> f2fs_summary) (initial : bool) (off : Z) (_ : unit)
  : prog unit :=
  let nid := nid (sum off) in
  valid <- check_valid_map segno off ;;
  if negb valid then Ret tt
  else if initial then call (RaNodePage nid)
  else
    node_page <- call (GetNodePage nid) ;;
    match node_page with
    | None => Ret tt
    | Some pg =>
        valid <- check_valid_map segno off ;;
        if negb valid then call (PutPage pg 1)
        else
          ni <- call (GetNodeInfo nid) ;;
          if negb (ni_blk_addr ni =? wrap32 (start_addr + off)) then
            call (PutPage pg 1)
          else
            match gc_type with
            | FG_GC =>
                call (WaitOnPageWriteback pg) ;; call (SetPageDirty pg)
            | BG_GC =>
                wb <- call (PageWriteback pg) ;;
                if wb then Ret tt else call (SetPageDirty pg)
            end ;;
            call (PutPage pg 1)
    end.

(** The end of a migrator: in FG mode flush, then report whether the
    segment has no valid block left. *)
Definition report_freed (gc_type : gc_type_t) (flush : gcE unit) (segno : Z)
  : prog Z :=
  match gc_type with
  | FG_GC =>
      call flush ;;
      v <- call (GetValidBlocks segno 1) ;;
      if v =? 0 then Ret 1 else Ret 0
  | BG_GC => Ret 0
  end.

Definition gc_node_segment (sum : Z -> f2fs_summary) (segno : Z)
  (gc_type : gc_type_t) : prog Z :=
  let start_addr := START_BLOCK segno in
  r <- seg_scan gc_type (node_body segno start_addr gc_type sum true)
                (Z.to_nat blocks_per_seg) 0 tt ;;
  match snd r with
  | Some v => Ret v
  | None =>
      r <- seg_scan gc_type (node_body segno start_addr gc_type sum false)
                    (Z.to_nat blocks_per_seg) 0 tt ;;
      match snd r with
      | Some v => Ret v
      | None => report_freed gc_type SyncNodePages segno
      end
  end.

(** *** Data segments *)

Definition dni0 : node_info := {| ni_ino := 0; ni_blk_addr := 0; ni_version := 0 |}.

Definition upd (array : Z -> Z) (off v : Z) : Z -> Z :=
  fun i => if i =? off then v else array i.

Definition start_bidx (nofs : Z) (i : inode) : Z :=
  NodeOfs.start_bidx_of_node NIDS_PER_BLOCK ADDRS_PER_BLOCK nofs (i_addrs i).

(** The body of [gc_data_segment]; [array] is the per-offset record of the
    state of the cached page (1 dirty, 2 clean, 3 not cached). *)
Definition data_body (segno start_addr : Z) (gc_type : gc_type_t)
  (sum : Z -> f2fs_summary) (phase off : Z) (st : list inode * (Z -> Z))
  : prog (list inode * (Z -> Z)) :=
  let entry := sum off in
  let '(gc_list, array) := st in
  valid <- check_valid_map segno off ;;
  if negb valid then Ret st
  else if phase =? 0 then call (RaNodePage (nid entry)) ;; Ret st
  else
    a <- is_alive entry dni0 (wrap32 (start_addr + off)) 0 ;;
    let '(alive, dni, nofs) := a in
    if negb alive then Ret st
    else if phase =? 1 then call (RaNodePage (ni_ino dni)) ;; Ret st
    else
      let ofs := ofs_in_node entry in
      if phase =? 2 then
        i <- call (F2fsIget (ni_ino dni)) ;;
        match i with
        | None => Ret st
        | Some i =>
            if i_bad i then Ret st
            else if i_encrypted i && i_regular i then
              gl <- add_gc_inode gc_list i ;; Ret (gl, array)
            else
              data_page <- call (GetCachedDataPage i
                                   (wrap32 (start_bidx nofs i + ofs)) off) ;;
              uptodate <- call (PageUptodate data_page) ;;
              array <- (if uptodate then
                          dirty <- call (PageDirty data_page) ;;
                          Ret (upd array off (if dirty then 1 else 2))
                        else Ret (upd array off 3)) ;;
              match data_page with
              | None => call (Iput i) ;; Ret (gc_list, array)
              | Some pg =>
                  call (PutPage pg 0) ;;
                  gl <- add_gc_inode gc_list i ;; Ret (gl, array)
              end
        end
      else
        match find_gc_inode gc_list (ni_ino dni) with
        | Some i =>
            let bidx := wrap32 (start_bidx nofs i + ofs) in
            (if i_encrypted i && i_regular i then
               call (MoveEncryptedBlock i bidx)
             else if (array off =? 1) || gc_type_eqb gc_type BG_GC then
               move_data_page i bidx gc_type
             else call (ChangeDataPage i bidx gc_type)) ;;
            Ret st
        | None => Ret st
        end.

(** The body of [gc_data_segment_FG]. *)
Definition data_body_FG (segno start_addr : Z) (gc_type : gc_type_t)
  (sum : Z -> f2fs_summary) (phase off : Z) (gc_list : list inode)
  : prog (list inode) :=
  let entry := sum off in
  valid <- check_valid_map segno off ;;
  if negb valid then Ret gc_list
  else if phase =? 0 then call (RaNodePage (nid entry)) ;; Ret gc_list
  else
    a <- is_alive entry dni0 (wrap32 (start_addr + off)) 0 ;;
    let '(alive, dni, nofs) := a in
    if negb alive then Ret gc_list
    else if phase =? 1 then call (RaNodePage (ni_ino dni)) ;; Ret gc_list
    else
      let ofs := ofs_in_node entry in
      if phase =? 2 then
        i <- call (F2fsIget (ni_ino dni)) ;;
        match i with
        | None => Ret gc_list
        | Some i =>
            if i_bad i then Ret gc_list
            else if i_encrypted i && i_regular i then add_gc_inode gc_list i
            else
              data_page <- call (GetReadDataPage i
                                   (wrap32 (start_bidx nofs i + ofs)) off) ;;
              match data_page with
              | None => call (Iput i) ;; Ret gc_list
              | Some pg => call (PutPage pg 0) ;; add_gc_inode gc_list i
              end
        end
      else
        match find_gc_inode gc_list (ni_ino dni) with
        | Some i =>
            let bidx := wrap32 (start_bidx nofs i + ofs) in
            (if i_encrypted i && i_regular i then
               call (MoveEncryptedBlock i bidx)
             else move_data_page i bidx gc_type) ;;
            Ret gc_list
        | None => Ret gc_list
        end.

(** [next_step: ... if (++phase < 4) goto next_step;] with [n] phases to
    go. *)
Fixpoint data_phases {S : Type} (gc_type : gc_type_t)
  (body : Z -> Z -> S -> prog S) (n : nat) (phase : Z) (s : S)
  : prog (S * option Z) :=
  match n with
  | O => Ret (s, None)
  | S n' =>
      r <- seg_scan gc_type (body phase) (Z.to_nat blocks_per_seg) 0 s ;;
      match snd r with
      | Some v => Ret (fst r, Some v)
      | None => data_phases gc_type body n' (phase + 1) (fst r)
      end
  end.

Definition gc_data_segment (sum : Z -> f2fs_summary) (gc_list : list inode)
  (segno : Z) (gc_type : gc_type_t) : prog (Z * list inode) :=
  let start_addr := START_BLOCK segno in
  r <- data_phases gc_type (data_body segno start_addr gc_type sum)
                   4 0 (gc_list, fun _ => 0) ;;
  match snd r with
  | Some v => Ret (v, fst (fst r))
  | None =>
      v <- report_freed gc_type SubmitMergedBio segno ;;
      Ret (v, fst (fst r))
  end.

Definition gc_data_segment_FG (sum : Z -> f2fs_summary) (gc_list : list inode)
  (segno : Z) (gc_type : gc_type_t) : prog (Z * list inode) :=
  let start_addr := START_BLOCK segno in
  r <- data_phases gc_type (data_body_FG segno start_addr gc_type sum)
                   4 0 gc_list ;;
  match snd r with
  | Some v => Ret (v, fst r)
  | None =>
      v <- report_freed gc_type SubmitMergedBio segno ;;
      Ret (v, fst r)
  end.

(** *** The driver *)

Definition do_garbage_collect (segno : Z) (gc_list : list inode)
  (gc_type : gc_type_t) : prog (Z * list inode) :=
  sum_page <- call (GetSumPage segno) ;;
  call BlkStartPlug ;;
  call (UnlockPage (sp_page sum_page)) ;;
  r <- (if sp_type sum_page =? SUM_TYPE_NODE then
          nfree <- gc_node_segment (sp_entries sum_page) segno gc_type ;;
          Ret (nfree, gc_list)
        else if sp_type sum_page =? SUM_TYPE_DATA then
          match gc_type with
          | FG_GC =>
              gc_data_segment_FG (sp_entries sum_page) gc_list segno gc_type
          | BG_GC =>
              gc_data_segment (sp_entries sum_page) gc_list segno gc_type
          end
        else Ret (0, gc_list)) ;;
  call BlkFinishPlug ;;
  call (PutPage (sp_page sum_page) 0) ;;
  Ret r.

(** [for (i = 0; i < sbi->segs_per_sec; i++)] with [n] segments to go; the
    result carries the value of [i] on leaving the loop. *)
Fixpoint gc_section (n : nat) (i segno : Z) (gc_type : gc_type_t)
  (gc_list : list inode) : prog (Z * list inode) :=
  match n with
  | O => Ret (i, gc_list)
  | S n' =>
      r <- do_garbage_collect (wrap32 (segno + i)) gc_list gc_type ;;
      if (fst r =? 0) && gc_type_eqb gc_type FG_GC then Ret (i, snd r)
      else gc_section n' (i + 1) segno gc_type (snd r)
  end.

(** The variables of [f2fs_gc] that live across [gc_more]. *)
Record gc_vars : Set := {
  v_gc_type : gc_type_t;
  v_sec_freed : Z;
  v_ret : Z;
  v_gc_list : list inode
}.

Inductive gc_flow : Set :=
| GcMore (v : gc_vars)         (* [goto gc_more] *)
| GcStop (v : gc_vars).        (* the label [stop] is reached *)

(** The block that turns a background round into a foreground one. *)
Definition gc_upgrade (reason : Z) (gc_type : gc_type_t) (sec_freed : Z)
  : prog (gc_type_t * Z) :=
  match gc_type with
  | FG_GC => Ret (FG_GC, NULL_SEGNO)
  | BG_GC =>
      short <- call (HasNotEnoughFreeSecs sec_freed) ;;
      if short then
        victim <- call (GetVictim FG_GC) ;;
        match victim with
        | Some segno => call (WriteCheckpoint reason) ;; Ret (FG_GC, segno)
        | None =>
            prefree <- call PrefreeSegments ;;
            (if negb (prefree =? 0) then call (WriteCheckpoint reason)
             else Ret tt) ;;
            Ret (FG_GC, NULL_SEGNO)
        end
      else Ret (BG_GC, NULL_SEGNO)
  end.

(** The block [if (!sync) { ... }] after the section loop. *)
Definition gc_post (sync : bool) (reason : Z) (v : gc_vars) : prog gc_flow :=
  if sync then Ret (GcStop v)
  else
    short <- call (HasNotEnoughFreeSecs (v_sec_freed v)) ;;
    if short then Ret (GcMore v)
    else
      match v_gc_type v with
      | FG_GC => call (WriteCheckpoint reason) ;; Ret (GcStop v)
      | BG_GC => Ret (GcStop v)
      end.

(** One pass from the label [gc_more]. *)
Definition gc_pass (sync : bool) (reason : Z) (v : gc_vars) : prog gc_flow :=
  active <- call SbActive ;;
  if negb active then Ret (GcStop v)
  else
    cp_error <- call CpError ;;
    if cp_error then Ret (GcStop v)
    else
      u <- gc_upgrade reason (v_gc_type v) (v_sec_freed v) ;;
      let '(gc_type, segno) := u in
      let v := {| v_gc_type := gc_type; v_sec_freed := v_sec_freed v;
                  v_ret := v_ret v; v_gc_list := v_gc_list v |} in
      found <- (if segno =? NULL_SEGNO then call (GetVictim gc_type)
                else Ret (Some segno)) ;;
      match found with
      | None => Ret (GcStop v)
      | Some segno =>
          (if 1 <? segs_per_sec then call (RaMetaPages segno segs_per_sec)
           else Ret tt) ;;
          r <- gc_section (Z.to_nat segs_per_sec) 0 segno gc_type
                          (v_gc_list v) ;;
          let sec_freed :=
            if (fst r =? segs_per_sec) && gc_type_eqb gc_type FG_GC
            then v_sec_freed v + 1 else v_sec_freed v in
          (match gc_type with
           | FG_GC => call (SetCurVictimSec NULL_SEGNO)
           | BG_GC => Ret tt
           end) ;;
          gc_post sync reason
            {| v_gc_type := gc_type; v_sec_freed := sec_freed;
               v_ret := 0; v_gc_list := snd r |}
      end.

Fixpoint gc_more (fuel : nat) (sync : bool) (reason : Z) (v : gc_vars)
  : prog (option gc_vars) :=
  match fuel with
  | O => Ret None
  | S fuel' =>
      f <- gc_pass sync reason v ;;
      match f with
      | GcStop v' => Ret (Some v')
      | GcMore v' => gc_more fuel' sync reason v'
      end
  end.

(** [f2fs_gc]: [Some ret] is the value returned; [None] means that [fuel]
    passes did not bring the round to the label [stop]. *)
Definition f2fs_gc (fuel : nat) (sync : bool) : prog (option Z) :=
  reason <- call GetCpReason ;;
  r <- gc_more fuel sync reason
         {| v_gc_type := if sync then FG_GC else BG_GC;
            v_sec_freed := 0; v_ret := - EINVAL; v_gc_list := [] |} ;;
  match r with
  | None => Ret None
  | Some v =>
      call MutexUnlockGc ;;
      put_gc_inode (v_gc_list v) ;;
      Ret (Some (if sync
                 then (if v_sec_freed v =? 0 then - EAGAIN else 0)
                 else v_ret v))
  end.

(** *** The reclaimer thread *)

(** [increase_sleep_time] and [decrease_sleep_time] of gc.h, as functions
    of the current wait. *)
Variable increase_sleep_time : Victim.f2fs_gc_kthread -> Z -> Z.
Variable decrease_sleep_time : Victim.f2fs_gc_kthread -> Z -> Z.

Inductive thread_flow : Set :=
| ThreadNext (wait_ms : Z)     (* the loop goes round with this wait *)
| ThreadExit.                  (* the loop is left *)

(** [continue] and the end of the body both lead to the loop condition
    [while (!kthread_should_stop())]. *)
Definition thread_again (wait_ms : Z) : prog thread_flow :=
  stop <- call KthreadShouldStop ;;
  Ret (if stop then ThreadExit else ThreadNext wait_ms).

(** The thread after [f2fs_gc] returned [ret]. *)
Definition thread_after_gc (gc_th : Victim.f2fs_gc_kthread) (wait_ms ret : Z)
  : prog thread_flow :=
  let wait_ms := if negb (ret =? 0) then Victim.no_gc_sleep_time gc_th
                 else wait_ms in
  call BalanceFsBg ;;
  thread_again wait_ms.

(** [wait_event_interruptible_timeout] on the thread's wait queue, with
    [kthread_should_stop()] as condition and [msecs_to_jiffies(wait_ms)]
    as timeout: the condition handed to the macro is
    evaluated before the thread sleeps and again whenever the macro looks
    at it after that, and the wait is over once it holds; otherwise the
    wait ends, after an evaluation, when the time is up or a signal is
    pending.  [WaitEvent] is one sleep on the wait queue; [naps] tells,
    for every further evaluation the macro makes, whether the thread slept
    before it. *)
Fixpoint wait_event_interruptible_timeout (naps : list bool) (wait_ms : Z)
  : prog unit :=
  stop <- call KthreadShouldStop ;;
  if stop then Ret tt
  else
    match naps with
    | [] => Ret tt
    | nap :: naps' =>
        (if nap then call (WaitEvent wait_ms) else Ret tt) ;;
        wait_event_interruptible_timeout naps' wait_ms
    end.

(** One turn of the loop of [gc_thread_func]. *)
Definition gc_thread_turn (fuel : nat) (naps : list bool)
  (gc_th : Victim.f2fs_gc_kthread) (wait_ms : Z)
  : prog (option thread_flow) :=
  frozen <- call TryToFreeze ;;
  if frozen then f <- thread_again wait_ms ;; Ret (Some f)
  else
    wait_event_interruptible_timeout naps wait_ms ;;
    stop <- call KthreadShouldStop ;;
    if stop then Ret (Some ThreadExit)
    else
      sb_frozen <- call SbFrozen ;;
      if sb_frozen then
        f <- thread_again (increase_sleep_time gc_th wait_ms) ;; Ret (Some f)
      else
        locked <- call MutexTrylockGc ;;
        if negb locked then f <- thread_again wait_ms ;; Ret (Some f)
        else
          idle <- call IsIdle ;;
          if negb idle then
            call MutexUnlockGc ;;
            f <- thread_again (increase_sleep_time gc_th wait_ms) ;;
            Ret (Some f)
          else
            enough <- call HasEnoughInvalidBlocks ;;
            let wait_ms := if enough then decrease_sleep_time gc_th wait_ms
                           else increase_sleep_time gc_th wait_ms in
            force <- call TestOptForceFgGc ;;
            ret <- f2fs_gc fuel force ;;
            match ret with
            | None => Ret None
            | Some ret =>
                f <- thread_after_gc gc_th wait_ms ret ;; Ret (Some f)
            end.

(** *** Executions *)

Lemma exec_bind {A B : Type} (p : prog A) (f : A -> prog B)
  (tr : list event) (b : B) :
  exec (bind p f) tr b <->
  exists tr1 a tr2, exec p tr1 a /\ exec (f a) tr2 b /\ tr = tr1 ++ tr2.
Proof.
  revert tr. induction p as [a | X e k IH]; intros tr; simpl.
  - split.
    + intros H. exists [], a, tr. repeat split. exact H.
    + intros (tr1 & a' & tr2 & (E1 & E2) & H & E). subst. exact H.
  - split.
    + intros (x & tr' & E & H). apply IH in H.
      destruct H as (tr1 & a & tr2 & H1 & H2 & E'). subst.
      exists (Ev e x :: tr1), a, tr2. split; [|split; [exact H2 | reflexivity]].
      exists x, tr1. split; [reflexivity | exact H1].
    + intros (tr1 & a & tr2 & (x & tr' & E1 & H1) & H2 & E). subst.
      exists x, (tr' ++ tr2). split; [reflexivity|]. apply IH.
      exists tr', a, tr2. repeat split; assumption.
Qed.

Lemma exec_call {X : Type} (e : gcE X) (tr : list event) (x : X) :
  exec (call e) tr x <-> tr = [Ev e x].
Proof.
  simpl. split.
  - intros (x' & tr' & E & E1 & E2). subst. reflexivity.
  - intros E. exists x, []. repeat split. exact E.
Qed.

(** Every run against a handler is an execution. *)
Lemma run_exec {W R : Type} (h : handler W) (p : prog R) (w : W) :
  exec p (fst (fst (run h p w))) (snd (fst (run h p w))).
Proof.
  revert w. induction p as [r | X e k IH]; intros w; simpl.
  - split; reflexivity.
  - destruct (h X e w) as [x w1]. specialize (IH x w1).
    destruct (run h (k x) w1) as [[tr r] w2]. simpl in *.
    exists x, tr. split; [reflexivity | exact IH].
Qed.

(** Kinds of events. *)
Definition kind : Type := forall X, gcE X -> bool.

Definition of_kind (K : kind) (ev : event) : bool :=
  match ev with Ev e _ => K _ e end.

Definition free_check : kind :=
  fun _ e => match e with HasNotEnoughFreeSecs _ => true | _ => false end.

Definition valid_blocks_query : kind :=
  fun _ e => match e with GetValidBlocks _ _ => true | _ => false end.

Definition checkpoint_write : kind :=
  fun _ e => match e with WriteCheckpoint _ => true | _ => false end.

Definition victim_query : kind :=
  fun _ e => match e with GetVictim _ => true | _ => false end.

(** The answer "free sections are insufficient". *)
Definition insufficient (ev : event) : bool :=
  match ev with
  | Ev e x =>
      match e in gcE X return X -> bool with
      | HasNotEnoughFreeSecs _ => fun b => b
      | _ => fun _ => false
      end x
  end.


(** A victim query made in background mode. *)
Definition background_victim_query (ev : event) : bool :=
  match ev with
  | Ev e _ =>
      match e with
      | GetVictim BG_GC => true
      | _ => false
      end
  end.

(** The answer "no valid block" to the query on a single segment. *)
Definition segment_empty (ev : event) : bool :=
  match ev with
  | Ev e x =>
      match e in gcE X return X -> bool with
      | GetValidBlocks _ _ => fun v => v =? 0
      | _ => fun _ => false
      end x
  end.

(** A program none of whose executions contains an event of kind [K]. *)
Fixpoint avoids {R : Type} (K : kind) (p : prog R) : Prop :=
  match p with
  | Ret _ => True
  | Vis e k => K _ e = false /\ forall x, avoids K (k x)
  end.

Lemma avoids_bind {A B : Type} (K : kind) (p : prog A) (f : A -> prog B) :
  avoids K p -> (forall a, avoids K (f a)) -> avoids K (bind p f).
Proof.
  induction p as [a | X e k IH]; simpl; intros Hp Hf.
  - apply Hf.
  - destruct Hp as [He Hk]. split; [exact He|].
    intros x. apply IH; [apply Hk | exact Hf].
Qed.

Lemma avoids_exec {R : Type} (K : kind) (p : prog R) (tr : list event) (r : R) :
  avoids K p -> exec p tr r -> Forall (fun ev => of_kind K ev = false) tr.
Proof.
  revert tr. induction p as [a | X e k IH]; simpl; intros tr Hp H.
  - destruct H as [E _]. subst. constructor.
  - destruct H as (x & tr' & E & H). destruct Hp as [He Hk]. subst.
    constructor; [exact He|]. apply (IH x); [apply Hk | exact H].
Qed.

Ltac avoids_step :=
  match goal with
  | |- avoids _ (bind _ _) => apply avoids_bind
  | |- avoids _ (if ?b then _ else _) => destruct b
  | |- avoids _ (match ?x with _ => _ end) => destruct x
  | |- avoids _ (let '(_, _) := ?x in _) => destruct x
  | |- avoids _ (call _) => simpl; split; [reflexivity | intros; exact I]
  | |- avoids _ (Ret _) => exact I
  | |- forall _, _ => intro
  end.

(** Events the migration bodies never raise: they belong to the loop
    header, to the end of a migrator and to the driver. *)
Definition driver_event : kind :=
  fun _ e =>
    match e with
    | HasNotEnoughFreeSecs _ | GetValidBlocks _ _
    | WriteCheckpoint _ | GetVictim _ => true
    | _ => false
    end.

Lemma avoids_weaken {R : Type} (K K' : kind) (p : prog R) :
  (forall X (e : gcE X), K' X e = true -> K X e = true) ->
  avoids K p -> avoids K' p.
Proof.
  intros Hk. induction p as [a | X e k IH]; simpl; [trivial|].
  intros [He Hr]. split.
  - destruct (K' X e) eqn:E; [|reflexivity]. apply Hk in E. congruence.
  - intros x. apply IH. apply Hr.
Qed.

Lemma is_alive_avoids (sum : f2fs_summary) (dni : node_info) (blkaddr nofs : Z) :
  avoids driver_event (is_alive sum dni blkaddr nofs).
Proof. unfold is_alive. repeat avoids_step. Qed.

Lemma add_gc_inode_avoids (gc_list : list inode) (i : inode) :
  avoids driver_event (add_gc_inode gc_list i).
Proof. unfold add_gc_inode. repeat avoids_step. Qed.

Lemma move_data_page_avoids (i : inode) (bidx : Z) (gc_type : gc_type_t) :
  avoids driver_event (move_data_page i bidx gc_type).
Proof. unfold move_data_page. repeat avoids_step. Qed.

Ltac avoids_tac :=
  repeat first
    [ apply is_alive_avoids
    | apply add_gc_inode_avoids
    | apply move_data_page_avoids
    | avoids_step ].

Lemma node_body_avoids (segno start_addr : Z) (gc_type : gc_type_t)
  (sum : Z -> f2fs_summary) (initial : bool) (off : Z) (u : unit) :
  avoids driver_event (node_body segno start_addr gc_type sum initial off u).
Proof. unfold node_body, check_valid_map. avoids_tac. Qed.

Lemma data_body_avoids (segno start_addr : Z) (gc_type : gc_type_t)
  (sum : Z -> f2fs_summary) (phase off : Z) (st : list inode * (Z -> Z)) :
  avoids driver_event (data_body segno start_addr gc_type sum phase off st).
Proof. unfold data_body, check_valid_map. destruct st. avoids_tac. Qed.

Lemma data_body_FG_avoids (segno start_addr : Z) (gc_type : gc_type_t)
  (sum : Z -> f2fs_summary) (phase off : Z) (gc_list : list inode) :
  avoids driver_event (data_body_FG segno start_addr gc_type sum phase off gc_list).
Proof. unfold data_body_FG, check_valid_map. avoids_tac. Qed.

(** *** The shape of a background scan *)

(** [bg_scan_trace n tr stopped]: the events of a background scan over [n]
    offsets.  Every offset opens with the free-section check; answered
    [true] it ends the scan, answered [false] it is followed by the events
    of the body, none of which is a free-section check. *)
Inductive bg_scan_trace : nat -> list event -> bool -> Prop :=
| bg_scan_done : bg_scan_trace 0 [] false
| bg_scan_stop (n : nat) :
    bg_scan_trace (S n) [Ev (HasNotEnoughFreeSecs 0) true] true
| bg_scan_go (n : nat) (tb tr : list event) (stopped : bool) :
    Forall (fun ev => of_kind free_check ev = false) tb ->
    bg_scan_trace n tr stopped ->
    bg_scan_trace (S n) (Ev (HasNotEnoughFreeSecs 0) false :: tb ++ tr) stopped.

(** [bg_migration_trace per_pass k tr]: [k] passes of [per_pass] offsets
    each; a pass that stopped is the last one. *)
Inductive bg_migration_trace (per_pass : nat) : nat -> list event -> Prop :=
| bg_migration_done : bg_migration_trace per_pass 0 []
| bg_migration_stop (k : nat) (tr : list event) :
    bg_scan_trace per_pass tr true ->
    bg_migration_trace per_pass (S k) tr
| bg_migration_pass (k : nat) (tr1 tr2 : list event) :
    bg_scan_trace per_pass tr1 false ->
    bg_migration_trace per_pass k tr2 ->
    bg_migration_trace per_pass (S k) (tr1 ++ tr2).

Definition returned (r : option Z) : bool :=
  match r with Some _ => true | None => false end.

Lemma seg_scan_result {S : Type} (gc_type : gc_type_t)
  (body : Z -> S -> prog S) (n : nat) :
  forall off s tr r,
    exec (seg_scan gc_type body n off s) tr r ->
    snd r = None \/ (snd r = Some 0 /\ gc_type = BG_GC).
Proof.
  induction n as [|n IH]; intros off s tr r H; simpl in H.
  - destruct H as [_ E]. subst. left. reflexivity.
  - apply exec_bind in H. destruct H as (tr1 & stop & tr2 & H1 & H2 & E).
    destruct stop.
    + destruct H2 as [_ E2]. subst r. right. split; [reflexivity|].
      destruct gc_type; [reflexivity|]. destruct H1 as [_ E1]. discriminate.
    + apply exec_bind in H2. destruct H2 as (_ & s' & tr4 & _ & H4 & _).
      eapply IH. exact H4.
Qed.

Lemma seg_scan_bg_shape {S : Type} (body : Z -> S -> prog S) (n : nat) :
  (forall off s, avoids free_check (body off s)) ->
  forall off s tr r,
    exec (seg_scan BG_GC body n off s) tr r ->
    bg_scan_trace n tr (returned (snd r)).
Proof.
  intros Hb. induction n as [|n IH]; intros off s tr r H; simpl in H.
  - destruct H as [E1 E2]. subst. constructor.
  - destruct H as (stop & tr' & E & H). subst tr. destruct stop; simpl in H.
    + destruct H as [E1 E2]. subst. constructor.
    + apply exec_bind in H. destruct H as (tb & s' & tr2 & H1 & H2 & E).
      subst tr'. constructor.
      * eapply avoids_exec; [apply Hb | exact H1].
      * eapply IH. exact H2.
Qed.

Lemma seg_scan_avoids {S : Type} (K : kind) (gc_type : gc_type_t)
  (body : Z -> S -> prog S) (n : nat) :
  (gc_type = FG_GC \/ K _ (HasNotEnoughFreeSecs 0) = false) ->
  (forall off s, avoids K (body off s)) ->
  forall off s, avoids K (seg_scan gc_type body n off s).
Proof.
  intros Hk Hb. induction n as [|n IH]; intros off s; simpl; [exact I|].
  apply avoids_bind.
  - destruct gc_type; [|exact I]. destruct Hk as [Hk | Hk]; [discriminate|].
    simpl. split; [exact Hk | intros; exact I].
  - intros stop. destruct stop; [exact I|].
    apply avoids_bind; [apply Hb | intros s'; apply IH].
Qed.

Lemma data_phases_result {S : Type} (gc_type : gc_type_t)
  (body : Z -> Z -> S -> prog S) (n : nat) :
  forall phase s tr r,
    exec (data_phases gc_type body n phase s) tr r ->
    snd r = None \/ (snd r = Some 0 /\ gc_type = BG_GC).
Proof.
  induction n as [|n IH]; intros phase s tr r H; simpl in H.
  - destruct H as [_ E]. subst. left. reflexivity.
  - apply exec_bind in H. destruct H as (tr1 & r1 & tr2 & H1 & H2 & E).
    apply seg_scan_result in H1.
    destruct (snd r1) as [v|] eqn:Er.
    + destruct H2 as [_ E2]. subst r. simpl.
      destruct H1 as [H1 | [H1 Hg]]; [discriminate|].
      right. split; [congruence | exact Hg].
    + eapply IH. exact H2.
Qed.

Lemma data_phases_bg_shape {S : Type} (body : Z -> Z -> S -> prog S) (n : nat) :
  (forall phase off s, avoids free_check (body phase off s)) ->
  forall phase s tr r,
    exec (data_phases BG_GC body n phase s) tr r ->
    bg_migration_trace (Z.to_nat blocks_per_seg) n tr.
Proof.
  intros Hb. induction n as [|n IH]; intros phase s tr r H; simpl in H.
  - destruct H as [E _]. subst. constructor.
  - apply exec_bind in H. destruct H as (tr1 & r1 & tr2 & H1 & H2 & E).
    apply (seg_scan_bg_shape _ _ (Hb phase)) in H1.
    destruct (snd r1) as [v|] eqn:Er; simpl in H1.
    + destruct H2 as [E2 _]. subst. rewrite app_nil_r.
      apply bg_migration_stop. exact H1.
    + subst tr. apply bg_migration_pass; [exact H1|]. eapply IH. exact H2.
Qed.

Lemma data_phases_avoids {S : Type} (K : kind) (gc_type : gc_type_t)
  (body : Z -> Z -> S -> prog S) (n : nat) :
  (gc_type = FG_GC \/ K _ (HasNotEnoughFreeSecs 0) = false) ->
  (forall phase off s, avoids K (body phase off s)) ->
  forall phase s, avoids K (data_phases gc_type body n phase s).
Proof.
  intros Hk Hb. induction n as [|n IH]; intros phase s; simpl; [exact I|].
  apply avoids_bind.
  - apply seg_scan_avoids; [exact Hk | apply Hb].
  - intros r. destruct (snd r); [exact I | apply IH].
Qed.

Lemma split_after_unmarked (P : event -> bool) (ta tb tr1 : list event)
  (ev : event) (tr2 : list event) :
  ta ++ tb = tr1 ++ ev :: tr2 ->
  Forall (fun e => P e = false) ta -> P ev = true ->
  exists l, tb = l ++ ev :: tr2.
Proof.
  revert tr1. induction ta as [|a ta IH]; intros tr1 E Hf Hp.
  - exists tr1. exact E.
  - inversion Hf as [|a' ta' Ha Hta]; subst.
    destruct tr1 as [|b tr1]; simpl in E; inversion E; subst.
    + congruence.
    + eapply IH; eassumption.
Qed.

(** In a background migration an answer "insufficient" is the last
    event. *)
Lemma bg_scan_trace_stop_last (n : nat) (tr : list event) (stopped : bool) :
  bg_scan_trace n tr stopped ->
  (stopped = false -> Forall (fun ev => insufficient ev = false) tr) /\
  (forall tr1 ev tr2,
     tr = tr1 ++ ev :: tr2 -> insufficient ev = true -> tr2 = []).
Proof.
  assert (Hk : forall tb, Forall (fun ev => of_kind free_check ev = false) tb ->
                          Forall (fun ev => insufficient ev = false) tb).
  { intros tb. apply Forall_impl. intros [X e x] H. simpl in *.
    destruct e; try reflexivity. discriminate. }
  induction 1 as [| n | n tb tr' stopped Hb Hs [IH1 IH2]].
  - split; [constructor|]. intros tr1 ev tr2 E. destruct tr1; discriminate.
  - split; [discriminate|]. intros tr1 ev tr2 E _.
    destruct tr1 as [|e1 tr1]; [inversion E; reflexivity|].
    inversion E. destruct tr1; discriminate.
  - assert (Hhead : Forall (fun ev => insufficient ev = false)
                      (Ev (HasNotEnoughFreeSecs 0) false :: tb))
      by (constructor; [reflexivity | apply Hk; exact Hb]).
    split.
    + intros Hst. apply (Forall_app _ (_ :: tb) tr').
      split; [exact Hhead | apply IH1; exact Hst].
    + intros tr1 ev tr2 E Hi.
      destruct (split_after_unmarked insufficient
                  (Ev (HasNotEnoughFreeSecs 0) false :: tb) tr' tr1 ev tr2
                  E Hhead Hi) as (l & El).
      eapply IH2; eassumption.
Qed.

Lemma bg_migration_trace_stop_last (per_pass k : nat) (tr : list event) :
  bg_migration_trace per_pass k tr ->
  forall tr1 ev tr2,
    tr = tr1 ++ ev :: tr2 -> insufficient ev = true -> tr2 = [].
Proof.
  induction 1 as [| k tr Hs | k ta tb Hs Hm IH]; intros tr1 ev tr2 E Hi.
  - destruct tr1; discriminate.
  - eapply bg_scan_trace_stop_last; eassumption.
  - apply bg_scan_trace_stop_last in Hs. destruct Hs as [Hs _].
    specialize (Hs eq_refl).
    destruct (split_after_unmarked insufficient ta tb tr1 ev tr2 E Hs Hi)
      as (l & El).
    eapply IH; eassumption.
Qed.

(** *** The end of a migration *)

(** What the caller of a migrator observes: in BG mode the value 0; in FG
    mode the flush, then the only query of the segment's valid-block
    count, and the value 1 exactly when the answer is zero. *)
Definition freed_report (gc_type : gc_type_t) (flush : gcE unit) (segno : Z)
  (tr : list event) (r : Z) : Prop :=
  match gc_type with
  | BG_GC => r = 0
  | FG_GC =>
      exists tr' v,
        tr = tr' ++ [Ev flush tt; Ev (GetValidBlocks segno 1) v] /\
        Forall (fun ev => of_kind valid_blocks_query ev = false) tr' /\
        r = (if v =? 0 then 1 else 0)
  end.

Lemma report_freed_exec (gc_type : gc_type_t) (flush : gcE unit) (segno : Z)
  (tr : list event) (r : Z) :
  exec (report_freed gc_type flush segno) tr r ->
  match gc_type with
  | BG_GC => tr = [] /\ r = 0
  | FG_GC =>
      exists v, tr = [Ev flush tt; Ev (GetValidBlocks segno 1) v] /\
                r = (if v =? 0 then 1 else 0)
  end.
Proof.
  destruct gc_type; simpl; [tauto|].
  intros (u & tr1 & E1 & v & tr2 & E2 & H). subst. destruct u.
  exists v. destruct (v =? 0); destruct H as [E3 E4]; subst; split; reflexivity.
Qed.

Lemma driver_event_valid_blocks_query (X : Type) (e : gcE X) :
  valid_blocks_query X e = true -> driver_event X e = true.
Proof. destruct e; simpl; congruence. Qed.

Lemma driver_event_free_check (X : Type) (e : gcE X) :
  free_check X e = true -> driver_event X e = true.
Proof. destruct e; simpl; congruence. Qed.

(** A scan followed by the report, as the three migrators end. *)
Lemma scan_then_report {S : Type} (gc_type : gc_type_t) (flush : gcE unit)
  (segno : Z) (scan : prog (S * option Z)) (tr : list event) (r : Z) :
  avoids valid_blocks_query scan ->
  (forall t x, exec scan t x ->
               snd x = None \/ (snd x = Some 0 /\ gc_type = BG_GC)) ->
  (exists t1 x t2,
     exec scan t1 x /\ tr = t1 ++ t2 /\
     match snd x with
     | Some v => t2 = [] /\ r = v
     | None => exec (report_freed gc_type flush segno) t2 r
     end) ->
  freed_report gc_type flush segno tr r.
Proof.
  intros Ha Hres (t1 & x & t2 & H1 & E & H2).
  pose proof (avoids_exec _ _ _ _ Ha H1) as Hq.
  specialize (Hres _ _ H1).
  destruct (snd x) as [v|].
  - destruct H2 as [E2 E3]. destruct Hres as [Hn | [Hs Hg]]; [discriminate|].
    subst gc_type. simpl. congruence.
  - apply report_freed_exec in H2. destruct gc_type; simpl.
    + tauto.
    + destruct H2 as (v & E2 & E3). exists t1, v. subst. repeat split. exact Hq.
Qed.

Lemma node_scans_exec (sum : Z -> f2fs_summary) (segno : Z)
  (gc_type : gc_type_t) (tr : list event) (r : Z) :
  exec (gc_node_segment sum segno gc_type) tr r ->
  exists t1 x t2,
    exec (r1 <- seg_scan gc_type
                  (node_body segno (START_BLOCK segno) gc_type sum true)
                  (Z.to_nat blocks_per_seg) 0 tt ;;
          match snd r1 with
          | Some v => Ret (tt, Some v)
          | None =>
              seg_scan gc_type
                (node_body segno (START_BLOCK segno) gc_type sum false)
                (Z.to_nat blocks_per_seg) 0 tt
          end) t1 x /\
    tr = t1 ++ t2 /\
    match snd x with
    | Some v => t2 = [] /\ r = v
    | None => exec (report_freed gc_type SyncNodePages segno) t2 r
    end.
Proof.
  unfold gc_node_segment. intros H. apply exec_bind in H.
  destruct H as (ta & r1 & tb & H1 & H2 & E).
  destruct (snd r1) as [v|] eqn:E1.
  - destruct H2 as [E2 E3]. subst.
    exists ta, (tt, Some v), []. split; [|split; [reflexivity | split; reflexivity]].
    apply exec_bind. exists ta, r1, []. rewrite E1.
    split; [exact H1 | split; [split; reflexivity | symmetry; apply app_nil_r]].
  - apply exec_bind in H2. destruct H2 as (tc & r2 & td & H3 & H4 & E').
    exists (ta ++ tc), r2, td. split; [|split].
    + apply exec_bind. exists ta, r1, tc. rewrite E1. repeat split; assumption.
    + subst. rewrite app_assoc. reflexivity.
    + destruct (snd r2) as [v|]; [|exact H4]. destruct H4 as [E2 E3].
      split; assumption.
Qed.

Lemma gc_node_segment_report (sum : Z -> f2fs_summary) (segno : Z)
  (gc_type : gc_type_t) (tr : list event) (r : Z) :
  exec (gc_node_segment sum segno gc_type) tr r ->
  freed_report gc_type SyncNodePages segno tr r.
Proof.
  assert (Hq : gc_type = FG_GC \/
               valid_blocks_query _ (HasNotEnoughFreeSecs 0) = false)
    by (right; reflexivity).
  intros H. apply node_scans_exec in H.
  eapply scan_then_report; [| |exact H].
  - apply avoids_bind.
    + apply seg_scan_avoids; [exact Hq|]. intros off s.
      eapply avoids_weaken; [apply driver_event_valid_blocks_query|].
      apply node_body_avoids.
    + intros r1. destruct (snd r1); [exact I|].
      apply seg_scan_avoids; [exact Hq|]. intros off s.
      eapply avoids_weaken; [apply driver_event_valid_blocks_query|].
      apply node_body_avoids.
  - intros t x Hx. apply exec_bind in Hx.
    destruct Hx as (ta & r1 & tb & H1 & H2 & _).
    apply seg_scan_result in H1. destruct (snd r1) as [v|].
    + destruct H2 as [_ E]. subst x. simpl.
      destruct H1 as [H1 | [H1 Hg]]; [discriminate|].
      right. split; [congruence | exact Hg].
    + eapply seg_scan_result. exact H2.
Qed.

Lemma gc_data_segment_report (sum : Z -> f2fs_summary) (gc_list : list inode)
  (segno : Z) (gc_type : gc_type_t) (tr : list event) (r : Z * list inode) :
  exec (gc_data_segment sum gc_list segno gc_type) tr r ->
  freed_report gc_type SubmitMergedBio segno tr (fst r).
Proof.
  assert (Hq : gc_type = FG_GC \/
               valid_blocks_query _ (HasNotEnoughFreeSecs 0) = false)
    by (right; reflexivity).
  intros H. unfold gc_data_segment in H. apply exec_bind in H.
  destruct H as (t1 & x & t2 & H1 & H2 & E).
  eapply scan_then_report with
    (scan := data_phases gc_type
               (data_body segno (START_BLOCK segno) gc_type sum) 4 0
               (gc_list, fun _ => 0)).
  - apply data_phases_avoids; [exact Hq|]. intros phase off s.
    eapply avoids_weaken; [apply driver_event_valid_blocks_query|].
    apply data_body_avoids.
  - intros t y. apply data_phases_result.
  - exists t1, x, t2. split; [exact H1|]. split; [exact E|].
    destruct (snd x) as [v|].
    + destruct H2 as [E2 E3]. subst r. split; [exact E2 | reflexivity].
    + apply exec_bind in H2. destruct H2 as (ta & v & tb & H3 & [E4 E5] & E6).
      subst. rewrite app_nil_r. exact H3.
Qed.

Lemma gc_data_segment_FG_report (sum : Z -> f2fs_summary)
  (gc_list : list inode) (segno : Z) (gc_type : gc_type_t)
  (tr : list event) (r : Z * list inode) :
  exec (gc_data_segment_FG sum gc_list segno gc_type) tr r ->
  freed_report gc_type SubmitMergedBio segno tr (fst r).
Proof.
  assert (Hq : gc_type = FG_GC \/
               valid_blocks_query _ (HasNotEnoughFreeSecs 0) = false)
    by (right; reflexivity).
  intros H. unfold gc_data_segment_FG in H. apply exec_bind in H.
  destruct H as (t1 & x & t2 & H1 & H2 & E).
  eapply scan_then_report with
    (scan := data_phases gc_type
               (data_body_FG segno (START_BLOCK segno) gc_type sum) 4 0
               gc_list).
  - apply data_phases_avoids; [exact Hq|]. intros phase off s.
    eapply avoids_weaken; [apply driver_event_valid_blocks_query|].
    apply data_body_FG_avoids.
  - intros t y. apply data_phases_result.
  - exists t1, x, t2. split; [exact H1|]. split; [exact E|].
    destruct (snd x) as [v|].
    + destruct H2 as [E2 E3]. subst r. split; [exact E2 | reflexivity].
    + apply exec_bind in H2. destruct H2 as (ta & v & tb & H3 & [E4 E5] & E6).
      subst. rewrite app_nil_r. exact H3.
Qed.

(** C9 (amended).  A per-segment migration call returns 1 exactly when
    the call runs in FG mode and the segment's valid-block count, read
    once after the flush (node pages synced, or the merged data write bio
    submitted), is zero; in BG mode it returns 0 whatever the count. *)
Theorem migrator_return_value (sum : Z -> f2fs_summary)
  (gc_list : list inode) (segno : Z) (gc_type : gc_type_t) :
  (forall tr r, exec (gc_node_segment sum segno gc_type) tr r ->
                freed_report gc_type SyncNodePages segno tr r) /\
  (forall tr r, exec (gc_data_segment sum gc_list segno gc_type) tr r ->
                freed_report gc_type SubmitMergedBio segno tr (fst r)) /\
  (forall tr r, exec (gc_data_segment_FG sum gc_list segno gc_type) tr r ->
                freed_report gc_type SubmitMergedBio segno tr (fst r)).
Proof.
  split; [|split]; intros tr r H.
  - eapply gc_node_segment_report. exact H.
  - eapply gc_data_segment_report. exact H.
  - eapply gc_data_segment_FG_report. exact H.
Qed.

(** C10.  In BG mode each of the three migrators returns 0, and its
    events are passes over the block offsets (two for node segments, four
    for data segments) in which every offset opens with the free-section
    check; the first answer "insufficient" ends the migration there: no
    event follows it. *)
Theorem bg_migration_stops_when_short (sum : Z -> f2fs_summary)
  (gc_list : list inode) (segno : Z) :
  let B := Z.to_nat blocks_per_seg in
  (forall tr r, exec (gc_node_segment sum segno BG_GC) tr r ->
                r = 0 /\ bg_migration_trace B 2 tr) /\
  (forall tr r, exec (gc_data_segment sum gc_list segno BG_GC) tr r ->
                fst r = 0 /\ bg_migration_trace B 4 tr) /\
  (forall tr r, exec (gc_data_segment_FG sum gc_list segno BG_GC) tr r ->
                fst r = 0 /\ bg_migration_trace B 4 tr) /\
  (forall k tr, bg_migration_trace B k tr ->
     forall tr1 ev tr2,
       tr = tr1 ++ ev :: tr2 -> insufficient ev = true -> tr2 = []).
Proof.
  intros B.
  pose proof (gc_node_segment_report sum segno BG_GC) as Hn.
  pose proof (gc_data_segment_report sum gc_list segno BG_GC) as Hd.
  pose proof (gc_data_segment_FG_report sum gc_list segno BG_GC) as Hf.
  split; [|split; [|split]].
  - intros tr r H. split; [apply (Hn tr r H)|].
    unfold gc_node_segment in H. apply exec_bind in H.
    destruct H as (t1 & r1 & t2 & H1 & H2 & E).
    apply seg_scan_bg_shape in H1;
      [|intros off s; eapply avoids_weaken;
        [apply driver_event_free_check | apply node_body_avoids]].
    destruct (snd r1) as [v|]; simpl in H1.
    + destruct H2 as [E2 _]. subst. rewrite app_nil_r.
      apply bg_migration_stop. exact H1.
    + apply exec_bind in H2. destruct H2 as (t3 & r2 & t4 & H3 & H4 & E').
      apply seg_scan_bg_shape in H3;
        [|intros off s; eapply avoids_weaken;
          [apply driver_event_free_check | apply node_body_avoids]].
      subst tr. apply bg_migration_pass; [exact H1|].
      destruct (snd r2) as [v|]; simpl in H3.
      * destruct H4 as [E4 _]. subst. rewrite app_nil_r.
        apply bg_migration_stop. exact H3.
      * simpl in H4. destruct H4 as [E4 _]. subst.
        apply bg_migration_pass; [exact H3 | constructor].
  - intros tr r H. split; [apply (Hd tr r H)|].
    unfold gc_data_segment in H. apply exec_bind in H.
    destruct H as (t1 & x & t2 & H1 & H2 & E).
    apply data_phases_bg_shape in H1;
      [|intros phase off s; eapply avoids_weaken;
        [apply driver_event_free_check | apply data_body_avoids]].
    destruct (snd x) as [v|]; simpl in H2.
    + destruct H2 as [E2 _]. subst. rewrite app_nil_r. exact H1.
    + destruct H2 as [E2 _]. subst. rewrite app_nil_r. exact H1.
  - intros tr r H. split; [apply (Hf tr r H)|].
    unfold gc_data_segment_FG in H. apply exec_bind in H.
    destruct H as (t1 & x & t2 & H1 & H2 & E).
    apply data_phases_bg_shape in H1;
      [|intros phase off s; eapply avoids_weaken;
        [apply driver_event_free_check | apply data_body_FG_avoids]].
    destruct (snd x) as [v|]; simpl in H2.
    + destruct H2 as [E2 _]. subst. rewrite app_nil_r. exact H1.
    + destruct H2 as [E2 _]. subst. rewrite app_nil_r. exact H1.
  - intros k tr. apply bg_migration_trace_stop_last.
Qed.

(** C7.  For a summary entry [E] checked at offset [k] of a segment
    starting at [SA], [is_alive] reports not-live when the node page of
    [E.nid] cannot be read, when the node-table version of [E.nid] differs
    from [E.version], or when the block address stored at slot
    [E.ofs_in_node] of the node differs from [SA + k] (in [block_t]
    arithmetic); otherwise it reports live.  Whenever the versions agree
    it outputs [nofs], the offset of the node in its inode's node tree. *)
Theorem is_alive_verdict (E : f2fs_summary) (SA k : Z) (dni0 : node_info)
  (nofs0 : Z) (tr : list event) (alive : bool) (dni : node_info) (nofs : Z) :
  exec (is_alive E dni0 (wrap32 (SA + k)) nofs0) tr (alive, dni, nofs) ->
  (tr = [Ev (GetNodePage (nid E)) None] /\ alive = false) \/
  (exists pg,
     tr = [Ev (GetNodePage (nid E)) (Some pg); Ev (GetNodeInfo (nid E)) dni;
           Ev (PutPage pg 1) tt] /\
     ni_version dni <> version E /\ alive = false) \/
  (exists pg src,
     tr = [Ev (GetNodePage (nid E)) (Some pg); Ev (GetNodeInfo (nid E)) dni;
           Ev (OfsOfNode pg) nofs;
           Ev (DatablockAddr pg (ofs_in_node E)) src;
           Ev (PutPage pg 1) tt] /\
     ni_version dni = version E /\
     (src <> wrap32 (SA + k) -> alive = false) /\
     (src = wrap32 (SA + k) -> alive = true)).
Proof.
  unfold is_alive. simpl. intros (node_page & tr1 & E1 & H). subst tr.
  destruct node_page as [pg|]; simpl in H.
  - destruct H as (ni & tr2 & E2 & H). subst tr1.
    destruct (version E =? ni_version ni) eqn:Ev; simpl in H.
    + apply Z.eqb_eq in Ev. right; right.
      destruct H as (n & tr3 & E3 & src & tr4 & E4 & u & tr5 & E5 & H).
      subst. destruct u. exists pg, src.
      destruct (src =? wrap32 (SA + k)) eqn:Es; simpl in H;
        destruct H as [E6 E7]; inversion E7; subst.
      * apply Z.eqb_eq in Es. repeat split; try congruence.
      * apply Z.eqb_neq in Es. repeat split; try congruence.
    + apply Z.eqb_neq in Ev. right; left.
      destruct H as (u & tr3 & E3 & E4 & E5). subst. destruct u.
      inversion E5; subst. exists pg. repeat split; congruence.
  - left. destruct H as [E2 E3]. inversion E3; subst. split; reflexivity.
Qed.

(** *** What the driver's callees leave out *)

(** What a synchronous round must not do if it runs in the foreground and
    writes no checkpoint: check the free sections, ask for a background
    victim, write a checkpoint. *)
Definition sync_forbidden : kind :=
  fun _ e =>
    match e with
    | HasNotEnoughFreeSecs _ | WriteCheckpoint _ | GetVictim BG_GC => true
    | _ => false
    end.

Definition quiet_kind (K : kind) : Prop :=
  (forall X (e : gcE X), K X e = true -> driver_event X e = true) /\
  (forall segno n, K _ (GetValidBlocks segno n) = false).

Lemma quiet_sync_forbidden : quiet_kind sync_forbidden.
Proof.
  split; [|reflexivity]. intros X e. destruct e; simpl; try congruence.
Qed.

Lemma quiet_victim_query : quiet_kind victim_query.
Proof.
  split; [|reflexivity]. intros X e. destruct e; simpl; congruence.
Qed.

Lemma quiet_not_driver (K : kind) (X : Type) (e : gcE X) :
  quiet_kind K -> driver_event X e = false -> K X e = false.
Proof.
  intros [Hk _] Hd. destruct (K X e) eqn:E; [|reflexivity].
  apply Hk in E. congruence.
Qed.

Lemma report_freed_avoids (K : kind) (gc_type : gc_type_t) (flush : gcE unit)
  (segno : Z) :
  quiet_kind K -> driver_event _ flush = false ->
  avoids K (report_freed gc_type flush segno).
Proof.
  intros Hq Hf. destruct gc_type; simpl; [exact I|].
  split; [apply quiet_not_driver; assumption|]. intros _.
  split; [apply Hq|]. intros v. destruct (v =? 0); exact I.
Qed.

Lemma gc_node_segment_avoids (K : kind) (sum : Z -> f2fs_summary) (segno : Z)
  (gc_type : gc_type_t) :
  quiet_kind K ->
  (gc_type = FG_GC \/ K _ (HasNotEnoughFreeSecs 0) = false) ->
  avoids K (gc_node_segment sum segno gc_type).
Proof.
  intros Hq Hg. unfold gc_node_segment.
  assert (Hb : forall initial off s,
            avoids K (node_body segno (START_BLOCK segno) gc_type sum
                                initial off s)).
  { intros. eapply avoids_weaken; [apply Hq | apply node_body_avoids]. }
  apply avoids_bind; [apply seg_scan_avoids; [exact Hg | apply Hb]|].
  intros r1. destruct (snd r1); [exact I|].
  apply avoids_bind; [apply seg_scan_avoids; [exact Hg | apply Hb]|].
  intros r2. destruct (snd r2); [exact I|].
  apply report_freed_avoids; [exact Hq | reflexivity].
Qed.

Lemma gc_data_segment_avoids (K : kind) (sum : Z -> f2fs_summary)
  (gc_list : list inode) (segno : Z) (gc_type : gc_type_t) :
  quiet_kind K ->
  (gc_type = FG_GC \/ K _ (HasNotEnoughFreeSecs 0) = false) ->
  avoids K (gc_data_segment sum gc_list segno gc_type) /\
  avoids K (gc_data_segment_FG sum gc_list segno gc_type).
Proof.
  intros Hq Hg. unfold gc_data_segment, gc_data_segment_FG. split.
  - apply avoids_bind.
    + apply data_phases_avoids; [exact Hg|]. intros.
      eapply avoids_weaken; [apply Hq | apply data_body_avoids].
    + intros r. destruct (snd r); [exact I|].
      apply avoids_bind; [|intros; exact I].
      apply report_freed_avoids; [exact Hq | reflexivity].
  - apply avoids_bind.
    + apply data_phases_avoids; [exact Hg|]. intros.
      eapply avoids_weaken; [apply Hq | apply data_body_FG_avoids].
    + intros r. destruct (snd r); [exact I|].
      apply avoids_bind; [|intros; exact I].
      apply report_freed_avoids; [exact Hq | reflexivity].
Qed.

Lemma do_garbage_collect_avoids (K : kind) (segno : Z) (gc_list : list inode)
  (gc_type : gc_type_t) :
  quiet_kind K ->
  (gc_type = FG_GC \/ K _ (HasNotEnoughFreeSecs 0) = false) ->
  avoids K (do_garbage_collect segno gc_list gc_type).
Proof.
  intros Hq Hg. unfold do_garbage_collect.
  pose proof (fun X e => quiet_not_driver K X e Hq) as Hn.
  apply avoids_bind; [simpl; split; [apply Hn; reflexivity | intros; exact I]|].
  intros sp.
  apply avoids_bind; [simpl; split; [apply Hn; reflexivity | intros; exact I]|].
  intros _.
  apply avoids_bind; [simpl; split; [apply Hn; reflexivity | intros; exact I]|].
  intros _.
  apply avoids_bind.
  - destruct (sp_type sp =? SUM_TYPE_NODE).
    + apply avoids_bind; [apply gc_node_segment_avoids; assumption|].
      intros; exact I.
    + destruct (sp_type sp =? SUM_TYPE_DATA); [|exact I].
      destruct (gc_data_segment_avoids K (sp_entries sp) gc_list segno gc_type
                  Hq Hg) as [H1 H2].
      destruct gc_type; assumption.
  - intros r.
    apply avoids_bind; [simpl; split; [apply Hn; reflexivity | intros; exact I]|].
    intros _.
    apply avoids_bind; [simpl; split; [apply Hn; reflexivity | intros; exact I]|].
    intros; exact I.
Qed.

Lemma gc_section_avoids (K : kind) (n : nat) (segno : Z)
  (gc_type : gc_type_t) :
  quiet_kind K ->
  (gc_type = FG_GC \/ K _ (HasNotEnoughFreeSecs 0) = false) ->
  forall i gc_list, avoids K (gc_section n i segno gc_type gc_list).
Proof.
  intros Hq Hg. induction n as [|n IH]; intros i gc_list; cbn [gc_section];
    [exact I|].
  apply avoids_bind; [apply do_garbage_collect_avoids; assumption|].
  intros r. destruct ((fst r =? 0) && gc_type_eqb gc_type FG_GC);
    [exact I | apply IH].
Qed.

Lemma put_gc_inode_avoids (K : kind) (gc_list : list inode) :
  (forall i, K _ (Iput i) = false) -> avoids K (put_gc_inode gc_list).
Proof.
  intros Hq. induction gc_list as [|i l IH]; simpl; [exact I|].
  split; [apply Hq|]. intros _. exact IH.
Qed.

(** *** Programs with a postcondition *)

(** [ensures K Q p]: no execution of [p] contains an event of kind [K],
    and every result satisfies [Q]. *)
Fixpoint ensures {R : Type} (K : kind) (Q : R -> Prop) (p : prog R) : Prop :=
  match p with
  | Ret r => Q r
  | Vis e k => K _ e = false /\ forall x, ensures K Q (k x)
  end.

Lemma ensures_bind {A B : Type} (K : kind) (Q1 : A -> Prop) (Q2 : B -> Prop)
  (p : prog A) (f : A -> prog B) :
  ensures K Q1 p -> (forall a, Q1 a -> ensures K Q2 (f a)) ->
  ensures K Q2 (bind p f).
Proof.
  induction p as [a | X e k IH]; simpl; intros Hp Hf.
  - apply Hf. exact Hp.
  - destruct Hp as [He Hk]. split; [exact He|].
    intros x. apply IH; [apply Hk | exact Hf].
Qed.

Lemma avoids_ensures {R : Type} (K : kind) (p : prog R) :
  avoids K p -> ensures K (fun _ => True) p.
Proof.
  induction p as [a | X e k IH]; simpl; [trivial|].
  intros [He Hk]. split; [exact He|]. intros x. apply IH. apply Hk.
Qed.

Lemma ensures_exec {R : Type} (K : kind) (Q : R -> Prop) (p : prog R)
  (tr : list event) (r : R) :
  ensures K Q p -> exec p tr r ->
  Forall (fun ev => of_kind K ev = false) tr /\ Q r.
Proof.
  revert tr. induction p as [a | X e k IH]; simpl; intros tr Hp H.
  - destruct H as [E1 E2]. subst. split; [constructor | exact Hp].
  - destruct H as (x & tr' & E & H). destruct Hp as [He Hk]. subst.
    destruct (IH x tr' (Hk x) H) as [Hf Hq].
    split; [constructor; [exact He | exact Hf] | exact Hq].
Qed.

(** *** Counting over executions *)

(** Segments reported empty by the query that ends a foreground
    migration. *)
Definition freed_segments (tr : list event) : Z :=
  Z.of_nat (length (filter segment_empty tr)).




Lemma freed_segments_nonneg (tr : list event) : 0 <= freed_segments tr.
Proof. unfold freed_segments. lia. Qed.







(** *** One pass of a synchronous round *)


(** A synchronous pass stays in the foreground, checks no free sections,
    writes no checkpoint, and ends at the label [stop]. *)
Lemma gc_pass_sync_ensures (reason : Z) (v : gc_vars) :
  v_gc_type v = FG_GC ->
  ensures sync_forbidden (fun f => exists v', f = GcStop v')
          (gc_pass true reason v).
Proof.
  intros Hfg. unfold gc_pass. rewrite Hfg.
  simpl. split; [reflexivity|]. intros active.
  destruct active; cbn [negb]; [|eexists; reflexivity].
  simpl. split; [reflexivity|]. intros cp_error.
  destruct cp_error; [eexists; reflexivity|].
  cbn [gc_upgrade bind].
  cbn [ensures]. split; [reflexivity|]. intros found.
  destruct found as [segno|]; [|eexists; reflexivity].
  eapply ensures_bind.
  { apply avoids_ensures. destruct (1 <? segs_per_sec); simpl;
      [split; [reflexivity | intros; exact I] | exact I]. }
  intros _ _. eapply ensures_bind.
  { apply avoids_ensures.
    apply gc_section_avoids; [apply quiet_sync_forbidden | left; reflexivity]. }
  intros r _. simpl. split; [reflexivity|]. intros _. eexists; reflexivity.
Qed.

Lemma f2fs_gc_sync_ensures (fuel : nat) :
  ensures sync_forbidden (fun r => r <> None) (f2fs_gc (S fuel) true).
Proof.
  unfold f2fs_gc. cbn [bind call ensures]. split; [reflexivity|].
  intros reason.
  apply (ensures_bind _ (fun r => exists v', r = Some v')).
  { cbn [gc_more].
    apply (ensures_bind _ (fun f => exists v', f = GcStop v')).
    - apply gc_pass_sync_ensures. reflexivity.
    - intros f (v' & E). subst f. cbn [ensures]. exists v'. reflexivity. }
  intros r (v' & E). subst r. cbn [bind call ensures].
  split; [reflexivity|]. intros _.
  apply (ensures_bind _ (fun _ => True)).
  { apply avoids_ensures. apply put_gc_inode_avoids. reflexivity. }
  intros _ _. cbn [ensures]. discriminate.
Qed.



(** *** Passes and the selection of a victim *)

Definition flow_vars (f : gc_flow) : gc_vars :=
  match f with GcMore v | GcStop v => v end.



Lemma gc_post_vars (sync : bool) (reason : Z) (v : gc_vars)
  (tr : list event) (f : gc_flow) :
  exec (gc_post sync reason v) tr f -> flow_vars f = v.
Proof.
  unfold gc_post. destruct sync.
  - intros [_ E]. subst. reflexivity.
  - intros H. apply exec_bind in H.
    destruct H as (t1 & short & t1' & _ & H & _). destruct short.
    + destruct H as [_ E]. subst. reflexivity.
    + destruct (v_gc_type v).
      * destruct H as [_ E]. subst. reflexivity.
      * apply exec_bind in H. destruct H as (_ & _ & _ & _ & [_ E] & _).
        subst. reflexivity.
Qed.




(** *** Around the round *)


Lemma gc_post_exec (sync : bool) (reason : Z) (v : gc_vars)
  (tr : list event) (f : gc_flow) :
  exec (gc_post sync reason v) tr f ->
  (sync = true /\ tr = [] /\ f = GcStop v) \/
  (sync = false /\
   ((tr = [Ev (HasNotEnoughFreeSecs (v_sec_freed v)) true] /\ f = GcMore v) \/
    (v_gc_type v = FG_GC /\
     tr = [Ev (HasNotEnoughFreeSecs (v_sec_freed v)) false;
           Ev (WriteCheckpoint reason) tt] /\ f = GcStop v) \/
    (v_gc_type v = BG_GC /\
     tr = [Ev (HasNotEnoughFreeSecs (v_sec_freed v)) false] /\ f = GcStop v))).
Proof.
  unfold gc_post. destruct sync.
  - intros [E1 E2]. left. repeat split; assumption.
  - intros H. right. split; [reflexivity|].
    apply exec_bind in H. destruct H as (t1 & short & t1' & H1 & H & E).
    apply exec_call in H1. subst. destruct short.
    + destruct H as [E1 E2]. subst. left. split; reflexivity.
    + right. destruct (v_gc_type v).
      * destruct H as [E1 E2]. subst. right. repeat split.
      * apply exec_bind in H. destruct H as (t2 & u & t2' & H2 & [E1 E2] & E3).
        apply exec_call in H2. subst. destruct u. left. repeat split.
Qed.



(** *** The claims about the driver *)



(** *** Accounting over executions *)

(** [weight w tr]: the weights of the events of [tr] added up. *)
Definition weight (w : event -> Z) (tr : list event) : Z :=
  fold_right (fun ev s => w ev + s) 0 tr.

(** [settles w Q p acc]: whatever the answers, when [p] returns [r] and the
    weights of its events have brought the account from [acc] to [t], then
    [Q r t]. *)
Fixpoint settles {R : Type} (w : event -> Z) (Q : R -> Z -> Prop)
  (p : prog R) (acc : Z) : Prop :=
  match p with
  | Ret r => Q r acc
  | Vis e k => forall x, settles w Q (k x) (acc + w (Ev e x))
  end.

(** [tracks w d p]: every execution of [p] weighs [d r] for its result
    [r]. *)
Definition tracks {R : Type} (w : event -> Z) (d : R -> Z) (p : prog R)
  : Prop :=
  forall acc, settles w (fun r t => t = acc + d r) p acc.

Lemma weight_app (w : event -> Z) (a b : list event) :
  weight w (a ++ b) = weight w a + weight w b.
Proof. induction a as [|ev a IH]; simpl; [reflexivity | rewrite IH; lia]. Qed.

Lemma settles_bind {A B : Type} (w : event -> Z) (Q1 : A -> Z -> Prop)
  (Q2 : B -> Z -> Prop) (p : prog A) (f : A -> prog B) (acc : Z) :
  settles w Q1 p acc ->
  (forall a t, Q1 a t -> settles w Q2 (f a) t) ->
  settles w Q2 (bind p f) acc.
Proof.
  revert acc. induction p as [a | X e k IH]; simpl; intros acc Hp Hf.
  - apply Hf. exact Hp.
  - intros x. apply IH; [apply Hp | exact Hf].
Qed.

Lemma settles_exec {R : Type} (w : event -> Z) (Q : R -> Z -> Prop)
  (p : prog R) (acc : Z) (tr : list event) (r : R) :
  settles w Q p acc -> exec p tr r -> Q r (acc + weight w tr).
Proof.
  revert acc tr. induction p as [a | X e k IH]; simpl; intros acc tr Hp H.
  - destruct H as [E1 E2]. subst. simpl. rewrite Z.add_0_r. exact Hp.
  - destruct H as (x & tr' & E & H). subst. simpl.
    rewrite Z.add_assoc. apply (IH x); [apply Hp | exact H].
Qed.

Lemma settles_weaken {R : Type} (w : event -> Z) (Q Q' : R -> Z -> Prop)
  (p : prog R) (acc : Z) :
  (forall r t, Q r t -> Q' r t) -> settles w Q p acc -> settles w Q' p acc.
Proof.
  intros HQ. revert acc. induction p as [a | X e k IH]; simpl; intros acc H.
  - apply HQ. exact H.
  - intros x. apply IH. apply H.
Qed.

Lemma tracks_bind {A B : Type} (w : event -> Z) (d1 : A -> Z) (d2 : B -> Z)
  (p : prog A) (f : A -> prog B) :
  tracks w d1 p ->
  (forall a, tracks w (fun b => d2 b - d1 a) (f a)) ->
  tracks w d2 (bind p f).
Proof.
  intros Hp Hf acc.
  apply (settles_bind w (fun a t => t = acc + d1 a)); [apply Hp|].
  intros a t E. subst t.
  apply (settles_weaken w (fun b t' => t' = acc + d1 a + (d2 b - d1 a)));
    [intros; lia | apply Hf].
Qed.

Lemma tracks_exec {R : Type} (w : event -> Z) (d : R -> Z) (p : prog R)
  (tr : list event) (r : R) :
  tracks w d p -> exec p tr r -> weight w tr = d r.
Proof.
  intros Hp H. pose proof (settles_exec w _ p 0 tr r (Hp 0) H) as E.
  simpl in E. lia.
Qed.

Lemma tracks_ext {R : Type} (w : event -> Z) (d d' : R -> Z) (p : prog R) :
  (forall r, d r = d' r) -> tracks w d p -> tracks w d' p.
Proof.
  intros Hd Hp acc.
  apply (settles_weaken w (fun r t => t = acc + d r));
    [intros r t E; rewrite <- Hd; exact E | apply Hp].
Qed.

(** The loops of the migrators: when the body moves the account with a
    measure [m] of the loop variables, so does the loop.  The free-section
    check in the loop header must weigh nothing. *)
Lemma seg_scan_tracks {S : Type} (w : event -> Z) (m : S -> Z)
  (gc_type : gc_type_t) (body : Z -> S -> prog S) (n : nat) :
  (forall b, w (Ev (HasNotEnoughFreeSecs 0) b) = 0) ->
  (forall off s, tracks w (fun s' => m s' - m s) (body off s)) ->
  forall off s,
    tracks w (fun r => m (fst r) - m s) (seg_scan gc_type body n off s).
Proof.
  intros Hw Hb. induction n as [|n IH]; intros off s acc; cbn [seg_scan].
  - simpl. lia.
  - apply (settles_bind w (fun (_ : bool) t => t = acc)).
    + destruct gc_type; simpl; [intros b; rewrite Hw; lia | reflexivity].
    + intros stop t E. subst t. destruct stop; [simpl; lia|].
      apply (settles_bind w (fun s' t => t = acc + (m s' - m s)));
        [apply Hb|].
      intros s' t E. subst t.
      apply (settles_weaken w
               (fun r t' => t' = acc + (m s' - m s) + (m (fst r) - m s')));
        [intros; lia | apply IH].
Qed.

Lemma data_phases_tracks {S : Type} (w : event -> Z) (m : S -> Z)
  (gc_type : gc_type_t) (body : Z -> Z -> S -> prog S) (n : nat) :
  (forall b, w (Ev (HasNotEnoughFreeSecs 0) b) = 0) ->
  (forall phase off s, tracks w (fun s' => m s' - m s) (body phase off s)) ->
  forall phase s,
    tracks w (fun r => m (fst r) - m s) (data_phases gc_type body n phase s).
Proof.
  intros Hw Hb. induction n as [|n IH]; intros phase s acc;
    cbn [data_phases].
  - simpl. lia.
  - apply (settles_bind w (fun r t => t = acc + (m (fst r) - m s))).
    + apply seg_scan_tracks; [exact Hw | apply Hb].
    + intros r t E. subst t. destruct (snd r); [simpl; lia|].
      apply (settles_weaken w
               (fun r' t' => t' = acc + (m (fst r) - m s)
                                  + (m (fst r') - m (fst r))));
        [intros; lia | apply IH].
Qed.

(** Straight-line programs are accounted for by running through their
    branches. *)
Ltac settles_tac :=
  repeat (cbn [settles bind call negb andb orb fst snd gc_type_eqb];
          match goal with
          | |- forall _, _ => intro
          | |- settles _ _ (if ?b then _ else _) _ => destruct b eqn:?
          | |- settles _ _ (match ?x with _ => _ end) _ => destruct x eqn:?
          | |- settles _ _ (bind (if ?b then _ else _) _) _ =>
              destruct b eqn:?
          | |- settles _ _ (bind (match ?x with _ => _ end) _) _ =>
              destruct x eqn:?
          | |- settles _ _ (bind (bind (if ?b then _ else _) _) _) _ =>
              destruct b eqn:?
          end);
  cbn [settles bind call negb andb orb fst snd gc_type_eqb].

Ltac weigh :=
  cbn;
  repeat match goal with
         | H : ?b = _ |- context [if ?b then _ else _] => rewrite H
         end;
  repeat match goal with
         | |- context [if ?b then _ else _] => destruct b
         end;
  cbn; lia.

(** Calls that touch neither a page nor an inode nor the GC mutex. *)
Definition plain_call : kind :=
  fun _ e =>
    match e with
    | GetCpReason | SbActive | CpError | HasNotEnoughFreeSecs _
    | PrefreeSegments | WriteCheckpoint _ | GetVictim _ | RaMetaPages _ _
    | SetCurVictimSec _ | BlkStartPlug | BlkFinishPlug | GetValidBlocks _ _
    | SyncNodePages | SubmitMergedBio => true
    | _ => false
    end.

(** What the driver needs to know of a weight [w] to account for a whole
    round: plain calls weigh nothing, the summary page is settled by the
    calls of [do_garbage_collect] itself, and the loop bodies move the
    account by the measure [m] of the inode list. *)
Record accounted (w : event -> Z) (m : list inode -> Z) : Prop := {
  acc_plain : forall X (e : gcE X) (x : X),
    plain_call X e = true -> w (Ev e x) = 0;
  acc_sum_page : forall segno sp,
    w (Ev (GetSumPage segno) sp) + w (Ev (UnlockPage (sp_page sp)) tt)
    + w (Ev (PutPage (sp_page sp) 0) tt) = 0;
  acc_node : forall segno start_addr gc_type sum initial off u,
    tracks w (fun _ => 0)
           (node_body segno start_addr gc_type sum initial off u);
  acc_data : forall segno start_addr gc_type sum phase off st,
    tracks w (fun st' => m (fst st') - m (fst st))
           (data_body segno start_addr gc_type sum phase off st);
  acc_data_FG : forall segno start_addr gc_type sum phase off gc_list,
    tracks w (fun gc_list' => m gc_list' - m gc_list)
           (data_body_FG segno start_addr gc_type sum phase off gc_list)
}.

Section Accounted.

Variable w : event -> Z.
Variable m : list inode -> Z.
Hypothesis Hacc : accounted w m.

Lemma report_freed_tracks (gc_type : gc_type_t) (flush : gcE unit)
  (segno : Z) :
  plain_call _ flush = true ->
  tracks w (fun _ => 0) (report_freed gc_type flush segno).
Proof.
  intros Hf acc. destruct gc_type; cbn [report_freed]; settles_tac;
    rewrite ?(acc_plain w m Hacc _ flush) by exact Hf;
    rewrite ?(acc_plain w m Hacc _ (GetValidBlocks segno 1)) by reflexivity;
    lia.
Qed.

Lemma gc_node_segment_tracks (sum : Z -> f2fs_summary) (segno : Z)
  (gc_type : gc_type_t) :
  tracks w (fun _ => 0) (gc_node_segment sum segno gc_type).
Proof.
  assert (Hscan : forall initial,
    tracks w (fun _ : unit * option Z => 0)
      (seg_scan gc_type (node_body segno (START_BLOCK segno) gc_type sum initial)
                (Z.to_nat blocks_per_seg) 0 tt)).
  { intros initial.
    apply (tracks_ext w (fun r : unit * option Z => 0 - 0)); [intros; lia|].
    apply (seg_scan_tracks w (fun _ : unit => 0)).
    - intros b. apply (acc_plain w m Hacc). reflexivity.
    - intros off s. apply (tracks_ext w (fun _ => 0)); [intros; lia|].
      apply (acc_node w m Hacc). }
  unfold gc_node_segment.
  apply (tracks_bind w (fun _ => 0)); [apply Hscan|]. intros r1.
  destruct (snd r1); [intros acc; simpl; lia|].
  apply (tracks_bind w (fun _ => 0)); [apply Hscan|]. intros r2.
  destruct (snd r2); [intros acc; simpl; lia|].
  apply (tracks_ext w (fun _ => 0)); [intros; lia|].
  apply report_freed_tracks. reflexivity.
Qed.

Lemma gc_data_segment_tracks (sum : Z -> f2fs_summary) (gc_list : list inode)
  (segno : Z) (gc_type : gc_type_t) :
  tracks w (fun r => m (snd r) - m gc_list)
         (gc_data_segment sum gc_list segno gc_type).
Proof.
  unfold gc_data_segment.
  apply (tracks_bind w (fun r => m (fst (fst r)) - m gc_list)).
  - apply (tracks_ext w
             (fun r : list inode * (Z -> Z) * option Z =>
                m (fst (fst r)) - m (fst (gc_list, fun _ : Z => 0))));
      [intros; reflexivity|].
    apply (data_phases_tracks w
             (fun st : list inode * (Z -> Z) => m (fst st))).
    + intros b. apply (acc_plain w m Hacc). reflexivity.
    + intros phase off s. apply (acc_data w m Hacc).
  - intros r. destruct (snd r); [intros acc; simpl; lia|].
    apply (tracks_bind w (fun _ => 0));
      [apply report_freed_tracks; reflexivity|].
    intros v acc. simpl. lia.
Qed.

Lemma gc_data_segment_FG_tracks (sum : Z -> f2fs_summary)
  (gc_list : list inode) (segno : Z) (gc_type : gc_type_t) :
  tracks w (fun r => m (snd r) - m gc_list)
         (gc_data_segment_FG sum gc_list segno gc_type).
Proof.
  unfold gc_data_segment_FG.
  apply (tracks_bind w (fun r => m (fst r) - m gc_list)).
  - apply (data_phases_tracks w m).
    + intros b. apply (acc_plain w m Hacc). reflexivity.
    + intros phase off s. apply (acc_data_FG w m Hacc).
  - intros r. destruct (snd r); [intros acc; simpl; lia|].
    apply (tracks_bind w (fun _ => 0));
      [apply report_freed_tracks; reflexivity|].
    intros v acc. simpl. lia.
Qed.

Lemma do_garbage_collect_tracks (segno : Z) (gc_list : list inode)
  (gc_type : gc_type_t) :
  tracks w (fun r => m (snd r) - m gc_list)
         (do_garbage_collect segno gc_list gc_type).
Proof.
  intros acc. unfold do_garbage_collect. cbn [bind call settles].
  intros sp [] [].
  rewrite (acc_plain w m Hacc _ BlkStartPlug) by reflexivity.
  pose proof (acc_sum_page w m Hacc segno sp) as Hsp.
  match goal with |- settles _ _ _ ?a =>
    apply (settles_bind w (fun r t => t = a + (m (snd r) - m gc_list)))
  end.
  - destruct (sp_type sp =? SUM_TYPE_NODE).
    + apply (tracks_bind w (fun _ => 0)); [apply gc_node_segment_tracks|].
      intros nfree a. simpl. lia.
    + destruct (sp_type sp =? SUM_TYPE_DATA); [|simpl; lia].
      destruct gc_type;
        [apply gc_data_segment_tracks | apply gc_data_segment_FG_tracks].
  - intros r t E. subst t. cbn [bind call settles]. intros [] [].
    rewrite (acc_plain w m Hacc _ BlkFinishPlug) by reflexivity. lia.
Qed.

Lemma gc_section_tracks (n : nat) (segno : Z) (gc_type : gc_type_t) :
  forall i gc_list,
    tracks w (fun r => m (snd r) - m gc_list)
           (gc_section n i segno gc_type gc_list).
Proof.
  induction n as [|n IH]; intros i gc_list; cbn [gc_section].
  - intros acc. simpl. lia.
  - apply (tracks_bind w (fun r => m (snd r) - m gc_list));
      [apply do_garbage_collect_tracks|].
    intros r. destruct ((fst r =? 0) && gc_type_eqb gc_type FG_GC).
    + intros acc. simpl. lia.
    + apply (tracks_ext w (fun r' => m (snd r') - m (snd r)));
        [intros; lia | apply IH].
Qed.

Lemma gc_upgrade_tracks (reason : Z) (gc_type : gc_type_t) (sec_freed : Z) :
  tracks w (fun _ => 0) (gc_upgrade reason gc_type sec_freed).
Proof.
  intros acc. unfold gc_upgrade. settles_tac;
    rewrite ?(acc_plain w m Hacc _ (HasNotEnoughFreeSecs sec_freed))
      by reflexivity;
    rewrite ?(acc_plain w m Hacc _ (GetVictim FG_GC)) by reflexivity;
    rewrite ?(acc_plain w m Hacc _ (WriteCheckpoint reason)) by reflexivity;
    rewrite ?(acc_plain w m Hacc _ PrefreeSegments) by reflexivity;
    lia.
Qed.

Lemma gc_post_settles (sync : bool) (reason : Z) (v : gc_vars) (acc : Z) :
  settles w (fun f t => t = acc /\ flow_vars f = v)
          (gc_post sync reason v) acc.
Proof.
  unfold gc_post. settles_tac;
    rewrite ?(acc_plain w m Hacc _ (HasNotEnoughFreeSecs (v_sec_freed v)))
      by reflexivity;
    rewrite ?(acc_plain w m Hacc _ (WriteCheckpoint reason)) by reflexivity;
    (split; [lia | reflexivity]).
Qed.

(** One pass moves the account by what it does to the inode list. *)
Lemma gc_pass_tracks (sync : bool) (reason : Z) (v : gc_vars) :
  tracks w (fun f => m (v_gc_list (flow_vars f)) - m (v_gc_list v))
         (gc_pass sync reason v).
Proof.
  intros acc. unfold gc_pass. cbn [bind call settles]. intros active.
  rewrite (acc_plain w m Hacc _ SbActive) by reflexivity.
  destruct active; cbn [negb]; [|simpl; lia].
  cbn [bind call settles]. intros cp_error.
  rewrite (acc_plain w m Hacc _ CpError) by reflexivity.
  destruct cp_error; [simpl; lia|].
  match goal with |- settles _ _ _ ?a =>
    apply (settles_bind w (fun _ t => t = a)) end.
  { apply (settles_weaken w (fun _ t => t = acc + 0 + 0 + 0));
      [intros; lia | apply gc_upgrade_tracks]. }
  intros [gc_type segno] t E. subst t.
  match goal with |- settles _ _ _ ?a =>
    apply (settles_bind w (fun _ t => t = a)) end.
  { destruct (segno =? NULL_SEGNO); simpl; [|reflexivity].
    intros found. rewrite (acc_plain w m Hacc _ (GetVictim gc_type))
      by reflexivity. lia. }
  intros found t E. subst t. destruct found as [s|]; [|simpl; lia].
  match goal with |- settles _ _ _ ?a =>
    apply (settles_bind w (fun _ t => t = a)) end.
  { destruct (1 <? segs_per_sec); simpl; [|reflexivity].
    intros u. rewrite (acc_plain w m Hacc _ (RaMetaPages s segs_per_sec))
      by reflexivity. lia. }
  intros _ t E. subst t.
  match goal with |- settles _ _ _ ?a =>
    apply (settles_bind w
             (fun r t => t = a + (m (snd r) - m (v_gc_list v)))) end.
  { apply gc_section_tracks. }
  intros r t E. subst t.
  match goal with |- settles _ _ _ ?a =>
    apply (settles_bind w (fun _ t => t = a)) end.
  { destruct gc_type; simpl; [reflexivity|].
    intros u. rewrite (acc_plain w m Hacc _ (SetCurVictimSec NULL_SEGNO))
      by reflexivity. lia. }
  intros _ t E. subst t.
  match goal with |- settles _ _ _ ?a =>
    apply (settles_weaken w (fun f t => t = a /\ flow_vars f =
             {| v_gc_type := gc_type;
                v_sec_freed :=
                  if (fst r =? segs_per_sec) && gc_type_eqb gc_type FG_GC
                  then v_sec_freed v + 1 else v_sec_freed v;
                v_ret := 0; v_gc_list := snd r |}))
  end; [|apply gc_post_settles].
  intros f t [E Hf]. rewrite Hf. cbn [v_gc_list]. lia.
Qed.

Lemma gc_more_settles (fuel : nat) (sync : bool) (reason : Z) :
  forall v acc,
    settles w (fun r t => exists l, t = acc + (m l - m (v_gc_list v)) /\
                                    forall v', r = Some v' -> l = v_gc_list v')
            (gc_more fuel sync reason v) acc.
Proof.
  induction fuel as [|fuel IH]; intros v acc; cbn [gc_more].
  - simpl. exists (v_gc_list v). split; [lia | discriminate].
  - apply (settles_bind w
             (fun f t => t = acc + (m (v_gc_list (flow_vars f))
                                    - m (v_gc_list v))));
      [apply gc_pass_tracks|].
    intros f t E. subst t. destruct f as [v1 | v1]; cbn [flow_vars].
    + eapply settles_weaken; [|apply IH].
      intros r t (l & E & Hl). exists l. split; [lia | exact Hl].
    + simpl. exists (v_gc_list v1).
      split; [lia | intros v' E; inversion E; reflexivity].
Qed.

(** A whole round: when it returns, the account has moved by the weight of
    the one [mutex_unlock]; the inode list built up by the passes is
    settled by [put_gc_inode]. *)
Lemma f2fs_gc_settles (fuel : nat) (sync : bool) (acc : Z) :
  m [] = 0 ->
  (forall l, tracks w (fun _ => - m l) (put_gc_inode l)) ->
  settles w (fun r t => match r with
                        | Some _ => t = acc + w (Ev MutexUnlockGc tt)
                        | None => exists l, t = acc + m l
                        end)
          (f2fs_gc fuel sync) acc.
Proof.
  intros Hnil Hput. unfold f2fs_gc. cbn [bind call settles]. intros reason.
  rewrite (acc_plain w m Hacc _ GetCpReason) by reflexivity.
  eapply settles_bind; [apply gc_more_settles|].
  intros r t (l & E & Hl). cbn [v_gc_list] in E. rewrite Hnil in E.
  destruct r as [v|].
  - rewrite (Hl v eq_refl) in E. subst t. cbn [bind call settles]. intros [].
    eapply settles_bind; [apply Hput|].
    intros u t' E'. cbv beta in E'. subst t'. simpl. lia.
  - simpl. exists l. lia.
Qed.

End Accounted.

Ltac leaf_tac :=
  intros;
  match goal with |- tracks _ _ _ => intros ?acc end;
  unfold node_body, data_body, data_body_FG, check_valid_map, is_alive,
    move_data_page, add_gc_inode;
  repeat match goal with st : (_ * _)%type |- _ => destruct st end;
  settles_tac;
  rewrite ?length_app, ?Nat2Z.inj_add; weigh.

(** *** Page references

    A page is taken with [get_sum_page], [get_node_page],
    [get_lock_data_page], [get_cached_data_page] or [get_read_data_page]
    (unless the call fails) and given back with [f2fs_put_page]. *)
Definition page_ref (pg : page) (ev : event) : Z :=
  match ev with
  | Ev e x =>
      match e in gcE X return X -> Z with
      | GetSumPage _ => fun sp => if sp_page sp =? pg then 1 else 0
      | GetNodePage _ | GetLockDataPage _ _
      | GetCachedDataPage _ _ _ | GetReadDataPage _ _ _ =>
          fun got => match got with
                     | Some q => if q =? pg then 1 else 0
                     | None => 0
                     end
      | PutPage q _ => fun _ => if q =? pg then -1 else 0
      | _ => fun _ => 0
      end x
  end.

Lemma page_ref_accounted (pg : page) : accounted (page_ref pg) (fun _ => 0).
Proof.
  constructor.
  - intros X e x H. destruct e; try discriminate; reflexivity.
  - intros segno sp. simpl. destruct (sp_page sp =? pg); lia.
  - leaf_tac.
  - leaf_tac.
  - leaf_tac.
Qed.

Lemma put_gc_inode_weightless (w : event -> Z) (l : list inode) :
  (forall i x, w (Ev (Iput i) x) = 0) ->
  tracks w (fun _ => 0) (put_gc_inode l).
Proof.
  intros Hw. induction l as [|i l IH]; intros acc; simpl; [lia|].
  intros x. rewrite Hw. apply (settles_weaken w (fun _ t => t = acc + 0 + 0));
    [intros; lia | apply IH].
Qed.

(** X1.  Page references are balanced.  Along every execution of
    [do_garbage_collect], and of a whole round of [f2fs_gc] whether or not
    it comes to its end, each page is given back with [f2fs_put_page] as
    often as it was taken with [get_sum_page], [get_node_page],
    [get_lock_data_page], [get_cached_data_page] or [get_read_data_page].
    (The pages that [move_encrypted_block] handles inside are not part of
    the account.) *)
Theorem page_references_balanced (pg : page) :
  (forall segno gc_list gc_type tr r,
     exec (do_garbage_collect segno gc_list gc_type) tr r ->
     weight (page_ref pg) tr = 0) /\
  (forall fuel sync tr r,
     exec (f2fs_gc fuel sync) tr r -> weight (page_ref pg) tr = 0).
Proof.
  pose proof (page_ref_accounted pg) as Ha. split.
  - intros segno gc_list gc_type tr r H.
    apply (tracks_exec _ _ _ _ _
             (do_garbage_collect_tracks _ _ Ha segno gc_list gc_type) H).
  - intros fuel sync tr r H.
    pose proof (settles_exec _ _ _ 0 tr r
                  (f2fs_gc_settles _ _ Ha fuel sync 0 eq_refl
                     (fun l => put_gc_inode_weightless _ l
                                 (fun _ _ => eq_refl))) H) as E.
    cbv beta in E. destruct r as [ret|]; [simpl in E; lia|].
    destruct E as (l & E). lia.
Qed.

(** *** Page locks

    [get_sum_page], [get_node_page] and [get_lock_data_page] hand out the
    page locked; [unlock_page] and [f2fs_put_page(page, 1)] unlock it,
    [f2fs_put_page(page, 0)] does not. *)
Definition page_lock (pg : page) (ev : event) : Z :=
  match ev with
  | Ev e x =>
      match e in gcE X return X -> Z with
      | GetSumPage _ => fun sp => if sp_page sp =? pg then 1 else 0
      | GetNodePage _ | GetLockDataPage _ _ =>
          fun got => match got with
                     | Some q => if q =? pg then 1 else 0
                     | None => 0
                     end
      | UnlockPage q => fun _ => if q =? pg then -1 else 0
      | PutPage q unlock =>
          fun _ => if unlock =? 0 then 0 else if q =? pg then -1 else 0
      | _ => fun _ => 0
      end x
  end.

Lemma page_lock_accounted (pg : page) : accounted (page_lock pg) (fun _ => 0).
Proof.
  constructor.
  - intros X e x H. destruct e; try discriminate; reflexivity.
  - intros segno sp. simpl. destruct (sp_page sp =? pg); lia.
  - leaf_tac.
  - leaf_tac.
  - leaf_tac.
Qed.

(** X2.  Page locks are balanced.  Along every execution of
    [do_garbage_collect] and of [f2fs_gc], each page that came locked
    (from [get_sum_page], [get_node_page], [get_lock_data_page]) is
    unlocked exactly once, by [unlock_page] or by [f2fs_put_page] with
    [unlock = 1]; the pages of [get_cached_data_page] and
    [get_read_data_page], and the summary page after its [unlock_page],
    are put with [unlock = 0]. *)
Theorem page_locks_balanced (pg : page) :
  (forall segno gc_list gc_type tr r,
     exec (do_garbage_collect segno gc_list gc_type) tr r ->
     weight (page_lock pg) tr = 0) /\
  (forall fuel sync tr r,
     exec (f2fs_gc fuel sync) tr r -> weight (page_lock pg) tr = 0).
Proof.
  pose proof (page_lock_accounted pg) as Ha. split.
  - intros segno gc_list gc_type tr r H.
    apply (tracks_exec _ _ _ _ _
             (do_garbage_collect_tracks _ _ Ha segno gc_list gc_type) H).
  - intros fuel sync tr r H.
    pose proof (settles_exec _ _ _ 0 tr r
                  (f2fs_gc_settles _ _ Ha fuel sync 0 eq_refl
                     (fun l => put_gc_inode_weightless _ l
                                 (fun _ _ => eq_refl))) H) as E.
    cbv beta in E. destruct r as [ret|]; [simpl in E; lia|].
    destruct E as (l & E). lia.
Qed.

(** *** Inode references

    [f2fs_iget] takes a reference on the inode it returns, [iput] drops
    one.  A bad inode is skipped by
    [if (IS_ERR(inode) || is_bad_inode(inode)) continue;] with its
    reference, so the account is kept for the others. *)
Definition inode_ref (ino : Z) (ev : event) : Z :=
  match ev with
  | Ev e x =>
      match e in gcE X return X -> Z with
      | F2fsIget _ =>
          fun got => match got with
                     | Some i => if i_bad i then 0
                                 else if i_ino i =? ino then 1 else 0
                     | None => 0
                     end
      | Iput i => fun _ => if i_ino i =? ino then -1 else 0
      | _ => fun _ => 0
      end x
  end.

(** The entries of the inode list that hold inode [ino]. *)
Definition held (ino : Z) (gc_list : list inode) : Z :=
  Z.of_nat (length (filter (fun i => i_ino i =? ino) gc_list)).

Lemma held_app (ino : Z) (a b : list inode) :
  held ino (a ++ b) = held ino a + held ino b.
Proof. unfold held. rewrite filter_app, length_app. lia. Qed.

Ltac inode_leaf_tac :=
  intros;
  match goal with |- tracks _ _ _ => intros ?acc end;
  unfold node_body, data_body, data_body_FG, check_valid_map, is_alive,
    move_data_page, add_gc_inode;
  repeat match goal with st : (_ * _)%type |- _ => destruct st end;
  settles_tac;
  rewrite ?held_app; unfold held; weigh.

Lemma inode_ref_accounted (ino : Z) : accounted (inode_ref ino) (held ino).
Proof.
  constructor.
  - intros X e x H. destruct e; try discriminate; reflexivity.
  - intros segno sp. reflexivity.
  - inode_leaf_tac.
  - inode_leaf_tac.
  - inode_leaf_tac.
Qed.

Lemma put_gc_inode_inode_ref (ino : Z) (l : list inode) :
  tracks (inode_ref ino) (fun _ => - held ino l) (put_gc_inode l).
Proof.
  induction l as [|i l IH]; intros acc; simpl; [unfold held; simpl; lia|].
  intros x.
  apply (settles_weaken _
           (fun _ t => t = acc + (if i_ino i =? ino then -1 else 0)
                            + - held ino l)); [|apply IH].
  intros _ t E. subst t. unfold held. simpl.
  destruct (i_ino i =? ino); simpl length; lia.
Qed.

(** X3.  Inode references are balanced.  [do_garbage_collect] keeps, for
    every inode, as many references as it adds entries to the inode list;
    a round of [f2fs_gc] that returns has dropped every reference it took
    (on an inode that is not bad): a second [f2fs_iget] of a listed inode
    is answered by the [iput] of [add_gc_inode], a failed page lookup by
    the [iput] in the loop, and the list by [put_gc_inode]. *)
Theorem inode_references_balanced (ino : Z) :
  (forall segno gc_list gc_type tr r,
     exec (do_garbage_collect segno gc_list gc_type) tr r ->
     weight (inode_ref ino) tr = held ino (snd r) - held ino gc_list) /\
  (forall fuel sync tr ret,
     exec (f2fs_gc fuel sync) tr (Some ret) ->
     weight (inode_ref ino) tr = 0).
Proof.
  pose proof (inode_ref_accounted ino) as Ha. split.
  - intros segno gc_list gc_type tr r H.
    apply (tracks_exec _ _ _ _ _
             (do_garbage_collect_tracks _ _ Ha segno gc_list gc_type) H).
  - intros fuel sync tr ret H.
    pose proof (settles_exec _ _ _ 0 tr _
                  (f2fs_gc_settles _ _ Ha fuel sync 0 eq_refl
                     (put_gc_inode_inode_ref ino)) H) as E.
    simpl in E. lia.
Qed.

(** *** The GC mutex

    [gc_thread_func] takes [sbi->gc_mutex] with [mutex_trylock];
    [f2fs_gc] is entered with the mutex held and releases it at the label
    [stop]. *)
Definition gc_mutex (ev : event) : Z :=
  match ev with
  | Ev e x =>
      match e in gcE X return X -> Z with
      | MutexTrylockGc => fun got => if got then 1 else 0
      | MutexUnlockGc => fun _ => -1
      | _ => fun _ => 0
      end x
  end.

Lemma gc_mutex_accounted : accounted gc_mutex (fun _ => 0).
Proof.
  constructor.
  - intros X e x H. destruct e; try discriminate; reflexivity.
  - intros segno sp. reflexivity.
  - leaf_tac.
  - leaf_tac.
  - leaf_tac.
Qed.

Lemma f2fs_gc_gc_mutex (fuel : nat) (sync : bool) (acc : Z) :
  settles gc_mutex (fun r t => match r with
                               | Some _ => t = acc - 1
                               | None => t = acc
                               end)
          (f2fs_gc fuel sync) acc.
Proof.
  eapply settles_weaken;
    [|apply (f2fs_gc_settles _ _ gc_mutex_accounted fuel sync acc eq_refl
               (fun l => put_gc_inode_weightless _ l (fun _ _ => eq_refl)))].
  intros r t. destruct r; simpl; [lia | intros (l & E); lia].
Qed.

(** The wait takes and releases nothing. *)
Lemma wait_event_gc_mutex (naps : list bool) (wait_ms acc : Z) :
  settles gc_mutex (fun _ t => t = acc)
          (wait_event_interruptible_timeout naps wait_ms) acc.
Proof.
  induction naps as [|nap naps IH];
    cbn [wait_event_interruptible_timeout bind call settles];
    intros stop; destruct stop; cbn [settles gc_mutex]; try lia.
  destruct nap; cbn [bind call settles].
  - intros []. cbn [gc_mutex].
    replace (acc + 0 + 0) with acc by lia. exact IH.
  - replace (acc + 0) with acc by lia. exact IH.
Qed.

(** X4.  The GC mutex is released exactly once per round and never left
    locked by the reclaimer.  A round of [f2fs_gc] that returns contains
    one [mutex_unlock] more than successful [mutex_trylock]s; a round cut
    short contains none.  A turn of the loop of [gc_thread_func] that comes
    to its end has unlocked as often as its [mutex_trylock] succeeded: by
    [f2fs_gc], or by the thread itself when the device is not idle. *)
Theorem gc_mutex_balanced (fuel : nat) :
  (forall sync tr r,
     exec (f2fs_gc fuel sync) tr r ->
     weight gc_mutex tr = match r with Some _ => -1 | None => 0 end) /\
  (forall naps gc_th wait_ms tr f,
     exec (gc_thread_turn fuel naps gc_th wait_ms) tr (Some f) ->
     weight gc_mutex tr = 0).
Proof.
  split.
  - intros sync tr r H.
    pose proof (settles_exec _ _ _ 0 tr r (f2fs_gc_gc_mutex fuel sync 0) H)
      as E.
    cbv beta in E. destruct r; lia.
  - intros naps gc_th wait_ms tr f H.
    assert (Hs : settles gc_mutex
                   (fun r t => match r with
                               | Some _ => t = 0
                               | None => t = 1
                               end)
                   (gc_thread_turn fuel naps gc_th wait_ms) 0).
    { unfold gc_thread_turn, thread_again, thread_after_gc.
      settles_tac; try (solve [weigh]).
      eapply settles_bind; [apply wait_event_gc_mutex|].
      intros u t E. cbv beta in E. subst t.
      settles_tac; try (solve [weigh]).
      eapply settles_bind; [apply f2fs_gc_gc_mutex|].
      intros r t E. destruct r as [ret|]; settles_tac; subst t; weigh. }
    pose proof (settles_exec _ _ _ 0 tr _ Hs H) as E. simpl in E. lia.
Qed.

(** *** What each mode leaves out *)

(** Where the switch on the summary type avoids a kind of event: the loop
    header, the loop bodies of the mode and the end of the migrators avoid
    it. *)
Lemma migration_avoids_kind (K : kind) (gc_type : gc_type_t) :
  (gc_type = FG_GC \/ K _ (HasNotEnoughFreeSecs 0) = false) ->
  (forall flush segno, flush = SyncNodePages \/ flush = SubmitMergedBio ->
     avoids K (report_freed gc_type flush segno)) ->
  (forall segno start_addr sum initial off u,
     avoids K (node_body segno start_addr gc_type sum initial off u)) ->
  match gc_type with
  | BG_GC => forall segno start_addr sum phase off st,
      avoids K (data_body segno start_addr BG_GC sum phase off st)
  | FG_GC => forall segno start_addr sum phase off gc_list,
      avoids K (data_body_FG segno start_addr FG_GC sum phase off gc_list)
  end ->
  forall (sp : sum_page) segno gc_list,
    avoids K (if sp_type sp =? SUM_TYPE_NODE then
                nfree <- gc_node_segment (sp_entries sp) segno gc_type ;;
                Ret (nfree, gc_list)
              else if sp_type sp =? SUM_TYPE_DATA then
                match gc_type with
                | FG_GC =>
                    gc_data_segment_FG (sp_entries sp) gc_list segno gc_type
                | BG_GC =>
                    gc_data_segment (sp_entries sp) gc_list segno gc_type
                end
              else Ret (0, gc_list)).
Proof.
  intros Hfree Hrep Hnode Hdata sp segno gc_list.
  destruct (sp_type sp =? SUM_TYPE_NODE).
  - apply avoids_bind; [|intros; exact I]. unfold gc_node_segment.
    apply avoids_bind; [apply seg_scan_avoids; [exact Hfree | apply Hnode]|].
    intros r1. destruct (snd r1); [exact I|].
    apply avoids_bind; [apply seg_scan_avoids; [exact Hfree | apply Hnode]|].
    intros r2. destruct (snd r2); [exact I|].
    apply Hrep. left. reflexivity.
  - destruct (sp_type sp =? SUM_TYPE_DATA); [|exact I].
    destruct gc_type.
    + unfold gc_data_segment. apply avoids_bind.
      * apply data_phases_avoids; [exact Hfree | apply Hdata].
      * intros r. destruct (snd r); [exact I|].
        apply avoids_bind; [|intros; exact I].
        apply Hrep. right. reflexivity.
    + unfold gc_data_segment_FG. apply avoids_bind.
      * apply data_phases_avoids; [exact Hfree | apply Hdata].
      * intros r. destruct (snd r); [exact I|].
        apply avoids_bind; [|intros; exact I].
        apply Hrep. right. reflexivity.
Qed.

Lemma do_garbage_collect_avoids_kind (K : kind) (gc_type : gc_type_t) :
  (forall segno, K _ (GetSumPage segno) = false) ->
  K _ BlkStartPlug = false -> K _ BlkFinishPlug = false ->
  (forall pg, K _ (UnlockPage pg) = false) ->
  (forall pg, K _ (PutPage pg 0) = false) ->
  (gc_type = FG_GC \/ K _ (HasNotEnoughFreeSecs 0) = false) ->
  (forall flush segno, flush = SyncNodePages \/ flush = SubmitMergedBio ->
     avoids K (report_freed gc_type flush segno)) ->
  (forall segno start_addr sum initial off u,
     avoids K (node_body segno start_addr gc_type sum initial off u)) ->
  match gc_type with
  | BG_GC => forall segno start_addr sum phase off st,
      avoids K (data_body segno start_addr BG_GC sum phase off st)
  | FG_GC => forall segno start_addr sum phase off gc_list,
      avoids K (data_body_FG segno start_addr FG_GC sum phase off gc_list)
  end ->
  forall segno gc_list, avoids K (do_garbage_collect segno gc_list gc_type).
Proof.
  intros Hsum Hsp Hfp Hun Hput Hfree Hrep Hnode Hdata segno gc_list.
  unfold do_garbage_collect.
  apply avoids_bind; [simpl; split; [apply Hsum | intros; exact I]|].
  intros sp.
  apply avoids_bind; [simpl; split; [exact Hsp | intros; exact I]|].
  intros _.
  apply avoids_bind; [simpl; split; [apply Hun | intros; exact I]|].
  intros _.
  apply avoids_bind; [apply migration_avoids_kind; assumption|].
  intros r.
  apply avoids_bind; [simpl; split; [exact Hfp | intros; exact I]|].
  intros _.
  apply avoids_bind; [simpl; split; [apply Hput | intros; exact I]|].
  intros; exact I.
Qed.

(** Calls that write a page out, wait for a write, or flush: the work of
    a foreground collection. *)
Definition synchronous_write : kind :=
  fun _ e =>
    match e with
    | WaitOnPageWriteback _ | DoWriteDataPage _ | ClearPageDirtyForIo _
    | InodeDecDirtyPages _ | ClearColdData _ | SyncNodePages
    | SubmitMergedBio | GetValidBlocks _ _ | GetReadDataPage _ _ _ => true
    | _ => false
    end.

(** Calls of the background path only. *)
Definition background_step : kind :=
  fun _ e =>
    match e with
    | HasNotEnoughFreeSecs _ | PageWriteback _ | GetCachedDataPage _ _ _
    | PageUptodate _ | PageDirty _ => true
    | _ => false
    end.

(** The call of [change_data_page]. *)
Definition remap_call : kind :=
  fun _ e => match e with ChangeDataPage _ _ _ => true | _ => false end.

Ltac body_avoids :=
  intros;
  repeat match goal with H : _ \/ _ |- _ => destruct H end; subst;
  unfold node_body, data_body, data_body_FG, report_freed, check_valid_map,
    is_alive, move_data_page, add_gc_inode;
  repeat match goal with st : (_ * _)%type |- _ => destruct st end;
  cbn [gc_type_eqb]; rewrite ?orb_true_r;
  repeat avoids_step.

Lemma do_garbage_collect_BG_lazy (segno : Z) (gc_list : list inode) :
  avoids synchronous_write (do_garbage_collect segno gc_list BG_GC).
Proof.
  apply do_garbage_collect_avoids_kind; try reflexivity;
    try (right; reflexivity); body_avoids.
Qed.

Lemma do_garbage_collect_FG_direct (segno : Z) (gc_list : list inode) :
  avoids background_step (do_garbage_collect segno gc_list FG_GC).
Proof.
  apply do_garbage_collect_avoids_kind; try reflexivity;
    try (left; reflexivity); body_avoids.
Qed.

Lemma do_garbage_collect_no_remap (segno : Z) (gc_list : list inode)
  (gc_type : gc_type_t) :
  avoids remap_call (do_garbage_collect segno gc_list gc_type).
Proof.
  destruct gc_type; apply do_garbage_collect_avoids_kind; try reflexivity;
    try (right; reflexivity); body_avoids.
Qed.

(** A call of [move_encrypted_block] for anything but an encrypted regular
    file. *)
Definition plain_move : kind :=
  fun _ e =>
    match e with
    | MoveEncryptedBlock i _ => negb (i_encrypted i && i_regular i)
    | _ => false
    end.

Ltac move_step :=
  match goal with
  | |- avoids _ (bind _ _) => apply avoids_bind
  | |- avoids _ (if ?b then _ else _) => destruct b eqn:?
  | |- avoids _ (match ?x with _ => _ end) => destruct x
  | |- avoids _ (let '(_, _) := ?x in _) => destruct x
  | |- avoids _ (call (MoveEncryptedBlock _ _)) =>
      simpl; split; [|intros; exact I];
      match goal with H : (_ && _) = true |- _ => rewrite H end; reflexivity
  | |- avoids _ (call _) => simpl; split; [reflexivity | intros; exact I]
  | |- avoids _ (Ret _) => exact I
  | |- forall _, _ => intro
  end.

(** Both data migrators hand a block to [move_encrypted_block] under the
    test [f2fs_encrypted_inode(inode) && S_ISREG(inode->i_mode)] only. *)
Lemma do_garbage_collect_moves_encrypted (segno : Z) (gc_list : list inode)
  (gc_type : gc_type_t) :
  avoids plain_move (do_garbage_collect segno gc_list gc_type).
Proof.
  destruct gc_type; apply do_garbage_collect_avoids_kind; try reflexivity;
    try (right; reflexivity);
    intros;
    repeat match goal with H : _ \/ _ |- _ => destruct H end; subst;
    unfold node_body, data_body, data_body_FG, report_freed, check_valid_map,
      is_alive, move_data_page, add_gc_inode;
    repeat match goal with st : (_ * _)%type |- _ => destruct st end;
    cbn [gc_type_eqb]; rewrite ?orb_true_r;
    repeat move_step.
Qed.

(** *** The frame of a collection *)

(** The calls with which [do_garbage_collect] frames a migration. *)
Definition frame_call : kind :=
  fun _ e =>
    match e with
    | GetSumPage _ | BlkStartPlug | BlkFinishPlug | UnlockPage _ => true
    | _ => false
    end.

Lemma freed_report_value (gc_type : gc_type_t) (flush : gcE unit)
  (segno : Z) (tr : list event) (r : Z) :
  freed_report gc_type flush segno tr r ->
  (r = 0 \/ r = 1) /\ (gc_type = BG_GC -> r = 0).
Proof.
  destruct gc_type; simpl.
  - intros E. split; [left; exact E | intros _; exact E].
  - intros (tr' & v & _ & _ & E). subst r.
    split; [destruct (v =? 0); [right | left]; reflexivity | discriminate].
Qed.

(** The switch on the summary type, as [do_garbage_collect] has it. *)
Lemma migration_exec (sp : sum_page) (segno : Z) (gc_list : list inode)
  (gc_type : gc_type_t) (tr : list event) (r : Z * list inode) :
  exec (if sp_type sp =? SUM_TYPE_NODE then
          nfree <- gc_node_segment (sp_entries sp) segno gc_type ;;
          Ret (nfree, gc_list)
        else if sp_type sp =? SUM_TYPE_DATA then
          match gc_type with
          | FG_GC => gc_data_segment_FG (sp_entries sp) gc_list segno gc_type
          | BG_GC => gc_data_segment (sp_entries sp) gc_list segno gc_type
          end
        else Ret (0, gc_list)) tr r ->
  Forall (fun ev => of_kind frame_call ev = false) tr /\
  (fst r = 0 \/ fst r = 1) /\ (gc_type = BG_GC -> fst r = 0) /\
  (sp_type sp <> SUM_TYPE_NODE -> sp_type sp <> SUM_TYPE_DATA ->
   tr = [] /\ r = (0, gc_list)) /\
  (sp_type sp = SUM_TYPE_NODE -> snd r = gc_list).
Proof.
  intros H.
  assert (Ha : Forall (fun ev => of_kind frame_call ev = false) tr).
  { refine (avoids_exec _ _ _ _ _ H).
    destruct gc_type; apply migration_avoids_kind;
      try (right; reflexivity); body_avoids. }
  split; [exact Ha|]. clear Ha. revert H.
  destruct (sp_type sp =? SUM_TYPE_NODE) eqn:En.
  - intros H. apply exec_bind in H.
    destruct H as (ta & nfree & tb & Ha & [Eb Ec] & Ed). subst.
    cbn [fst snd].
    apply gc_node_segment_report, freed_report_value in Ha.
    destruct Ha as [Hv Hb]. split; [exact Hv|]. split; [exact Hb|].
    split; [|reflexivity]. apply Z.eqb_eq in En. intros Hn. contradiction.
  - apply Z.eqb_neq in En. destruct (sp_type sp =? SUM_TYPE_DATA) eqn:Ed.
    + apply Z.eqb_eq in Ed. intros H.
      assert (Hr : freed_report gc_type SubmitMergedBio segno tr (fst r)).
      { destruct gc_type.
        - apply (gc_data_segment_report _ _ _ _ _ _ H).
        - apply (gc_data_segment_FG_report _ _ _ _ _ _ H). }
      apply freed_report_value in Hr.
      destruct Hr as [Hv Hb]. split; [exact Hv|].
      split; [exact Hb|]. split; [intros _ Hd; contradiction|].
      intros Hn. contradiction.
    + intros [E1 E2]. subst. cbn [fst snd].
      split; [left; reflexivity|].
      split; [reflexivity|]. split; [split; reflexivity|].
      intros Hn. contradiction.
Qed.

(** X6.  The frame of [do_garbage_collect].  Every execution reads the
    summary page, starts the plug and unlocks the summary page before
    anything else, and ends with [blk_finish_plug] and
    [f2fs_put_page(sum_page, 0)], also when a background migrator gave up
    early; in between no summary page is read and no plug started or
    finished.  The value returned is 0 or 1, and 0 in BG mode.  A summary
    page that is neither of node nor of data type is passed by the switch:
    nothing is migrated and 0 is returned; a node segment leaves the inode
    list as it is. *)
Theorem do_garbage_collect_frame (segno : Z) (gc_list : list inode)
  (gc_type : gc_type_t) (tr : list event) (r : Z * list inode) :
  exec (do_garbage_collect segno gc_list gc_type) tr r ->
  exists sp mid,
    tr = [Ev (GetSumPage segno) sp; Ev BlkStartPlug tt;
          Ev (UnlockPage (sp_page sp)) tt]
         ++ mid
         ++ [Ev BlkFinishPlug tt; Ev (PutPage (sp_page sp) 0) tt] /\
    Forall (fun ev => of_kind frame_call ev = false) mid /\
    (fst r = 0 \/ fst r = 1) /\ (gc_type = BG_GC -> fst r = 0) /\
    (sp_type sp <> SUM_TYPE_NODE -> sp_type sp <> SUM_TYPE_DATA ->
     mid = [] /\ r = (0, gc_list)) /\
    (sp_type sp = SUM_TYPE_NODE -> snd r = gc_list).
Proof.
  unfold do_garbage_collect. intros H.
  apply exec_bind in H. destruct H as (t1 & sp & t1' & H1 & H & E1).
  apply exec_call in H1.
  apply exec_bind in H. destruct H as (t2 & u2 & t2' & H2 & H & E2).
  apply exec_call in H2.
  apply exec_bind in H. destruct H as (t3 & u3 & t3' & H3 & H & E3).
  apply exec_call in H3.
  apply exec_bind in H. destruct H as (t4 & x & t4' & H4 & H & E4).
  apply exec_bind in H. destruct H as (t5 & u5 & t5' & H5 & H & E5).
  apply exec_call in H5.
  apply exec_bind in H. destruct H as (t6 & u6 & t6' & H6 & H & E6).
  apply exec_call in H6. destruct H as [E7 E8]. subst.
  destruct u2, u3, u5, u6.
  exists sp, t4. split; [reflexivity|].
  apply migration_exec in H4. exact H4.
Qed.

(** *** Passes of a background round *)

(** Reports of a shortage of free sections. *)
Definition shortage (ev : event) : Z := if insufficient ev then 1 else 0.

Lemma shortage_nonneg (ev : event) : 0 <= shortage ev.
Proof. unfold shortage. destruct (insufficient ev); lia. Qed.

Lemma settles_nonneg {R : Type} (w : event -> Z) (p : prog R) (acc : Z) :
  (forall ev, 0 <= w ev) -> settles w (fun _ t => acc <= t) p acc.
Proof.
  intros Hw. revert acc. induction p as [a | X e k IH]; simpl; intros acc.
  - lia.
  - intros x. apply (settles_weaken w (fun _ t => acc + w (Ev e x) <= t));
      [|apply IH].
    intros _ t Ht. specialize (Hw (Ev e x)). lia.
Qed.

(** The account of a pass: it never goes down, and it has gone up when the
    pass ends in [goto gc_more]. *)
Definition more_costs (acc : Z) (f : gc_flow) (t : Z) : Prop :=
  acc <= t /\ forall v, f = GcMore v -> acc + 1 <= t.

Lemma settles_then {A : Type} (p : prog A) (f : A -> prog gc_flow) (acc : Z) :
  (forall a t, settles shortage (more_costs t) (f a) t) ->
  settles shortage (more_costs acc) (bind p f) acc.
Proof.
  intros Hf.
  apply (settles_bind shortage (fun _ t => acc <= t));
    [apply settles_nonneg, shortage_nonneg|].
  intros a t Ht. apply (settles_weaken shortage (more_costs t)); [|apply Hf].
  intros g t' [H1 H2]. split; [lia|]. intros v E. specialize (H2 v E). lia.
Qed.

Lemma gc_post_shortage (sync : bool) (reason : Z) (v : gc_vars) (acc : Z) :
  settles shortage (more_costs acc) (gc_post sync reason v) acc.
Proof.
  unfold gc_post, more_costs. settles_tac;
    (split; [unfold shortage; simpl; lia|]); intros v' E;
    try discriminate E.
  unfold shortage. simpl. lia.
Qed.

Lemma gc_pass_shortage (sync : bool) (reason : Z) (v : gc_vars) (acc : Z) :
  settles shortage (more_costs acc) (gc_pass sync reason v) acc.
Proof.
  assert (Hstop : forall t v', settles shortage (more_costs t)
                                       (Ret (GcStop v')) t).
  { intros t v'. simpl. split; [lia | discriminate]. }
  unfold gc_pass. apply settles_then. intros active t1.
  destruct (negb active); [apply Hstop|].
  apply settles_then. intros cp_error t2. destruct cp_error; [apply Hstop|].
  apply settles_then. intros [gc_type segno] t3.
  apply settles_then. intros found t4.
  destruct found as [s|]; [|apply Hstop].
  apply settles_then. intros _ t5.
  apply settles_then. intros r t6.
  apply settles_then. intros _ t7.
  apply gc_post_shortage.
Qed.

Lemma gc_more_shortage (fuel : nat) (sync : bool) (reason : Z) :
  forall v acc,
    settles shortage
            (fun r t => acc <= t /\ (r = None -> acc + Z.of_nat fuel <= t))
            (gc_more fuel sync reason v) acc.
Proof.
  induction fuel as [|fuel IH]; intros v acc; cbn [gc_more].
  - simpl. lia.
  - apply (settles_bind shortage (more_costs acc));
      [apply gc_pass_shortage|].
    intros f t [H1 H2]. destruct f as [v' | v'].
    + specialize (H2 v' eq_refl).
      eapply settles_weaken; [|apply IH].
      intros r t' [H3 H4]. cbv beta. split; [lia|]. intros E.
      specialize (H4 E). lia.
    + simpl. split; [lia | discriminate].
Qed.

Lemma weight_shortage_none (tr : list event) :
  Forall (fun ev => insufficient ev = false) tr -> weight shortage tr = 0.
Proof.
  induction 1 as [|ev tr Hev _ IH]; simpl; [reflexivity|].
  unfold shortage at 1. rewrite Hev, IH. reflexivity.
Qed.

(** X7.  A background round goes back to [gc_more] only on a shortage:
    each further pass is paid for by a report that free sections are
    insufficient.  A round that has not reached [stop] within [fuel]
    passes has seen at least [fuel] such reports; a round during which no
    shortage is reported reaches [stop] in its first pass. *)
Theorem gc_more_needs_shortage (fuel : nat) (sync : bool) (tr : list event) :
  (exec (f2fs_gc fuel sync) tr None -> Z.of_nat fuel <= weight shortage tr) /\
  (forall r, exec (f2fs_gc (S fuel) sync) tr r ->
             Forall (fun ev => insufficient ev = false) tr -> r <> None).
Proof.
  assert (Hnone : forall n t,
            exec (f2fs_gc n sync) t None -> Z.of_nat n <= weight shortage t).
  { intros n t H. unfold f2fs_gc in H.
    apply exec_bind in H. destruct H as (t1 & reason & t1' & H1 & H & E1).
    apply exec_call in H1. subst t1 t.
    apply exec_bind in H. destruct H as (t2 & r & t2' & H2 & H & E2).
    destruct r as [v|].
    - apply exec_bind in H. destruct H as (t3 & u3 & t3' & _ & H & _).
      apply exec_bind in H. destruct H as (t4 & u4 & t4' & _ & [_ E] & _).
      discriminate.
    - destruct H as [E3 _]. subst.
      pose proof (settles_exec _ _ _ 0 _ _
                    (gc_more_shortage n sync reason _ 0) H2) as [_ Hw].
      specialize (Hw eq_refl). rewrite !weight_app. simpl. lia. }
  split; [apply Hnone|].
  intros r H Hshort E. subst r. apply Hnone in H.
  rewrite (weight_shortage_none _ Hshort) in H. lia.
Qed.

(** *** The loop of the reclaimer thread *)

(** [do { ... } while (!kthread_should_stop()); return 0;] with [n] turns
    to go: [Some 0] is the value returned, [None] means that the turns, or
    the passes of a round, ran out.  [naps k] holds the sleeps of the wait
    of the turn that has [k] turns after it. *)
Fixpoint thread_loop (naps : nat -> list bool) (n fuel : nat)
  (gc_th : Victim.f2fs_gc_kthread) (wait_ms : Z) : prog (option Z) :=
  match n with
  | O => Ret None
  | S n' =>
      f <- gc_thread_turn fuel (naps n') gc_th wait_ms ;;
      match f with
      | None => Ret None
      | Some ThreadExit => Ret (Some 0)
      | Some (ThreadNext wait_ms') => thread_loop naps n' fuel gc_th wait_ms'
      end
  end.

(** [gc_thread_func]: the loop entered with
    [wait_ms = gc_th->min_sleep_time]. *)
Definition gc_thread_func (naps : nat -> list bool) (n fuel : nat)
  (gc_th : Victim.f2fs_gc_kthread) : prog (option Z) :=
  thread_loop naps n fuel gc_th (Victim.min_sleep_time gc_th).

(** The calls that only a turn with a round makes. *)
Definition round_call : kind :=
  fun _ e => match e with GetCpReason | BalanceFsBg => true | _ => false end.

(** The answer "stop" of [kthread_should_stop]. *)
Definition stop_told (ev : event) : bool :=
  match ev with
  | Ev e x =>
      match e in gcE X return X -> bool with
      | KthreadShouldStop => fun b => b
      | _ => fun _ => false
      end x
  end.

Definition stop_check : kind :=
  fun _ e => match e with KthreadShouldStop => true | _ => false end.

(** The calls of [gc_thread_func] itself. *)
Definition thread_call : kind :=
  fun _ e =>
    match e with
    | TryToFreeze | WaitEvent _ | KthreadShouldStop | SbFrozen
    | MutexTrylockGc | IsIdle | HasEnoughInvalidBlocks | TestOptForceFgGc
    | BalanceFsBg => true
    | _ => false
    end.

Lemma f2fs_gc_avoids_thread_call (fuel : nat) (sync : bool) :
  avoids thread_call (f2fs_gc fuel sync).
Proof.
  assert (Hdo : forall segno gc_list gc_type,
            avoids thread_call (do_garbage_collect segno gc_list gc_type)).
  { intros segno gc_list gc_type.
    destruct gc_type; apply do_garbage_collect_avoids_kind; try reflexivity;
      try (right; reflexivity); body_avoids. }
  assert (Hsec : forall n i segno gc_type gc_list,
            avoids thread_call (gc_section n i segno gc_type gc_list)).
  { induction n as [|n IH]; intros; cbn [gc_section]; [exact I|].
    apply avoids_bind; [apply Hdo|]. intros r.
    destruct ((fst r =? 0) && gc_type_eqb gc_type FG_GC);
      [exact I | apply IH]. }
  assert (Hpass : forall reason v, avoids thread_call (gc_pass sync reason v)).
  { intros reason v. unfold gc_pass, gc_upgrade, gc_post.
    repeat first [apply Hsec | avoids_step]. }
  assert (Hmore : forall reason v,
            avoids thread_call (gc_more fuel sync reason v)).
  { intros reason. induction fuel as [|n IH]; intros v; cbn [gc_more];
      [exact I|].
    apply avoids_bind; [apply Hpass|]. intros f.
    destruct f; [apply IH | exact I]. }
  unfold f2fs_gc. apply avoids_bind; [repeat avoids_step|]. intros reason.
  apply avoids_bind; [apply Hmore|]. intros r. destruct r as [v|]; [|exact I].
  apply avoids_bind; [repeat avoids_step|]. intros _.
  apply avoids_bind; [apply put_gc_inode_avoids; reflexivity|].
  intros _. exact I.
Qed.

(** What the thread has heard of a stop request: nothing, "stop" once, or
    "stop" twice in a row.  After a "stop" the thread makes no call but
    [kthread_should_stop]; after two it makes none at all. *)
Inductive heard : Set := Going | Told | ToldTwice.

Definition hear (s : heard) (ev : event) : option heard :=
  match s with
  | Going => Some (if stop_told ev then Told else Going)
  | Told =>
      if of_kind stop_check ev
      then Some (if stop_told ev then ToldTwice else Going)
      else None
  | ToldTwice => None
  end.

Fixpoint hears (s : heard) (tr : list event) : option heard :=
  match tr with
  | [] => Some s
  | ev :: tr' =>
      match hear s ev with
      | Some s' => hears s' tr'
      | None => None
      end
  end.

(** [heeds Q p s]: whatever the answers, the calls of [p] are calls the
    thread may make after what it has heard, and when [p] returns [r]
    having heard [s'], then [Q r s']. *)
Fixpoint heeds {R : Type} (Q : R -> heard -> Prop) (p : prog R) (s : heard)
  : Prop :=
  match p with
  | Ret r => Q r s
  | Vis e k =>
      forall x, match hear s (Ev e x) with
                | Some s' => heeds Q (k x) s'
                | None => False
                end
  end.

Lemma heeds_bind {A B : Type} (Q1 : A -> heard -> Prop)
  (Q2 : B -> heard -> Prop) (p : prog A) (f : A -> prog B) (s : heard) :
  heeds Q1 p s ->
  (forall a s', Q1 a s' -> heeds Q2 (f a) s') ->
  heeds Q2 (bind p f) s.
Proof.
  revert s. induction p as [a | X e k IH]; simpl; intros s Hp Hf.
  - apply Hf. exact Hp.
  - intros x. specialize (Hp x). destruct (hear s (Ev e x)); [|exact Hp].
    apply IH; [exact Hp | exact Hf].
Qed.

Lemma heeds_exec {R : Type} (Q : R -> heard -> Prop) (p : prog R)
  (s : heard) (tr : list event) (r : R) :
  heeds Q p s -> exec p tr r -> exists s', hears s tr = Some s' /\ Q r s'.
Proof.
  revert s tr. induction p as [a | X e k IH]; simpl; intros s tr Hp H.
  - destruct H as [E1 E2]. subst. exists s. split; [reflexivity | exact Hp].
  - destruct H as (x & tr' & E & H). subst. specialize (Hp x). simpl.
    destruct (hear s (Ev e x)) as [s1|]; [|contradiction].
    apply (IH x); assumption.
Qed.

(** A program that makes none of the thread's calls hears nothing. *)
Lemma avoids_heeds {R : Type} (p : prog R) :
  avoids thread_call p -> heeds (fun _ s => s = Going) p Going.
Proof.
  induction p as [a | X e k IH]; cbn [avoids heeds hear]; [reflexivity|].
  intros [He Hk] x.
  assert (Hs : stop_told (Ev e x) = false)
    by (destruct e; try reflexivity; discriminate He).
  rewrite Hs. apply IH. apply Hk.
Qed.

Ltac heeds_tac :=
  repeat (cbn [heeds bind call negb hear stop_told of_kind stop_check];
          match goal with
          | |- forall _, _ => intro
          | |- heeds _ (if ?b then _ else _) _ => destruct b
          | |- heeds _ (match ?x with _ => _ end) _ => destruct x
          | |- heeds _ (bind (if ?b then _ else _) _) _ => destruct b
          | |- heeds _ _ (if ?b then _ else _) => destruct b
          | |- context [if ?b then _ else _] => is_var b; destruct b
          end);
  cbn [heeds bind call negb hear stop_told of_kind stop_check].

(** The wait ends on the evaluation of its condition: having heard "stop"
    or nothing. *)
Lemma wait_event_heeds (naps : list bool) (wait_ms : Z) :
  heeds (fun _ s => s = Going \/ s = Told)
        (wait_event_interruptible_timeout naps wait_ms) Going.
Proof.
  induction naps as [|nap naps IH];
    cbn [wait_event_interruptible_timeout]; heeds_tac;
    try (left; reflexivity); try (right; reflexivity); exact IH.
Qed.

Lemma gc_thread_turn_heeds (fuel : nat) (naps : list bool)
  (gc_th : Victim.f2fs_gc_kthread) (wait_ms : Z) :
  heeds (fun f s => match f with
                    | Some ThreadExit => s = Told \/ s = ToldTwice
                    | Some (ThreadNext _) => s = Going
                    | None => True
                    end)
        (gc_thread_turn fuel naps gc_th wait_ms) Going.
Proof.
  unfold gc_thread_turn, thread_again, thread_after_gc. heeds_tac;
    try (left; reflexivity); try reflexivity.
  eapply heeds_bind; [apply wait_event_heeds|].
  intros u s [E | E]; subst s; heeds_tac;
    try (left; reflexivity); try (right; reflexivity); try reflexivity.
  all: eapply heeds_bind;
    [apply avoids_heeds; apply f2fs_gc_avoids_thread_call|].
  all: intros r s E; cbv beta in E; subst s; destruct r as [ret|];
    unfold thread_again; heeds_tac;
    try (left; reflexivity); try reflexivity; exact I.
Qed.

Lemma thread_loop_heeds (naps : nat -> list bool) (n fuel : nat)
  (gc_th : Victim.f2fs_gc_kthread) :
  forall wait_ms,
    heeds (fun r s => match r with
                      | Some ret => ret = 0 /\ (s = Told \/ s = ToldTwice)
                      | None => True
                      end)
          (thread_loop naps n fuel gc_th wait_ms) Going.
Proof.
  induction n as [|n IH]; intros wait_ms; cbn [thread_loop]; [exact I|].
  eapply heeds_bind; [apply gc_thread_turn_heeds|].
  intros f s Hf. destruct f as [[w|]|]; cbn [heeds].
  - subst s. apply IH.
  - split; [reflexivity | exact Hf].
  - exact I.
Qed.

Lemma gc_thread_turn_gc_mutex (fuel : nat) (naps : list bool)
  (gc_th : Victim.f2fs_gc_kthread) (wait_ms acc : Z) :
  settles gc_mutex
          (fun r t => match r with
                      | Some _ => t = acc
                      | None => t = acc + 1
                      end)
          (gc_thread_turn fuel naps gc_th wait_ms) acc.
Proof.
  unfold gc_thread_turn, thread_again, thread_after_gc.
  settles_tac; try (solve [weigh]).
  eapply settles_bind; [apply wait_event_gc_mutex|].
  intros u t E. cbv beta in E. subst t.
  settles_tac; try (solve [weigh]).
  eapply settles_bind; [apply f2fs_gc_gc_mutex|].
  intros r t E. destruct r as [ret|]; settles_tac; subst t; weigh.
Qed.

Lemma thread_loop_gc_mutex (naps : nat -> list bool) (n fuel : nat)
  (gc_th : Victim.f2fs_gc_kthread) :
  forall wait_ms acc,
    settles gc_mutex
            (fun r t => match r with Some _ => t = acc | None => True end)
            (thread_loop naps n fuel gc_th wait_ms) acc.
Proof.
  induction n as [|n IH]; intros wait_ms acc; cbn [thread_loop];
    [exact I|].
  eapply settles_bind; [apply gc_thread_turn_gc_mutex|].
  intros f t E. destruct f as [[w|]|]; cbn [settles].
  - subst t. apply IH.
  - exact E.
  - exact I.
Qed.

(** *** What a trace tells of the stop request *)

Lemma stop_told_inv (ev : event) :
  stop_told ev = true -> ev = Ev KthreadShouldStop true.
Proof.
  destruct ev as [X e x]. destruct e; try discriminate.
  simpl. intros E. subst x. reflexivity.
Qed.

Lemma stop_check_inv (ev : event) :
  of_kind stop_check ev = true -> stop_told ev = false ->
  ev = Ev KthreadShouldStop false.
Proof.
  destruct ev as [X e x]. destruct e; try discriminate.
  simpl. intros _ E. subst x. reflexivity.
Qed.

Lemma hears_app (s : heard) (a b : list event) (s' : heard) :
  hears s (a ++ b) = Some s' ->
  exists s1, hears s a = Some s1 /\ hears s1 b = Some s'.
Proof.
  revert s. induction a as [|ev a IH]; intros s H; simpl in *.
  - exists s. split; [reflexivity | exact H].
  - destruct (hear s ev) as [s1|]; [|discriminate H]. apply IH. exact H.
Qed.

Lemma hears_last (tr : list event) (d : event) :
  forall s s', hears s tr = Some s' -> tr <> [] ->
    s' = Told \/ s' = ToldTwice -> last tr d = Ev KthreadShouldStop true.
Proof.
  induction tr as [|ev tr IH]; intros s s' H Hne Hs; [contradiction|].
  simpl in H. destruct (hear s ev) as [s1|] eqn:E; [|discriminate H].
  destruct tr as [|ev' tr].
  - simpl in H. inversion H; subst s1. cbn [last].
    apply stop_told_inv.
    destruct s; simpl in E.
    + destruct (stop_told ev); [reflexivity|].
      inversion E; subst s'. destruct Hs; discriminate.
    + destruct (of_kind stop_check ev); [|discriminate E].
      destruct (stop_told ev); [reflexivity|].
      inversion E; subst s'. destruct Hs; discriminate.
    + discriminate E.
  - change (last (ev :: ev' :: tr) d) with (last (ev' :: tr) d).
    apply (IH s1 s'); [exact H | discriminate | exact Hs].
Qed.

(** After an answer "stop" the thread is done, or it asks once more and is
    done if the answer is "stop" again. *)
Lemma hears_stop (pre post : list event) (ev : event) (s' : heard) :
  hears Going (pre ++ ev :: post) = Some s' ->
  stop_told ev = true ->
  post = [] \/ post = [Ev KthreadShouldStop true] \/
  exists post', post = Ev KthreadShouldStop false :: post'.
Proof.
  intros H Hev. apply hears_app in H. destruct H as (s1 & _ & H).
  simpl in H. destruct s1; simpl in H; rewrite ?Hev in H.
  - destruct post as [|ev' post]; [left; reflexivity|]. right.
    simpl in H. destruct (of_kind stop_check ev') eqn:Ec; [|discriminate H].
    destruct (stop_told ev') eqn:Es.
    + left. apply stop_told_inv in Es. subst ev'.
      destruct post; [reflexivity | discriminate H].
    + right. exists post. rewrite (stop_check_inv ev' Ec Es). reflexivity.
  - destruct (of_kind stop_check ev); [|discriminate H].
    destruct post; [left; reflexivity | discriminate H].
  - discriminate H.
Qed.

(** X8.  The reclaimer thread ends only when it is told to, and then at
    once.  When [gc_thread_func] returns, it returns 0 and the last thing
    it did was to hear "stop" from [kthread_should_stop].  The condition
    of its wait is that same question: whenever an answer is "stop", that
    answer is the thread's last call, or the thread asks once more and
    either ends on a second "stop" or, told to go on, goes on; it makes no
    other call in between.  The GC mutex has been unlocked as often as
    [mutex_trylock] succeeded.  A round of [f2fs_gc] makes none of the
    calls of the thread: once started it is not interrupted by a stop or
    freeze request. *)
Theorem gc_thread_func_exit (naps : nat -> list bool) (n fuel : nat)
  (gc_th : Victim.f2fs_gc_kthread) (tr : list event) (ret : Z) :
  exec (gc_thread_func naps n fuel gc_th) tr (Some ret) ->
  ret = 0 /\
  last tr (Ev BalanceFsBg tt) = Ev KthreadShouldStop true /\
  (forall pre ev post,
     tr = pre ++ ev :: post -> stop_told ev = true ->
     post = [] \/ post = [Ev KthreadShouldStop true] \/
     exists post', post = Ev KthreadShouldStop false :: post') /\
  weight gc_mutex tr = 0 /\
  (forall sync tr' r,
     exec (f2fs_gc fuel sync) tr' r ->
     Forall (fun ev => of_kind thread_call ev = false) tr').
Proof.
  intros H. unfold gc_thread_func in H.
  destruct (heeds_exec _ _ _ _ _ (thread_loop_heeds naps n fuel gc_th _) H)
    as (s' & Hh & Hr & Hs).
  pose proof (settles_exec _ _ _ 0 _ _
                (thread_loop_gc_mutex naps n fuel gc_th _ 0) H) as Hm.
  cbv beta iota in Hm.
  split; [exact Hr|]. split.
  { apply (hears_last tr _ Going s' Hh); [|exact Hs].
    intros E. subst tr. simpl in Hh. inversion Hh; subst s'.
    destruct Hs; discriminate. }
  split.
  { intros pre ev post E Hev. subst tr.
    apply (hears_stop pre post ev s' Hh Hev). }
  split; [lia|].
  intros sync tr' r Hgc.
  apply (avoids_exec _ _ _ _ (f2fs_gc_avoids_thread_call fuel sync) Hgc).
Qed.

(** *** The inode list of a round *)

(** No kind of event at all: [ensures no_call Q p] says that every result
    of [p] satisfies [Q]. *)
Definition no_call : kind := fun _ _ => false.

(** No inode number is listed twice. *)
Definition listed_once (gc_list : list inode) : Prop :=
  NoDup (map i_ino gc_list).

(** [gc_list'] is [gc_list] with entries added at the tail, and lists
    every inode once. *)
Definition extends (gc_list gc_list' : list inode) : Prop :=
  listed_once gc_list' /\ exists l, gc_list' = gc_list ++ l.

Lemma extends_refl (gc_list : list inode) :
  listed_once gc_list -> extends gc_list gc_list.
Proof. intros H. split; [exact H|]. exists []. symmetry. apply app_nil_r. Qed.

Lemma extends_trans (a b c : list inode) :
  extends a b -> extends b c -> extends a c.
Proof.
  intros [_ (l1 & E1)] [H2 (l2 & E2)]. split; [exact H2|].
  exists (l1 ++ l2). subst. symmetry. apply app_assoc.
Qed.

Lemma find_gc_inode_none (gc_list : list inode) (ino : Z) :
  find_gc_inode gc_list ino = None -> ~ In ino (map i_ino gc_list).
Proof.
  unfold find_gc_inode. intros H Hin. apply in_map_iff in Hin.
  destruct Hin as (i & E & Hi).
  pose proof (find_none _ _ H i Hi) as Hn. cbv beta in Hn.
  apply Z.eqb_neq in Hn. contradiction.
Qed.

Lemma find_gc_inode_some (gc_list : list inode) (ino : Z) (i : inode) :
  find_gc_inode gc_list ino = Some i -> In i gc_list /\ i_ino i = ino.
Proof.
  unfold find_gc_inode. intros H. apply find_some in H.
  destruct H as [Hin E]. apply Z.eqb_eq in E. split; assumption.
Qed.

Lemma find_gc_inode_app (a b : list inode) (ino : Z) :
  find_gc_inode (a ++ b) ino =
    match find_gc_inode a ino with
    | Some i => Some i
    | None => find_gc_inode b ino
    end.
Proof.
  unfold find_gc_inode. induction a as [|x a IH]; simpl; [reflexivity|].
  destruct (i_ino x =? ino); [reflexivity | exact IH].
Qed.

Lemma extends_add (gc_list : list inode) (i : inode) :
  listed_once gc_list -> find_gc_inode gc_list (i_ino i) = None ->
  extends gc_list (gc_list ++ [i]).
Proof.
  intros H Hf. split; [|exists [i]; reflexivity].
  unfold listed_once. rewrite map_app. simpl.
  apply NoDup_app; [exact H | repeat constructor; intros [] |].
  intros x Hx [E | []]. subst x.
  apply (find_gc_inode_none _ _ Hf). exact Hx.
Qed.

Lemma add_gc_inode_extends (gc_list : list inode) (i : inode) :
  listed_once gc_list ->
  ensures no_call (extends gc_list) (add_gc_inode gc_list i).
Proof.
  intros H. unfold add_gc_inode.
  destruct (find_gc_inode gc_list (i_ino i)) eqn:E; simpl.
  - split; [reflexivity|]. intros _. apply extends_refl. exact H.
  - apply extends_add; assumption.
Qed.

Lemma seg_scan_results {S : Type} (I : S -> Prop) (gc_type : gc_type_t)
  (body : Z -> S -> prog S) (n : nat) :
  (forall off s, I s -> ensures no_call I (body off s)) ->
  forall off s, I s ->
    ensures no_call (fun r => I (fst r)) (seg_scan gc_type body n off s).
Proof.
  intros Hb. induction n as [|n IH]; intros off s Hs; cbn [seg_scan].
  - exact Hs.
  - apply (ensures_bind _ (fun _ => True)).
    + destruct gc_type; simpl; [split; [reflexivity | trivial] | trivial].
    + intros stop _. destruct stop; [exact Hs|].
      apply (ensures_bind _ I); [apply Hb; exact Hs|].
      intros s' Hs'. apply IH. exact Hs'.
Qed.

Lemma data_phases_results {S : Type} (I : S -> Prop) (gc_type : gc_type_t)
  (body : Z -> Z -> S -> prog S) (n : nat) :
  (forall phase off s, I s -> ensures no_call I (body phase off s)) ->
  forall phase s, I s ->
    ensures no_call (fun r => I (fst r)) (data_phases gc_type body n phase s).
Proof.
  intros Hb. induction n as [|n IH]; intros phase s Hs; cbn [data_phases].
  - exact Hs.
  - apply (ensures_bind _ (fun r => I (fst r))).
    + apply seg_scan_results; [apply Hb | exact Hs].
    + intros r Hr. destruct (snd r); [exact Hr | apply IH; exact Hr].
Qed.

Lemma ensures_weaken {R : Type} (K : kind) (Q Q' : R -> Prop) (p : prog R) :
  (forall r, Q r -> Q' r) -> ensures K Q p -> ensures K Q' p.
Proof.
  intros HQ. induction p as [a | X e k IH]; simpl; [apply HQ|].
  intros [He Hk]. split; [exact He|]. intros x. apply IH. apply Hk.
Qed.

Ltac results_tac :=
  repeat (cbn [ensures bind call negb andb orb fst snd gc_type_eqb];
          match goal with
          | |- no_call _ _ = false /\ _ => split; [reflexivity|]
          | |- forall _, _ => intro
          | |- ensures _ _ (if ?b then _ else _) => destruct b eqn:?
          | |- ensures _ _ (match ?x with _ => _ end) => destruct x eqn:?
          | |- ensures _ _ (bind (if ?b then _ else _) _) => destruct b eqn:?
          | |- ensures _ _ (bind (match ?x with _ => _ end) _) =>
              destruct x eqn:?
          | |- ensures _ _ (bind (bind (if ?b then _ else _) _) _) =>
              destruct b eqn:?
          end);
  cbn [ensures bind call negb andb orb fst snd gc_type_eqb].

Lemma data_body_extends (gc_list0 : list inode) (segno start_addr : Z)
  (gc_type : gc_type_t) (sum : Z -> f2fs_summary) (phase off : Z)
  (st : list inode * (Z -> Z)) :
  extends gc_list0 (fst st) ->
  ensures no_call (fun st' => extends gc_list0 (fst st'))
          (data_body segno start_addr gc_type sum phase off st).
Proof.
  intros H. destruct st as [gc_list array]. cbn [fst] in H.
  unfold data_body, check_valid_map, is_alive, move_data_page, add_gc_inode.
  results_tac; try exact H;
    (eapply extends_trans; [exact H|]; apply extends_add;
     [apply H | assumption]).
Qed.

Lemma data_body_FG_extends (gc_list0 : list inode) (segno start_addr : Z)
  (gc_type : gc_type_t) (sum : Z -> f2fs_summary) (phase off : Z)
  (gc_list : list inode) :
  extends gc_list0 gc_list ->
  ensures no_call (extends gc_list0)
          (data_body_FG segno start_addr gc_type sum phase off gc_list).
Proof.
  intros H.
  unfold data_body_FG, check_valid_map, is_alive, move_data_page,
    add_gc_inode.
  results_tac; try exact H;
    (eapply extends_trans; [exact H|]; apply extends_add;
     [apply H | assumption]).
Qed.

Lemma avoids_no_call {R : Type} (p : prog R) : avoids no_call p.
Proof.
  induction p as [a | X e k IH]; simpl; [exact I|].
  split; [reflexivity | exact IH].
Qed.

Lemma do_garbage_collect_extends (segno : Z) (gc_list : list inode)
  (gc_type : gc_type_t) :
  listed_once gc_list ->
  ensures no_call (fun r => extends gc_list (snd r))
          (do_garbage_collect segno gc_list gc_type).
Proof.
  intros H. pose proof (extends_refl _ H) as Hr.
  unfold do_garbage_collect. cbn [bind call ensures].
  split; [reflexivity|]. intros sp. split; [reflexivity|]. intros _.
  split; [reflexivity|]. intros _.
  apply (ensures_bind _ (fun r => extends gc_list (snd r))).
  - destruct (sp_type sp =? SUM_TYPE_NODE).
    + apply (ensures_bind _ (fun _ => True));
        [apply avoids_ensures, avoids_no_call|].
      intros nfree _. exact Hr.
    + destruct (sp_type sp =? SUM_TYPE_DATA); [|exact Hr].
      destruct gc_type.
      * unfold gc_data_segment.
        apply (ensures_bind _ (fun r => extends gc_list (fst (fst r)))).
        -- apply (data_phases_results
                    (fun st : list inode * (Z -> Z) =>
                       extends gc_list (fst st)));
             [intros; apply data_body_extends; assumption | exact Hr].
        -- intros r Hx. destruct (snd r); [exact Hx|].
           apply (ensures_bind _ (fun _ => True));
             [apply avoids_ensures, avoids_no_call|].
           intros v _. exact Hx.
      * unfold gc_data_segment_FG.
        apply (ensures_bind _ (fun r => extends gc_list (fst r))).
        -- apply (data_phases_results (extends gc_list));
             [intros; apply data_body_FG_extends; assumption | exact Hr].
        -- intros r Hx. destruct (snd r); [exact Hx|].
           apply (ensures_bind _ (fun _ => True));
             [apply avoids_ensures, avoids_no_call|].
           intros v _. exact Hx.
  - intros r Hx. cbn [bind call ensures]. split; [reflexivity|]. intros _.
    split; [reflexivity|]. intros _. exact Hx.
Qed.

Lemma gc_section_extends (n : nat) (segno : Z) (gc_type : gc_type_t) :
  forall i gc_list,
    listed_once gc_list ->
    ensures no_call (fun r => listed_once (snd r))
            (gc_section n i segno gc_type gc_list).
Proof.
  induction n as [|n IH]; intros i gc_list H; cbn [gc_section];
    [exact H|].
  apply (ensures_bind _ (fun r => extends gc_list (snd r)));
    [apply do_garbage_collect_extends; exact H|].
  intros r [Hx _]. destruct ((fst r =? 0) && gc_type_eqb gc_type FG_GC);
    [exact Hx | apply IH; exact Hx].
Qed.

Lemma gc_pass_listed_once (sync : bool) (reason : Z) (v : gc_vars) :
  listed_once (v_gc_list v) ->
  ensures no_call (fun f => listed_once (v_gc_list (flow_vars f)))
          (gc_pass sync reason v).
Proof.
  intros H. unfold gc_pass. cbn [bind call ensures].
  split; [reflexivity|]. intros active.
  destruct (negb active); [exact H|]. cbn [bind call ensures].
  split; [reflexivity|]. intros cp_error. destruct cp_error; [exact H|].
  apply (ensures_bind _ (fun _ => True));
    [apply avoids_ensures, avoids_no_call|].
  intros [gc_type segno] _.
  apply (ensures_bind _ (fun _ => True));
    [apply avoids_ensures, avoids_no_call|].
  intros found _. destruct found as [s|]; [|exact H].
  apply (ensures_bind _ (fun _ => True));
    [apply avoids_ensures, avoids_no_call|].
  intros _ _.
  apply (ensures_bind _ (fun r => listed_once (snd r)));
    [apply gc_section_extends; exact H|].
  intros r Hr.
  apply (ensures_bind _ (fun _ => True));
    [apply avoids_ensures, avoids_no_call|].
  intros _ _. unfold gc_post. results_tac; exact Hr.
Qed.

Lemma gc_more_listed_once (fuel : nat) (sync : bool) (reason : Z) :
  forall v, listed_once (v_gc_list v) ->
    ensures no_call (fun r => forall v', r = Some v' ->
                                         listed_once (v_gc_list v'))
            (gc_more fuel sync reason v).
Proof.
  induction fuel as [|fuel IH]; intros v H; cbn [gc_more].
  - simpl. discriminate.
  - apply (ensures_bind _ (fun f => listed_once (v_gc_list (flow_vars f))));
      [apply gc_pass_listed_once; exact H|].
    intros f Hf. destruct f as [v1 | v1]; cbn [flow_vars] in Hf.
    + apply IH. exact Hf.
    + simpl. intros v' E. inversion E; subst. exact Hf.
Qed.

Lemma put_gc_inode_exec (gc_list : list inode) (tr : list event) (u : unit) :
  exec (put_gc_inode gc_list) tr u ->
  tr = map (fun i => Ev (Iput i) tt) gc_list.
Proof.
  revert tr. induction gc_list as [|i l IH]; intros tr H; simpl in H.
  - destruct H as [E _]. exact E.
  - destruct H as (x & tr' & E & H). subst. destruct x. simpl. f_equal.
    apply IH. exact H.
Qed.

(** X9.  The inode list of a round lists every inode once.
    [add_gc_inode] leaves the list as it is when the inode number is there
    and appends the inode otherwise, so that [find_gc_inode] finds it
    afterwards; [do_garbage_collect] only appends, and keeps inode numbers
    distinct.  A round of [f2fs_gc] that returns ends with
    [mutex_unlock] followed by one [iput] for each listed inode, in the
    order of the list, and nothing else. *)
Theorem gc_inode_list_once :
  (forall gc_list i tr gc_list',
     exec (add_gc_inode gc_list i) tr gc_list' ->
     listed_once gc_list ->
     extends gc_list gc_list' /\
     (gc_list' = gc_list \/ gc_list' = gc_list ++ [i]) /\
     exists j, find_gc_inode gc_list' (i_ino i) = Some j /\
               i_ino j = i_ino i) /\
  (forall segno gc_list gc_type tr r,
     exec (do_garbage_collect segno gc_list gc_type) tr r ->
     listed_once gc_list -> extends gc_list (snd r)) /\
  (forall fuel sync tr ret,
     exec (f2fs_gc fuel sync) tr (Some ret) ->
     exists pre gc_list,
       tr = pre ++ Ev MutexUnlockGc tt
                :: map (fun i => Ev (Iput i) tt) gc_list /\
       listed_once gc_list).
Proof.
  split; [|split].
  - intros gc_list i tr gc_list' H Hl.
    split; [apply (ensures_exec _ _ _ _ _
                     (add_gc_inode_extends gc_list i Hl) H)|].
    unfold add_gc_inode in H.
    destruct (find_gc_inode gc_list (i_ino i)) as [j|] eqn:E.
    + apply exec_bind in H. destruct H as (_ & _ & _ & _ & [_ E2] & _).
      subst gc_list'. split; [left; reflexivity|].
      exists j. split; [exact E|].
      apply (find_gc_inode_some _ _ _ E).
    + destruct H as [_ E2]. subst gc_list'. split; [right; reflexivity|].
      exists i. split; [|reflexivity].
      rewrite find_gc_inode_app, E. unfold find_gc_inode. simpl.
      rewrite Z.eqb_refl. reflexivity.
  - intros segno gc_list gc_type tr r H Hl.
    apply (ensures_exec _ _ _ _ _
             (do_garbage_collect_extends segno gc_list gc_type Hl) H).
  - intros fuel sync tr ret H. unfold f2fs_gc in H.
    apply exec_bind in H. destruct H as (t1 & reason & t1' & H1 & H & E1).
    apply exec_bind in H. destruct H as (t2 & r & t2' & H2 & H & E2).
    destruct r as [v|]; [|destruct H as [_ E]; discriminate].
    apply exec_bind in H. destruct H as (t3 & u3 & t3' & H3 & H & E3).
    apply exec_call in H3. destruct u3.
    apply exec_bind in H. destruct H as (t4 & u4 & t4' & H4 & [E4 _] & E5).
    apply put_gc_inode_exec in H4. subst.
    exists (t1 ++ t2), (v_gc_list v). split.
    + rewrite app_nil_r, <- app_assoc. reflexivity.
    + refine (proj2 (ensures_exec _ _ _ _ _
                       (gc_more_listed_once fuel sync reason _ _) H2)
                    v eq_refl).
      constructor.
Qed.

(** *** How a round that is not synchronous ends *)

(** A round that starts in background mode asks for a foreground victim
    first in the block that raises [gc_type] to [FG_GC]. *)
Definition foreground_victim_query : kind :=
  fun _ e => match e with GetVictim FG_GC => true | _ => false end.

Definition turned_foreground (tr : list event) : bool :=
  existsb (of_kind foreground_victim_query) tr.

Definition gc_unlock : kind :=
  fun _ e => match e with MutexUnlockGc => true | _ => false end.

(** The calls of a round up to [mutex_unlock(&sbi->gc_mutex)]. *)
Fixpoint round_calls (tr : list event) : list event :=
  match tr with
  | [] => []
  | ev :: tr' => if of_kind gc_unlock ev then [] else ev :: round_calls tr'
  end.

Definition ends_with (tr tail : list event) : Prop :=
  exists pre, tr = pre ++ tail.

(** The four ways to the label [stop]: the two tests at [gc_more], a
    selector that finds nothing, and the block [if (!sync)] once the free
    sections suffice, where the checkpoint is written in mode FG. *)
Definition round_end (reason : Z) (v : gc_vars) (tr : list event) : Prop :=
  ends_with tr [Ev SbActive false] \/
  ends_with tr [Ev CpError true] \/
  (exists gc_type, ends_with tr [Ev (GetVictim gc_type) None]) \/
  ends_with tr (Ev (HasNotEnoughFreeSecs (v_sec_freed v)) false
                :: match v_gc_type v with
                   | FG_GC => [Ev (WriteCheckpoint reason) tt]
                   | BG_GC => []
                   end).

(** The round left the loop: its last free-section check answered that
    the free sections suffice, and nothing but the checkpoint follows. *)
Definition leaves_loop (sec_freed : Z) (tr : list event) : Prop :=
  exists pre tail,
    tr = pre ++ Ev (HasNotEnoughFreeSecs sec_freed) false :: tail /\
    (tail = [] \/ exists reason, tail = [Ev (WriteCheckpoint reason) tt]).

Definition loop_exit : kind :=
  fun _ e =>
    match e with
    | HasNotEnoughFreeSecs _ | WriteCheckpoint _ => true
    | _ => false
    end.

Lemma turned_foreground_app (a b : list event) :
  turned_foreground (a ++ b) = turned_foreground a || turned_foreground b.
Proof. apply existsb_app. Qed.

Lemma turned_foreground_quiet (tr : list event) :
  Forall (fun ev => of_kind foreground_victim_query ev = false) tr ->
  turned_foreground tr = false.
Proof.
  unfold turned_foreground. induction 1 as [|ev tr Hev _ IH]; [reflexivity|].
  simpl. rewrite Hev, IH. reflexivity.
Qed.

Lemma quiet_foreground_victim_query : quiet_kind foreground_victim_query.
Proof.
  split; [|reflexivity]. intros X e. destruct e; simpl; congruence.
Qed.

Lemma ends_with_app (a tr tail : list event) :
  ends_with tr tail -> ends_with (a ++ tr) tail.
Proof.
  intros [pre E]. exists (a ++ pre). rewrite E. apply app_assoc.
Qed.

Lemma ends_with_last (tr : list event) (ev d : event) :
  ends_with tr [ev] -> last tr d = ev.
Proof. intros [pre E]. subst. apply last_last. Qed.

Lemma round_calls_app (a b : list event) :
  Forall (fun ev => of_kind gc_unlock ev = false) a ->
  round_calls (a ++ Ev MutexUnlockGc tt :: b) = a.
Proof.
  induction 1 as [|ev a Hev _ IH]; [reflexivity|].
  cbn [app round_calls]. rewrite Hev, IH. reflexivity.
Qed.

(** The block that raises the mode is where the first foreground victim
    query is made. *)
Lemma gc_upgrade_mode (reason : Z) (gc_type : gc_type_t) (sec_freed : Z)
  (tr : list event) (u : gc_type_t * Z) :
  exec (gc_upgrade reason gc_type sec_freed) tr u ->
  (fst u = FG_GC <-> gc_type = FG_GC \/ turned_foreground tr = true).
Proof.
  intros H. destruct gc_type; cbn [gc_upgrade] in H.
  - apply exec_bind in H. destruct H as (t1 & short & t1' & H1 & H & E1).
    apply exec_call in H1. subst t1 tr. destruct short.
    + apply exec_bind in H. destruct H as (t2 & victim & t2' & H2 & H & E2).
      apply exec_call in H2. subst t2 t1'.
      assert (Hu : fst u = FG_GC).
      { destruct victim as [segno|].
        - apply exec_bind in H.
          destruct H as (t3 & u3 & t3' & _ & [_ E4] & _). subst u. reflexivity.
        - apply exec_bind in H.
          destruct H as (t3 & prefree & t3' & _ & H & _).
          apply exec_bind in H.
          destruct H as (t4 & u4 & t4' & _ & [_ E5] & _). subst u.
          reflexivity. }
      split; [intros _; right; reflexivity | intros _; exact Hu].
    + destruct H as [E2 E3]. subst. cbn [fst].
      split; [intros E; discriminate E|].
      intros [E | E]; discriminate E.
  - destruct H as [E1 E2]. subst. cbn [fst].
    split; [intros _; left; reflexivity | intros _; reflexivity].
Qed.

Lemma pass_mode (mode gc_type : gc_type_t) (t3 t4 rest : list event) :
  (gc_type = FG_GC <-> mode = FG_GC \/ turned_foreground t3 = true) ->
  (turned_foreground t4 = true -> gc_type = FG_GC) ->
  turned_foreground rest = false ->
  (gc_type = FG_GC <->
   mode = FG_GC \/
   turned_foreground
     ([Ev SbActive true] ++ [Ev CpError false] ++ t3 ++ t4 ++ rest) = true).
Proof.
  intros [H1 H2] H4 Hr. rewrite !turned_foreground_app, Hr.
  replace (turned_foreground [Ev SbActive true]) with false by reflexivity.
  replace (turned_foreground [Ev CpError false]) with false by reflexivity.
  cbn [orb]. rewrite orb_false_r. split.
  - intros E. destruct (H1 E) as [Hm | Ht]; [left; exact Hm | right].
    rewrite Ht. reflexivity.
  - intros [Hm | Ht]; [apply H2; left; exact Hm|].
    apply orb_true_iff in Ht. destruct Ht as [Ht | Ht];
      [apply H2; right; exact Ht | apply H4; exact Ht].
Qed.

(** One pass of a round that is not synchronous: the mode it leaves and,
    when it reaches [stop], how. *)
Lemma gc_pass_round (reason : Z) (v : gc_vars) (tr : list event)
  (f : gc_flow) :
  exec (gc_pass false reason v) tr f ->
  (v_gc_type (flow_vars f) = FG_GC <->
   v_gc_type v = FG_GC \/ turned_foreground tr = true) /\
  match f with
  | GcStop v' => round_end reason v' tr
  | GcMore _ => True
  end.
Proof.
  intros H. unfold gc_pass in H.
  apply exec_bind in H. destruct H as (t1 & active & t1' & H1 & H & E1).
  apply exec_call in H1. subst t1 tr.
  destruct active; cbn [negb] in H.
  2:{ destruct H as [E2 E3]. subst. cbn [flow_vars]. split.
      - split; [intros E; left; exact E|].
        intros [E | E]; [exact E | discriminate E].
      - left. exists []. reflexivity. }
  apply exec_bind in H. destruct H as (t2 & cp_error & t2' & H2 & H & E2).
  apply exec_call in H2. subst t2 t1'.
  destruct cp_error.
  { destruct H as [E3 E4]. subst. cbn [flow_vars]. split.
    - split; [intros E; left; exact E|].
      intros [E | E]; [exact E | discriminate E].
    - right; left. exists [Ev SbActive true]. reflexivity. }
  apply exec_bind in H. destruct H as (t3 & u & t3' & H3 & H & E3).
  subst t2'. destruct u as [gc_type segno].
  pose proof (gc_upgrade_mode _ _ _ _ _ H3) as Hup. cbn [fst] in Hup.
  apply exec_bind in H. destruct H as (t4 & found & t4' & H4 & H & E4).
  subst t3'.
  assert (H4' : (t4 = [] /\ found = Some segno) \/
                t4 = [Ev (GetVictim gc_type) found]).
  { destruct (segno =? NULL_SEGNO).
    - apply exec_call in H4. right. exact H4.
    - destruct H4 as [E5 E6]. left. split; assumption. }
  assert (Ht4 : turned_foreground t4 = true -> gc_type = FG_GC).
  { destruct H4' as [[E _] | E]; subst t4; [intros E; discriminate E|].
    destruct gc_type; [intros E; discriminate E | reflexivity]. }
  assert (Hrest : turned_foreground t4' = false /\
                  v_gc_type (flow_vars f) = gc_type /\
                  match f with
                  | GcStop v' =>
                      (t4' = [] /\ found = None) \/
                      ends_with t4'
                        (Ev (HasNotEnoughFreeSecs (v_sec_freed v')) false
                         :: match v_gc_type v' with
                            | FG_GC => [Ev (WriteCheckpoint reason) tt]
                            | BG_GC => []
                            end)
                  | GcMore _ => True
                  end).
  { destruct found as [s|].
    - assert (Hq : turned_foreground t4' = false).
      { apply turned_foreground_quiet.
        refine (avoids_exec _ _ _ _ _ H).
        unfold gc_post.
        repeat first [ apply gc_section_avoids;
                       [apply quiet_foreground_victim_query
                       | right; reflexivity]
                     | avoids_step ]. }
      split; [exact Hq|].
      apply exec_bind in H. destruct H as (t5 & u5 & t5' & H5 & H & E5).
      apply exec_bind in H. destruct H as (t6 & r & t6' & H6 & H & E6).
      apply exec_bind in H. destruct H as (t7 & u7 & t7' & H7 & H & E7).
      subst t4' t5' t6'.
      pose proof (gc_post_vars _ _ _ _ _ H) as Hv.
      split; [rewrite Hv; reflexivity|].
      apply gc_post_exec in H.
      destruct H as [(E & _) | (_ & [(Et & Ef) | [(Hg & Et & Ef)
                                                | (Hg & Et & Ef)]])];
        [discriminate E | subst f; exact I | |].
      + subst f t7'. right. cbn [v_sec_freed v_gc_type] in *. rewrite Hg.
        apply ends_with_app, ends_with_app, ends_with_app.
        exists []. reflexivity.
      + subst f t7'. right. cbn [v_sec_freed v_gc_type] in *. rewrite Hg.
        apply ends_with_app, ends_with_app, ends_with_app.
        exists []. reflexivity.
    - destruct H as [E5 E6]. subst t4' f. cbn [flow_vars v_gc_type].
      split; [reflexivity|]. split; [reflexivity|].
      left. split; reflexivity. }
  destruct Hrest as (Hq & Hmode & Hend). rewrite Hmode. split.
  - apply pass_mode; assumption.
  - destruct f as [v' | v']; [exact I|].
    destruct Hend as [[E Ef] | Hend].
    + subst t4' found. right; right; left. exists gc_type.
      destruct H4' as [[_ E] | E]; [discriminate E|]. subst t4.
      rewrite app_nil_r.
      apply ends_with_app, ends_with_app, ends_with_app.
      exists []. reflexivity.
    + right; right; right.
      apply ends_with_app, ends_with_app, ends_with_app, ends_with_app.
      exact Hend.
Qed.

Lemma round_end_app (reason : Z) (v : gc_vars) (a tr : list event) :
  round_end reason v tr -> round_end reason v (a ++ tr).
Proof.
  intros [H | [H | [[g H] | H]]].
  - left. apply ends_with_app. exact H.
  - right; left. apply ends_with_app. exact H.
  - right; right; left. exists g. apply ends_with_app. exact H.
  - right; right; right. apply ends_with_app. exact H.
Qed.

Lemma gc_more_round (fuel : nat) (reason : Z) :
  forall v tr v',
    exec (gc_more fuel false reason v) tr (Some v') ->
    (v_gc_type v' = FG_GC <->
     v_gc_type v = FG_GC \/ turned_foreground tr = true) /\
    round_end reason v' tr.
Proof.
  induction fuel as [|fuel IH]; intros v tr v' H; cbn [gc_more] in H.
  - destruct H as [_ E]. discriminate E.
  - apply exec_bind in H. destruct H as (t1 & f & t2 & H1 & H2 & E).
    subst tr. apply gc_pass_round in H1. destruct H1 as [Hm Hend].
    destruct f as [v1 | v1]; cbn [flow_vars] in Hm.
    + destruct (IH _ _ _ H2) as [Hm2 Hend2].
      split; [|apply round_end_app; exact Hend2].
      rewrite turned_foreground_app, orb_true_iff. tauto.
    + destruct H2 as [E2 E3]. inversion E3; subst v1 t2.
      rewrite app_nil_r. split; assumption.
Qed.

Lemma gc_more_avoids_unlock (fuel : nat) (sync : bool) (reason : Z) :
  forall v, avoids gc_unlock (gc_more fuel sync reason v).
Proof.
  assert (Hdo : forall segno gc_list gc_type,
            avoids gc_unlock (do_garbage_collect segno gc_list gc_type)).
  { intros segno gc_list gc_type.
    destruct gc_type; apply do_garbage_collect_avoids_kind; try reflexivity;
      try (right; reflexivity); body_avoids. }
  assert (Hsec : forall n i segno gc_type gc_list,
            avoids gc_unlock (gc_section n i segno gc_type gc_list)).
  { induction n as [|n IH]; intros; cbn [gc_section]; [exact I|].
    apply avoids_bind; [apply Hdo|]. intros r.
    destruct ((fst r =? 0) && gc_type_eqb gc_type FG_GC);
      [exact I | apply IH]. }
  assert (Hpass : forall v, avoids gc_unlock (gc_pass sync reason v)).
  { intros v. unfold gc_pass, gc_upgrade, gc_post.
    repeat first [apply Hsec | avoids_step]. }
  induction fuel as [|n IH]; intros v; cbn [gc_more]; [exact I|].
  apply avoids_bind; [apply Hpass|]. intros f.
  destruct f; [apply IH | exact I].
Qed.

(** A round that is not synchronous, from its trace: the calls up to
    [mutex_unlock], the mode it ended in, and how it reached [stop]. *)
Lemma f2fs_gc_round (fuel : nat) (tr : list event) (ret : Z) :
  exec (f2fs_gc fuel false) tr (Some ret) ->
  exists reason body v iputs,
    tr = Ev GetCpReason reason :: body ++ Ev MutexUnlockGc tt :: iputs /\
    round_calls tr = Ev GetCpReason reason :: body /\
    exec (gc_more fuel false reason
            {| v_gc_type := BG_GC; v_sec_freed := 0; v_ret := - EINVAL;
               v_gc_list := [] |}) body (Some v) /\
    exec (put_gc_inode (v_gc_list v)) iputs tt /\
    (v_gc_type v = FG_GC <-> turned_foreground body = true) /\
    round_end reason v body.
Proof.
  intros H. unfold f2fs_gc in H.
  apply exec_bind in H. destruct H as (t1 & reason & t1' & H1 & H & E1).
  apply exec_call in H1. subst t1 tr.
  apply exec_bind in H. destruct H as (body & r & t2' & H2 & H & E2).
  subst t1'. destruct r as [v|]; [|destruct H as [_ E]; discriminate E].
  apply exec_bind in H. destruct H as (t3 & u3 & t3' & H3 & H & E3).
  apply exec_call in H3. destruct u3. subst t3 t2'.
  apply exec_bind in H. destruct H as (iputs & u4 & t4' & H4 & [E4 _] & E5).
  destruct u4. subst t4' t3'. rewrite app_nil_r.
  exists reason, body, v, iputs.
  pose proof (avoids_exec _ _ _ _ (gc_more_avoids_unlock fuel false reason _)
                H2) as Hq.
  destruct (gc_more_round fuel reason _ _ _ H2) as [Hm Hend].
  cbn [v_gc_type] in Hm.
  split; [reflexivity|]. split.
  { cbn [app round_calls of_kind gc_unlock]. f_equal.
    change ([Ev MutexUnlockGc tt] ++ iputs) with (Ev MutexUnlockGc tt :: iputs).
    apply round_calls_app. exact Hq. }
  split; [exact H2|]. split; [exact H4|]. split; [|exact Hend].
  split; [intros E; destruct (proj1 Hm E) as [E' | E'];
            [discriminate E' | exact E']
         | intros E; apply Hm; right; exact E].
Qed.

(** The last call before [mutex_unlock] is [write_checkpoint] exactly when
    the round left the loop in mode FG. *)
Lemma round_end_checkpoint (reason : Z) (v : gc_vars) (body : list event) :
  round_end reason v body ->
  (of_kind checkpoint_write (last body (Ev SbActive true)) = true <->
   v_gc_type v = FG_GC /\ leaves_loop (v_sec_freed v) body).
Proof.
  intros Hend.
  assert (Hexit : leaves_loop (v_sec_freed v) body ->
                  of_kind loop_exit (last body (Ev SbActive true)) = true).
  { intros (pre & tail & E & [Et | [r Et]]); subst tail body.
    - rewrite last_last. reflexivity.
    - change (pre ++ Ev (HasNotEnoughFreeSecs (v_sec_freed v)) false
                     :: [Ev (WriteCheckpoint r) tt])
        with (pre ++ [Ev (HasNotEnoughFreeSecs (v_sec_freed v)) false]
                  ++ [Ev (WriteCheckpoint r) tt]).
      rewrite app_assoc, last_last. reflexivity. }
  destruct Hend as [H | [H | [[g H] | H]]].
  - rewrite (ends_with_last _ _ (Ev SbActive true) H) in *.
    split; [intros E; discriminate E|].
    intros [_ Hl]. apply Hexit in Hl. discriminate Hl.
  - rewrite (ends_with_last _ _ (Ev SbActive true) H) in *.
    split; [intros E; discriminate E|].
    intros [_ Hl]. apply Hexit in Hl. discriminate Hl.
  - rewrite (ends_with_last _ _ (Ev SbActive true) H) in *.
    split; [intros E; discriminate E|].
    intros [_ Hl]. apply Hexit in Hl. discriminate Hl.
  - destruct H as [pre E]. destruct (v_gc_type v).
    + subst body. rewrite last_last.
      split; [intros E; discriminate E | intros [E _]; discriminate E].
    + subst body.
      change (pre ++ [Ev (HasNotEnoughFreeSecs (v_sec_freed v)) false;
                      Ev (WriteCheckpoint reason) tt])
        with (pre ++ [Ev (HasNotEnoughFreeSecs (v_sec_freed v)) false]
                  ++ [Ev (WriteCheckpoint reason) tt]).
      rewrite app_assoc, last_last.
      split; [|intros _; reflexivity].
      intros _. split; [reflexivity|].
      exists pre, [Ev (WriteCheckpoint reason) tt].
      rewrite <- app_assoc. split; [reflexivity|].
      right. exists reason. reflexivity.
Qed.

(** C3 (amended).  [f2fs_gc(sbi, true)] returns after one pass run in
    foreground mode: no execution checks the free sections, asks for a
    background victim, or writes a checkpoint.  The post-pass checkpoint
    belongs to the block [if (!sync)]: in a round of [f2fs_gc(sbi, false)]
    that returns, the last call before [mutex_unlock] is
    [write_checkpoint] exactly when the round left the loop, its last
    free-section check answering that the free sections suffice, with
    [gc_type == FG_GC]; and [gc_type] is [FG_GC] there exactly when the
    round has asked for a foreground victim, which it does first in the
    block that raises the mode.  A round that reaches [stop] otherwise
    (not mounted, checkpoint error, no victim) or in mode BG ends without
    that checkpoint. *)
Theorem sync_round_foreground_no_checkpoint (fuel : nat) (tr : list event)
  (r : option Z) :
  exec (f2fs_gc (S fuel) true) tr r ->
  r <> None /\
  Forall (fun ev => of_kind sync_forbidden ev = false) tr /\
  (forall reason v tr' f,
     exec (gc_post true reason v) tr' f -> tr' = [] /\ f = GcStop v) /\
  (forall reason v tr' f,
     exec (gc_post false reason v) tr' f ->
     (tr' = [Ev (HasNotEnoughFreeSecs (v_sec_freed v)) true] /\ f = GcMore v) \/
     (tr' = Ev (HasNotEnoughFreeSecs (v_sec_freed v)) false
            :: match v_gc_type v with
               | FG_GC => [Ev (WriteCheckpoint reason) tt]
               | BG_GC => []
               end /\
      f = GcStop v)) /\
  (forall fuel' tr' ret,
     exec (f2fs_gc fuel' false) tr' (Some ret) ->
     exists reason body v iputs,
       tr' = Ev GetCpReason reason :: body ++ Ev MutexUnlockGc tt :: iputs /\
       round_calls tr' = Ev GetCpReason reason :: body /\
       exec (gc_more fuel' false reason
               {| v_gc_type := BG_GC; v_sec_freed := 0; v_ret := - EINVAL;
                  v_gc_list := [] |}) body (Some v) /\
       exec (put_gc_inode (v_gc_list v)) iputs tt /\
       Forall (fun ev => of_kind checkpoint_write ev = false) iputs /\
       (v_gc_type v = FG_GC <-> turned_foreground body = true) /\
       round_end reason v body /\
       (of_kind checkpoint_write (last body (Ev SbActive true)) = true <->
        turned_foreground body = true /\
        leaves_loop (v_sec_freed v) body)).
Proof.
  intros H.
  destruct (ensures_exec _ _ _ _ _ (f2fs_gc_sync_ensures fuel) H) as [Hf Hr].
  split; [exact Hr|]. split; [exact Hf|]. split; [|split].
  - intros reason v tr' f Hp. apply gc_post_exec in Hp.
    destruct Hp as [(_ & E1 & E2) | (E & _)]; [split; assumption | discriminate].
  - intros reason v tr' f Hp. apply gc_post_exec in Hp.
    destruct Hp as [(E & _) | (_ & Hp)]; [discriminate|].
    destruct Hp as [Hp | [(Hg & E1 & E2) | (Hg & E1 & E2)]].
    + left. exact Hp.
    + right. rewrite Hg. split; assumption.
    + right. rewrite Hg. split; assumption.
  - intros fuel' tr' ret Hx.
    destruct (f2fs_gc_round fuel' tr' ret Hx)
      as (reason & body & v & iputs & E & Ec & Hm & Hi & Hmode & Hend).
    exists reason, body, v, iputs.
    split; [exact E|]. split; [exact Ec|]. split; [exact Hm|].
    split; [exact Hi|]. split.
    { apply (avoids_exec checkpoint_write _ _ _
               (put_gc_inode_avoids _ _ (fun _ => eq_refl)) Hi). }
    split; [exact Hmode|]. split; [exact Hend|].
    rewrite (round_end_checkpoint reason v body Hend). rewrite Hmode.
    reflexivity.
Qed.

End Engine.

(** *** Concrete worlds *)

(** A world that answers every call the same way each time: the mount
    state, whether free sections are short, what the selector finds, the
    type of every summary page, and the validity of every block. *)
Record world : Set := {
  w_active : bool;
  w_cp_error : bool;
  w_short : bool;
  w_victim : option Z;
  w_sum_type : Z;
  w_valid : bool;
  w_valid_blocks : Z
}.

Definition blank_summary : f2fs_summary :=
  {| nid := 0; version := 0; ofs_in_node := 0 |}.

Definition answers (w : world) : handler unit :=
  fun X e u =>
    match e in gcE X return X * unit with
    | GetCpReason => (0, u)
    | SbActive => (w_active w, u)
    | CpError => (w_cp_error w, u)
    | HasNotEnoughFreeSecs _ => (w_short w, u)
    | PrefreeSegments => (0, u)
    | WriteCheckpoint _ => (tt, u)
    | GetVictim _ => (w_victim w, u)
    | RaMetaPages _ _ => (tt, u)
    | SetCurVictimSec _ => (tt, u)
    | MutexUnlockGc => (tt, u)
    | Iput _ => (tt, u)
    | GetSumPage _ =>
        ({| sp_page := 0; sp_type := w_sum_type w;
            sp_entries := fun _ => blank_summary |}, u)
    | BlkStartPlug => (tt, u)
    | BlkFinishPlug => (tt, u)
    | UnlockPage _ => (tt, u)
    | PutPage _ _ => (tt, u)
    | TestValidBit _ _ => (w_valid w, u)
    | GetValidBlocks _ _ => (w_valid_blocks w, u)
    | RaNodePage _ => (tt, u)
    | GetNodePage _ => (None, u)
    | GetNodeInfo _ => (dni0, u)
    | OfsOfNode _ => (0, u)
    | DatablockAddr _ _ => (0, u)
    | SyncNodePages => (tt, u)
    | WaitOnPageWriteback _ => (tt, u)
    | SetPageDirty _ => (tt, u)
    | PageWriteback _ => (false, u)
    | PageUptodate _ => (false, u)
    | PageDirty _ => (false, u)
    | ClearPageDirtyForIo _ => (false, u)
    | SetColdData _ => (tt, u)
    | ClearColdData _ => (tt, u)
    | F2fsIget _ => (None, u)
    | InodeDecDirtyPages _ => (tt, u)
    | GetLockDataPage _ _ => (None, u)
    | GetCachedDataPage _ _ _ => (None, u)
    | GetReadDataPage _ _ _ => (None, u)
    | DoWriteDataPage _ => (tt, u)
    | MoveEncryptedBlock _ _ => (tt, u)
    | ChangeDataPage _ _ _ => (tt, u)
    | SubmitMergedBio => (tt, u)
    | TryToFreeze => (false, u)
    | WaitEvent _ => (tt, u)
    | KthreadShouldStop => (false, u)
    | SbFrozen => (false, u)
    | MutexTrylockGc => (true, u)
    | IsIdle => (true, u)
    | HasEnoughInvalidBlocks => (false, u)
    | TestOptForceFgGc => (false, u)
    | BalanceFsBg => (tt, u)
    end.

(** A mounted, healthy file system with free sections to spare and
    nothing for the selector to find. *)
Definition idle_world : world :=
  {| w_active := true; w_cp_error := false; w_short := false;
     w_victim := None; w_sum_type := SUM_TYPE_NODE;
     w_valid := false; w_valid_blocks := 0 |}.


(** Segment 4 is offered as victim; it is a node segment without a valid
    block. *)
Definition empty_victim_world : world :=
  {| w_active := true; w_cp_error := false; w_short := false;
     w_victim := Some 4; w_sum_type := SUM_TYPE_NODE;
     w_valid := false; w_valid_blocks := 0 |}.

(** Free sections are short. *)
Definition short_world : world :=
  {| w_active := true; w_cp_error := false; w_short := true;
     w_victim := Some 4; w_sum_type := SUM_TYPE_DATA;
     w_valid := true; w_valid_blocks := 2 |}.

(** Segments of two blocks, sections of one segment, segment [n] starting
    at block [2 * n]. *)
Definition small_gc (fuel : nat) (sync : bool) : prog (option Z) :=
  f2fs_gc 2 1 (fun segno => 2 * segno) 1018 1018 fuel sync.

Definition small_node_segment (segno : Z) (gc_type : gc_type_t) : prog Z :=
  gc_node_segment 2 (fun segno => 2 * segno) (fun _ => blank_summary)
                  segno gc_type.

Definition trace_of {R : Type} (w : world) (p : prog R) : list event :=
  fst (fst (run (answers w) p tt)).

Definition result_of {R : Type} (w : world) (p : prog R) : R :=
  snd (fst (run (answers w) p tt)).



(** C3, as stated, fails: the synchronous round of [empty_victim_world]
    frees its section and returns 0 without writing a checkpoint. *)
Lemma sync_round_writes_no_checkpoint :
  result_of empty_victim_world (small_gc 1 true) = Some 0 /\
  existsb (of_kind checkpoint_write)
          (trace_of empty_victim_world (small_gc 1 true)) = false /\
  In (Ev (GetVictim FG_GC) (Some 4))
     (trace_of empty_victim_world (small_gc 1 true)).
Proof.
  split; [reflexivity|]. split; [reflexivity|].
  vm_compute. right; right; right. left. reflexivity.
Qed.

(** The world of [w], except that the free sections are short at the first
    check and suffice from then on. *)
Definition short_once (w : world) : handler nat :=
  fun X e n =>
    match e in gcE X return X * nat with
    | HasNotEnoughFreeSecs _ => (Nat.eqb n 0, S n)
    | e' => (fst (answers w _ e' tt), n)
    end.

(** A synchronous round; and a background round that finds the free
    sections short, turns foreground, collects segment 4 and leaves the
    loop with the checkpoint. *)
Lemma sync_round_foreground_no_checkpoint_witness :
  (result_of empty_victim_world (small_gc 1 true) <> None /\
   Forall (fun ev => of_kind sync_forbidden ev = false)
          (trace_of empty_victim_world (small_gc 1 true))) /\
  (let tr := fst (fst (run (short_once empty_victim_world)
                           (small_gc 2 false) 0%nat)) in
   let body := tl (round_calls tr) in
   of_kind checkpoint_write (last body (Ev SbActive true)) = true /\
   turned_foreground body = true /\
   exists sec_freed, leaves_loop sec_freed body).
Proof.
  split.
  - pose proof (run_exec (answers empty_victim_world) (small_gc 1 true) tt)
      as H.
    destruct (sync_round_foreground_no_checkpoint 2 1 (fun segno => 2 * segno)
                1018 1018 0 _ _ H) as (Hr & Hf & _).
    split; [exact Hr | exact Hf].
  - intros tr body.
    pose proof (run_exec (answers empty_victim_world) (small_gc 1 true) tt)
      as H.
    destruct (sync_round_foreground_no_checkpoint 2 1 (fun segno => 2 * segno)
                1018 1018 0 _ _ H) as (_ & _ & _ & _ & Hround).
    pose proof (run_exec (short_once empty_victim_world) (small_gc 2 false)
                  0%nat) as Hx.
    change (snd (fst (run (short_once empty_victim_world) (small_gc 2 false)
                          0%nat))) with (Some 0) in Hx.
    destruct (Hround 2%nat _ 0 Hx)
      as (reason & body' & v & iputs & _ & Ec & _ & _ & _ & _ & _ & Hiff).
    assert (Eb : body' = body) by (unfold body, tr; rewrite Ec; reflexivity).
    rewrite Eb in Hiff.
    assert (Hl : of_kind checkpoint_write (last body (Ev SbActive true))
                 = true) by reflexivity.
    split; [exact Hl|]. destruct (proj1 Hiff Hl) as [Ht Hll].
    split; [exact Ht|]. exists (v_sec_freed v). exact Hll.
Defined.

(** C9, as stated, fails: in BG mode the node segment 4 of
    [empty_victim_world] is migrated, its valid-block count read right
    after is zero, and the value returned is 0. *)
Lemma bg_migration_of_empty_segment_returns_zero :
  result_of empty_victim_world
    (r <- small_node_segment 4 BG_GC ;;
     v <- call (GetValidBlocks 4 1) ;;
     Ret (r, v)) = (0, 0).
Proof. reflexivity. Qed.

(** The same segment in FG mode: flush, one query, and the value 1. *)
Lemma migrator_return_value_witness :
  result_of empty_victim_world (small_node_segment 4 FG_GC) = 1 /\
  freed_report FG_GC SyncNodePages 4
    (trace_of empty_victim_world (small_node_segment 4 FG_GC)) 1.
Proof.
  pose proof (run_exec (answers empty_victim_world)
                (small_node_segment 4 FG_GC) tt) as H.
  destruct (migrator_return_value 2 (fun segno => 2 * segno) 1018 1018
              (fun _ => blank_summary) [] 4 FG_GC) as (Hn & _).
  split; [reflexivity|]. exact (Hn _ _ H).
Defined.

(** A BG migration with free sections short ends at the first check. *)
Lemma bg_migration_stops_when_short_witness :
  trace_of short_world (small_node_segment 4 BG_GC)
  = [Ev (HasNotEnoughFreeSecs 0) true] /\
  result_of short_world (small_node_segment 4 BG_GC) = 0 /\
  bg_migration_trace 2 2 (trace_of short_world (small_node_segment 4 BG_GC)).
Proof.
  pose proof (run_exec (answers short_world)
                (small_node_segment 4 BG_GC) tt) as H.
  destruct (bg_migration_stops_when_short 2 (fun segno => 2 * segno) 1018 1018
              (fun _ => blank_summary) [] 4) as (Hn & _).
  destruct (Hn _ _ H) as [Hr Hs].
  split; [reflexivity|]. split; [exact Hr | exact Hs].
Defined.

(** A summary entry whose node holds another address at its slot: the
    block at offset 5 of the segment starting at 1024 has moved. *)
Lemma is_alive_verdict_witness :
  let E := {| nid := 7; version := 1; ofs_in_node := 3 |} in
  let ni := {| ni_ino := 2; ni_blk_addr := 900; ni_version := 1 |} in
  let tr := [Ev (GetNodePage 7) (Some 40); Ev (GetNodeInfo 7) ni;
             Ev (OfsOfNode 40) 1; Ev (DatablockAddr 40 3) 2000;
             Ev (PutPage 40 1) tt] in
  exec (is_alive E dni0 (wrap32 (1024 + 5)) 0) tr (false, ni, 1) /\
  ((tr = [Ev (GetNodePage (nid E)) None] /\ false = false) \/
   (exists pg,
      tr = [Ev (GetNodePage (nid E)) (Some pg); Ev (GetNodeInfo (nid E)) ni;
            Ev (PutPage pg 1) tt] /\
      ni_version ni <> version E /\ false = false) \/
   (exists pg src,
      tr = [Ev (GetNodePage (nid E)) (Some pg); Ev (GetNodeInfo (nid E)) ni;
            Ev (OfsOfNode pg) 1;
            Ev (DatablockAddr pg (ofs_in_node E)) src;
            Ev (PutPage pg 1) tt] /\
      ni_version ni = version E /\
      (src <> wrap32 (1024 + 5) -> false = false) /\
      (src = wrap32 (1024 + 5) -> false = true))).
Proof.
  intros E ni tr.
  assert (H : exec (is_alive E dni0 (wrap32 (1024 + 5)) 0) tr (false, ni, 1)).
  { unfold is_alive, tr. simpl.
    repeat (eexists; eexists; split; [reflexivity|]; simpl).
    split; reflexivity. }
  split; [exact H|].
  exact (is_alive_verdict E 1024 5 dni0 0 tr false ni 1 H).
Defined.

(** *** A world with live blocks

    Every block is valid; node [n] sits in page [100 + n] and belongs to
    inode 5, a regular file that is not encrypted; the block a summary
    entry points to is block 4; data pages are page 200, cached, up to date
    and dirty.  Summary pages are page 300 and hold entries of the type
    given. *)
Definition busy_inode : inode :=
  {| i_ino := 5; i_bad := false; i_encrypted := false; i_regular := true;
     i_addrs := 923 |}.

Definition busy_answers (sum_type : Z) : handler unit :=
  fun X e u =>
    match e in gcE X return X * unit with
    | GetCpReason => (0, u)
    | SbActive => (true, u)
    | CpError => (false, u)
    | HasNotEnoughFreeSecs _ => (false, u)
    | PrefreeSegments => (0, u)
    | WriteCheckpoint _ => (tt, u)
    | GetVictim _ => (Some 4, u)
    | RaMetaPages _ _ => (tt, u)
    | SetCurVictimSec _ => (tt, u)
    | MutexUnlockGc => (tt, u)
    | Iput _ => (tt, u)
    | GetSumPage _ =>
        ({| sp_page := 300; sp_type := sum_type;
            sp_entries := fun _ => blank_summary |}, u)
    | BlkStartPlug => (tt, u)
    | BlkFinishPlug => (tt, u)
    | UnlockPage _ => (tt, u)
    | PutPage _ _ => (tt, u)
    | TestValidBit _ _ => (true, u)
    | GetValidBlocks _ _ => (0, u)
    | RaNodePage _ => (tt, u)
    | GetNodePage n => (Some (100 + n), u)
    | GetNodeInfo _ =>
        ({| ni_ino := 5; ni_blk_addr := 4; ni_version := 0 |}, u)
    | OfsOfNode _ => (1, u)
    | DatablockAddr _ _ => (4, u)
    | SyncNodePages => (tt, u)
    | WaitOnPageWriteback _ => (tt, u)
    | SetPageDirty _ => (tt, u)
    | PageWriteback _ => (false, u)
    | PageUptodate _ => (true, u)
    | PageDirty _ => (true, u)
    | ClearPageDirtyForIo _ => (true, u)
    | SetColdData _ => (tt, u)
    | ClearColdData _ => (tt, u)
    | F2fsIget _ => (Some busy_inode, u)
    | InodeDecDirtyPages _ => (tt, u)
    | GetLockDataPage _ _ => (Some 200, u)
    | GetCachedDataPage _ _ _ => (Some 200, u)
    | GetReadDataPage _ _ _ => (Some 200, u)
    | DoWriteDataPage _ => (tt, u)
    | MoveEncryptedBlock _ _ => (tt, u)
    | ChangeDataPage _ _ _ => (tt, u)
    | SubmitMergedBio => (tt, u)
    | TryToFreeze => (false, u)
    | WaitEvent _ => (tt, u)
    | KthreadShouldStop => (false, u)
    | SbFrozen => (false, u)
    | MutexTrylockGc => (true, u)
    | IsIdle => (true, u)
    | HasEnoughInvalidBlocks => (true, u)
    | TestOptForceFgGc => (false, u)
    | BalanceFsBg => (tt, u)
    end.

(** Segments of one block, sections of one segment, segment [n] at block
    [n]. *)
Definition tiny_gc (fuel : nat) (sync : bool) : prog (option Z) :=
  f2fs_gc 1 1 (fun segno => segno) 1018 1018 fuel sync.

Definition tiny_collect (segno : Z) (gc_type : gc_type_t)
  : prog (Z * list inode) :=
  do_garbage_collect 1 (fun segno => segno) 1018 1018 segno [] gc_type.

Definition busy_trace {R : Type} (sum_type : Z) (p : prog R) : list event :=
  fst (fst (run (busy_answers sum_type) p tt)).

Definition busy_result {R : Type} (sum_type : Z) (p : prog R) : R :=
  snd (fst (run (busy_answers sum_type) p tt)).

(** Page 200 in the background round of the busy world: looked up in
    phase 2, locked in phase 3, and put both times. *)
Lemma page_references_balanced_witness :
  weight (page_ref 200) (busy_trace SUM_TYPE_DATA (tiny_gc 1 false)) = 0 /\
  length (filter (fun ev => page_ref 200 ev =? 1)
                 (busy_trace SUM_TYPE_DATA (tiny_gc 1 false))) = 2%nat.
Proof.
  split; [|reflexivity].
  destruct (page_references_balanced 1 1 (fun segno => segno) 1018 1018 200)
    as [_ H].
  exact (H 1%nat false _ _
           (run_exec (busy_answers SUM_TYPE_DATA) (tiny_gc 1 false) tt)).
Defined.

(** The node page 100 in the foreground collection of a node segment:
    locked by [get_node_page], unlocked by [f2fs_put_page(page, 1)]. *)
Lemma page_locks_balanced_witness :
  weight (page_lock 100) (busy_trace SUM_TYPE_NODE (tiny_collect 4 FG_GC)) = 0 /\
  length (filter (fun ev => page_lock 100 ev =? 1)
                 (busy_trace SUM_TYPE_NODE (tiny_collect 4 FG_GC))) = 1%nat.
Proof.
  split; [|reflexivity].
  destruct (page_locks_balanced 1 1 (fun segno => segno) 1018 1018 100)
    as [H _].
  exact (H 4 [] FG_GC _ _
           (run_exec (busy_answers SUM_TYPE_NODE) (tiny_collect 4 FG_GC) tt)).
Defined.

(** Inode 5 in the background round of the busy world: taken in phase 2,
    listed, and dropped by [put_gc_inode]. *)
Lemma inode_references_balanced_witness :
  busy_result SUM_TYPE_DATA (tiny_gc 1 false) = Some 0 /\
  weight (inode_ref 5) (busy_trace SUM_TYPE_DATA (tiny_gc 1 false)) = 0 /\
  snd (busy_result SUM_TYPE_DATA (tiny_collect 4 BG_GC)) = [busy_inode].
Proof.
  split; [reflexivity|]. split; [|reflexivity].
  destruct (inode_references_balanced 1 1 (fun segno => segno) 1018 1018 5)
    as [_ H].
  apply (H 1%nat false _ 0).
  exact (run_exec (busy_answers SUM_TYPE_DATA) (tiny_gc 1 false) tt).
Defined.

Definition tiny_turn (fuel : nat) : prog (option thread_flow) :=
  gc_thread_turn 1 1 (fun segno => segno) 1018 1018
    (fun gc_th wait_ms => Z.min (wait_ms + 10000) (Victim.max_sleep_time gc_th))
    (fun gc_th wait_ms => Z.max (wait_ms - 10000) (Victim.min_sleep_time gc_th))
    fuel [true]
    {| Victim.min_sleep_time := 30000; Victim.max_sleep_time := 60000;
       Victim.no_gc_sleep_time := 300000; Victim.gc_idle := 0 |}
    30000.

(** A turn of the reclaimer in the busy world: the lock is taken, a round
    runs and releases it. *)
Lemma gc_mutex_balanced_witness :
  busy_result SUM_TYPE_NODE (tiny_turn 1) = Some (ThreadNext 30000) /\
  weight gc_mutex (busy_trace SUM_TYPE_NODE (tiny_turn 1)) = 0 /\
  In (Ev MutexTrylockGc true) (busy_trace SUM_TYPE_NODE (tiny_turn 1)).
Proof.
  split; [reflexivity|]. split.
  - destruct (gc_mutex_balanced 1 1 (fun segno => segno) 1018 1018
                (fun gc_th wait_ms =>
                   Z.min (wait_ms + 10000) (Victim.max_sleep_time gc_th))
                (fun gc_th wait_ms =>
                   Z.max (wait_ms - 10000) (Victim.min_sleep_time gc_th))
                1%nat) as [_ H].
    exact (H _ _ _ _ (ThreadNext 30000)
             (run_exec (busy_answers SUM_TYPE_NODE) (tiny_turn 1) tt)).
  - vm_compute. do 6 right. left. reflexivity.
Defined.

(** The foreground collection of a node segment in the busy world. *)
Lemma do_garbage_collect_frame_witness :
  busy_result SUM_TYPE_NODE (tiny_collect 4 FG_GC) = (1, []) /\
  exists sp mid,
    busy_trace SUM_TYPE_NODE (tiny_collect 4 FG_GC)
    = [Ev (GetSumPage 4) sp; Ev BlkStartPlug tt;
       Ev (UnlockPage (sp_page sp)) tt]
      ++ mid ++ [Ev BlkFinishPlug tt; Ev (PutPage (sp_page sp) 0) tt] /\
    Forall (fun ev => of_kind frame_call ev = false) mid.
Proof.
  split; [reflexivity|].
  destruct (do_garbage_collect_frame 1 (fun segno => segno) 1018 1018
              4 [] FG_GC _ _
              (run_exec (busy_answers SUM_TYPE_NODE)
                        (tiny_collect 4 FG_GC) tt))
    as (sp & mid & E & Hf & _).
  exists sp, mid. split; [exact E | exact Hf].
Defined.

(** While free sections stay short a background round goes on: three
    passes, three reports at least. *)
Lemma gc_more_needs_shortage_witness :
  result_of short_world (small_gc 3 false) = None /\
  3 <= weight shortage (trace_of short_world (small_gc 3 false)) /\
  result_of idle_world (small_gc 1 false) <> None.
Proof.
  split; [reflexivity|]. split.
  - exact (proj1 (gc_more_needs_shortage 2 1 (fun segno => 2 * segno) 1018 1018
                    3 false _)
                 (run_exec (answers short_world) (small_gc 3 false) tt)).
  - apply (proj2 (gc_more_needs_shortage 2 1 (fun segno => 2 * segno) 1018 1018
                    0 false _) _
                 (run_exec (answers idle_world) (small_gc 1 false) tt)).
    vm_compute. repeat constructor.
Defined.

(** The busy world with a stop request on the way: [kthread_should_stop]
    answers "stop" once it has been asked as often as the state says. *)
Definition stopping_answers : handler nat :=
  fun X e n =>
    (match e in gcE X return X -> X with
     | KthreadShouldStop => fun _ => Nat.eqb n 0
     | _ => fun x => x
     end (fst (busy_answers SUM_TYPE_NODE X e tt)),
     match e with
     | KthreadShouldStop => Nat.pred n
     | _ => n
     end).

Definition tiny_thread (n fuel : nat) : prog (option Z) :=
  gc_thread_func 1 1 (fun segno => segno) 1018 1018
    (fun gc_th wait_ms => Z.min (wait_ms + 10000) (Victim.max_sleep_time gc_th))
    (fun gc_th wait_ms => Z.max (wait_ms - 10000) (Victim.min_sleep_time gc_th))
    (fun _ => [true]) n fuel
    {| Victim.min_sleep_time := 30000; Victim.max_sleep_time := 60000;
       Victim.no_gc_sleep_time := 300000; Victim.gc_idle := 0 |}.

(** A thread told to stop at the fourth question, the loop condition after
    one turn with a round; and a thread told to stop while it sleeps: the
    wait ends on "stop", the thread asks once more and leaves. *)
Lemma gc_thread_func_exit_witness :
  (snd (fst (run stopping_answers (tiny_thread 3 1) 3%nat)) = Some 0 /\
   length (filter (of_kind round_call)
                  (fst (fst (run stopping_answers (tiny_thread 3 1) 3%nat))))
   = 2%nat /\
   weight gc_mutex (fst (fst (run stopping_answers (tiny_thread 3 1) 3%nat)))
   = 0) /\
  (fst (fst (run stopping_answers (tiny_thread 3 1) 1%nat))
   = [Ev TryToFreeze false; Ev KthreadShouldStop false;
      Ev (WaitEvent 30000) tt; Ev KthreadShouldStop true;
      Ev KthreadShouldStop true] /\
   snd (fst (run stopping_answers (tiny_thread 3 1) 1%nat)) = Some 0).
Proof.
  split.
  - split; [reflexivity|]. split; [reflexivity|].
    destruct (gc_thread_func_exit 1 1 (fun segno => segno) 1018 1018
                (fun gc_th wait_ms =>
                   Z.min (wait_ms + 10000) (Victim.max_sleep_time gc_th))
                (fun gc_th wait_ms =>
                   Z.max (wait_ms - 10000) (Victim.min_sleep_time gc_th))
                (fun _ => [true]) 3 1 _ _ 0
                (run_exec stopping_answers (tiny_thread 3 1) 3%nat))
      as (_ & _ & _ & H & _).
    exact H.
  - split; reflexivity.
Defined.

(** The background round of the busy world ends with the unlock and the
    [iput] of the one inode it listed. *)
Lemma gc_inode_list_once_witness :
  exists pre gc_list,
    busy_trace SUM_TYPE_DATA (tiny_gc 1 false)
    = pre ++ Ev MutexUnlockGc tt :: map (fun i => Ev (Iput i) tt) gc_list /\
    listed_once gc_list.
Proof.
  destruct (gc_inode_list_once 1 1 (fun segno => segno) 1018 1018)
    as (_ & _ & H).
  exact (H 1%nat false _ 0
           (run_exec (busy_answers SUM_TYPE_DATA) (tiny_gc 1 false) tt)).
Defined.

End GC.

(** ** Straight-line kernel code

    [sendtoSSD], [start_gc_thread], [stop_gc_thread] and
    [move_encrypted_block] have no loop; each calls into its own corner of
    the kernel.  They are procedures over a signature of calls [E], and an
    execution is the list of the calls made with their answers. *)

Module Proc.
Section Proc.

Variable E : Type -> Type.

Inductive proc (R : Type) : Type :=
| Done (r : R)
| Ask {X : Type} (e : E X) (k : X -> proc R).

Arguments Done {R} r.
Arguments Ask {R X} e k.

Fixpoint pbind {A B : Type} (p : proc A) (f : A -> proc B) : proc B :=
  match p with
  | Done a => f a
  | Ask e k => Ask e (fun x => pbind (k x) f)
  end.

Definition ask {X : Type} (e : E X) : proc X := Ask e Done.

Inductive step : Type :=
| Step {X : Type} (e : E X) (x : X).

Fixpoint runs {R : Type} (p : proc R) (tr : list step) (r : R) : Prop :=
  match p with
  | Done r' => tr = [] /\ r = r'
  | Ask e k => exists x tr', tr = Step e x :: tr' /\ runs (k x) tr' r
  end.

(** The other side answers each call. *)
Definition oracle : Type := forall X, E X -> X.

Fixpoint play {R : Type} (o : oracle) (p : proc R) : list step * R :=
  match p with
  | Done r => ([], r)
  | Ask e k => let '(tr, r) := play o (k (o _ e)) in (Step e (o _ e) :: tr, r)
  end.

(** A signed count over an execution. *)
Definition tally (w : step -> Z) (tr : list step) : Z :=
  fold_right (fun s acc => w s + acc) 0 tr.

End Proc.

Arguments Done {E R} r.
Arguments Ask {E R X} e k.
Arguments pbind {E A B} p f.
Arguments ask {E X} e.
Arguments Step {E X} e x.
Arguments runs {E R} p tr r.
Arguments play {E R} o p.
Arguments tally {E} w tr.

Lemma play_runs {E : Type -> Type} {R : Type} (o : oracle E) (p : proc E R) :
  runs p (fst (play o p)) (snd (play o p)).
Proof.
  induction p as [r | X e k IH]; cbn [play runs].
  - split; reflexivity.
  - specialize (IH (o X e)). destruct (play o (k (o X e))) as [tr r].
    exists (o X e), tr. split; [reflexivity | exact IH].
Qed.

Module Notations.
Notation "x <- p ;; q" := (pbind p (fun x => q))
  (at level 61, p at next level, right associativity).
Notation "p ;; q" := (pbind p (fun _ => q))
  (at level 61, right associativity).
End Notations.

(** Unfolds an execution of a procedure without loops call by call,
    splitting on every test. *)
Ltac walk H :=
  repeat (cbn [runs pbind ask] in H;
          lazymatch type of H with
          | exists _ _, _ = _ /\ _ => destruct H as (? & ? & -> & H)
          | _ = [] /\ _ = _ => destruct H as [-> ->]
          | context [match ?x with _ => _ end] => destruct x eqn:?
          end).

End Proc.

(** ** The NVMe notification ([sendtoSSD]) *)

Module Nvme.
Import Proc Proc.Notations.

(** What [printk] is given. *)
Inductive message : Set :=
| MsgUnableToOpen              (* "Unable to open stats file to write" *)
| MsgErr2 (err2 : Z)           (* "err2:%d" *)
| MsgResult (result : Z)       (* "result:%d" *)
| MsgSuccess                   (* "ioctl success!" *)
| MsgFailed.                   (* "ioctl failed!" *)

(** An open [struct file *] is a handle; [None] stands for an [ERR_PTR]. *)
Definition file : Set := Z.

Inductive nvE : Type -> Type :=
| GetFs : nvE Z
| SetFs (fs : Z) : nvE unit
| FilpOpen : nvE (option file)   (* filp_open("/dev/nvme0n1", O_RDONLY, 0) *)
| FilpClose (filp : file) : nvE unit
(* nvme_set_features(ns->dev, fid, dword11, dma_addr, &result) with the
   name space of the open device; answers its return value and what it
   leaves in [result] *)
| NvmeSetFeatures (filp : file) (fid dword11 dma_addr : Z) : nvE (Z * Z)
| Printk (m : message) : nvE unit.

(** An [unsigned int] read as [int]. *)
Definition to_int (x : Z) : Z := if x <? 2 ^ 31 then x else x - 2 ^ 32.

Section Notify.

(** [get_ds()] is the constant [KERNEL_DS] of uaccess.h. *)
Variable KERNEL_DS : Z.

(** [result] is a [u32], so [min(result & 0xffff, result >> 16) + 1] is
    computed in [unsigned int] and then stored in the [int ret]. *)
Definition sendtoSSD (lba s_e : Z) : proc nvE Z :=
  oldfs <- ask GetFs ;;
  ask (SetFs KERNEL_DS) ;;
  filp <- ask FilpOpen ;;
  ask (SetFs oldfs) ;;
  match filp with
  | None =>
      ask (Printk MsgUnableToOpen) ;;
      Done (-1)
  | Some filp =>
      let opcode := if negb (s_e =? 0) then 19 else 18 in
      res <- ask (NvmeSetFeatures filp opcode lba 0) ;;
      let '(err2, result) := res in
      ask (FilpClose filp) ;;
      ask (Printk (MsgErr2 err2)) ;;
      ask (Printk (MsgResult result)) ;;
      let ret :=
        to_int (wrap32 (Z.min (Z.land result 65535) (Z.shiftr result 16) + 1)) in
      if 0 <=? ret then
        ask (Printk MsgSuccess) ;;
        Done 0
      else
        ask (Printk MsgFailed) ;;
        Done (-1)
  end.

(** The answers of [nvme_set_features] in an execution leave a [u32] in
    [result]. *)
Definition result_u32 (s : step nvE) : Prop :=
  match s with
  | Step (NvmeSetFeatures _ _ _ _) (_, result) => 0 <= result < 2 ^ 32
  | _ => True
  end.

Definition open_files (s : step nvE) : Z :=
  match s with
  | Step FilpOpen (Some _) => 1
  | Step (FilpClose _) _ => -1
  | _ => 0
  end.

Definition is_printk (m : message) (s : step nvE) : bool :=
  match s, m with
  | Step (Printk MsgFailed) _, MsgFailed => true
  | Step (Printk MsgSuccess) _, MsgSuccess => true
  | Step (Printk MsgUnableToOpen) _, MsgUnableToOpen => true
  | _, _ => false
  end.

Lemma feature_result_positive (result : Z) :
  0 <= result < 2 ^ 32 ->
  0 < to_int (wrap32 (Z.min (Z.land result 65535) (Z.shiftr result 16) + 1))
    <= 65536.
Proof.
  intros Hr.
  assert (Hl : 0 <= Z.land result 65535 <= 65535).
  { split; [apply Z.land_nonneg; lia|].
    change (Z.land result 65535) with (Z.land result (Z.ones 16)).
    rewrite Z.land_ones by lia.
    pose proof (Z.mod_pos_bound result (2 ^ 16) ltac:(lia)). lia. }
  assert (Hs : 0 <= Z.shiftr result 16) by (apply Z.shiftr_nonneg; lia).
  rewrite wrap32_small by lia.
  unfold to_int.
  destruct (_ <? 2 ^ 31) eqn:E; [lia|].
  apply Z.ltb_ge in E. lia.
Qed.

(** X17.  [sendtoSSD] reports nothing but whether the device opened.  For
    every [u32] that [nvme_set_features] leaves in [result], and whatever it
    returns, [min(result & 0xffff, result >> 16) + 1] is positive: the
    function returns 0 and logs success whenever [filp_open] succeeded, and
    returns -1 only when it failed; "ioctl failed!" is never printed.  The
    address limit found on entry is restored right after [filp_open] on
    both paths, the file is closed exactly when it was opened, and the
    feature id is 0x12 for [s_e == 0] and 0x13 otherwise, with [lba] as
    dword 11. *)
Theorem sendtoSSD_reports_open_only (lba s_e : Z) (tr : list (step nvE))
  (r : Z) :
  runs (sendtoSSD lba s_e) tr r ->
  Forall result_u32 tr ->
  (exists oldfs filp rest,
     tr = Step GetFs oldfs :: Step (SetFs KERNEL_DS) tt
          :: Step FilpOpen filp :: Step (SetFs oldfs) tt :: rest /\
     match filp with
     | None => r = -1 /\ rest = [Step (Printk MsgUnableToOpen) tt]
     | Some f =>
         r = 0 /\
         exists err2 result,
           rest = [Step (NvmeSetFeatures f (if s_e =? 0 then 18 else 19)
                           lba 0) (err2, result);
                   Step (FilpClose f) tt;
                   Step (Printk (MsgErr2 err2)) tt;
                   Step (Printk (MsgResult result)) tt;
                   Step (Printk MsgSuccess) tt]
     end) /\
  tally open_files tr = 0 /\
  existsb (is_printk MsgFailed) tr = false.
Proof.
  intros H Hu. unfold sendtoSSD in H.
  cbn [runs pbind ask] in H.
  destruct H as (oldfs & tr1 & -> & H). destruct H as ([] & tr2 & -> & H).
  destruct H as (filp & tr3 & -> & H). destruct H as ([] & tr4 & -> & H).
  destruct filp as [f|].
  - cbn [runs pbind ask] in H.
    destruct H as ([err2 result] & tr5 & -> & H).
    cbn [runs pbind ask] in H.
    destruct H as ([] & tr6 & -> & H). destruct H as ([] & tr7 & -> & H).
    destruct H as ([] & tr8 & -> & H).
    assert (Hres : 0 <= result < 2 ^ 32).
    { do 4 (apply Forall_inv_tail in Hu). apply Forall_inv in Hu.
      exact Hu. }
    pose proof (feature_result_positive result Hres) as Hpos.
    destruct (0 <=? _) eqn:Eret; [|apply Z.leb_gt in Eret; lia].
    cbn [runs pbind ask] in H.
    destruct H as ([] & tr9 & -> & -> & ->).
    split; [|split; reflexivity].
    exists oldfs, (Some f). eexists. split; [reflexivity|].
    split; [reflexivity|]. exists err2, result.
    destruct (s_e =? 0); reflexivity.
  - cbn [runs pbind ask] in H.
    destruct H as ([] & tr5 & -> & -> & ->).
    split; [|split; reflexivity].
    exists oldfs, None. eexists. split; [reflexivity|]. split; reflexivity.
Qed.

End Notify.

(** A device that leaves [0xffffffff] in [result] and returns an error. *)
Definition failing_device : oracle nvE :=
  fun X e =>
    match e in nvE X return X with
    | GetFs => 7
    | SetFs _ => tt
    | FilpOpen => Some 3
    | FilpClose _ => tt
    | NvmeSetFeatures _ _ _ _ => (-5, 4294967295)
    | Printk _ => tt
    end.

(** The end of a segment at block 4096 is announced to a device whose
    command fails: the caller is still told 0. *)
Lemma sendtoSSD_reports_open_only_witness :
  let tr := fst (play failing_device (sendtoSSD 0 4096 1)) in
  runs (sendtoSSD 0 4096 1) tr 0 /\ Forall result_u32 tr /\
  tally open_files tr = 0 /\
  existsb (is_printk MsgFailed) tr = false.
Proof.
  intros tr.
  assert (Hr : runs (sendtoSSD 0 4096 1) tr 0)
    by exact (play_runs failing_device (sendtoSSD 0 4096 1)).
  assert (Hu : Forall result_u32 tr)
    by (repeat constructor; cbn; lia).
  split; [exact Hr|]. split; [exact Hu|].
  exact (proj2 (sendtoSSD_reports_open_only 0 4096 1 tr 0 Hr Hu)).
Defined.

End Nvme.

(** ** Starting and stopping the reclaimer thread *)

Module Lifecycle.
Import Proc Proc.Notations Victim.

Definition ENOMEM : Z := 12.

Definition set_gc_thread (sbi : f2fs_sb_info)
  (gc_th : option f2fs_gc_kthread) : f2fs_sb_info :=
  {| segs_per_sec := segs_per_sec sbi;
     log_blocks_per_seg := log_blocks_per_seg sbi;
     main_segments := main_segments sbi;
     total_sections := total_sections sbi;
     max_victim_search := max_victim_search sbi;
     last_victim := last_victim sbi;
     cur_victim_sec := cur_victim_sec sbi;
     gc_thread := gc_th;
     dirty_i := dirty_i sbi;
     sit_i := sit_i sbi |}.

(** The task of a thread object is kept in [gc_th->f2fs_gc_task], which the
    selector never reads: [kthread_run] answers [None] when the task was
    created and [Some err] for an [ERR_PTR], and [kthread_stop] is recorded
    with the thread object whose task it stops.  [kthread_run] is handed
    the superblock, from which [gc_thread_func] reads [sbi->gc_thread]. *)
Inductive thE : Type -> Type :=
(* kmalloc(sizeof(struct f2fs_gc_kthread), GFP_KERNEL) is not NULL *)
| Kmalloc : thE bool
| InitWaitqueueHead : thE unit
| KthreadRun (sbi : f2fs_sb_info) : thE (option Z)
| KthreadStop (gc_th : f2fs_gc_kthread) : thE unit
| Kfree (gc_th : f2fs_gc_kthread) : thE unit.

Section Lifecycle.

(** The sleep times of gc.h. *)
Variable DEF_GC_THREAD_MIN_SLEEP_TIME : Z.
Variable DEF_GC_THREAD_MAX_SLEEP_TIME : Z.
Variable DEF_GC_THREAD_NOGC_SLEEP_TIME : Z.

Definition new_gc_thread : f2fs_gc_kthread :=
  {| min_sleep_time := DEF_GC_THREAD_MIN_SLEEP_TIME;
     max_sleep_time := DEF_GC_THREAD_MAX_SLEEP_TIME;
     no_gc_sleep_time := DEF_GC_THREAD_NOGC_SLEEP_TIME;
     gc_idle := 0 |}.

(** [int start_gc_thread(struct f2fs_sb_info *sbi)]: the return value and
    the superblock it leaves. *)
Definition start_gc_thread (sbi : f2fs_sb_info)
  : proc thE (Z * f2fs_sb_info) :=
  ok <- ask Kmalloc ;;
  if negb ok then Done (- ENOMEM, sbi)
  else
    let gc_th := new_gc_thread in
    let sbi := set_gc_thread sbi (Some gc_th) in
    ask InitWaitqueueHead ;;
    task <- ask (KthreadRun sbi) ;;
    match task with
    | Some err =>
        ask (Kfree gc_th) ;;
        Done (err, set_gc_thread sbi None)
    | None => Done (0, sbi)
    end.

(** [void stop_gc_thread(struct f2fs_sb_info *sbi)] *)
Definition stop_gc_thread (sbi : f2fs_sb_info) : proc thE f2fs_sb_info :=
  match gc_thread sbi with
  | None => Done sbi
  | Some gc_th =>
      ask (KthreadStop gc_th) ;;
      ask (Kfree gc_th) ;;
      Done (set_gc_thread sbi None)
  end.

(** Thread objects allocated and not yet freed; tasks started and not yet
    stopped. *)
Definition allocations (s : step thE) : Z :=
  match s with
  | Step Kmalloc true => 1
  | Step (Kfree _) _ => -1
  | _ => 0
  end.

Definition tasks (s : step thE) : Z :=
  match s with
  | Step (KthreadRun _) None => 1
  | Step (KthreadStop _) _ => -1
  | _ => 0
  end.

(** The thread function finds its thread object in the superblock it is
    started on. *)
Definition run_ready (s : step thE) : Prop :=
  match s with
  | Step (KthreadRun sbi) _ => gc_thread sbi = Some new_gc_thread
  | _ => True
  end.

Definition default_mode (gc_type : gc_type_t) : gc_mode_t :=
  match gc_type with BG_GC => GC_CB | FG_GC => GC_GREEDY end.

Lemma set_gc_thread_same (sbi : f2fs_sb_info) :
  set_gc_thread sbi (gc_thread sbi) = sbi.
Proof. destruct sbi. reflexivity. Qed.

Lemma set_gc_thread_twice (sbi : f2fs_sb_info)
  (a b : option f2fs_gc_kthread) :
  set_gc_thread (set_gc_thread sbi a) b = set_gc_thread sbi b.
Proof. reflexivity. Qed.

Lemma lfs_mode_of_thread (sbi : f2fs_sb_info) (gc_type : gc_type_t)
  (type : dirty_type) :
  gc_mode (start_policy sbi gc_type type LFS)
  = select_gc_type (gc_thread sbi) gc_type.
Proof.
  pose proof (start_policy_fields sbi gc_type type LFS) as H.
  cbv zeta in H. destruct H as (_ & H & _). exact H.
Qed.

(** X18.  The life of the reclaimer thread.  [start_gc_thread] changes no
    field of the superblock but [gc_thread], and hands [kthread_run] a
    superblock in which the new thread object is already installed.  It
    returns [-ENOMEM] with the superblock untouched when the allocation
    fails, the error of [kthread_run] with [gc_thread] reset to [NULL] and
    the object freed when the task cannot be created, and 0 with one live
    object and one task otherwise.  [stop_gc_thread] does nothing without a
    thread and otherwise stops the task, frees the object and resets
    [gc_thread].  After a start that returned 0 and after any stop, victim
    selection in LFS mode uses Cost-Benefit for background and Greedy for
    foreground GC; and a start followed by a stop on a superblock without
    thread gives back the superblock as it was, with every object freed
    and every task stopped. *)
Theorem gc_thread_lifecycle (sbi : f2fs_sb_info) :
  (forall tr err sbi',
     runs (start_gc_thread sbi) tr (err, sbi') ->
     sbi' = set_gc_thread sbi (gc_thread sbi') /\
     Forall run_ready tr /\
     ((err = - ENOMEM /\ sbi' = sbi /\ tr = [Step Kmalloc false]) \/
      (In (Step (KthreadRun (set_gc_thread sbi (Some new_gc_thread)))
             (Some err)) tr /\
       gc_thread sbi' = None /\
       tally allocations tr = 0 /\ tally tasks tr = 0) \/
      (err = 0 /\ gc_thread sbi' = Some new_gc_thread /\
       tally allocations tr = 1 /\ tally tasks tr = 1 /\
       forall gc_type type,
         gc_mode (start_policy sbi' gc_type type LFS)
         = default_mode gc_type))) /\
  (forall tr sbi',
     runs (stop_gc_thread sbi) tr sbi' ->
     sbi' = set_gc_thread sbi None /\
     (gc_thread sbi = None -> tr = [] /\ sbi' = sbi) /\
     (forall gc_th, gc_thread sbi = Some gc_th ->
        tr = [Step (KthreadStop gc_th) tt; Step (Kfree gc_th) tt]) /\
     forall gc_type type,
       gc_mode (start_policy sbi' gc_type type LFS) = default_mode gc_type) /\
  (forall tr sbi',
     gc_thread sbi = None ->
     runs (r <- start_gc_thread sbi ;; stop_gc_thread (snd r)) tr sbi' ->
     sbi' = sbi /\ tally allocations tr = 0 /\ tally tasks tr = 0).
Proof.
  split; [|split].
  - intros tr err sbi' H. unfold start_gc_thread in H.
    cbn [runs pbind ask] in H. destruct H as (ok & tr1 & -> & H).
    destruct ok; cbn [negb runs pbind ask] in H.
    + destruct H as ([] & tr2 & -> & task & tr3 & -> & H).
      destruct task as [e|]; cbn [runs pbind ask] in H.
      * destruct H as ([] & tr4 & -> & -> & E). inversion E; subst err sbi'.
        split; [reflexivity|].
        split; [repeat constructor|].
        right; left. split; [right; right; left; reflexivity|].
        repeat split.
      * destruct H as (-> & E). inversion E; subst err sbi'.
        split; [reflexivity|].
        split; [repeat constructor|].
        right; right. repeat split.
    + destruct H as (-> & E). inversion E; subst err sbi'.
      split; [symmetry; apply set_gc_thread_same|].
      split; [repeat constructor|].
      left. repeat split.
  - intros tr sbi' H. unfold stop_gc_thread in H.
    assert (Hmode : forall gc_type type,
              gc_mode (start_policy (set_gc_thread sbi None) gc_type type LFS)
              = default_mode gc_type).
    { intros gc_type type. rewrite lfs_mode_of_thread.
      destruct gc_type; reflexivity. }
    destruct (gc_thread sbi) as [gc_th|] eqn:Eth; cbn [runs pbind ask] in H.
    + destruct H as ([] & tr1 & -> & [] & tr2 & -> & -> & ->).
      split; [reflexivity|]. split; [discriminate|].
      split; [|exact Hmode].
      intros g Eg. inversion Eg; subst g. reflexivity.
    + destruct H as (-> & ->).
      assert (Es : sbi = set_gc_thread sbi None)
        by (rewrite <- Eth; symmetry; apply set_gc_thread_same).
      split; [exact Es|]. split; [intros _; split; reflexivity|].
      split; [discriminate|]. rewrite Es. exact Hmode.
  - intros tr sbi' Hnone H.
    assert (Es : set_gc_thread sbi None = sbi)
      by (rewrite <- Hnone; apply set_gc_thread_same).
    unfold start_gc_thread, stop_gc_thread in H.
    cbn [runs pbind ask] in H. destruct H as (ok & tr1 & -> & H).
    destruct ok; cbn [negb runs pbind ask] in H.
    + destruct H as ([] & tr2 & -> & task & tr3 & -> & H).
      destruct task as [e|]; cbn [runs pbind ask snd gc_thread set_gc_thread]
        in H.
      * destruct H as ([] & tr4 & -> & -> & ->).
        rewrite set_gc_thread_twice, Es. repeat split.
      * destruct H as ([] & tr4 & -> & [] & tr5 & -> & -> & ->).
        rewrite set_gc_thread_twice, Es. repeat split.
    + cbn [snd] in H. rewrite Hnone in H. destruct H as (-> & ->).
      repeat split.
Qed.

End Lifecycle.

(** Allocation and [kthread_run] both succeed. *)
Definition willing : oracle thE :=
  fun X e =>
    match e in thE X return X with
    | Kmalloc => true
    | InitWaitqueueHead => tt
    | KthreadRun _ => None
    | KthreadStop _ => tt
    | Kfree _ => tt
    end.

(** Mounting and unmounting: the thread is started on a superblock that
    has none, with the sleep times of gc.h, and stopped again. *)
Lemma gc_thread_lifecycle_witness :
  let sbi := set_gc_thread wrap_example None in
  let run := play willing (r <- start_gc_thread 30000 60000 300000 sbi ;;
                           stop_gc_thread (snd r)) in
  gc_thread sbi = None /\
  snd run = sbi /\ tally allocations (fst run) = 0 /\
  tally tasks (fst run) = 0.
Proof.
  intros sbi run.
  destruct (gc_thread_lifecycle 30000 60000 300000 sbi) as (_ & _ & H).
  split; [reflexivity|].
  apply (H (fst run) (snd run)); [reflexivity|].
  exact (play_runs willing _).
Defined.

End Lifecycle.

(** ** Migrating a block of an encrypted file ([move_encrypted_block]) *)

Module Encrypted.
Import Proc Proc.Notations.

(** [struct dnode_of_data]: what [get_dnode_of_data] fills in and the
    function reads. *)
Record dnode_of_data : Set := {
  dn_nid : Z;
  dn_ofs_in_node : Z;
  dn_data_blkaddr : Z;
  dn_node_page : GC.page
}.

Definition set_dn_data_blkaddr (dn : dnode_of_data) (addr : Z) :=
  {| dn_nid := dn_nid dn; dn_ofs_in_node := dn_ofs_in_node dn;
     dn_data_blkaddr := addr; dn_node_page := dn_node_page dn |}.

Inductive page_type : Set := DATA | NODE.
Inductive rw_type : Set := READ_SYNC | WRITE_SYNC.
Inductive inode_flag : Set := FI_APPEND_WRITE | FI_FIRST_BLOCK_WRITTEN.

(** [struct f2fs_io_info] without its [sbi]. *)
Record f2fs_io_info : Set := {
  fio_type : page_type;
  fio_rw : rw_type;
  fio_blk_addr : Z;
  fio_page : option GC.page;
  fio_encrypted_page : option GC.page
}.

Inductive meE : Type -> Type :=
(* f2fs_grab_cache_page(inode->i_mapping, index, false); None is NULL *)
| GrabCachePage (i : GC.inode) (index : Z) : meE (option GC.page)
(* get_dnode_of_data(&dn, index, LOOKUP_NODE): its return value and dn *)
| GetDnodeOfData (i : GC.inode) (index : Z) : meE (Z * dnode_of_data)
| ClearPageUptodate (pg : GC.page) : meE unit
| WaitOnPageWriteback (pg : GC.page) (type : page_type) : meE unit
| GetNodeInfo (nid : Z) : meE GC.node_info
(* pagecache_get_page(META_MAPPING(sbi), index, FGP_LOCK|FGP_CREAT,
   GFP_NOFS) *)
| PagecacheGetPage (index : Z) : meE (option GC.page)
| SubmitPageBio (fio : f2fs_io_info) : meE Z
| LockPage (pg : GC.page) : meE unit
| PageUptodate (pg : GC.page) : meE bool
| InMetaMapping (pg : GC.page) : meE bool   (* page->mapping == META_MAPPING *)
| SetPageDirty (pg : GC.page) : meE unit
| ClearPageDirtyForIo (pg : GC.page) : meE bool
| DecDirtyMeta : meE unit              (* dec_page_count(sbi, F2FS_DIRTY_META) *)
| SetPageWriteback (pg : GC.page) : meE unit
(* allocate_data_block(sbi, NULL, old, &new, &sum, CURSEG_COLD_DATA) *)
| AllocateDataBlock (old_blkaddr : Z) (sum : GC.f2fs_summary) : meE Z
| SubmitPageMbio (fio : f2fs_io_info) : meE unit
| SetDataBlkaddr (dn : dnode_of_data) : meE unit
| UpdateExtentCache (dn : dnode_of_data) : meE unit
| SetInodeFlag (i : GC.inode) (flag : inode_flag) : meE unit
| PageIndex (pg : GC.page) : meE Z                     (* page->index *)
| PutPage (pg : GC.page) (unlock : Z) : meE unit
| PutDnode (dn : dnode_of_data) : meE unit.

Section Move.

(** [NULL_ADDR] of f2fs.h. *)
Variable NULL_ADDR : Z.

(** The three exits of the function. *)
Definition out (page : GC.page) : proc meE unit :=
  ask (PutPage page 1).

Definition put_out (dn : dnode_of_data) (page : GC.page) : proc meE unit :=
  ask (PutDnode dn) ;;
  out page.

Definition put_page_out (encrypted_page : GC.page) (dn : dnode_of_data)
  (page : GC.page) : proc meE unit :=
  ask (PutPage encrypted_page 1) ;;
  put_out dn page.

Definition set_summary (nid ofs_in_node version : Z) : GC.f2fs_summary :=
  {| GC.nid := nid; GC.version := version; GC.ofs_in_node := ofs_in_node |}.

Definition move_encrypted_block (i : GC.inode) (bidx : Z) : proc meE unit :=
  page <- ask (GrabCachePage i bidx) ;;
  match page with
  | None => Done tt
  | Some page =>
      res <- ask (GetDnodeOfData i bidx) ;;
      let '(err, dn) := res in
      if negb (err =? 0) then out page
      else if dn_data_blkaddr dn =? NULL_ADDR then
        ask (ClearPageUptodate page) ;;
        put_out dn page
      else
        ask (WaitOnPageWriteback page DATA) ;;
        ni <- ask (GetNodeInfo (dn_nid dn)) ;;
        let sum :=
          set_summary (dn_nid dn) (dn_ofs_in_node dn) (GC.ni_version ni) in
        let blk_addr := dn_data_blkaddr dn in
        enc <- ask (PagecacheGetPage blk_addr) ;;
        match enc with
        | None => put_out dn page
        | Some enc =>
            err <- ask (SubmitPageBio
                          {| fio_type := DATA; fio_rw := READ_SYNC;
                             fio_blk_addr := blk_addr;
                             fio_page := Some page;
                             fio_encrypted_page := Some enc |}) ;;
            if negb (err =? 0) then put_page_out enc dn page
            else
              ask (LockPage enc) ;;
              uptodate <- ask (PageUptodate enc) ;;
              if negb uptodate then put_page_out enc dn page
              else
                meta <- ask (InMetaMapping enc) ;;
                if negb meta then put_page_out enc dn page
                else
                  ask (SetPageDirty enc) ;;
                  ask (WaitOnPageWriteback enc DATA) ;;
                  cleared <- ask (ClearPageDirtyForIo enc) ;;
                  (if (cleared : bool) then ask DecDirtyMeta else Done tt) ;;
                  ask (SetPageWriteback enc) ;;
                  ask (WaitOnPageWriteback (dn_node_page dn) NODE) ;;
                  blk_addr <- ask (AllocateDataBlock blk_addr sum) ;;
                  ask (SubmitPageMbio
                         {| fio_type := DATA; fio_rw := WRITE_SYNC;
                            fio_blk_addr := blk_addr;
                            fio_page := Some page;
                            fio_encrypted_page := Some enc |}) ;;
                  let dn := set_dn_data_blkaddr dn blk_addr in
                  ask (SetDataBlkaddr dn) ;;
                  ask (UpdateExtentCache dn) ;;
                  ask (SetInodeFlag i FI_APPEND_WRITE) ;;
                  index <- ask (PageIndex page) ;;
                  (if index =? 0
                   then ask (SetInodeFlag i FI_FIRST_BLOCK_WRITTEN)
                   else Done tt) ;;
                  put_page_out enc dn page
        end
  end.

(** Pages obtained and not yet put; the dnode looked up and not yet put. *)
Definition page_hold (pg : GC.page) (s : step meE) : Z :=
  match s with
  | Step (GrabCachePage _ _) (Some p) => if p =? pg then 1 else 0
  | Step (PagecacheGetPage _) (Some p) => if p =? pg then 1 else 0
  | Step (PutPage p _) _ => if p =? pg then -1 else 0
  | _ => 0
  end.

Definition dnode_hold (s : step meE) : Z :=
  match s with
  | Step (GetDnodeOfData _ _) (err, _) => if err =? 0 then 1 else 0
  | Step (PutDnode _) _ => -1
  | _ => 0
  end.

Definition put_unlocks (s : step meE) : Prop :=
  match s with
  | Step (PutPage _ unlock) _ => unlock = 1
  | _ => True
  end.

(** The calls that change the file system: the block allocation, the
    write, the new address in the node, the extent cache, the inode
    flags. *)
Definition mutating (s : step meE) : bool :=
  match s with
  | Step (AllocateDataBlock _ _) _ | Step (SubmitPageMbio _) _
  | Step (SetDataBlkaddr _) _ | Step (UpdateExtentCache _) _
  | Step (SetInodeFlag _ _) _ => true
  | _ => false
  end.

(** The lookup succeeded and found no block address. *)
Definition no_address (s : step meE) : bool :=
  match s with
  | Step (GetDnodeOfData _ _) (err, dn) =>
      (err =? 0) && (dn_data_blkaddr dn =? NULL_ADDR)
  | _ => false
  end.

Ltac path_facts :=
  repeat match goal with
         | u : unit |- _ => destruct u
         | H : negb _ = true |- _ => apply negb_true_iff in H
         | H : negb _ = false |- _ => apply negb_false_iff in H
         | H : (?x =? 0) = true |- _ => apply Z.eqb_eq in H; subst x
         end;
  subst.

Ltac count_pages :=
  cbn [tally fold_right page_hold dnode_hold];
  repeat match goal with
         | H : (_ =? _) = _ |- _ => rewrite H
         end;
  change (0 =? 0) with true; cbv iota;
  repeat match goal with
         | |- context [?a =? ?b] => destruct (a =? b)
         end;
  lia.

(** X19.  The protocol of [move_encrypted_block].  On every path each
    page obtained from [f2fs_grab_cache_page] or [pagecache_get_page] is
    put exactly once, always with [unlock = 1], the dnode is put exactly
    when its lookup succeeded, and the grabbed page is put last.  A block
    whose node holds no address only has its page marked not up to date.
    The file system is changed on one path only, after the read bio
    succeeded and the encrypted page was found up to date and in the meta
    mapping: the block is allocated with the summary of the owning node
    (nid, offset and NAT version), written with [WRITE_SYNC] at the new
    address, and only then the new address is set in the node, followed by
    the extent cache and [FI_APPEND_WRITE];  [FI_FIRST_BLOCK_WRITTEN] is
    set exactly for page index 0. *)
Theorem move_encrypted_block_protocol (i : GC.inode) (bidx : Z)
  (tr : list (step meE)) (r : unit) :
  runs (move_encrypted_block i bidx) tr r ->
  (forall pg, tally (page_hold pg) tr = 0) /\
  tally dnode_hold tr = 0 /\
  Forall put_unlocks tr /\
  (exists grabbed,
     hd_error tr = Some (Step (GrabCachePage i bidx) grabbed) /\
     match grabbed with
     | None => tr = [Step (GrabCachePage i bidx) None]
     | Some page =>
         last tr (Step (PutPage page 0) tt) = Step (PutPage page 1) tt
     end) /\
  (existsb no_address tr = true ->
   exists page dn,
     tr = [Step (GrabCachePage i bidx) (Some page);
           Step (GetDnodeOfData i bidx) (0, dn);
           Step (ClearPageUptodate page) tt;
           Step (PutDnode dn) tt; Step (PutPage page 1) tt]) /\
  (filter mutating tr = [] \/
   exists page enc dn ni new index,
     let old := dn_data_blkaddr dn in
     let sum :=
       set_summary (dn_nid dn) (dn_ofs_in_node dn) (GC.ni_version ni) in
     let fio := fun rw addr =>
       {| fio_type := DATA; fio_rw := rw; fio_blk_addr := addr;
          fio_page := Some page; fio_encrypted_page := Some enc |} in
     In (Step (GrabCachePage i bidx) (Some page)) tr /\
     In (Step (GetDnodeOfData i bidx) (0, dn)) tr /\
     old <> NULL_ADDR /\
     In (Step (GetNodeInfo (dn_nid dn)) ni) tr /\
     In (Step (PagecacheGetPage old) (Some enc)) tr /\
     In (Step (SubmitPageBio (fio READ_SYNC old)) 0) tr /\
     In (Step (PageUptodate enc) true) tr /\
     In (Step (InMetaMapping enc) true) tr /\
     In (Step (PageIndex page) index) tr /\
     filter mutating tr
     = [Step (AllocateDataBlock old sum) new;
        Step (SubmitPageMbio (fio WRITE_SYNC new)) tt;
        Step (SetDataBlkaddr (set_dn_data_blkaddr dn new)) tt;
        Step (UpdateExtentCache (set_dn_data_blkaddr dn new)) tt;
        Step (SetInodeFlag i FI_APPEND_WRITE) tt]
       ++ (if index =? 0
           then [Step (SetInodeFlag i FI_FIRST_BLOCK_WRITTEN) tt]
           else [])).
Proof.
  intros H.
  unfold move_encrypted_block, put_page_out, put_out, out in H.
  walk H; path_facts.
  all: split; [intros pg; count_pages|].
  all: split; [count_pages|].
  all: split; [repeat constructor|].
  all: split; [eexists; split; reflexivity|].
  all: split;
    [intros Hf; cbn [existsb no_address orb andb] in Hf;
     repeat match goal with
            | H : (_ =? _) = _ |- _ => rewrite H in Hf
            end;
     cbn in Hf;
     first [discriminate Hf | do 2 eexists; reflexivity]|].
  all: try (left; reflexivity).
  all: right; do 6 eexists; cbv zeta.
  all: repeat match goal with
              | |- In _ _ /\ _ =>
                  split; [cbn [In]; repeat (first [left; reflexivity | right])|]
              | |- _ <> _ /\ _ => split; [apply Z.eqb_neq; eassumption|]
              end.
  all: cbn [filter mutating app].
  all: repeat match goal with
              | H : (_ =? _) = _ |- _ => rewrite H
              end.
  all: reflexivity.
Qed.

End Move.

Definition secret_inode : GC.inode :=
  {| GC.i_ino := 5; GC.i_bad := false; GC.i_encrypted := true;
     GC.i_regular := true; GC.i_addrs := 923 |}.

(** Every call succeeds: block 0 of the file sits at address 5000, slot 3
    of node 7, and is given the new address 8192. *)
Definition smooth : oracle meE :=
  fun X e =>
    match e in meE X return X with
    | GrabCachePage _ _ => Some 200
    | GetDnodeOfData _ _ =>
        (0, {| dn_nid := 7; dn_ofs_in_node := 3; dn_data_blkaddr := 5000;
               dn_node_page := 107 |})
    | ClearPageUptodate _ => tt
    | WaitOnPageWriteback _ _ => tt
    | GetNodeInfo _ =>
        {| GC.ni_ino := 5; GC.ni_blk_addr := 4000; GC.ni_version := 2 |}
    | PagecacheGetPage _ => Some 900
    | SubmitPageBio _ => 0
    | LockPage _ => tt
    | PageUptodate _ => true
    | InMetaMapping _ => true
    | SetPageDirty _ => tt
    | ClearPageDirtyForIo _ => true
    | DecDirtyMeta => tt
    | SetPageWriteback _ => tt
    | AllocateDataBlock _ _ => 8192
    | SubmitPageMbio _ => tt
    | SetDataBlkaddr _ => tt
    | UpdateExtentCache _ => tt
    | SetInodeFlag _ _ => tt
    | PageIndex _ => 0
    | PutPage _ _ => tt
    | PutDnode _ => tt
    end.

Lemma move_encrypted_block_protocol_witness :
  let tr := fst (play smooth (move_encrypted_block 0 secret_inode 0)) in
  runs (move_encrypted_block 0 secret_inode 0) tr tt /\
  (forall pg, tally (page_hold pg) tr = 0) /\
  tally dnode_hold tr = 0 /\
  length (filter mutating tr) = 6%nat.
Proof.
  intros tr.
  assert (Hr : runs (move_encrypted_block 0 secret_inode 0) tr tt)
    by exact (play_runs smooth (move_encrypted_block 0 secret_inode 0)).
  destruct (move_encrypted_block_protocol 0 secret_inode 0 tr tt Hr)
    as (Hp & Hd & _).
  split; [exact Hr|]. split; [exact Hp|]. split; [exact Hd | reflexivity].
Defined.

End Encrypted.

(** * The collection with [move_encrypted_block] written out

    [gc_data_segment] and [gc_data_segment_FG] call
    [move_encrypted_block] (gc.c l.960-961, l.1002-1003) whatever the mode
    of the collection.  Here every such call in an execution of
    [do_garbage_collect] is followed by the calls of an execution of
    [move_encrypted_block] itself. *)

Module Whole.
Import ListNotations.

(** A call of the collection: one made by [do_garbage_collect] and the
    migrators themselves, or one made inside [move_encrypted_block]. *)
Inductive made : Type :=
| Own (ev : GC.event)
| Inner (s : Proc.step Encrypted.meE).

(** The call of [move_encrypted_block]. *)
Definition encrypted_move : GC.kind :=
  fun _ e => match e with GC.MoveEncryptedBlock _ _ => true | _ => false end.

(** What a mode leaves to the other one. *)
Definition foreign (gc_type : gc_type_t) : GC.kind :=
  match gc_type with
  | BG_GC => GC.synchronous_write
  | FG_GC => GC.background_step
  end.

(** Synchronous input and output inside [move_encrypted_block]. *)
Definition inner_synchronous (s : Proc.step Encrypted.meE) : bool :=
  match s with
  | Proc.Step e _ =>
      match e with
      | Encrypted.WaitOnPageWriteback _ _ | Encrypted.SubmitPageBio _
      | Encrypted.SubmitPageMbio _ | Encrypted.ClearPageDirtyForIo _ => true
      | _ => false
      end
  end.

Section Inlined.

Variable NULL_ADDR : Z.

Inductive inlined : list GC.event -> list made -> Prop :=
| inlined_nil : inlined [] []
| inlined_move (i : GC.inode) (bidx : Z)
    (inner : list (Proc.step Encrypted.meE)) (tr : list GC.event)
    (full : list made) :
    Proc.runs (Encrypted.move_encrypted_block NULL_ADDR i bidx) inner tt ->
    inlined tr full ->
    inlined (GC.Ev (GC.MoveEncryptedBlock i bidx) tt :: tr)
            (Own (GC.Ev (GC.MoveEncryptedBlock i bidx) tt)
               :: map Inner inner ++ full)
| inlined_own (ev : GC.event) (tr : list GC.event) (full : list made) :
    GC.of_kind encrypted_move ev = false ->
    inlined tr full ->
    inlined (ev :: tr) (Own ev :: full).

(** The written-out execution in which [o] answers the calls made inside
    [move_encrypted_block]. *)
Definition inline_one (o : Proc.oracle Encrypted.meE) (ev : GC.event)
  : list made :=
  match ev with
  | GC.Ev e _ =>
      match e with
      | GC.MoveEncryptedBlock i bidx =>
          map Inner
            (fst (Proc.play o
                    (Encrypted.move_encrypted_block NULL_ADDR i bidx)))
      | _ => []
      end
  end.

Definition inline_with (o : Proc.oracle Encrypted.meE) (tr : list GC.event)
  : list made :=
  flat_map (fun ev => Own ev :: inline_one o ev) tr.

End Inlined.

Section Inlined_facts.

Variable NULL_ADDR : Z.

Lemma inline_with_inlined (o : Proc.oracle Encrypted.meE)
  (tr : list GC.event) :
  inlined NULL_ADDR tr (inline_with NULL_ADDR o tr).
Proof.
  induction tr as [|ev tr IH]; [constructor|].
  unfold inline_with. cbn [flat_map]. fold (inline_with NULL_ADDR o tr).
  destruct ev as [X e x].
  destruct e; try (apply inlined_own; [reflexivity | exact IH]).
  destruct x. cbn [inline_one app].
  apply inlined_move; [|exact IH].
  pose proof (Proc.play_runs o
                (Encrypted.move_encrypted_block NULL_ADDR i bidx)) as H.
  destruct (snd (Proc.play o
                   (Encrypted.move_encrypted_block NULL_ADDR i bidx))).
  exact H.
Qed.

(** The calls of the collection itself are those of the execution. *)
Lemma inlined_own_calls (P : GC.event -> Prop) (tr : list GC.event)
  (full : list made) :
  inlined NULL_ADDR tr full -> Forall P tr ->
  Forall (fun c => match c with Own ev => P ev | Inner _ => True end) full.
Proof.
  induction 1 as [|i bidx inner tr full Hr Hin IH|ev tr full Hk Hin IH];
    intros HP.
  - constructor.
  - inversion HP as [|? ? Hev Htr]; subst.
    constructor; [exact Hev|]. apply Forall_app. split; [|apply IH; exact Htr].
    apply Forall_forall. intros c Hc. apply in_map_iff in Hc.
    destruct Hc as (s & <- & _). exact I.
  - inversion HP as [|? ? Hev Htr]; subst.
    constructor; [exact Hev | apply IH; exact Htr].
Qed.

(** A call made inside belongs to a call of [move_encrypted_block] of the
    execution. *)
Lemma inlined_inner_calls (tr : list GC.event) (full : list made)
  (s : Proc.step Encrypted.meE) :
  inlined NULL_ADDR tr full -> In (Inner s) full ->
  exists i bidx inner,
    In (GC.Ev (GC.MoveEncryptedBlock i bidx) tt) tr /\
    Proc.runs (Encrypted.move_encrypted_block NULL_ADDR i bidx) inner tt /\
    In s inner.
Proof.
  induction 1 as [|i bidx inner tr full Hr Hin IH|ev tr full Hk Hin IH];
    intros Hs.
  - destruct Hs.
  - destruct Hs as [Hs | Hs]; [discriminate|].
    apply in_app_or in Hs. destruct Hs as [Hs | Hs].
    + apply in_map_iff in Hs. destruct Hs as (s' & E & Hs').
      injection E as ->.
      exists i, bidx, inner. split; [left; reflexivity|].
      split; assumption.
    + destruct (IH Hs) as (i' & bidx' & inner' & Hi & Hr' & Hs').
      exists i', bidx', inner'. split; [right; exact Hi|].
      split; assumption.
  - destruct Hs as [Hs | Hs]; [discriminate|].
    destruct (IH Hs) as (i' & bidx' & inner' & Hi & Hr' & Hs').
    exists i', bidx', inner'. split; [right; exact Hi|].
    split; assumption.
Qed.

(** The written-out execution has the calls of the execution, in their
    order. *)
Definition own_calls (full : list made) : list GC.event :=
  flat_map (fun c => match c with Own ev => [ev] | Inner _ => [] end) full.

Lemma own_calls_inner (inner : list (Proc.step Encrypted.meE))
  (full : list made) :
  own_calls (map Inner inner ++ full) = own_calls full.
Proof.
  induction inner as [|s inner IH]; [reflexivity | exact IH].
Qed.

Lemma inlined_own_trace (tr : list GC.event) (full : list made) :
  inlined NULL_ADDR tr full -> own_calls full = tr.
Proof.
  induction 1 as [|i bidx inner tr full Hr Hin IH|ev tr full Hk Hin IH].
  - reflexivity.
  - unfold own_calls. cbn [flat_map app].
    fold (own_calls (map Inner inner ++ full)).
    rewrite own_calls_inner, IH. reflexivity.
  - unfold own_calls. cbn [flat_map app]. fold (own_calls full).
    rewrite IH. reflexivity.
Qed.

End Inlined_facts.

(** X5.  Apart from [move_encrypted_block], the two modes of
    [do_garbage_collect] keep to their own calls.  Take an execution of
    [do_garbage_collect] and write out, after each call of
    [move_encrypted_block], the calls of an execution of that function.
    Then the calls of the collection itself are those of the execution;
    none of them is [change_data_page]; in a background collection none
    of them waits for writeback, writes a data page, flushes node pages
    or merged bios, asks for the valid-block count or reads a data page
    in; in a foreground collection none of them checks the free sections,
    looks a page up with [get_cached_data_page] or tests [PageWriteback],
    [PageUptodate] or [PageDirty].  [move_encrypted_block] is called, in
    either mode, for inodes that are encrypted regular files only, and
    every call written out belongs to one such call: the waits for
    writeback, the [READ_SYNC] read and the [WRITE_SYNC] write of the
    function take place in a background collection as well. *)
Theorem collection_modes_keep_apart (blocks_per_seg : Z)
  (START_BLOCK : Z -> Z) (NIDS_PER_BLOCK ADDRS_PER_BLOCK NULL_ADDR : Z)
  (segno : Z) (gc_list : list GC.inode) (gc_type : gc_type_t)
  (tr : list GC.event) (r : Z * list GC.inode) (full : list made) :
  GC.exec (GC.do_garbage_collect blocks_per_seg START_BLOCK NIDS_PER_BLOCK
             ADDRS_PER_BLOCK segno gc_list gc_type) tr r ->
  inlined NULL_ADDR tr full ->
  own_calls full = tr /\
  Forall (fun c =>
            match c with
            | Own ev =>
                GC.of_kind GC.remap_call ev = false /\
                GC.of_kind (foreign gc_type) ev = false /\
                match ev with
                | GC.Ev e _ =>
                    match e with
                    | GC.MoveEncryptedBlock i _ =>
                        GC.i_encrypted i && GC.i_regular i = true
                    | _ => True
                    end
                end
            | Inner _ => True
            end) full /\
  (forall s, In (Inner s) full ->
     exists i bidx inner,
       GC.i_encrypted i && GC.i_regular i = true /\
       In (GC.Ev (GC.MoveEncryptedBlock i bidx) tt) tr /\
       Proc.runs (Encrypted.move_encrypted_block NULL_ADDR i bidx) inner tt /\
       In s inner).
Proof.
  intros H Hin.
  assert (Hall : Forall (fun ev =>
                   GC.of_kind GC.remap_call ev = false /\
                   GC.of_kind (foreign gc_type) ev = false /\
                   GC.of_kind GC.plain_move ev = false) tr).
  { pose proof (GC.avoids_exec _ _ _ _
                  (GC.do_garbage_collect_no_remap _ _ _ _ _ _ _) H) as H1.
    pose proof (GC.avoids_exec _ _ _ _
                  (GC.do_garbage_collect_moves_encrypted _ _ _ _ _ _ _) H)
      as H3.
    assert (H2 : Forall (fun ev => GC.of_kind (foreign gc_type) ev = false)
                        tr).
    { destruct gc_type.
      - apply (GC.avoids_exec _ _ _ _
                 (GC.do_garbage_collect_BG_lazy _ _ _ _ _ _) H).
      - apply (GC.avoids_exec _ _ _ _
                 (GC.do_garbage_collect_FG_direct _ _ _ _ _ _) H). }
    rewrite Forall_forall in *. intros ev Hev.
    split; [apply H1; exact Hev|]. split; [apply H2 | apply H3]; exact Hev. }
  split; [apply (inlined_own_trace NULL_ADDR); exact Hin|]. split.
  - apply (inlined_own_calls NULL_ADDR _ _ _ Hin) in Hall.
    rewrite Forall_forall in *. intros c Hc. specialize (Hall c Hc).
    destruct c as [ev | s]; [|exact I].
    destruct Hall as (H1 & H2 & H3).
    split; [exact H1|]. split; [exact H2|].
    destruct ev as [X e x]. destruct e; try exact I.
    cbn [GC.of_kind GC.plain_move] in H3.
    apply negb_false_iff in H3. exact H3.
  - intros s Hs.
    destruct (inlined_inner_calls NULL_ADDR _ _ _ Hin Hs)
      as (i & bidx & inner & Hi & Hr & Hs').
    exists i, bidx, inner. split; [|split; [exact Hi | split; assumption]].
    rewrite Forall_forall in Hall. destruct (Hall _ Hi) as (_ & _ & H3).
    cbn [GC.of_kind GC.plain_move] in H3.
    apply negb_false_iff in H3. exact H3.
Qed.

(** The busy world with an encrypted regular file behind inode 5. *)
Definition secret_answers : GC.handler unit :=
  fun X e u =>
    match e in GC.gcE X' return X' * unit with
    | GC.F2fsIget _ => (Some Encrypted.secret_inode, u)
    | e' => GC.busy_answers GC.SUM_TYPE_DATA _ e' u
    end.

Definition secret_trace (gc_type : gc_type_t) : list GC.event :=
  fst (fst (GC.run secret_answers (GC.tiny_collect 4 gc_type) tt)).

(** The background collection of a data segment of an encrypted regular
    file: the collection calls [move_encrypted_block], which reads and
    writes the block synchronously. *)
Lemma collection_modes_keep_apart_witness :
  let tr := secret_trace BG_GC in
  let full := inline_with 0 Encrypted.smooth tr in
  inlined 0 tr full /\
  own_calls full = tr /\
  Forall (fun c =>
            match c with
            | Own ev => GC.of_kind GC.synchronous_write ev = false
            | Inner _ => True
            end) full /\
  In (Own (GC.Ev (GC.MoveEncryptedBlock Encrypted.secret_inode 923) tt))
     full /\
  length (filter (fun c => match c with
                           | Own _ => false
                           | Inner s => inner_synchronous s
                           end) full) = 6%nat.
Proof.
  intros tr full.
  assert (Hin : inlined 0 tr full) by apply inline_with_inlined.
  destruct (collection_modes_keep_apart 1 (fun segno => segno) 1018 1018 0
              4 [] BG_GC tr _ full
              (GC.run_exec secret_answers (GC.tiny_collect 4 BG_GC) tt) Hin)
    as (Hown & Hall & _).
  split; [exact Hin|]. split; [exact Hown|]. split.
  - rewrite Forall_forall in *. intros c Hc. specialize (Hall c Hc).
    destruct c; [apply Hall | exact I].
  - split; [|reflexivity].
    vm_compute. do 29 right. left. reflexivity.
Defined.

End Whole.
